(** * Freewire: freely wired neural networks on a shared tape

    A shallow embedding of [freewire/model.py]: the batch compiler
    ([Model.construct]), the operation batches ([Op.__init__], [Op.forward])
    and the tape evaluator ([Model.forward]), together with the training
    configuration entry points ([Model.compile], [Model.fit]).

    Python objects with mutable attributes become records threaded through
    the functions that mutate them; a raised exception is a [Raise] result;
    the unbounded [while] loop of the compiler takes a fuel argument that
    counts rounds. *)

From stdpp Require Import base list strings gmap.
From Corelib Require Import PrimFloat.

(** ** Exceptions and results *)

Inductive exn : Type :=
  | UnboundLocalError (name : string)
  | KeyError (key : string)
  | ValueError
  | TypeError
  | IndexError
  | AssertionError (msg : string)
  | RuntimeError (msg : string).

Inductive result (A : Type) : Type :=
  | Ok (a : A)
  | Raise (e : exn).
Arguments Ok {A} a.
Arguments Raise {A} e.

Global Instance result_ret : MRet result := λ A, Ok.
Global Instance result_bind : MBind result := λ A B f m,
  match m with Ok a => f a | Raise e => Raise e end.

Definition is_Ok {A} (r : result A) : Prop := ∃ a, r = Ok a.

(** A dictionary or table lookup that raises when the key is missing. *)
Definition or_raise {A} (e : exn) (o : option A) : result A :=
  match o with Some a => Ok a | None => Raise e end.

(** ** Numbers and catalogs *)

(** Tape cells, weights and biases are tensor scalars. The development is
    parametric in the scalar type; only a zero, an addition and a
    multiplication are used by the code. *)
Class Numeric (R : Type) : Type := {
  zero : R;
  add : R → R → R;
  mul : R → R → R
}.

(** Modelled from the spec: [model_utils.activation_map] and
    [model_utils.initialization_map] are not among the sources. The spec
    treats them as pluggable lookup tables: an activation identifier maps to
    a function on tensors, an initialization name to a function from the
    padded index matrix to a weight matrix. A missing key is [None]. *)
Class Catalog (R : Type) : Type := {
  activation_map : string → option (list (list R) → list (list R));
  initialization_map : string → option (list (list nat) → list (list R))
}.

(** ** The graph *)

(** Modelled from the spec: [graph.Node] is not among the sources. These are
    the attributes of a node that [model.py] reads; nodes are referred to by
    identity, here a number. The attributes [tape_index] and [assigned],
    which [model.py] writes, live in [NodeStore]. *)
Record Node : Type := {
  inputs : list nat;
  op_id : string;
  activation : string;
  output_index : nat
}.

(** Modelled from the spec: [graph.Graph] is not among the sources. It
    supplies the ordered lists of input, hidden and output nodes. *)
Record Graph : Type := {
  input_nodes : list nat;
  hidden_nodes : list nat;
  output_nodes : list nat;
  node : nat → Node
}.

(** The two node attributes written during compilation: [tape_index]
    (absent, Python's [None], until assigned) and the [assigned] flag. *)
Record NodeStore : Type := {
  tape_index : gmap nat nat;
  assigned : gset nat
}.

(** Modelled from the spec: a node supplied by the graph module has no
    tape index yet and is not assigned. *)
Definition fresh_store : NodeStore := {| tape_index := ∅; assigned := ∅ |}.

(** ** Tensor operations *)

Module Torch.
Section ops.
Context {R : Type} `{Numeric R}.

(** Indexing raises on an index outside the dimension. *)
Definition at_index {A} (l : list A) (k : nat) : result A :=
  or_raise IndexError (l !! k).

(** [torch.index_select(t, 1, idx)] and, for an index vector that was
    expanded over the batch dimension, [torch.gather(t, 1, idx)]:
    entry [(b, k)] of the result is [t[b][idx[k]]]. *)
Definition index_select_1 (t : list (list R)) (idx : list nat)
  : result (list (list R)) :=
  mapM (λ row, mapM (at_index row) idx) t.

(** [torch.gather(x.unsqueeze(1).expand(-1, n, -1), 2, idx.expand(batch, -1, -1))]:
    both expansions are views, so entry [(b, i, j)] of the result is
    [x[b][idx[i][j]]]. *)
Definition gather_2 (x : list (list R)) (idx : list (list nat))
  : result (list (list (list R))) :=
  mapM (λ row, mapM (λ irow, mapM (at_index row) irow) idx) x.

(** [torch.mul(x, w)], [w] of the shape of every [x[b]]. *)
Definition mul_bcast (x : list (list (list R))) (w : list (list R))
  : result (list (list (list R))) :=
  if decide (Forall (λ xb : list (list R), length <$> xb = length <$> w) x)
  then Ok ((λ xb : list (list R), zip_with (zip_with mul) xb w) <$> x)
  else Raise (RuntimeError "size mismatch").

(** [torch.sum(x, dim=2)]. *)
Definition sum_2 (x : list (list (list R))) : list (list R) :=
  (λ xb : list (list R), foldl add zero <$> xb) <$> x.

(** [torch.add(x, b)], [b] of the length of every [x[b]]. *)
Definition add_bcast (x : list (list R)) (b : list R) : result (list (list R)) :=
  if decide (Forall (λ xb : list R, length xb = length b) x)
  then Ok ((λ xb : list R, zip_with add xb b) <$> x)
  else Raise (RuntimeError "size mismatch").

(** One row of a scatter: [row[idx[k]] = src[k]] for every [k], in order.
    The source must have an entry for every index. *)
Fixpoint put_row (row : list R) (idx : list nat) (src : list R)
  : result (list R) :=
  match idx with
  | [] => Ok row
  | k :: idx' =>
      match src with
      | [] => Raise (RuntimeError "size mismatch")
      | v :: src' =>
          if decide (k < length row)
          then put_row (<[k := v]> row) idx' src'
          else Raise IndexError
      end
  end.

(** [x.scatter(1, idx.expand(batch, -1), src)]: the source must have a row
    for every row of [x]. *)
Definition scatter_1 (x : list (list R)) (idx : list nat) (src : list (list R))
  : result (list (list R)) :=
  if decide (length x ≤ length src)
  then mapM (λ p, put_row p.1 idx p.2) (zip x src)
  else Raise (RuntimeError "size mismatch").

(** The in-place [t[:, idx] = x], for [x] of shape [(len(t), len(idx))]. *)
Definition index_put_1 (t : list (list R)) (idx : list nat) (x : list (list R))
  : result (list (list R)) :=
  if decide (length x = length t ∧ Forall (λ xb : list R, length xb = length idx) x)
  then mapM (λ p, put_row p.1 idx p.2) (zip t x)
  else Raise (RuntimeError "shape mismatch").

(** [torch.zeros(b, n)]. *)
Definition zeros (b n : nat) : list (list R) := replicate b (replicate n zero).

(** [t.fill_(0)]. *)
Definition fill_zero (t : list (list R)) : list (list R) :=
  (λ row : list R, (λ _, zero) <$> row) <$> t.

(** [torch.nn.utils.rnn.pad_sequence(rows, batch_first=True)]. *)
Definition pad_sequence (rows : list (list nat)) : list (list nat) :=
  let m := max_list (length <$> rows) in
  (λ row : list nat, row ++ replicate (m - length row) 0) <$> rows.

(** [torch.unique(t, return_inverse=True, sorted=False)]. The order of the
    unique values is left open by the library; they are listed here in
    order of first occurrence. The inverse maps every entry of [t] to the
    position of its value among the unique values. *)
Definition position (u : list nat) (k : nat) : nat :=
  default 0 (fst <$> list_find (λ x, x = k) u).

Definition unique (t : list (list nat)) : list nat * list (list nat) :=
  let u := remove_dups (mjoin t) in
  (u, (λ row : list nat, position u <$> row) <$> t).

(** [w[idx == 0] = 0]; the mask must have the shape of [w]. *)
Definition zero_where_0 (w : list (list R)) (idx : list (list nat))
  : result (list (list R)) :=
  if decide (length <$> w = length <$> idx)
  then Ok (zip_with (zip_with (λ x k, if decide (k = 0) then zero else x)) w idx)
  else Raise IndexError.
End ops.
End Torch.

(** ** Operation batches: class [Op] *)

Module Op.
Section op.
Context {R : Type} `{Numeric R} `{Catalog R}.

Record t : Type := {
  nodes : list nat;
  input_indices : list (list nat);
  output_indices : list nat;
  unique_input_indices : list nat;
  inverse_input_indices : list (list nat);
  weights : list (list R);
  bias : list R;
  (** a Python [dict], iterated in insertion order *)
  activation_index_map : list (string * list nat)
}.

(** Reading [node.tape_index] into an index tensor; [None] is rejected by
    [torch.tensor]. *)
Definition tape_index_of (st : NodeStore) (n : nat) : result nat :=
  or_raise TypeError (tape_index st !! n).

(** [if a not in m.keys(): m.update({a: []})] followed by [m[a].append(i)]. *)
Fixpoint dict_append (a : string) (i : nat) (m : list (string * list nat))
  : list (string * list nat) :=
  match m with
  | [] => [(a, [i])]
  | (k, l) :: m' =>
      if decide (k = a) then (k, l ++ [i]) :: m' else (k, l) :: dict_append a i m'
  end.

(** [for i, node in enumerate(self.nodes): ...] building the activation
    index map, started at row [i]. *)
Fixpoint index_activations (g : Graph) (i : nat) (ns : list nat)
    (m : list (string * list nat)) : list (string * list nat) :=
  match ns with
  | [] => m
  | n :: rest =>
      index_activations g (S i) rest (dict_append (activation (node g n)) i m)
  end.

(** [Op.__init__(self, nodes, network, initialization)]. Returns the new
    operation and the node attributes with [assigned] set on its nodes. *)
Definition init (g : Graph) (st : NodeStore) (op_nodes : list nat)
    (initialization : string) : result (t * NodeStore) :=
  rows ← mapM (λ n, mapM (tape_index_of st) (inputs (node g n))) op_nodes;
  outs ← mapM (tape_index_of st) op_nodes;
  let st' := {| tape_index := tape_index st;
                assigned := list_to_set op_nodes ∪ assigned st |} in
  if decide (op_nodes = [])
  then Raise (RuntimeError "received an empty list of sequences")
  else
    let idx := Torch.pad_sequence rows in
    let ui := Torch.unique idx in
    f ← or_raise (KeyError initialization) (initialization_map initialization);
    w ← Torch.zero_where_0 (f idx) idx;
    Ok ({| nodes := op_nodes;
           input_indices := idx;
           output_indices := outs;
           unique_input_indices := ui.1;
           inverse_input_indices := ui.2;
           weights := w;
           bias := replicate (length idx) zero;
           activation_index_map := index_activations g 0 op_nodes [] |}, st').

(** An optimizer step as far as the operation is concerned: the two
    parameter tensors take new values, nothing else changes. *)
Definition set_parameters (op : t) (w : list (list R)) (b : list R) : t :=
  {| nodes := nodes op;
     input_indices := input_indices op;
     output_indices := output_indices op;
     unique_input_indices := unique_input_indices op;
     inverse_input_indices := inverse_input_indices op;
     weights := w;
     bias := b;
     activation_index_map := activation_index_map op |}.

(** The loop over [self.activation_index_map.items()] in [forward]. *)
Fixpoint activate (m : list (string * list nat)) (x : list (list R))
  : result (list (list R)) :=
  match m with
  | [] => Ok x
  | (a, indices) :: m' =>
      f ← or_raise (KeyError a) (activation_map a);
      gathered ← Torch.index_select_1 x indices;
      x' ← Torch.scatter_1 x indices (f gathered);
      activate m' x'
  end.

(** The value of [x] in [forward] just before the activation loop. *)
Definition weighted_sums (op : t) (tape : list (list R)) : result (list (list R)) :=
  _x ← Torch.index_select_1 tape (unique_input_indices op);
  x ← Torch.gather_2 _x (inverse_input_indices op);
  x ← Torch.mul_bcast x (weights op);
  let x := Torch.sum_2 x in
  Torch.add_bcast x (bias op).

(** [Op.forward(self, tape)]. The method writes the tape and assigns no
    attribute of [self]; it returns the tape together with the operation
    as it is after the call. *)
Definition forward (op : t) (tape : list (list R)) : result (list (list R) * t) :=
  x ← weighted_sums op tape;
  x ← activate (activation_index_map op) x;
  tape' ← Torch.index_put_1 tape (output_indices op) x;
  Ok (tape', op).
End op.
Arguments t : clear implicits.
End Op.

(** ** The batch compiler: the body of [Model.construct] *)

Module Construct.
Section construct.
Context {R : Type} `{Numeric R} `{Catalog R}.

(** The local variables of [construct] that live across rounds of the
    [while] loop, and the attributes of the shared node objects. [fails]
    is [None] while the local name is still unbound. *)
Record locals : Type := {
  i : nat;
  remaining_nodes : list nat;
  ops : list (Op.t R);
  fails : option (list string);
  store : NodeStore
}.

(** [for input_node in self.inputs: tape_index = i; assigned = True; i += 1]. *)
Fixpoint index_inputs (ns : list nat) (st : NodeStore) (i : nat) : NodeStore * nat :=
  match ns with
  | [] => (st, i)
  | n :: rest =>
      index_inputs rest
        {| tape_index := <[n := i]> (tape_index st);
           assigned := {[n]} ∪ assigned st |} (S i)
  end.

(** [id_node_map]: the nodes of every op id, in order. *)
Definition id_node_map (g : Graph) (ns : list nat) : gmap string (list nat) :=
  foldl (λ m n,
           let k := op_id (node g n) in
           let m := match m !! k with None => <[k := []]> m | Some _ => m end in
           alter (λ l, l ++ [n]) k m) ∅ ns.

(** [all([inp.assigned for inp in node.inputs])]. *)
Definition eligible (g : Graph) (asg : gset nat) (n : nat) : bool :=
  forallb (λ inp, bool_decide (inp ∈ asg)) (inputs (node g n)).

(** The scan of a round: every remaining node all of whose inputs are
    assigned takes the next index and joins [op_nodes]. *)
Fixpoint scan (g : Graph) (asg : gset nat) (ns : list nat)
    (tidx : gmap nat nat) (i : nat) (op_nodes : list nat)
  : gmap nat nat * nat * list nat :=
  match ns with
  | [] => (tidx, i, op_nodes)
  | n :: rest =>
      if eligible g asg n
      then scan g asg rest (<[n := i]> tidx) (S i) (op_nodes ++ [n])
      else scan g asg rest tidx i op_nodes
  end.

(** [for id_node in id_node_map[k]: if id_node not in op_nodes: fails.append(k); break]. *)
Fixpoint group_check (ids op_nodes : list nat) (k : string) (fails : list string)
  : list string :=
  match ids with
  | [] => fails
  | id_node :: rest =>
      if decide (id_node ∈ op_nodes)
      then group_check rest op_nodes k fails
      else fails ++ [k]
  end.

(** [for node in op_nodes: fails = []; if ...]: the list is bound anew for
    every node. *)
Fixpoint check (g : Graph) (m : gmap string (list nat)) (op_nodes ns : list nat)
    (fails : option (list string)) : result (option (list string)) :=
  match ns with
  | [] => Ok fails
  | n :: rest =>
      let fails := [] in
      let k := op_id (node g n) in
      if decide (k ≠ "any" ∧ k ∉ fails)
      then ids ← or_raise (KeyError k) (m !! k);
           check g m op_nodes rest (Some (group_check ids op_nodes k fails))
      else check g m op_nodes rest (Some fails)
  end.

(** [for node in op_nodes: if node.op_id in fails: i -= 1]. *)
Definition rollback (g : Graph) (fails : list string) (op_nodes : list nat) (i : nat)
  : nat :=
  foldl (λ i n, if decide (op_id (node g n) ∈ fails) then i - 1 else i) i op_nodes.

(** [l.remove(x)]: drops the first occurrence, raises when there is none. *)
Fixpoint list_remove (x : nat) (l : list nat) : result (list nat) :=
  match l with
  | [] => Raise ValueError
  | y :: l' =>
      if decide (y = x) then Ok l' else l'' ← list_remove x l'; Ok (y :: l'')
  end.

Fixpoint remove_all (xs l : list nat) : result (list nat) :=
  match xs with
  | [] => Ok l
  | x :: xs' => l' ← list_remove x l; remove_all xs' l'
  end.

(** One round of the [while] loop. *)
Definition round (g : Graph) (initialization : string)
    (m : gmap string (list nat)) (st : locals) : result locals :=
  let '(tidx, i1, op_nodes) :=
    scan g (assigned (store st)) (remaining_nodes st) (tape_index (store st)) (i st) [] in
  let store1 := {| tape_index := tidx; assigned := assigned (store st) |} in
  fails ← check g m op_nodes op_nodes (fails st);
  fails ← or_raise (UnboundLocalError "fails") fails;
  let i2 := if decide (fails ≠ []) then rollback g fails op_nodes i1 else i1 in
  let op_nodes :=
    if decide (fails ≠ [])
    then filter (λ n, op_id (node g n) ∉ fails) op_nodes
    else op_nodes in
  remaining ← remove_all op_nodes (remaining_nodes st);
  if decide (op_nodes ≠ [])
  then '(op, store2) ← Op.init g store1 op_nodes initialization;
       Ok {| i := i2; remaining_nodes := remaining; ops := ops st ++ [op];
             fails := Some fails; store := store2 |}
  else Ok {| i := i2; remaining_nodes := remaining; ops := ops st;
             fails := Some fails; store := store1 |}.

(** [while remaining_nodes != []: ...], at most [fuel] rounds. [None]
    means that the loop is still running after [fuel] rounds. *)
Fixpoint loop (fuel : nat) (g : Graph) (initialization : string)
    (m : gmap string (list nat)) (st : locals) : option (result locals) :=
  match remaining_nodes st with
  | [] => Some (Ok st)
  | _ :: _ =>
      match fuel with
      | 0 => None
      | S fuel' =>
          match round g initialization m st with
          | Ok st' => loop fuel' g initialization m st'
          | Raise e => Some (Raise e)
          end
      end
  end.

(** [sorted(l, key=...)]: a stable sort. *)
Fixpoint insert_by (key : nat → nat) (x : nat) (l : list nat) : list nat :=
  match l with
  | [] => [x]
  | y :: l' => if decide (key x ≤ key y) then x :: l else y :: insert_by key x l'
  end.

Definition sorted (key : nat → nat) (l : list nat) : list nat :=
  foldr (insert_by key) [] l.

(** The state in which the [while] loop is entered. *)
Definition entry (g : Graph) (st : NodeStore) : locals :=
  let '(st1, i1) := index_inputs (input_nodes g) st 1 in
  {| i := i1; remaining_nodes := hidden_nodes g ++ output_nodes g;
     ops := []; fails := None; store := st1 |}.
End construct.
Arguments locals : clear implicits.
End Construct.

(** ** The model: class [Model] *)

(** A tensor handed to the model by the caller: its shape and its entries in
    row-major order. *)
Record Tensor (R : Type) : Type := {
  shape : list nat;
  data : list R
}.
Arguments shape {R} _.
Arguments data {R} _.

(** [torch.optim.Adam(params)] and [torch.optim.SGD(params, lr=0.01)]. *)
Inductive Optimizer : Type :=
  | Adam
  | SGD (lr : string).

(** [torch.nn.MSELoss()] and [torch.nn.CrossEntropyLoss()]. *)
Inductive LossFunction : Type :=
  | MSELoss
  | CrossEntropyLoss.

Module Model.
Section model.
Context {R : Type} `{Numeric R} `{Catalog R}.

Record t : Type := {
  inputs : list nat;
  hidden : list nat;
  outputs : list nat;
  graph : Graph;
  tape_size : nat;
  input_size : nat;
  output_size : nat;
  tape : option (list (list R));
  ops : list (Op.t R);
  initialization : string;
  optimizer : option Optimizer;
  loss_function : option LossFunction;
  output_indices : list nat;
  (** the attributes [construct] left on the graph's node objects *)
  node_store : NodeStore
}.

(** [Model.construct(self)], run on a graph whose nodes carry the
    attributes [st0]. Yields what the method assigns: [self.ops],
    [self.outputs], [self.output_indices], and the node attributes. *)
Definition construct (fuel : nat) (g : Graph) (st0 : NodeStore)
    (initialization : string)
  : option (result (list (Op.t R) * list nat * list nat * NodeStore)) :=
  let st := Construct.entry g st0 in
  let m := Construct.id_node_map g (Construct.remaining_nodes st) in
  match Construct.loop fuel g initialization m st with
  | None => None
  | Some (Raise e) => Some (Raise e)
  | Some (Ok st') =>
      let outs := Construct.sorted (λ n, output_index (node g n)) (output_nodes g) in
      Some (idx ← mapM (Op.tape_index_of (Construct.store st')) outs;
            Ok (Construct.ops st', outs, idx, Construct.store st'))
  end.

(** [Model.__init__(self, graph, initialization)] on freshly built nodes.
    The closing [update_graph()] only copies parameters onto the graph's
    nodes and edges and is left out. *)
Definition init (fuel : nat) (g : Graph) (initialization : string)
  : option (result t) :=
  match construct fuel g fresh_store initialization with
  | None => None
  | Some (Raise e) => Some (Raise e)
  | Some (Ok (ops, outs, idx, st)) =>
      Some (Ok {| inputs := input_nodes g;
                  hidden := hidden_nodes g;
                  outputs := outs;
                  graph := g;
                  tape_size :=
                    length (input_nodes g ++ hidden_nodes g ++ output_nodes g) + 1;
                  input_size := length (input_nodes g);
                  output_size := length (output_nodes g);
                  tape := None;
                  ops := ops;
                  initialization := initialization;
                  optimizer := None;
                  loss_function := None;
                  output_indices := idx;
                  node_store := st |})
  end.

Definition set_tape (m : t) (tp : option (list (list R))) : t :=
  {| inputs := inputs m; hidden := hidden m; outputs := outputs m;
     graph := graph m; tape_size := tape_size m; input_size := input_size m;
     output_size := output_size m; tape := tp; ops := ops m;
     initialization := initialization m; optimizer := optimizer m;
     loss_function := loss_function m; output_indices := output_indices m;
     node_store := node_store m |}.

Definition set_ops (m : t) (os : list (Op.t R)) : t :=
  {| inputs := inputs m; hidden := hidden m; outputs := outputs m;
     graph := graph m; tape_size := tape_size m; input_size := input_size m;
     output_size := output_size m; tape := tape m; ops := os;
     initialization := initialization m; optimizer := optimizer m;
     loss_function := loss_function m; output_indices := output_indices m;
     node_store := node_store m |}.

Definition set_optimizer (m : t) (o : option Optimizer) : t :=
  {| inputs := inputs m; hidden := hidden m; outputs := outputs m;
     graph := graph m; tape_size := tape_size m; input_size := input_size m;
     output_size := output_size m; tape := tape m; ops := ops m;
     initialization := initialization m; optimizer := o;
     loss_function := loss_function m; output_indices := output_indices m;
     node_store := node_store m |}.

Definition set_loss_function (m : t) (l : option LossFunction) : t :=
  {| inputs := inputs m; hidden := hidden m; outputs := outputs m;
     graph := graph m; tape_size := tape_size m; input_size := input_size m;
     output_size := output_size m; tape := tape m; ops := ops m;
     initialization := initialization m; optimizer := optimizer m;
     loss_function := l; output_indices := output_indices m;
     node_store := node_store m |}.

(** Row [r] of a [(b, c)] tensor stored row-major. *)
Definition rows_of (b c : nat) (d : list R) : list (list R) :=
  (λ r, take c (drop (r * c) d)) <$> seq 0 b.

(** [row[start : start + len(vals)] = vals]. *)
Definition write_slice (start : nat) (vals row : list R) : list R :=
  take start row ++ vals ++ drop (start + length vals) row.

(** [tape[:, 1:self.input_size+1] = x] for [x] of shape [(b, c)]: the slice
    has [input_size] columns, so [x] must have as many, or one column that
    is broadcast. *)
Definition write_inputs (tp : list (list R)) (input_size b c : nat) (d : list R)
  : result (list (list R)) :=
  if decide (c = input_size)
  then Ok (zip_with (λ row xrow, write_slice 1 xrow row) tp (rows_of b c d))
  else if decide (c = 1)
  then Ok (zip_with (λ row xrow, write_slice 1 (mjoin (replicate input_size xrow)) row)
             tp (rows_of b c d))
  else Raise (RuntimeError "shape mismatch").

(** The tape on which a pass starts: the cached one, zero-filled, when its
    batch size fits, a new one otherwise. *)
Definition initial_tape (m : t) (batch_size : nat) : list (list R) :=
  match tape m with
  | Some tp =>
      if decide (length tp = batch_size)
      then Torch.fill_zero tp
      else Torch.zeros batch_size (tape_size m)
  | None => Torch.zeros batch_size (tape_size m)
  end.

(** [for i, op in enumerate(self.ops): tape = op.forward(tape)]. *)
Fixpoint run_ops (os : list (Op.t R)) (tp : list (list R))
  : result (list (list R) * list (Op.t R)) :=
  match os with
  | [] => Ok (tp, [])
  | op :: rest =>
      '(tp', op') ← Op.forward op tp;
      '(tp'', rest') ← run_ops rest tp';
      Ok (tp'', op' :: rest')
  end.

(** [Model.forward(self, x)] with [output_grad=False], for [x] already a
    tensor. Returns the output and the model after the call.
    [self.output_indices] is [torch.tensor(output_indices)]: built from the
    empty list of a model without output nodes it is a tensor of floats,
    which the indexing [tape[:, self.output_indices]] refuses. *)
Definition forward (m : t) (x : Tensor R) : result (Tensor R * t) :=
  let x := if decide (length (shape x) = 1)
           then {| shape := 1 :: shape x; data := data x |} else x in
  match shape x with
  | [batch_size; c] =>
      let tp := initial_tape m batch_size in
      tp ← write_inputs tp (input_size m) batch_size c (data x);
      '(tp, os) ← run_ops (ops m) tp;
      let m := set_tape (set_ops m os) (Some tp) in
      if decide (output_indices m = []) then Raise IndexError
      else
        output ← Torch.index_select_1 tp (output_indices m);
        Ok ({| shape := [batch_size; length (output_indices m)];
               data := mjoin output |}, m)
  | _ => Raise (AssertionError "Input must be flattened batches (2D)")
  end.

(** [torch.optim.Adam(params)] and [torch.optim.SGD(params, lr)] for
    [params = self.parameters()], the weights and biases of the
    operations: the constructor of an optimizer raises [ValueError] for an
    empty parameter list. *)
Definition new_optimizer (m : t) (o : Optimizer) : result t :=
  if decide (ops m = []) then Raise ValueError else Ok (set_optimizer m (Some o)).

(** [Model.compile(self, optimizer, loss_function)]. Returns the model
    after the call; when the optimizer's constructor raises, no attribute
    has been assigned. *)
Definition compile (m : t) (optimizer_name loss_name : string) : result t :=
  m ← (if decide (optimizer_name = "adam") then new_optimizer m Adam
       else if decide (optimizer_name = "sgd") then new_optimizer m (SGD "0.01")
       else Ok m);
  Ok (if decide (loss_name = "mse") then set_loss_function m (Some MSELoss)
      else if decide (loss_name = "crossentropy")
      then set_loss_function m (Some CrossEntropyLoss)
      else m).

Section fit.
(** The training loop of [fit], that is, everything after its checks:
    minibatch passes, loss and gradient computation and optimizer steps
    are the tensor engine's and are taken as given. *)
Variable training : t → Tensor R → Tensor R → nat → nat → result () * t.

(** [Model.fit(self, X_tr, y_tr, epochs, batch_size)] for tensors
    [X_tr], [y_tr]. Returns how the call ends and the model after it. *)
Definition fit (m : t) (X_tr y_tr : Tensor R) (epochs batch_size : nat)
  : result () * t :=
  match optimizer m with
  | None => (Raise (RuntimeError "Compile model first before calling fit()"), m)
  | Some _ =>
      if decide (length (shape X_tr) ≠ 2)
      then (Raise (AssertionError "X_tr must be flattened batches (2D)"), m)
      else if decide (shape X_tr !! 1 ≠ Some (input_size m))
      then (Raise (AssertionError "Input size given doesn't match this network's input size"), m)
      else training m X_tr y_tr epochs batch_size
  end.
End fit.
End model.
Arguments t : clear implicits.
End Model.

(** * Notions used to state the results *)

(** Out-of-range positions are excluded by hypothesis wherever a total
    lookup is used; the default is never observed. *)
Global Instance Numeric_inhabited {R} `{Numeric R} : Inhabited R := populate zero.

Section notions.
Context {R : Type} `{Numeric R} `{Catalog R}.

(** A catalog function that applies the scalar function [φ] to every
    entry of its argument. *)
Definition pointwise (φ : R → R) (f : list (list R) → list (list R)) : Prop :=
  ∀ t, f t = (λ row : list R, φ <$> row) <$> t.

(** The catalog knows activation [a], and it is [φ a] applied entrywise. *)
Definition catalog_has (φ : string → R → R) (a : string) : Prop :=
  ∃ f, activation_map a = Some f ∧ pointwise (φ a) f.

(** The key under which an activation index map files row [i]. *)
Fixpoint key_of (m : list (string * list nat)) (i : nat) : option string :=
  match m with
  | [] => None
  | (a, l) :: m' => if decide (i ∈ l) then Some a else key_of m' i
  end.

(** No row is filed under two keys. *)
Fixpoint disjoint_keys (m : list (string * list nat)) : Prop :=
  match m with
  | [] => True
  | (a, l) :: m' => (∀ i, i ∈ l → key_of m' i = None) ∧ disjoint_keys m'
  end.

(** What a node of an operation computes from a sample's tape row: the
    activation of the weighted sum of the tape values at its input
    indices, plus its bias. The products are formed as [torch.mul(x,
    self.weights)] forms them, tape value times weight, and summed over
    the slots of the row from zero. *)
Definition weighted_sum (ws : list R) (idxs : list nat) (row : list R) : R :=
  foldl add zero (zip_with (λ w u, mul (row !!! u) w) ws idxs).

(** The weighted sum of a node over the slots of its padded row of
    weights [ws]: the slots of its own inputs, which hold the values
    [vals], then the padded slots, which read tape position 0, where the
    constant zero stands. *)
Definition padded_sum (vals ws : list R) : R :=
  foldl add zero
    (zip_with mul (vals ++ replicate (length ws - length vals) zero) ws).

Definition node_value (φ : R → R) (ws : list R) (idxs : list nat) (b : R)
    (row : list R) : R :=
  φ (add (weighted_sum ws idxs row) b).

(** The index structure [Op.__init__] sets up for rows with activations
    [acts]; it does not mention the parameters. *)
Record structured (acts : list string) (op : Op.t R) : Prop := {
  st_inverse_lt : ∀ irow k,
    irow ∈ Op.inverse_input_indices op → k ∈ irow →
    k < length (Op.unique_input_indices op);
  st_inverse :
    (λ irow : list nat, (Op.unique_input_indices op !!!.) <$> irow)
      <$> Op.inverse_input_indices op = Op.input_indices op;
  st_unique : ∀ u,
    u ∈ Op.unique_input_indices op → u ∈ mjoin (Op.input_indices op);
  st_rows : length (Op.input_indices op) = length acts;
  st_outs : length (Op.output_indices op) = length acts;
  st_key : ∀ i a,
    acts !! i = Some a → key_of (Op.activation_index_map op) i = Some a;
  st_keys : ∀ a l,
    (a, l) ∈ Op.activation_index_map op → a ∈ acts ∧ ∀ i, i ∈ l → i < length acts;
  st_disjoint : disjoint_keys (Op.activation_index_map op)
}.

(** The parameters have the shape of the index matrix. *)
Definition shaped (op : Op.t R) : Prop :=
  length <$> Op.weights op = length <$> Op.input_indices op ∧
  length (Op.bias op) = length (Op.input_indices op).
End notions.

Section model_notions.
Context {R : Type} `{Numeric R} `{Catalog R}.

(** An operation of a model over graph [g] with tape length [ts]: the
    index structure is in place, the parameters have its shape, the
    nodes are hidden or output nodes, and every index lies on the tape,
    output indices after the reserved index 0. *)
Definition op_ok (g : Graph) (ts : nat) (op : Op.t R) : Prop :=
  structured ((λ n, activation (node g n)) <$> Op.nodes op) op ∧
  shaped op ∧
  (∀ n, n ∈ Op.nodes op → n ∈ hidden_nodes g ++ output_nodes g) ∧
  (∀ k, k ∈ Op.output_indices op → 1 ≤ k < ts) ∧
  (∀ u, u ∈ mjoin (Op.input_indices op) → u < ts).

(** The invariant of the compiler's [while] loop. *)
Definition loop_inv (g : Graph) (ts : nat) (st : Construct.locals R) : Prop :=
  1 ≤ Construct.i st ∧
  Construct.i st + length (Construct.remaining_nodes st) = ts ∧
  (∀ n k, tape_index (Construct.store st) !! n = Some k → 1 ≤ k < ts) ∧
  (∀ n, n ∈ assigned (Construct.store st) →
        is_Some (tape_index (Construct.store st) !! n)) ∧
  (∀ n, n ∈ Construct.remaining_nodes st → n ∈ hidden_nodes g ++ output_nodes g) ∧
  Forall (op_ok g ts) (Construct.ops st).

(** The invariant of a model object. *)
Definition model_ok (m : Model.t R) : Prop :=
  Model.input_size m + 1 ≤ Model.tape_size m ∧
  Forall (op_ok (Model.graph m) (Model.tape_size m)) (Model.ops m) ∧
  (∀ k, k ∈ Model.output_indices m → k < Model.tape_size m) ∧
  length (Model.output_indices m) = Model.output_size m ∧
  (∀ tp, Model.tape m = Some tp →
         Forall (λ row, length row = Model.tape_size m) tp) ∧
  (∀ n k, tape_index (Model.node_store m) !! n = Some k →
          1 ≤ k < Model.tape_size m).

(** The life of a model after [__init__]: forward passes, [compile],
    optimizer steps that give the parameters new values of the same
    shape, and [fit] dropping the cached tape. *)
Inductive evolves (m0 : Model.t R) : Model.t R → Prop :=
  | evolves_refl : evolves m0 m0
  | evolves_forward m x out m' :
      evolves m0 m → Model.forward m x = Ok (out, m') → evolves m0 m'
  | evolves_compile m o l m' :
      evolves m0 m → Model.compile m o l = Ok m' → evolves m0 m'
  | evolves_step m os :
      evolves m0 m →
      Forall2 (λ op op', ∃ w b, op' = Op.set_parameters op w b ∧ shaped op')
              (Model.ops m) os →
      evolves m0 (Model.set_ops m os)
  | evolves_clear m :
      evolves m0 m → evolves m0 (Model.set_tape m None).

(** Everything about a model that only [__init__] decides; of the
    operations, everything but the values of the parameters. *)
Definition same_frame (m0 m : Model.t R) : Prop :=
  Model.inputs m = Model.inputs m0 ∧
  Model.hidden m = Model.hidden m0 ∧
  Model.outputs m = Model.outputs m0 ∧
  Model.graph m = Model.graph m0 ∧
  Model.tape_size m = Model.tape_size m0 ∧
  Model.input_size m = Model.input_size m0 ∧
  Model.output_size m = Model.output_size m0 ∧
  Model.initialization m = Model.initialization m0 ∧
  Model.output_indices m = Model.output_indices m0 ∧
  Model.node_store m = Model.node_store m0 ∧
  Forall2 (λ op op', op' = Op.set_parameters op (Op.weights op') (Op.bias op'))
          (Model.ops m0) (Model.ops m).

(** The catalog knows the activation of every hidden and output node. *)
Definition activations_known (φ : string → R → R) (g : Graph) : Prop :=
  ∀ n, n ∈ hidden_nodes g ++ output_nodes g → catalog_has φ (activation (node g n)).

(** A graph without hidden nodes: every output node reads input nodes
    only, and no node is listed twice. *)
Definition zero_hidden (g : Graph) : Prop :=
  hidden_nodes g = [] ∧
  NoDup (input_nodes g ++ output_nodes g) ∧
  ∀ o p, o ∈ output_nodes g → p ∈ inputs (node g o) → p ∈ input_nodes g.

(** The weights at the padded positions of the rows of nodes [ns], the
    positions after a node's own inputs, are zero. *)
Definition padded_zero (g : Graph) (ns : list nat) (w : list (list R)) : Prop :=
  ∀ i n ws j, ns !! i = Some n → w !! i = Some ws →
              length (inputs (node g n)) ≤ j → j < length ws → ws !! j = Some zero.

(** Following the spec's words, "acyclic graph with satisfiable
    groupings": the hidden and output nodes can be laid out in rounds so
    that every node comes after the hidden and output nodes it reads, and
    nodes sharing a grouping tag other than ["any"] are in the same
    round; every node read is a node of the graph. *)
Definition schedulable (g : Graph) : Prop :=
  ∃ round : nat → nat,
    (∀ n p, n ∈ hidden_nodes g ++ output_nodes g → p ∈ inputs (node g n) →
            p ∈ input_nodes g ∨
            (p ∈ hidden_nodes g ++ output_nodes g ∧ round p < round n)) ∧
    (∀ n n', n ∈ hidden_nodes g ++ output_nodes g →
             n' ∈ hidden_nodes g ++ output_nodes g →
             op_id (node g n) = op_id (node g n') → op_id (node g n) ≠ "any" →
             round n = round n').

(** Following the spec's words, "a dependency cycle among hidden and
    output nodes": a nonempty set of hidden and output nodes, none of them
    an input node, each of which reads a node of the set. *)
Definition cyclic (g : Graph) : Prop :=
  ∃ c : list nat, c ≠ [] ∧
    ∀ n, n ∈ c →
      n ∈ hidden_nodes g ++ output_nodes g ∧ (n ∉ input_nodes g) ∧
      ∃ p, p ∈ inputs (node g n) ∧ p ∈ c.

(** No hidden or output node carries a grouping tag. *)
Definition untagged (g : Graph) : Prop :=
  ∀ n, n ∈ hidden_nodes g ++ output_nodes g → op_id (node g n) = "any".

(** The nodes of [c] are still waiting: none is assigned, all remain. *)
Definition waiting (c : list nat) (st : Construct.locals R) : Prop :=
  ∀ n, n ∈ c → (n ∉ assigned (Construct.store st)) ∧ n ∈ Construct.remaining_nodes st.

(** The compiler's state on a graph without grouping tags: the remaining
    nodes are hidden or output nodes, listed once and not assigned; every
    node of the graph is assigned or remaining; the assigned nodes carry
    distinct tape indices below the counter, each above the indices of
    the nodes it reads; [fails], once bound, is empty; and the operations
    built so far together with the remaining nodes hold every hidden and
    output node once. *)
Definition ordered (g : Graph) (st : Construct.locals R) : Prop :=
  let asg := assigned (Construct.store st) in
  let tidx := tape_index (Construct.store st) in
  NoDup (Construct.remaining_nodes st) ∧
  (∀ n, n ∈ Construct.remaining_nodes st →
        n ∈ hidden_nodes g ++ output_nodes g ∧ n ∉ asg) ∧
  (∀ n, n ∈ input_nodes g ++ hidden_nodes g ++ output_nodes g →
        n ∈ asg ∨ n ∈ Construct.remaining_nodes st) ∧
  (∀ n, n ∈ asg → ∃ k, tidx !! n = Some k ∧ k < Construct.i st) ∧
  (∀ n n' k, n ∈ asg → n' ∈ asg →
             tidx !! n = Some k → tidx !! n' = Some k → n = n') ∧
  (∀ n p, n ∈ asg → n ∈ hidden_nodes g ++ output_nodes g →
          p ∈ inputs (node g n) →
          p ∈ asg ∧ ∃ kp kn, tidx !! p = Some kp ∧ tidx !! n = Some kn ∧ kp < kn) ∧
  (Construct.fails st = None ∨ Construct.fails st = Some []) ∧
  mjoin (Op.nodes <$> Construct.ops st) ++ Construct.remaining_nodes st
    ≡ₚ hidden_nodes g ++ output_nodes g.

(** The catalog knows the initialization, and it gives weights of the
    shape of the index tensor it is handed. *)
Definition initialization_known (ini : string) : Prop :=
  ∃ f, initialization_map (R:=R) ini = Some f ∧
       ∀ idx, length <$> f idx = length <$> idx.

(** The value a sample's input row holds for input node [p]. *)
Definition input_value (g : Graph) (xrow : list R) (p : nat) : R :=
  xrow !!! Torch.position (input_nodes g) p.

(** A tensor whose data fill its shape. *)
Definition well_formed (x : Tensor R) : Prop :=
  length (data x) = foldr Nat.mul 1 (shape x).
End model_notions.

Section proof_notions.
Context {R : Type} `{Numeric R} `{Catalog R}.

(** The weighted sums as the code forms them, row by row of the tape. *)
Definition sums_of (op : Op.t R) (row : list R) : list R :=
  zip_with add
    (foldl add zero <$>
       zip_with (zip_with mul)
         ((λ idxs : list nat, (row !!!.) <$> idxs) <$> Op.input_indices op)
         (Op.weights op))
    (Op.bias op).

(** The value row [i] holds after the activation loop. *)
Definition outputs_of (φ : string → R → R) (op : Op.t R) (row : list R) : list R :=
  imap (λ i v, from_option (λ a, φ a v) v (key_of (Op.activation_index_map op) i))
       (sums_of op row).

(** Every row filed in [m] is below [i]. *)
Definition bounded (m : list (string * list nat)) (i : nat) : Prop :=
  ∀ a l j, (a, l) ∈ m → j ∈ l → j < i.


(** A tape of [b] rows of length [ts] whose column 0 is zero. *)
Definition tape_ok (b ts : nat) (tp : list (list R)) : Prop :=
  length tp = b ∧ Forall (λ row, length row = ts ∧ row !! 0 = Some zero) tp.

(** The compiler has listed no remaining node twice, and within every
    operation built so far the output indices are distinct. *)
Definition distinct_inv (st : Construct.locals R) : Prop :=
  NoDup (Construct.remaining_nodes st) ∧
  Forall (λ op, NoDup (Op.output_indices op)) (Construct.ops st).

End proof_notions.

(** ** Concrete graphs and models *)

Module Examples.
(** Integer scalars. *)
Global Instance Z_numeric : Numeric Z :=
  {| zero := 0%Z; add := Z.add; mul := Z.mul |}.

(** The scalar functions of a small catalog: ["relu"], and the identity
    for every other name. *)
Definition act (a : string) : Z → Z :=
  if decide (a = "relu") then Z.max 0 else id.

(** A catalog with the activations ["relu"] and ["linear"] and one
    initialization, ["he"], which gives slot [j] of every row the weight
    [j + 1] (the library's is random). *)
Global Instance Z_catalog : Catalog Z :=
  {| activation_map := λ a,
       if decide (a = "relu" ∨ a = "linear")
       then Some (λ t : list (list Z), (λ row : list Z, act a <$> row) <$> t)
       else None;
     initialization_map := λ a,
       if decide (a = "he")
       then Some (λ idx : list (list nat),
                    (λ row : list nat, imap (λ j _, Z.of_nat j + 1)%Z row) <$> idx)
       else None |}.

Definition relu_node (ins : list nat) (tag : string) (out : nat) : Node :=
  {| inputs := ins; op_id := tag; activation := "relu"; output_index := out |}.

(** Two inputs feeding one output node: node 0 and 1 are the inputs,
    node 2 the output. *)
Definition perceptron : Graph :=
  {| input_nodes := [0; 1]; hidden_nodes := []; output_nodes := [2];
     node := λ n, match n with
                  | 2 => relu_node [0; 1] "any" 0
                  | _ => relu_node [] "any" 0
                  end |}.

Definition linear_node (ins : list nat) (tag : string) (out : nat) : Node :=
  {| inputs := ins; op_id := tag; activation := "linear"; output_index := out |}.

(** Two inputs (nodes 0 and 1) and two output nodes: node 2 reads both
    inputs, node 3 reads node 1 only, so its index row is padded. Node 3
    is declared as output 0, node 2 as output 1. *)
Definition two_outputs : Graph :=
  {| input_nodes := [0; 1]; hidden_nodes := []; output_nodes := [2; 3];
     node := λ n, match n with
                  | 2 => relu_node [0; 1] "any" 1
                  | 3 => linear_node [1] "any" 0
                  | _ => relu_node [] "any" 0
                  end |}.

(** One input (node 0) and four hidden nodes; 1, 3 and 4 carry the tag
    ["g"], 4 reads the untagged node 2. The hidden nodes are listed in the
    order 4, 1, 2, 3. *)
Definition reuse_graph : Graph :=
  {| input_nodes := [0]; hidden_nodes := [4; 1; 2; 3]; output_nodes := [];
     node := λ n, match n with
                  | 1 => relu_node [0] "g" 0
                  | 2 => relu_node [0] "any" 0
                  | 3 => relu_node [0] "g" 0
                  | 4 => relu_node [2] "g" 0
                  | _ => relu_node [] "any" 0
                  end |}.

(** One input (node 0); nodes 1 and 3 carry the tag ["g"], nodes 2 and 4
    none; 3 and 4 read node 2. *)
Definition split_graph : Graph :=
  {| input_nodes := [0]; hidden_nodes := [1; 2; 3; 4]; output_nodes := [];
     node := λ n, match n with
                  | 1 => relu_node [0] "g" 0
                  | 2 => relu_node [0] "any" 0
                  | 3 => relu_node [2] "g" 0
                  | 4 => relu_node [2] "any" 0
                  | _ => relu_node [] "any" 0
                  end |}.

(** As [split_graph] without node 4. *)
Definition stuck_graph : Graph :=
  {| input_nodes := [0]; hidden_nodes := [1; 2; 3]; output_nodes := [];
     node := λ n, match n with
                  | 1 => relu_node [0] "g" 0
                  | 2 => relu_node [0] "any" 0
                  | 3 => relu_node [2] "g" 0
                  | _ => relu_node [] "any" 0
                  end |}.

(** A hidden node that reads itself. *)
Definition cycle_graph : Graph :=
  {| input_nodes := [0]; hidden_nodes := [1]; output_nodes := [];
     node := λ n, match n with
                  | 1 => relu_node [1] "any" 0
                  | _ => relu_node [] "any" 0
                  end |}.

(** Nodes 1 and 3 carry the tag ["g"] and 3 reads 1, so the two can never
    be ready in the same round. *)
Definition unsatisfiable_graph : Graph :=
  {| input_nodes := [0]; hidden_nodes := [1; 2; 3; 4]; output_nodes := [];
     node := λ n, match n with
                  | 1 => relu_node [0] "g" 0
                  | 2 => relu_node [0] "any" 0
                  | 3 => relu_node [1] "g" 0
                  | 4 => relu_node [2] "any" 0
                  | _ => relu_node [] "any" 0
                  end |}.

(** A chain without grouping tags, the hidden nodes listed against the
    order of the data flow: hidden node 1 reads the input 0, hidden node
    2 reads 1, the output node 3 reads 2 and 0. *)
Definition chain_graph : Graph :=
  {| input_nodes := [0]; hidden_nodes := [2; 1]; output_nodes := [3];
     node := λ n, match n with
                  | 1 => relu_node [0] "any" 0
                  | 2 => relu_node [1] "any" 0
                  | 3 => linear_node [2; 0] "any" 0
                  | _ => relu_node [] "any" 0
                  end |}.

Definition empty_model : Model.t Z :=
  {| Model.inputs := []; Model.hidden := []; Model.outputs := [];
     Model.graph := perceptron; Model.tape_size := 1; Model.input_size := 0;
     Model.output_size := 0; Model.tape := None; Model.ops := [];
     Model.initialization := "he"; Model.optimizer := None;
     Model.loss_function := None; Model.output_indices := [];
     Model.node_store := fresh_store |}.

Definition built (r : option (result (Model.t Z))) : Model.t Z :=
  match r with Some (Ok m) => m | _ => empty_model end.

(** The model of the perceptron. *)
Definition perceptron_model : Model.t Z := built (Model.init 1 perceptron "he").

(** The model of [two_outputs] and its only operation. *)
Definition two_model : Model.t Z := built (Model.init 1 two_outputs "he").

Definition first_op (m : Model.t Z) : Op.t Z :=
  match Model.ops m with
  | op :: _ => op
  | [] => {| Op.nodes := []; Op.input_indices := []; Op.output_indices := [];
             Op.unique_input_indices := []; Op.inverse_input_indices := [];
             Op.weights := []; Op.bias := []; Op.activation_index_map := [] |}
  end.

Definition two_op : Op.t Z := first_op two_model.

(** The node attributes with which [two_op] was built. *)
Definition two_store : NodeStore :=
  {| tape_index := tape_index (Model.node_store two_model);
     assigned := list_to_set [0; 1] |}.

(** The states of the compiler on [stuck_graph] after one and after two
    rounds. *)
Definition after (st : Construct.locals Z) (g : Graph) : Construct.locals Z :=
  match Construct.round g "he" (Construct.id_node_map g (hidden_nodes g)) st with
  | Ok st' => st'
  | Raise _ => st
  end.

Definition stuck0 : Construct.locals Z := Construct.entry stuck_graph fresh_store.
Definition stuck1 : Construct.locals Z := after stuck0 stuck_graph.
Definition stuck2 : Construct.locals Z := after stuck1 stuck_graph.
End Examples.

Import Examples.

(** * The training loop of [Model.fit] *)

Module Fit.
Section fit.
Context {R : Type} `{Numeric R} `{Catalog R}.

(** How a call of [fit] ends when it does not return: with an exception
    of its checks, of a forward pass or of the tensor engine, or with
    the [ZeroDivisionError] of its own arithmetic. *)
Inductive failure : Type :=
  | Raised (e : exn)
  | ZeroDivisionError.

Inductive outcome (A : Type) : Type :=
  | Done (a : A)
  | Failed (f : failure).
Global Arguments Done {A} a.
Global Arguments Failed {A} f.

(** The tensor engine's part of a training step, taken as given:
    [torch.index_select(y_tr, 0, range_select)] for the rows from
    [start] up to [stop]; the loss function object applied to an
    output and these targets; and [loss.backward()] followed by
    [self.optimizer.step()], as the operations with the parameters
    the step leaves, for the batch [batch] of epoch [epoch]. *)
Variable target_rows : Tensor R → nat → nat → result (Tensor R).
Variable loss_value : LossFunction → Tensor R → Tensor R → result R.
Variable optimizer_step :
  Optimizer → nat → nat → Model.t R → Tensor R → Tensor R → list (Op.t R).

(** [len(X_tr)]. *)
Definition len (X : Tensor R) : nat := hd 0 (shape X).

(** [torch.index_select(X_tr, 0, torch.arange(start, stop))] for a
    two-dimensional [X_tr] with at least [stop] rows. *)
Definition select_rows (X : Tensor R) (start stop : nat) : Tensor R :=
  let c := default 0 (shape X !! 1) in
  {| shape := [stop - start; c];
     data := take ((stop - start) * c) (drop (start * c) (data X)) |}.

(** The body of [for batch in range(0, num_batches)]. *)
Definition batch_step (o : Optimizer) (X_tr y_tr : Tensor R) (batch_size : nat)
    (epoch batch : nat) (m : Model.t R) : outcome (Model.t R) :=
  let start := batch * batch_size in
  let stop := Nat.min ((batch + 1) * batch_size) (len X_tr) in
  let x := select_rows X_tr start stop in
  match Model.forward m x with
  | Raise e => Failed (Raised e)
  | Ok (out, m) =>
      match target_rows y_tr start stop with
      | Raise e => Failed (Raised e)
      | Ok y =>
          match Model.loss_function m with
          | None => Failed (Raised TypeError)
          | Some l =>
              match loss_value l out y with
              | Raise e => Failed (Raised e)
              | Ok _ => Done (Model.set_ops m (optimizer_step o epoch batch m x y))
              end
          end
      end
  end.

Fixpoint batches (o : Optimizer) (X_tr y_tr : Tensor R) (batch_size : nat)
    (epoch : nat) (bs : list nat) (m : Model.t R) : outcome (Model.t R) :=
  match bs with
  | [] => Done m
  | batch :: bs' =>
      match batch_step o X_tr y_tr batch_size epoch batch m with
      | Done m' => batches o X_tr y_tr batch_size epoch bs' m'
      | Failed f => Failed f
      end
  end.

(** [for epoch in range(0, epochs)]: the batches, then
    [epoch_loss /= num_batches], which divides the integer 0 by 0 when
    there was no batch. *)
Fixpoint epochs_from (o : Optimizer) (X_tr y_tr : Tensor R)
    (batch_size num_batches : nat) (es : list nat) (m : Model.t R)
  : outcome (Model.t R) :=
  match es with
  | [] => Done m
  | epoch :: es' =>
      match batches o X_tr y_tr batch_size epoch (seq 0 num_batches) m with
      | Done m' =>
          if decide (num_batches = 0) then Failed ZeroDivisionError
          else epochs_from o X_tr y_tr batch_size num_batches es' m'
      | Failed f => Failed f
      end
  end.

(** [Model.fit(self, X_tr, y_tr, epochs, batch_size)] for tensors
    [X_tr], [y_tr]: the checks, as in [Model.fit], then the training
    loop, then [self.tape = None]. The closing [update_graph()] is left
    out as in [Model.init]. *)
Definition fit (m : Model.t R) (X_tr y_tr : Tensor R) (epochs batch_size : nat)
  : outcome (Model.t R) :=
  match Model.fit (λ m _ _ _ _, (Ok (), m)) m X_tr y_tr epochs batch_size with
  | (Raise e, _) => Failed (Raised e)
  | (Ok _, _) =>
      match Model.optimizer m with
      | None => Failed (Raised (RuntimeError "Compile model first before calling fit()"))
      | Some o =>
          if decide (batch_size = 0) then Failed ZeroDivisionError
          else
            let num_batches := len X_tr / batch_size in
            match epochs_from o X_tr y_tr batch_size num_batches (seq 0 epochs) m with
            | Done m' => Done (Model.set_tape m' None)
            | Failed f => Failed f
            end
      end
  end.
End fit.
End Fit.

(** * Further notions *)

Section compiler_notions.
Context {R : Type} `{Numeric R} `{Catalog R}.

(** Every node of operation [k] reads input nodes and nodes of the
    operations before [k] only. *)
Definition dependency_ordered (g : Graph) (os : list (Op.t R)) : Prop :=
  ∀ k op n p, os !! k = Some op → n ∈ Op.nodes op → p ∈ inputs (node g n) →
              p ∈ input_nodes g ∨ p ∈ mjoin (Op.nodes <$> take k os).

(** The compiler's bookkeeping, on any graph: the operations built so far
    and the remaining nodes hold every hidden and output node once, no
    operation is empty, the assigned nodes are the input nodes and the
    nodes of the operations, and the operations are in dependency
    order. *)
Definition partitioned (g : Graph) (st : Construct.locals R) : Prop :=
  mjoin (Op.nodes <$> Construct.ops st) ++ Construct.remaining_nodes st
    ≡ₚ hidden_nodes g ++ output_nodes g ∧
  Forall (λ op, Op.nodes op ≠ []) (Construct.ops st) ∧
  (∀ n, n ∈ assigned (Construct.store st) ↔
        n ∈ input_nodes g ∨ n ∈ mjoin (Op.nodes <$> Construct.ops st)) ∧
  dependency_ordered g (Construct.ops st).

(** The counter is past the input slice of the tape, and so is every
    output index of the operations built so far. *)
Definition past_inputs (g : Graph) (st : Construct.locals R) : Prop :=
  1 + length (input_nodes g) ≤ Construct.i st ∧
  Forall (λ op, ∀ k, k ∈ Op.output_indices op → 1 + length (input_nodes g) ≤ k)
         (Construct.ops st).

(** The output indices of the operations built so far, taken in order,
    are the tape positions from behind the inputs up to the counter. *)
Definition filled (g : Graph) (st : Construct.locals R) : Prop :=
  1 + length (input_nodes g) ≤ Construct.i st ∧
  mjoin (Op.output_indices <$> Construct.ops st)
  = seq (1 + length (input_nodes g)) (Construct.i st - (1 + length (input_nodes g))).

(** Every operation built so far came out of [Op.__init__], from node
    attributes whose tape indices are all positive. *)
Definition initialised (g : Graph) (ini : string) (st : Construct.locals R) : Prop :=
  Forall (λ op, ∃ s0 s1, Op.init g s0 (Op.nodes op) ini = Ok (op, s1) ∧
                         ∀ n k, tape_index s0 !! n = Some k → 1 ≤ k)
         (Construct.ops st).

(** Every operation built so far is what [Op.__init__] makes of its
    nodes under the node attributes as they are now. *)
Definition wired (g : Graph) (ini : string) (st : Construct.locals R) : Prop :=
  Forall (λ op, ∃ st1, Op.init g (Construct.store st) (Op.nodes op) ini = Ok (op, st1))
         (Construct.ops st).

(** Every tape position an operation reads lies below every position
    that this operation or a later one writes. *)
Definition layered (os : list (Op.t R)) : Prop :=
  ∀ j k opj opk u v,
    os !! j = Some opj → os !! k = Some opk → j ≤ k →
    u ∈ mjoin (Op.input_indices opj) → v ∈ Op.output_indices opk → u < v.

(** The operations built so far are layered and read below the counter. *)
Definition stacked (st : Construct.locals R) : Prop :=
  1 ≤ Construct.i st ∧ layered (Construct.ops st) ∧
  ∀ op u, op ∈ Construct.ops st → u ∈ mjoin (Op.input_indices op) →
          u < Construct.i st.

(** The value a tape row holds for node [n] of a model. *)
Definition node_reading (m : Model.t R) (row : list R) (n : nat) : R :=
  row !!! default 0 (tape_index (Model.node_store m) !! n).

(** On the tape row [row] every node of operation [op] holds the value it
    computes from the row itself. *)
Definition settled (φ : string → R → R) (g : Graph) (op : Op.t R)
    (row : list R) : Prop :=
  ∀ i n, Op.nodes op !! i = Some n →
    ∃ k ws idxs bi,
      Op.output_indices op !! i = Some k ∧ Op.weights op !! i = Some ws ∧
      Op.input_indices op !! i = Some idxs ∧ Op.bias op !! i = Some bi ∧
      row !! k = Some (node_value (φ (activation (node g n))) ws idxs bi row).

(** A list in ascending order of [key]. *)
Fixpoint ascending (key : nat → nat) (l : list nat) : Prop :=
  match l with
  | [] => True
  | x :: l' => (∀ y, y ∈ l' → key x ≤ key y) ∧ ascending key l'
  end.
End compiler_notions.

(** * Further graphs and models *)

Module Cases.
(** The models of three graphs of [Examples]. *)
Definition split_model : Model.t Z := built (Model.init 2 split_graph "he").
Definition reuse_model : Model.t Z := built (Model.init 2 reuse_graph "he").
Definition chain_model : Model.t Z := built (Model.init 3 chain_graph "he").

(** A cycle beside a node that is ready at once: hidden node 1 reads the
    input, hidden node 2 reads itself. *)
Definition lasso_graph : Graph :=
  {| input_nodes := [0]; hidden_nodes := [1; 2]; output_nodes := [];
     node := λ n, match n with
                  | 1 => relu_node [0] "any" 0
                  | 2 => relu_node [2] "any" 0
                  | _ => relu_node [] "any" 0
                  end |}.

(** Two output nodes on one input; the activation of node 2 is not in
    the catalog. *)
Definition tanh_graph : Graph :=
  {| input_nodes := [0]; hidden_nodes := []; output_nodes := [1; 2];
     node := λ n, match n with
                  | 1 => relu_node [0] "any" 0
                  | 2 => {| inputs := [0]; op_id := "any"; activation := "tanh";
                            output_index := 1 |}
                  | _ => relu_node [] "any" 0
                  end |}.
Definition tanh_model : Model.t Z := built (Model.init 1 tanh_graph "he").
Definition tanh_op : Op.t Z := first_op tanh_model.
Definition tanh_store : NodeStore :=
  {| tape_index := tape_index (Model.node_store tanh_model);
     assigned := list_to_set [0] |}.

(** The initialization ["he"] of [Z_catalog]. *)
Definition he (idx : list (list nat)) : list (list Z) :=
  (λ row : list nat, imap (λ j _, Z.of_nat j + 1)%Z row) <$> idx.

(** What a pass returns, and the tape an operation leaves. *)
Definition pass (m : Model.t Z) (x : Tensor Z) : Tensor Z * Model.t Z :=
  match Model.forward m x with Ok r => r | Raise _ => (x, m) end.
Definition op_pass (op : Op.t Z) (tape : list (list Z)) : list (list Z) :=
  match Op.forward op tape with Ok (t, _) => t | Raise _ => tape end.

Definition two_input : Tensor Z := {| shape := [1; 2]; data := [3; 4]%Z |}.
Definition chain_input : Tensor Z := {| shape := [2; 1]; data := [5; -2]%Z |}.

(** A tensor engine for training: targets are the whole target tensor,
    the loss is zero, the step leaves the parameters as they are. *)
Definition targets (y : Tensor Z) (start stop : nat) : result (Tensor Z) := Ok y.
Definition no_loss (l : LossFunction) (out y : Tensor Z) : result Z := Ok 0%Z.
Definition no_step (o : Optimizer) (epoch batch : nat) (m : Model.t Z)
    (x y : Tensor Z) : list (Op.t Z) := Model.ops m.

(** A model after [compile]; the model itself when [compile] raises. *)
Definition compiled (m : Model.t Z) (optimizer_name loss_name : string) : Model.t Z :=
  match Model.compile m optimizer_name loss_name with Ok m' => m' | Raise _ => m end.

Definition trained (m : Model.t Z) (X y : Tensor Z) (epochs batch_size : nat)
  : Model.t Z :=
  match Fit.fit targets no_loss no_step m X y epochs batch_size with
  | Fit.Done m' => m'
  | Fit.Failed _ => m
  end.

(** Three samples for [two_model], and the same with another last
    sample. *)
Definition samples : Tensor Z := {| shape := [3; 2]; data := [1; 2; 3; 4; 5; 6]%Z |}.
Definition samples' : Tensor Z := {| shape := [3; 2]; data := [1; 2; 3; 4; 9; 9]%Z |}.
Definition labels : Tensor Z := {| shape := [3; 2]; data := [0; 0; 0; 0; 0; 0]%Z |}.

(** A graph of one input node and nothing else, and its model, which has
    no operation and so no parameter. *)
Definition bare_graph : Graph :=
  {| input_nodes := [0]; hidden_nodes := []; output_nodes := [];
     node := λ _, relu_node [] "any" 0 |}.
Definition bare_model : Model.t Z := built (Model.init 1 bare_graph "he").

(** IEEE 754 scalars: the binary64 numbers of the kernel. The tensors of
    the code hold binary32 numbers, which have the same zeros, infinities
    and NaN and the same rules for them. *)
Global Instance float_numeric : Numeric float | 100 :=
  {| zero := 0%float; add := PrimFloat.add; mul := PrimFloat.mul |}.

Definition float_relu (v : float) : float :=
  if PrimFloat.ltb v 0%float then 0%float else v.

(** The catalog of [Examples] over these scalars; its initialization
    ["he"] gives every slot the weight 1. *)
Global Instance float_catalog : Catalog float | 100 :=
  {| activation_map := λ a,
       if decide (a = "relu")
       then Some (λ t : list (list float), (λ row : list float, float_relu <$> row) <$> t)
       else if decide (a = "linear") then Some (λ t : list (list float), t)
       else None;
     initialization_map := λ a,
       if decide (a = "he")
       then Some (λ idx : list (list nat),
                    (λ row : list nat, (λ _, 1%float) <$> row) <$> idx)
       else None |}.

(** The operation of [two_outputs] over these scalars: node 2 reads tape
    positions 1 and 2, node 3 reads position 2 and has one padded slot. *)
Definition float_op : Op.t float :=
  match Op.init two_outputs two_store [2; 3] "he" with
  | Ok (op, _) => op
  | Raise _ =>
      {| Op.nodes := []; Op.input_indices := []; Op.output_indices := [];
         Op.unique_input_indices := []; Op.inverse_input_indices := [];
         Op.weights := []; Op.bias := []; Op.activation_index_map := [] |}
  end.

(** A tape row with the inputs 3 and 4, once with zero and once with
    infinity at position 0. *)
Definition clean_row : list float := [0; 3; 4; 0; 0]%float.
Definition garbage_row : list float := [infinity; 3; 4; 0; 0]%float.
End Cases.

Import Cases.

(** * Lemmas *)

(** ** Results and [mapM] *)

Section result_lemmas.
Context {A B : Type}.
Implicit Types (f : A → result B) (l : list A) (k : list B).

Lemma bind_Ok {C D} (m : result C) (h : C → result D) (d : D) :
  m ≫= h = Ok d ↔ ∃ c, m = Ok c ∧ h c = Ok d.
Proof.
  destruct m as [c|e]; simpl; split.
  - intros Hc. by exists c.
  - by intros (c' & [= ->] & Hc).
  - discriminate.
  - by intros (c' & [=] & _).
Qed.

Lemma mapM_nil f : mapM f [] = Ok [].
Proof. reflexivity. Qed.

Lemma mapM_cons f x l :
  mapM f (x :: l) = y ← f x; k ← mapM f l; Ok (y :: k).
Proof. reflexivity. Qed.

Lemma mapM_Ok_Forall2 f l k :
  mapM f l = Ok k ↔ Forall2 (λ x y, f x = Ok y) l k.
Proof.
  revert k. induction l as [|x l IH]; intros k.
  - rewrite mapM_nil. split.
    + intros [= <-]. constructor.
    + by inversion 1.
  - rewrite mapM_cons. split.
    + intros (y & Hy & (k' & Hk' & [= <-])%bind_Ok)%bind_Ok.
      constructor; [done|by apply IH].
    + inversion 1 as [|? y ? k' Hy Hk']; subst.
      apply bind_Ok. exists y. split; [done|].
      apply bind_Ok. exists k'. split; [by apply IH|done].
Qed.

Lemma mapM_Ok_length f l k : mapM f l = Ok k → length k = length l.
Proof. intros Hk%mapM_Ok_Forall2. symmetry. by eapply Forall2_length. Qed.

Lemma mapM_Ok_lookup_l f l k j x :
  mapM f l = Ok k → l !! j = Some x → ∃ y, k !! j = Some y ∧ f x = Ok y.
Proof.
  intros Hk%mapM_Ok_Forall2 Hx.
  destruct (Forall2_lookup_l _ _ _ _ _ Hk Hx) as (y & ? & ?). eauto.
Qed.

Lemma mapM_Ok_lookup_r f l k j y :
  mapM f l = Ok k → k !! j = Some y → ∃ x, l !! j = Some x ∧ f x = Ok y.
Proof.
  intros Hk%mapM_Ok_Forall2 Hy.
  destruct (Forall2_lookup_r _ _ _ _ _ Hk Hy) as (x & ? & ?). eauto.
Qed.

Lemma mapM_Ok_fmap f (g : A → B) l :
  (∀ x, x ∈ l → f x = Ok (g x)) → mapM f l = Ok (g <$> l).
Proof.
  intros Hfg. apply mapM_Ok_Forall2, Forall2_fmap_r, Forall_Forall2_diag.
  by apply Forall_forall.
Qed.

Lemma mapM_is_Ok f l : (∀ x, x ∈ l → is_Ok (f x)) → is_Ok (mapM f l).
Proof.
  induction l as [|x l IH]; intros Hl.
  - by exists [].
  - destruct (Hl x) as [y Hy]; [by left|].
    destruct IH as [k Hk]; [intros; apply Hl; by right|].
    exists (y :: k). rewrite mapM_cons, Hy. simpl. by rewrite Hk.
Qed.

Lemma mapM_result_ext f (g : A → result B) l :
  (∀ x, f x = g x) → mapM f l = mapM g l.
Proof.
  intros Hfg. induction l as [|x l IH]; [done|].
  by rewrite !mapM_cons, Hfg, IH.
Qed.

Lemma mapM_fmap_arg {C} (h : C → A) f (l : list C) :
  mapM f (h <$> l) = mapM (f ∘ h) l.
Proof.
  induction l as [|x l IH]; [done|].
  rewrite fmap_cons, !mapM_cons, IH. done.
Qed.
End result_lemmas.

Section torch_lemmas.
Context {R : Type} `{Numeric R}.
Implicit Types (row src : list R) (idx : list nat).

Lemma at_index_Ok {A} (l : list A) (k : nat) (x : A) :
  Torch.at_index l k = Ok x ↔ l !! k = Some x.
Proof.
  unfold Torch.at_index. destruct (l !! k); simpl; split; congruence.
Qed.

Lemma at_index_total (l : list R) (k : nat) :
  k < length l → Torch.at_index l k = Ok (l !!! k).
Proof.
  intros Hk. apply at_index_Ok. by apply list_lookup_lookup_total_lt.
Qed.

Lemma index_select_1_total (t : list (list R)) idx :
  (∀ row k, row ∈ t → k ∈ idx → k < length row) →
  Torch.index_select_1 t idx = Ok ((λ row, (row !!!.) <$> idx) <$> t).
Proof.
  intros Hin. unfold Torch.index_select_1.
  apply mapM_Ok_fmap. intros row Hrow.
  apply mapM_Ok_fmap. intros k Hk. apply at_index_total. eauto.
Qed.

Lemma put_row_Ok_inv row idx src row' :
  Torch.put_row row idx src = Ok row' →
  length row' = length row ∧ (∀ k, k ∈ idx → k < length row) ∧
  length idx ≤ length src ∧ ∀ k, k ∉ idx → row' !! k = row !! k.
Proof.
  revert row src. induction idx as [|k0 idx IH]; intros row src; simpl.
  - intros [= <-]. split_and!; [done| |lia|done].
    intros k Hk. by apply elem_of_nil in Hk.
  - destruct src as [|v src]; [done|].
    destruct (decide (k0 < length row)) as [Hk0|]; [|done].
    intros (Hlen & Hin & Hsrc & Hframe)%IH.
    rewrite length_insert in Hlen, Hin. split_and!.
    + done.
    + intros k [->|Hk]%elem_of_cons; auto.
    + simpl. lia.
    + intros k [Hne Hk]%not_elem_of_cons.
      rewrite Hframe by done. by apply list_lookup_insert_ne.
Qed.

Lemma put_row_Ok_lookup row idx src row' j k v :
  NoDup idx → Torch.put_row row idx src = Ok row' →
  idx !! j = Some k → src !! j = Some v → row' !! k = Some v.
Proof.
  revert row src j. induction idx as [|k0 idx IH]; intros row src j Hnd; simpl.
  - done.
  - destruct src as [|v0 src]; [done|].
    destruct (decide (k0 < length row)) as [Hk0|]; [|done].
    apply NoDup_cons in Hnd as [Hk0' Hnd]. intros Hput.
    destruct j as [|j]; simpl.
    + intros [= <-] [= <-].
      apply put_row_Ok_inv in Hput as (_ & _ & _ & Hframe).
      rewrite Hframe by done. by apply list_lookup_insert_eq.
    + intros Hj Hv. by eapply IH.
Qed.

Lemma put_row_is_Ok row idx src :
  (∀ k, k ∈ idx → k < length row) → length idx ≤ length src →
  is_Ok (Torch.put_row row idx src).
Proof.
  revert row src. induction idx as [|k0 idx IH]; intros row src Hin Hlen; simpl.
  - by eexists.
  - destruct src as [|v src]; simpl in Hlen; [lia|].
    rewrite decide_True by (apply Hin; by left).
    apply IH; [|lia]. intros k Hk. rewrite length_insert. apply Hin. by right.
Qed.

(** Writing, at every index, a value that only depends on the index. *)
Lemma put_row_fmap row idx (h : nat → R) :
  (∀ k, k ∈ idx → k < length row) →
  ∃ row', Torch.put_row row idx (h <$> idx) = Ok row' ∧
          length row' = length row ∧
          ∀ k, row' !! k = if decide (k ∈ idx) then Some (h k) else row !! k.
Proof.
  revert row. induction idx as [|k0 idx IH]; intros row Hin.
  - exists row. split_and!; [done..|].
    intros k. rewrite decide_False; [done|apply not_elem_of_nil].
  - rewrite fmap_cons. simpl. rewrite decide_True by (apply Hin; by left).
    destruct (IH (<[k0 := h k0]> row)) as (row' & Hput & Hlen & Hval).
    { intros k Hk. rewrite length_insert. apply Hin. by right. }
    exists row'. rewrite length_insert in Hlen. split_and!; [done..|].
    intros k. rewrite Hval.
    destruct (decide (k ∈ idx)) as [Hk|Hk].
    + rewrite decide_True; [done|by right].
    + destruct (decide (k = k0)) as [->|Hne].
      * rewrite decide_True by by left.
        apply list_lookup_insert_eq, Hin. by left.
      * rewrite decide_False by (by intros [?|?]%elem_of_cons).
        by apply list_lookup_insert_ne.
Qed.

(** The in-place column write leaves every other column as it was. *)
Lemma index_put_1_Ok_inv (t : list (list R)) idx (x t' : list (list R)) :
  Torch.index_put_1 t idx x = Ok t' →
  length t' = length t ∧ length x = length t ∧
  ∀ s row', t' !! s = Some row' →
    ∃ row xb, t !! s = Some row ∧ x !! s = Some xb ∧
              Torch.put_row row idx xb = Ok row'.
Proof.
  unfold Torch.index_put_1.
  destruct (decide _) as [[Hlen Hshape]|]; [|done].
  intros Hm. split_and!.
  - apply mapM_Ok_length in Hm. rewrite length_zip in Hm. lia.
  - done.
  - intros s row' Hrow'.
    destruct (mapM_Ok_lookup_r _ _ _ _ _ Hm Hrow') as ([row xb] & Hz & Hput).
    apply lookup_zip_with_Some in Hz as (row0 & xb0 & [= <- <-] & ? & ?).
    eauto.
Qed.
End torch_lemmas.

Section activate_lemmas.
Context {R : Type} `{Numeric R} `{Catalog R}.
Implicit Types (m : list (string * list nat)) (x : list (list R)).

Lemma put_row_fmap_imap (row : list R) (idx : list nat) (h : nat → R) :
  (∀ k, k ∈ idx → k < length row) →
  Torch.put_row row idx (h <$> idx)
  = Ok (imap (λ i v, if decide (i ∈ idx) then h i else v) row).
Proof.
  intros Hin. destruct (put_row_fmap row idx h Hin) as (row' & -> & Hlen & Hval).
  f_equal. apply list_eq. intros k. rewrite Hval, list_lookup_imap.
  destruct (decide (k ∈ idx)) as [Hk|Hk].
  - destruct (lookup_lt_is_Some_2 row k (Hin k Hk)) as [v ->]. done.
  - by destruct (row !! k).
Qed.

(** One trip through the activation loop: gather the rows of a key,
    apply its function, scatter the results back. *)
Lemma activate_step (φ : R → R) (f : list (list R) → list (list R))
    (l : list nat) (n : nat) x :
  pointwise φ f → (∀ i, i ∈ l → i < n) → Forall (λ row, length row = n) x →
  (gathered ← Torch.index_select_1 x l; Torch.scatter_1 x l (f gathered))
  = Ok ((λ row, imap (λ i v, if decide (i ∈ l) then φ v else v) row) <$> x).
Proof.
  intros Hf Hl Hx. rewrite Forall_forall in Hx.
  rewrite index_select_1_total; last first.
  { intros row k Hrow Hk. rewrite (Hx row Hrow). auto. }
  simpl. rewrite Hf. unfold Torch.scatter_1.
  rewrite decide_True by (by rewrite !length_fmap).
  rewrite <-!list_fmap_compose.
  rewrite zip_with_fmap_r, zip_with_diag, mapM_fmap_arg.
  apply mapM_Ok_fmap. intros row Hrow. simpl.
  rewrite <-list_fmap_compose.
  rewrite put_row_fmap_imap by (intros k Hk; rewrite (Hx row Hrow); auto).
  f_equal. apply list_eq. intros k. rewrite !list_lookup_imap.
  destruct (row !! k) as [v|] eqn:Hv; simpl; [|done].
  case_decide; [|done]. simpl.
  by rewrite (list_lookup_total_correct _ _ _ Hv).
Qed.

Lemma activate_total (φ : string → R → R) m (n : nat) x :
  (∀ a l, (a, l) ∈ m → catalog_has φ a ∧ ∀ i, i ∈ l → i < n) →
  disjoint_keys m →
  Forall (λ row, length row = n) x →
  Op.activate m x
  = Ok ((λ row, imap (λ i v, from_option (λ a, φ a v) v (key_of m i)) row) <$> x).
Proof.
  revert x. induction m as [|[a l] m IH]; intros x Hm Hdis Hx; simpl.
  - f_equal. rewrite <-(list_fmap_id x) at 1. apply list_fmap_ext.
    intros _ row _. simpl. apply list_eq. intros k.
    rewrite list_lookup_imap. by destruct (row !! k).
  - destruct (Hm a l) as [(f & Hf & Hpw) Hl]; [by left|].
    destruct Hdis as [Hdis1 Hdis].
    rewrite Hf. simpl.
    pose proof (activate_step (φ a) f l n x Hpw Hl Hx) as Hstep.
    apply bind_Ok in Hstep as (gathered & -> & Hsc). simpl.
    rewrite Hsc. simpl.
    rewrite IH; [|intros; apply Hm; by right|done|]; last first.
    { rewrite Forall_fmap. eapply Forall_impl; [exact Hx|].
      intros row Hrow. simpl. by rewrite length_imap. }
    f_equal. rewrite <-list_fmap_compose. apply list_fmap_ext.
    intros _ row _. simpl. apply list_eq. intros k.
    rewrite !list_lookup_imap. destruct (row !! k) as [v|]; simpl; [|done].
    f_equal. destruct (decide (k ∈ l)) as [Hk|Hk]; simpl; [|done].
    by rewrite (Hdis1 k Hk).
Qed.
End activate_lemmas.

Section forward_lemmas.
Context {R : Type} `{Numeric R} `{Catalog R}.

Lemma gather_2_total (x : list (list R)) (idx : list (list nat)) :
  (∀ row irow k, row ∈ x → irow ∈ idx → k ∈ irow → k < length row) →
  Torch.gather_2 x idx
  = Ok ((λ row : list R, (λ irow : list nat, (row !!!.) <$> irow) <$> idx) <$> x).
Proof.
  intros Hin. unfold Torch.gather_2.
  apply mapM_Ok_fmap. intros row Hrow.
  apply mapM_Ok_fmap. intros irow Hirow.
  apply mapM_Ok_fmap. intros k Hk. apply at_index_total. eauto.
Qed.

Lemma gathered_rows_eq (acts : list string) (op : Op.t R) (row : list R) :
  structured acts op →
  (λ irow : list nat, (((row !!!.) <$> Op.unique_input_indices op) !!!.) <$> irow)
    <$> Op.inverse_input_indices op
  = (λ idxs : list nat, (row !!!.) <$> idxs) <$> Op.input_indices op.
Proof.
  intros Hst. rewrite <-(st_inverse _ _ Hst), <-list_fmap_compose.
  apply list_fmap_ext. intros i irow Hirow. simpl.
  rewrite <-list_fmap_compose. apply list_fmap_ext. intros j k Hk. simpl.
  assert (k < length (Op.unique_input_indices op)) as Hlt.
  { eapply (st_inverse_lt _ _ Hst); by eapply list_elem_of_lookup_2. }
  exact (list_lookup_total_fmap (λ i : nat, row !!! i) _ k Hlt).
Qed.

Lemma shaped_inverse (acts : list string) (op : Op.t R) :
  structured acts op → shaped op →
  length <$> Op.inverse_input_indices op = length <$> Op.weights op ∧
  length (Op.inverse_input_indices op) = length (Op.bias op) ∧
  length (Op.weights op) = length acts ∧ length (Op.bias op) = length acts.
Proof.
  intros Hst [Hw Hb].
  assert (length <$> Op.inverse_input_indices op = length <$> Op.input_indices op) as Hi.
  { rewrite <-(st_inverse _ _ Hst), <-list_fmap_compose.
    apply list_fmap_ext. intros _ irow _. simpl. by rewrite length_fmap. }
  assert (length (Op.weights op) = length (Op.input_indices op)) as Hwl.
  { by rewrite <-(length_fmap length (Op.weights op)), Hw, length_fmap. }
  split_and!.
  - congruence.
  - rewrite Hb, <-(length_fmap length (Op.inverse_input_indices op)), Hi.
    by rewrite length_fmap.
  - rewrite Hwl. apply (st_rows _ _ Hst).
  - rewrite Hb. apply (st_rows _ _ Hst).
Qed.

Lemma length_sums_of (acts : list string) (op : Op.t R) (row : list R) :
  structured acts op → shaped op → length (sums_of op row) = length acts.
Proof.
  intros Hst Hsh. destruct (shaped_inverse acts op Hst Hsh) as (_ & _ & Hw & Hb).
  unfold sums_of. rewrite length_zip_with, length_fmap, length_zip_with, length_fmap.
  rewrite (st_rows _ _ Hst). lia.
Qed.

Lemma weighted_sums_total (acts : list string) (op : Op.t R) (tape : list (list R)) :
  structured acts op → shaped op →
  (∀ row u, row ∈ tape → u ∈ mjoin (Op.input_indices op) → u < length row) →
  Op.weighted_sums op tape = Ok (sums_of op <$> tape).
Proof.
  intros Hst Hsh Hin. pose proof (shaped_inverse acts op Hst Hsh) as (Hiw & Hib & Hw & Hb).
  unfold Op.weighted_sums.
  rewrite index_select_1_total; last first.
  { intros row u Hrow Hu. apply Hin; [done|]. by apply (st_unique _ _ Hst). }
  simpl. rewrite gather_2_total; last first.
  { intros sel irow k (row & -> & Hrow)%list_elem_of_fmap Hirow Hk.
    rewrite length_fmap. by eapply (st_inverse_lt _ _ Hst). }
  simpl. rewrite <-list_fmap_compose.
  unfold Torch.mul_bcast. rewrite decide_True; last first.
  { rewrite Forall_fmap. apply Forall_forall. intros row Hrow. simpl.
    rewrite <-Hiw, <-list_fmap_compose. apply list_fmap_ext.
    intros _ irow _. simpl. by rewrite length_fmap. }
  simpl. unfold Torch.sum_2, Torch.add_bcast.
  rewrite <-!list_fmap_compose. rewrite decide_True; last first.
  { rewrite Forall_fmap. apply Forall_forall. intros row Hrow. simpl.
    rewrite length_fmap, length_zip_with, length_fmap. lia. }
  f_equal. apply list_fmap_ext.
  intros _ row _. simpl. unfold sums_of.
  by rewrite (gathered_rows_eq acts op row Hst).
Qed.

Lemma forward_total (φ : string → R → R) (acts : list string) (op : Op.t R)
    (tape : list (list R)) :
  structured acts op → shaped op →
  (∀ a, a ∈ acts → catalog_has φ a) →
  (∀ row k, row ∈ tape →
     k ∈ mjoin (Op.input_indices op) ∨ k ∈ Op.output_indices op → k < length row) →
  ∃ tape', Op.forward op tape = Ok (tape', op) ∧ length tape' = length tape ∧
    ∀ s row, tape !! s = Some row →
      ∃ row', tape' !! s = Some row' ∧
        Torch.put_row row (Op.output_indices op) (outputs_of φ op row) = Ok row'.
Proof.
  intros Hst Hsh Hcat Hin. unfold Op.forward.
  rewrite (weighted_sums_total acts) by eauto. simpl.
  rewrite (activate_total φ _ (length acts)); last first.
  { rewrite Forall_fmap. apply Forall_forall. intros row _. simpl.
    by apply length_sums_of. }
  { apply (st_disjoint _ _ Hst). }
  { intros a l Hal. destruct (st_keys _ _ Hst a l Hal). split; auto. }
  simpl. rewrite <-list_fmap_compose.
  unfold Torch.index_put_1. rewrite decide_True; last first.
  { split; [by rewrite length_fmap|].
    rewrite Forall_fmap. apply Forall_forall. intros row _. simpl.
    rewrite length_imap, (length_sums_of acts) by done.
    symmetry. apply (st_outs _ _ Hst). }
  rewrite zip_with_fmap_r, zip_with_diag, mapM_fmap_arg.
  destruct (mapM_is_Ok
    ((λ p : list R * list R, Torch.put_row p.1 (Op.output_indices op) p.2)
       ∘ (λ row, (row, outputs_of φ op row))) tape) as [tape' Htape'].
  { intros row Hrow. simpl. apply put_row_is_Ok.
    - intros k Hk. apply Hin; auto.
    - unfold outputs_of. rewrite length_imap, (length_sums_of acts) by done.
      by rewrite (st_outs _ _ Hst). }
  exists tape'. unfold outputs_of in Htape' |- *. simpl in Htape' |- *.
  rewrite Htape'. simpl. split_and!; [done| |].
  - by apply mapM_Ok_length in Htape'.
  - intros s row Hrow.
    destruct (mapM_Ok_lookup_l _ _ _ _ _ Htape' Hrow) as (row' & ? & ?). eauto.
Qed.
End forward_lemmas.

Section activation_index_map.
Context {R : Type} `{Numeric R} `{Catalog R}.
Implicit Types (m : list (string * list nat)).

Lemma key_of_bounded m i j : bounded m i → i ≤ j → key_of m j = None.
Proof.
  induction m as [|[a l] m IH]; intros Hb Hij; simpl; [done|].
  rewrite decide_False.
  - apply IH; [|done]. intros b l' j' ? ?. eapply Hb; [by right|done].
  - intros Hj. assert (j < i); [|lia]. eapply Hb; [by left|done].
Qed.

Lemma elem_of_dict_append a i m b l' :
  (b, l') ∈ Op.dict_append a i m →
  (b, l') ∈ m ∨ (b = a ∧ ∃ l, l' = l ++ [i] ∧ (l = [] ∨ (a, l) ∈ m)).
Proof.
  induction m as [|[k l] m IH]; simpl.
  - intros [= -> ->]%list_elem_of_singleton. right. split; [done|]. exists []. auto.
  - destruct (decide (k = a)) as [->|Hne].
    + intros [[= -> ->]|Hin]%elem_of_cons.
      * right. split; [done|]. exists l. split; [done|]. right. by left.
      * left. by right.
    + intros [[= -> ->]|Hin]%elem_of_cons.
      * left. by left.
      * destruct (IH Hin) as [?|(-> & l0 & -> & [->|?])].
        -- left. by right.
        -- right. split; [done|]. exists []. auto.
        -- right. split; [done|]. exists l0. split; [done|]. right. by right.
Qed.

Lemma bounded_dict_append a i m : bounded m i → bounded (Op.dict_append a i m) (S i).
Proof.
  intros Hb b l' j [Hin|(-> & l & -> & Hl)]%elem_of_dict_append Hj.
  - assert (j < i); [by eapply Hb|lia].
  - apply elem_of_app in Hj as [Hj|Hj%list_elem_of_singleton]; [|lia].
    destruct Hl as [->|Hl]; [by apply elem_of_nil in Hj|].
    assert (j < i); [by eapply Hb|lia].
Qed.

Lemma key_of_dict_append a i m j :
  bounded m i →
  key_of (Op.dict_append a i m) j = if decide (j = i) then Some a else key_of m j.
Proof.
  induction m as [|[k l] m IH]; intros Hb; simpl.
  - destruct (decide (j = i)) as [->|Hne].
    + rewrite decide_True; [done|by left].
    + rewrite decide_False; [done|]. by intros ?%list_elem_of_singleton.
  - assert (bounded m i) as Hb' by (intros b l' j' ? ?; eapply Hb; [by right|done]).
    assert (i ∉ l) as Hil.
    { intros Hil. assert (i < i); [|lia]. eapply Hb; [by left|done]. }
    destruct (decide (k = a)) as [->|Hne]; simpl.
    + destruct (decide (j = i)) as [->|Hji].
      * rewrite decide_True; [done|]. apply elem_of_app. right. by left.
      * destruct (decide (j ∈ l)) as [Hj|Hj].
        -- rewrite decide_True; [done|]. apply elem_of_app. by left.
        -- rewrite decide_False; [done|].
           by intros [?|?%list_elem_of_singleton]%elem_of_app.
    + rewrite IH by done.
      destruct (decide (j ∈ l)) as [Hj|Hj]; [|done].
      rewrite decide_False; [done|]. by intros ->.
Qed.

Lemma disjoint_dict_append a i m :
  bounded m i → disjoint_keys m → disjoint_keys (Op.dict_append a i m).
Proof.
  induction m as [|[k l] m IH]; intros Hb Hd; simpl.
  - split; [done|done].
  - destruct Hd as [Hd1 Hd].
    assert (bounded m i) as Hb' by (intros b l' j' ? ?; eapply Hb; [by right|done]).
    destruct (decide (k = a)) as [->|Hne]; simpl.
    + split; [|done].
      intros j [Hj|Hj%list_elem_of_singleton]%elem_of_app; [by apply Hd1|].
      subst j. by apply (key_of_bounded m i).
    + split; [|by apply IH].
      intros j Hj. rewrite key_of_dict_append by done.
      rewrite decide_False; [by apply Hd1|].
      intros ->. assert (i < i); [|lia]. eapply Hb; [by left|done].
Qed.

Lemma index_activations_spec (g : Graph) (ns : list nat) (i0 : nat) m0 :
  bounded m0 i0 →
  let m := Op.index_activations g i0 ns m0 in
  bounded m (i0 + length ns) ∧
  (disjoint_keys m0 → disjoint_keys m) ∧
  (∀ j, key_of m j =
        if decide (i0 ≤ j)
        then from_option (λ n, Some (activation (node g n))) None (ns !! (j - i0))
        else key_of m0 j) ∧
  (∀ b l, (b, l) ∈ m →
     (∃ l0, (b, l0) ∈ m0) ∨ b ∈ (λ n, activation (node g n)) <$> ns).
Proof.
  revert i0 m0. induction ns as [|n ns IH]; intros i0 m0 Hb; simpl.
  - split_and!.
    + by rewrite Nat.add_0_r.
    + done.
    + intros j. case_decide; [|done].
      by apply (key_of_bounded m0 i0).
    + intros b l ?. left. eauto.
  - destruct (IH (S i0) (Op.dict_append (activation (node g n)) i0 m0))
      as (IH1 & IH2 & IH3 & IH4); [by apply bounded_dict_append|].
    split_and!.
    + by replace (i0 + S (length ns)) with (S i0 + length ns) by lia.
    + intros Hd. apply IH2. by apply disjoint_dict_append.
    + intros j. rewrite IH3, key_of_dict_append by done.
      destruct (decide (S i0 ≤ j)) as [Hj|Hj].
      * rewrite decide_True by lia.
        by replace (j - i0) with (S (j - S i0)) by lia.
      * destruct (decide (j = i0)) as [->|Hne].
        -- rewrite decide_True by lia. by rewrite Nat.sub_diag.
        -- by rewrite decide_False by lia.
    + intros b l Hbl. destruct (IH4 b l Hbl) as [[l0 Hl0]|Hin].
      * apply elem_of_dict_append in Hl0
          as [?|(-> & l1 & -> & Hl1)]; [left; eauto|].
        right. by left.
      * right. by right.
Qed.
End activation_index_map.

Section init_lemmas.
Context {R : Type} `{Numeric R} `{Catalog R}.

Lemma position_spec (u : list nat) (k : nat) :
  k ∈ u → Torch.position u k < length u ∧ u !!! Torch.position u k = k.
Proof.
  intros Hk. unfold Torch.position.
  destruct (list_find_elem_of (λ x, x = k) u k Hk eq_refl) as [[j y] Hj].
  rewrite Hj. simpl. apply list_find_Some in Hj as (Hy & -> & _).
  split; [by eapply lookup_lt_Some|by apply list_lookup_total_correct].
Qed.

Lemma unique_spec (idx : list (list nat)) :
  (∀ irow k, irow ∈ (Torch.unique idx).2 → k ∈ irow →
             k < length (Torch.unique idx).1) ∧
  (λ irow : list nat, ((Torch.unique idx).1 !!!.) <$> irow) <$> (Torch.unique idx).2
    = idx ∧
  (∀ u, u ∈ (Torch.unique idx).1 → u ∈ mjoin idx).
Proof.
  unfold Torch.unique. simpl. split_and!.
  - intros irow k (row & -> & Hrow)%list_elem_of_fmap (u & -> & Hu)%list_elem_of_fmap.
    apply position_spec, elem_of_remove_dups, list_elem_of_join. eauto.
  - rewrite <-list_fmap_compose. rewrite <-(list_fmap_id idx) at 2.
    apply list_fmap_ext. intros i row Hrow. simpl.
    rewrite <-list_fmap_compose. rewrite <-(list_fmap_id row) at 2.
    apply list_fmap_ext. intros j u Hu. simpl.
    apply position_spec, elem_of_remove_dups, list_elem_of_join.
    exists row. split; by eapply list_elem_of_lookup_2.
  - intros u Hu. by apply elem_of_remove_dups.
Qed.

Lemma zero_where_0_Ok (w : list (list R)) (idx : list (list nat)) (w' : list (list R)) :
  Torch.zero_where_0 w idx = Ok w' →
  length <$> w' = length <$> idx ∧
  ∀ i j ws idxs, w' !! i = Some ws → idx !! i = Some idxs →
                 idxs !! j = Some 0 → ws !! j = Some zero.
Proof.
  unfold Torch.zero_where_0. destruct (decide _) as [Hsh|]; [|done].
  intros [= <-]. split.
  - apply list_eq. intros i. rewrite !list_lookup_fmap, lookup_zip_with.
    assert ((length <$> w) !! i = (length <$> idx) !! i) as Hi by by rewrite Hsh.
    rewrite !list_lookup_fmap in Hi.
    destruct (w !! i) as [ws|], (idx !! i) as [idxs|]; simpl in *; try done.
    injection Hi as Hi. rewrite length_zip_with. f_equal. lia.
  - intros i j ws idxs Hws Hidxs Hj.
    apply lookup_zip_with_Some in Hws as (ws0 & idxs0 & -> & Hws0 & Hidxs0).
    rewrite Hidxs in Hidxs0. injection Hidxs0 as <-.
    assert ((length <$> w) !! i = (length <$> idx) !! i) as Hi by by rewrite Hsh.
    rewrite !list_lookup_fmap, Hws0, Hidxs in Hi. simpl in Hi. injection Hi as Hi.
    destruct (lookup_lt_is_Some_2 ws0 j) as [x Hx].
    { rewrite Hi. by eapply lookup_lt_Some. }
    rewrite lookup_zip_with, Hx, Hj. simpl. done.
Qed.

(** What a successful [Op.__init__] has set up. *)
Lemma init_Ok_inv (g : Graph) (st : NodeStore) (ns : list nat) (ini : string)
    (op : Op.t R) (st' : NodeStore) :
  Op.init g st ns ini = Ok (op, st') →
  ∃ rows,
    mapM (λ n, mapM (Op.tape_index_of st) (inputs (node g n))) ns = Ok rows ∧
    mapM (Op.tape_index_of st) ns = Ok (Op.output_indices op) ∧
    ns ≠ [] ∧
    Op.nodes op = ns ∧
    Op.input_indices op = Torch.pad_sequence rows ∧
    st' = {| tape_index := tape_index st;
             assigned := list_to_set ns ∪ assigned st |} ∧
    structured ((λ n, activation (node g n)) <$> ns) op ∧
    shaped op ∧
    Op.bias op = replicate (length ns) zero ∧
    (∀ i j ws idxs, Op.weights op !! i = Some ws →
       Op.input_indices op !! i = Some idxs → idxs !! j = Some 0 →
       ws !! j = Some zero).
Proof.
  unfold Op.init. intros Hinit.
  apply bind_Ok in Hinit as (rows & Hrows & Hinit).
  apply bind_Ok in Hinit as (outs & Houts & Hinit).
  destruct (decide (ns = [])) as [|Hne]; [done|].
  apply bind_Ok in Hinit as (f & Hf & Hinit).
  apply bind_Ok in Hinit as (w & Hw & Hinit).
  injection Hinit as <- <-. simpl.
  apply zero_where_0_Ok in Hw as [Hwsh Hwz].
  pose proof (mapM_Ok_length _ _ _ Hrows) as Hlrows.
  pose proof (mapM_Ok_length _ _ _ Houts) as Hlouts.
  assert (length (Torch.pad_sequence rows) = length ns) as Hlpad.
  { unfold Torch.pad_sequence. by rewrite length_fmap. }
  destruct (unique_spec (Torch.pad_sequence rows)) as (Hu1 & Hu2 & Hu3).
  destruct (index_activations_spec g ns 0 [])
    as (Hb & Hd & Hk & Hkeys).
  { intros a l j Hal. by apply elem_of_nil in Hal. }
  exists rows. split_and!; try done.
  - constructor; simpl; try done.
    + by rewrite length_fmap.
    + by rewrite length_fmap.
    + intros i a Hi. rewrite Hk, decide_True by lia.
      rewrite Nat.sub_0_r. rewrite list_lookup_fmap in Hi.
      destruct (ns !! i); simpl in *; congruence.
    + intros a l Hal. split.
      * destruct (Hkeys a l Hal) as [[l0 Hl0]|?]; [by apply elem_of_nil in Hl0|done].
      * intros i Hi. rewrite length_fmap. by eapply (Hb a l i).
    + by apply Hd.
  - split; simpl; [done|]. by rewrite length_replicate.
  - by rewrite Hlpad.
Qed.
End init_lemmas.

Section op_results.
Context {R : Type} `{Numeric R} `{Catalog R}.

Lemma structured_set_parameters (acts : list string) (op : Op.t R) w b :
  structured acts op → structured acts (Op.set_parameters op w b).
Proof. intros []. by constructor. Qed.

(** Adding zeros to a sum that adding zero leaves as it is. *)
Lemma foldl_add_zeros (acc : R) (l : list R) :
  add acc zero = acc → Forall (λ x, x = zero) l → foldl add acc l = acc.
Proof.
  intros Hadd Hl. induction Hl as [|x l -> _ IH]; simpl; [done|].
  by rewrite Hadd.
Qed.

(** The sum the code forms, product by product, is the weighted sum. *)
Lemma weighted_sum_code (ws : list R) (idxs : list nat) (row : list R) :
  foldl add zero (zip_with mul ((row !!!.) <$> idxs) ws) = weighted_sum ws idxs row.
Proof.
  unfold weighted_sum. f_equal.
  revert ws. induction idxs as [|u idxs IH]; intros [|w ws]; simpl; try done.
  by rewrite IH.
Qed.

(** A weighted sum continues the sum over its first [r] slots. *)
Lemma weighted_sum_take_drop (ws : list R) (idxs : list nat) (row : list R) (r : nat) :
  weighted_sum ws idxs row
  = foldl add (weighted_sum (take r ws) (take r idxs) row)
      (zip_with (λ w u, mul (row !!! u) w) (drop r ws) (drop r idxs)).
Proof.
  unfold weighted_sum.
  rewrite <-(take_drop r (zip_with _ ws idxs)) at 1.
  by rewrite zip_with_take, zip_with_drop, foldl_app.
Qed.

(** Slots whose product is zero add nothing to a weighted sum that adding
    zero leaves as it is. *)
Lemma weighted_sum_split (ws : list R) (idxs : list nat) (row : list R) (r : nat) :
  add (weighted_sum (take r ws) (take r idxs) row) zero
  = weighted_sum (take r ws) (take r idxs) row →
  (∀ j w u, r ≤ j → ws !! j = Some w → idxs !! j = Some u →
            mul (row !!! u) w = zero) →
  weighted_sum ws idxs row = weighted_sum (take r ws) (take r idxs) row.
Proof.
  intros Hadd Hz. rewrite (weighted_sum_take_drop ws idxs row r).
  apply foldl_add_zeros; [done|].
  apply Forall_forall. intros x Hx.
  apply list_elem_of_lookup in Hx as [j Hj].
  apply lookup_zip_with_Some in Hj as (w & u & -> & Hw & Hu).
  rewrite lookup_drop in Hw. rewrite lookup_drop in Hu. eapply Hz; [|done..]. lia.
Qed.

(** Padded slots, which hold the index 0 and the weight zero, add nothing
    to a weighted sum when the product of tape position 0 with zero is
    zero and adding zero leaves the sum over the other slots as it is. *)
Lemma weighted_sum_padding (ws : list R) (idxs : list nat) (row : list R) (r : nat) :
  mul (row !!! 0) zero = zero →
  add (weighted_sum (take r ws) (take r idxs) row) zero
  = weighted_sum (take r ws) (take r idxs) row →
  (∀ j, r ≤ j → j < length ws → ws !! j = Some zero) →
  (∀ j, r ≤ j → j < length idxs → idxs !! j = Some 0) →
  weighted_sum ws idxs row = weighted_sum (take r ws) (take r idxs) row.
Proof.
  intros Hmul Hadd Hz Hi. apply weighted_sum_split; [done|].
  intros j w u Hj Hw Hu. rewrite Hz in Hw; [|done|by eapply lookup_lt_Some].
  rewrite Hi in Hu; [|done|by eapply lookup_lt_Some].
  injection Hw as <-. injection Hu as <-. apply Hmul.
Qed.

(** On a tape row with zero at position 0, the weighted sum over an index
    row that is padded with the index 0 is the padded sum of the values
    at the real indices. *)
Lemma weighted_sum_padded (ws : list R) (idxs real : list nat) (row : list R) :
  length ws = length idxs → length real ≤ length idxs →
  take (length real) idxs = real →
  (∀ j, length real ≤ j → j < length idxs → idxs !! j = Some 0) →
  row !! 0 = Some zero →
  weighted_sum ws idxs row = padded_sum ((row !!!.) <$> real) ws.
Proof.
  intros Hlen Hle Htake Hpad Hz.
  assert (idxs = real ++ replicate (length idxs - length real) 0) as Hidxs.
  { apply list_eq. intros j. destruct (decide (j < length real)) as [Hj|Hj].
    - rewrite lookup_app_l by done.
      rewrite <-(lookup_take_lt idxs (length real) j) by done. by rewrite Htake.
    - rewrite lookup_app_r by lia. destruct (decide (j < length idxs)) as [Hj'|Hj'].
      + rewrite Hpad by lia. symmetry. apply lookup_replicate_2. lia.
      + rewrite lookup_ge_None_2 by lia. symmetry. apply lookup_ge_None_2.
        rewrite length_replicate. lia. }
  rewrite <-weighted_sum_code. unfold padded_sum. rewrite length_fmap, Hlen.
  rewrite Hidxs at 1. rewrite fmap_app, fmap_replicate.
  by rewrite (list_lookup_total_correct _ _ _ Hz).
Qed.

(** Over a row of weights and indices whose slots from [r] on are
    padded, the weighted sum continues the sum over the first [r] slots
    by the product of tape position 0 with zero, once per padded slot. *)
Lemma weighted_sum_padded_slots (ws : list R) (idxs : list nat) (row : list R)
    (r : nat) :
  length ws = length idxs →
  (∀ j, r ≤ j → j < length ws → ws !! j = Some zero) →
  (∀ j, r ≤ j → j < length idxs → idxs !! j = Some 0) →
  weighted_sum ws idxs row
  = foldl add (weighted_sum (take r ws) (take r idxs) row)
      (replicate (length ws - r) (mul (row !!! 0) zero)).
Proof.
  intros Hlen Hz Hi. rewrite (weighted_sum_take_drop ws idxs row r). f_equal.
  assert (drop r ws = replicate (length ws - r) zero) as ->.
  { symmetry. apply replicate_as_elem_of. split; [by rewrite length_drop|].
    intros y [j Hj]%list_elem_of_lookup. rewrite lookup_drop in Hj.
    rewrite Hz in Hj; [congruence|lia|by eapply lookup_lt_Some]. }
  assert (drop r idxs = replicate (length ws - r) 0) as ->.
  { symmetry. apply replicate_as_elem_of. split; [rewrite length_drop; lia|].
    intros y [j Hj]%list_elem_of_lookup. rewrite lookup_drop in Hj.
    rewrite Hi in Hj; [congruence|lia|by eapply lookup_lt_Some]. }
  by rewrite zip_with_replicate.
Qed.

(** The padded sum is the sum over the node's own inputs when the
    product of zero with every padded weight is zero and, if there is a
    padded slot, adding zero leaves that sum as it is. *)
Lemma padded_sum_own (vals ws : list R) :
  length vals ≤ length ws →
  (∀ w, w ∈ drop (length vals) ws → mul zero w = zero) →
  (length vals < length ws →
   add (foldl add zero (zip_with mul vals ws)) zero
   = foldl add zero (zip_with mul vals ws)) →
  padded_sum vals ws = foldl add zero (zip_with mul vals ws).
Proof.
  intros Hle Hmul Hadd. unfold padded_sum.
  rewrite zip_with_app_l, foldl_app, zip_with_take_r.
  destruct (decide (length vals < length ws)) as [Hlt|Hge].
  - apply foldl_add_zeros; [by apply Hadd|].
    apply Forall_forall. intros x [j Hj]%list_elem_of_lookup.
    apply lookup_zip_with_Some in Hj as (z & w & -> & Hz & Hw).
    apply lookup_replicate in Hz as [-> _].
    apply Hmul. by eapply list_elem_of_lookup_2.
  - by replace (length ws - length vals) with 0 by lia.
Qed.

Lemma sums_of_lookup (op : Op.t R) (row : list R) i ws idxs b :
  Op.weights op !! i = Some ws → Op.input_indices op !! i = Some idxs →
  Op.bias op !! i = Some b →
  sums_of op row !! i = Some (add (weighted_sum ws idxs row) b).
Proof.
  intros Hws Hidxs Hb. unfold sums_of.
  rewrite lookup_zip_with, list_lookup_fmap, lookup_zip_with, list_lookup_fmap.
  rewrite Hidxs, Hws, Hb. simpl. by rewrite weighted_sum_code.
Qed.

(** Positions beyond a node's own inputs hold the padding index. *)
Lemma pad_sequence_lookup (rows : list (list nat)) i row :
  rows !! i = Some row →
  ∃ idxs, Torch.pad_sequence rows !! i = Some idxs ∧
          length row ≤ length idxs ∧ take (length row) idxs = row ∧
          ∀ j, length row ≤ j → j < length idxs → idxs !! j = Some 0.
Proof.
  intros Hrow. unfold Torch.pad_sequence. rewrite list_lookup_fmap, Hrow. simpl.
  eexists. split; [done|]. split_and!.
  - rewrite length_app. lia.
  - by rewrite take_app_length.
  - intros j Hj1 Hj2. rewrite lookup_app_r by done.
    rewrite length_app, length_replicate in Hj2.
    apply lookup_replicate_2. lia.
Qed.
End op_results.

Section construct_lemmas.
Context {R : Type} `{Numeric R} `{Catalog R}.

Lemma index_inputs_spec (ns : list nat) (st : NodeStore) (i : nat) st' i' :
  Construct.index_inputs ns st i = (st', i') →
  i' = i + length ns ∧
  assigned st' = list_to_set ns ∪ assigned st ∧
  (∀ n k, tape_index st' !! n = Some k →
          tape_index st !! n = Some k ∨ (n ∈ ns ∧ i ≤ k < i')) ∧
  (∀ n, n ∈ ns → is_Some (tape_index st' !! n)) ∧
  (∀ n, is_Some (tape_index st !! n) → is_Some (tape_index st' !! n)).
Proof.
  revert st i. induction ns as [|n0 ns IH]; intros st i; simpl.
  - intros [= <- <-]. split_and!; [lia|by rewrite (left_id_L ∅ (∪))|auto| |done].
    intros n Hn. by apply elem_of_nil in Hn.
  - intros (-> & Hasg & Htidx & Hin & Hmono)%IH. simpl in *. split_and!.
    + lia.
    + rewrite Hasg. simpl.
      by rewrite (assoc_L (∪)), (comm_L (∪) (list_to_set ns)).
    + intros n k Hk. destruct (Htidx n k Hk) as [Hk'|[Hn Hr]].
      * destruct (decide (n0 = n)) as [->|Hne].
        -- rewrite lookup_insert_eq in Hk'. injection Hk' as <-.
           right. split; [by left|lia].
        -- rewrite lookup_insert_ne in Hk' by done. by left.
      * right. split; [by right|lia].
    + intros n [->|Hn]%elem_of_cons; [|by apply Hin].
      apply Hmono. rewrite lookup_insert_eq. by eexists.
    + intros n Hn. apply Hmono.
      destruct (decide (n0 = n)) as [->|Hne].
      * rewrite lookup_insert_eq. by eexists.
      * by rewrite lookup_insert_ne.
Qed.

Lemma scan_spec (g : Graph) (asg : gset nat) (ns : list nat)
    (tidx : gmap nat nat) (i : nat) (acc : list nat) tidx' i' acc' :
  Construct.scan g asg ns tidx i acc = (tidx', i', acc') →
  acc' = acc ++ filter (λ n, Construct.eligible g asg n) ns ∧
  i' = i + length (filter (λ n, Construct.eligible g asg n) ns) ∧
  (∀ n k, tidx' !! n = Some k →
     tidx !! n = Some k ∨
     (n ∈ filter (λ n, Construct.eligible g asg n) ns ∧ i ≤ k < i')) ∧
  (∀ n, n ∈ filter (λ n, Construct.eligible g asg n) ns → is_Some (tidx' !! n)) ∧
  (∀ n, is_Some (tidx !! n) → is_Some (tidx' !! n)).
Proof.
  revert tidx i acc. induction ns as [|n0 ns IH]; intros tidx i acc; simpl.
  - intros [= <- <- <-]. rewrite app_nil_r. split_and!; [done|simpl; lia|auto| |done].
    intros n Hn. by apply elem_of_nil in Hn.
  - destruct (Construct.eligible g asg n0) eqn:He.
    + rewrite filter_cons_True by (by apply Is_true_true_2).
      intros (-> & -> & Htidx & Hin & Hmono)%IH. split_and!.
      * by rewrite <-app_assoc.
      * simpl. lia.
      * intros n k Hk. destruct (Htidx n k Hk) as [Hk'|[Hn Hr]].
        -- destruct (decide (n0 = n)) as [->|Hne].
           ++ rewrite lookup_insert_eq in Hk'. injection Hk' as <-.
              right. split; [by left|simpl; lia].
           ++ rewrite lookup_insert_ne in Hk' by done. by left.
        -- right. split; [by right|simpl; lia].
      * intros n [->|Hn]%elem_of_cons; [|by apply Hin].
        apply Hmono. rewrite lookup_insert_eq. by eexists.
      * intros n Hn. apply Hmono.
        destruct (decide (n0 = n)) as [->|Hne].
        -- rewrite lookup_insert_eq. by eexists.
        -- by rewrite lookup_insert_ne.
    + rewrite filter_cons_False by (by apply Is_true_false_2). apply IH.
Qed.

Lemma rollback_spec (g : Graph) (f : list string) (ns : list nat) (i : nat) :
  Construct.rollback g f ns i
  = i - length (filter (λ n, op_id (node g n) ∈ f) ns).
Proof.
  unfold Construct.rollback. revert i.
  induction ns as [|n ns IH]; intros i; simpl; [lia|].
  destruct (decide (op_id (node g n) ∈ f)) as [Hn|Hn].
  - rewrite filter_cons_True by done. rewrite IH. simpl. lia.
  - rewrite filter_cons_False by done. by rewrite IH.
Qed.

Lemma length_filter_split {A} (P : A → Prop) `{∀ x, Decision (P x)} (l : list A) :
  length (filter P l) + length (filter (λ x, ¬ P x) l) = length l.
Proof.
  rewrite <-length_app. apply Permutation_length, filter_app_complement.
Qed.

Lemma list_remove_Ok (x : nat) (l l' : list nat) :
  Construct.list_remove x l = Ok l' → l ≡ₚ x :: l'.
Proof.
  revert l'. induction l as [|y l IH]; intros l'; simpl; [done|].
  destruct (decide (y = x)) as [->|Hne].
  - by intros [= <-].
  - intros (l'' & Hl'' & [= <-])%bind_Ok.
    rewrite (IH l'' Hl''). apply Permutation_swap.
Qed.

Lemma remove_all_Ok (xs l l' : list nat) :
  Construct.remove_all xs l = Ok l' → l ≡ₚ xs ++ l'.
Proof.
  revert l. induction xs as [|x xs IH]; intros l; simpl.
  - by intros [= <-].
  - intros (l1 & Hl1%list_remove_Ok & Hl'%IH)%bind_Ok.
    by rewrite Hl1, Hl'.
Qed.
End construct_lemmas.

Section construct_invariant.
Context {R : Type} `{Numeric R} `{Catalog R}.

Lemma tape_index_of_Ok (st : NodeStore) (n k : nat) :
  Op.tape_index_of st n = Ok k ↔ tape_index st !! n = Some k.
Proof.
  unfold Op.tape_index_of. destruct (tape_index st !! n); simpl; split; congruence.
Qed.

Lemma init_op_ok (g : Graph) (ts : nat) (st : NodeStore) (ns : list nat)
    (ini : string) (op : Op.t R) (st' : NodeStore) :
  Op.init g st ns ini = Ok (op, st') →
  1 ≤ ts →
  (∀ n k, tape_index st !! n = Some k → 1 ≤ k < ts) →
  (∀ n, n ∈ ns → n ∈ hidden_nodes g ++ output_nodes g) →
  op_ok g ts op.
Proof.
  intros (rows & Hrows & Houts & Hne & Hnodes & Hidx & -> & Hst & Hsh & _)%init_Ok_inv
    Hts Hrange Hns.
  unfold op_ok. rewrite Hnodes. split_and!; [done..| |].
  - intros k [j Hj]%list_elem_of_lookup.
    destruct (mapM_Ok_lookup_r _ _ _ _ _ Houts Hj) as (n & _ & Hn%tape_index_of_Ok).
    eauto.
  - rewrite Hidx. intros u (idxs & Hu & [i Hi]%list_elem_of_lookup)%list_elem_of_join.
    unfold Torch.pad_sequence in Hi. rewrite list_lookup_fmap in Hi.
    destruct (rows !! i) as [row|] eqn:Hrow; simpl in Hi; [|done].
    injection Hi as <-.
    apply elem_of_app in Hu as [Hu|Hu].
    + destruct (mapM_Ok_lookup_r _ _ _ _ _ Hrows Hrow) as (n & _ & Hn).
      apply list_elem_of_lookup in Hu as [j Hj].
      destruct (mapM_Ok_lookup_r _ _ _ _ _ Hn Hj) as (p & _ & Hp%tape_index_of_Ok).
      apply Hrange in Hp. lia.
    + apply elem_of_replicate in Hu as [-> _]. lia.
Qed.

(** What is left of a round's candidates once the failed op ids are
    taken out, and the index counter after the roll-back. *)
Lemma survivors_spec (g : Graph) (f : list string) (cand : list nat) (i : nat) :
  let i2 := if decide (f ≠ []) then Construct.rollback g f cand (i + length cand)
            else i + length cand in
  let surv := if decide (f ≠ [])
              then filter (λ n, op_id (node g n) ∉ f) cand else cand in
  i2 = i + length surv ∧ ∀ n, n ∈ surv → n ∈ cand.
Proof.
  simpl. destruct (decide (f ≠ [])) as [Hf|Hf]; [|done].
  rewrite rollback_spec. split.
  - pose proof (length_filter_split (λ n, op_id (node g n) ∈ f) cand) as Hsplit.
    cbv beta in Hsplit. lia.
  - intros n Hn. by apply list_elem_of_filter in Hn as [_ ?].
Qed.

Lemma round_inv (g : Graph) (ts : nat) (ini : string)
    (m : gmap string (list nat)) (st st' : Construct.locals R) :
  loop_inv g ts st → Construct.round g ini m st = Ok st' → loop_inv g ts st'.
Proof.
  intros (Hi & Hts & Hrange & Hasg & Hrem & Hops). unfold Construct.round.
  destruct (Construct.scan _ _ _ _ _ _) as [[tidx i1] cand] eqn:Hscan.
  apply scan_spec in Hscan as (Hcand & -> & Htidx & Hin & Hmono). simpl in Hcand.
  intros (fails0 & _ & (fails & _ & Hround)%bind_Ok)%bind_Ok.
  pose proof (length_filter_split
    (λ n, Construct.eligible g (assigned (Construct.store st)) n)
    (Construct.remaining_nodes st)) as Hlen.
  rewrite <-Hcand in Hlen, Htidx, Hin. rewrite <-Hcand in Hround.
  destruct (survivors_spec g fails cand (Construct.i st)) as [Hi2 Hsurv].
  revert Hround Hi2 Hsurv.
  generalize (if decide (fails ≠ [])
              then Construct.rollback g fails cand (Construct.i st + length cand)
              else Construct.i st + length cand).
  generalize (if decide (fails ≠ [])
              then filter (λ n, op_id (node g n) ∉ fails) cand else cand).
  intros surv i2 Hround -> Hsurv.
  apply bind_Ok in Hround as (remaining & Hperm%remove_all_Ok & Hround).
  assert (length (Construct.remaining_nodes st) = length surv + length remaining)
    as Hlrem by by rewrite Hperm, length_app.
  assert (∀ n k, tidx !! n = Some k → 1 ≤ k < ts) as Hrange'.
  { intros n k Hk. destruct (Htidx n k Hk) as [Hk'|[_ Hk']]; [eauto|lia]. }
  assert (∀ n, n ∈ remaining → n ∈ hidden_nodes g ++ output_nodes g) as Hrem'.
  { intros n Hn. apply Hrem. rewrite Hperm. apply elem_of_app. by right. }
  assert (∀ n, n ∈ surv → n ∈ hidden_nodes g ++ output_nodes g) as Hsurv'.
  { intros n Hn. apply Hrem. rewrite Hperm. apply elem_of_app. by left. }
  destruct (decide (surv ≠ [])) as [Hne|Hemp].
  - apply bind_Ok in Hround as ([op store2] & Hinit & [= <-]).
    pose proof (init_op_ok g ts _ _ _ _ _ Hinit) as Hop.
    apply init_Ok_inv in Hinit as (_ & _ & _ & _ & _ & _ & -> & _).
    unfold loop_inv. simpl. split_and!; [lia|lia|done| |done|].
    + intros n [Hn%elem_of_list_to_set|Hn]%elem_of_union; [|by apply Hmono, Hasg].
      by apply Hin, Hsurv.
    + apply Forall_app. split; [done|]. constructor; [|done].
      apply Hop; [lia|done|done].
  - injection Hround as <-. unfold loop_inv. simpl.
    split_and!; [lia|lia|done| |done|done].
    intros n Hn. by apply Hmono, Hasg.
Qed.

Lemma loop_inv_end (fuel : nat) (g : Graph) (ts : nat) (ini : string)
    (m : gmap string (list nat)) (st st' : Construct.locals R) :
  loop_inv g ts st → Construct.loop fuel g ini m st = Some (Ok st') →
  loop_inv g ts st' ∧ Construct.remaining_nodes st' = [].
Proof.
  revert st. induction fuel as [|fuel IH]; intros st Hinv; simpl.
  - destruct (Construct.remaining_nodes st) eqn:Hrem; [|done].
    by intros [= <-].
  - destruct (Construct.remaining_nodes st) eqn:Hrem; [by intros [= <-]|].
    destruct (Construct.round g ini m st) as [st1|e] eqn:Hround; [|done].
    apply IH. by eapply round_inv.
Qed.

Lemma entry_inv (g : Graph) :
  loop_inv g (length (input_nodes g ++ hidden_nodes g ++ output_nodes g) + 1)
           (Construct.entry (R:=R) g fresh_store).
Proof.
  unfold Construct.entry.
  destruct (Construct.index_inputs _ _ _) as [st1 i1] eqn:Hin.
  apply index_inputs_spec in Hin as (-> & Hasg & Htidx & Hsome & _).
  unfold loop_inv. simpl. rewrite !length_app. split_and!; [lia|lia| | |done|done].
  - intros n k Hk. destruct (Htidx n k Hk) as [Hk'|[_ Hk']]; [done|lia].
  - intros n Hn. apply Hsome. rewrite Hasg in Hn.
    apply elem_of_union in Hn as [Hn%elem_of_list_to_set|Hn]; [done|].
    by apply elem_of_empty in Hn.
Qed.

Lemma length_insert_by (key : nat → nat) (x : nat) (l : list nat) :
  length (Construct.insert_by key x l) = S (length l).
Proof.
  induction l as [|y l IH]; simpl; [done|].
  destruct (decide _); simpl; [done|]. by rewrite IH.
Qed.

Lemma length_sorted (key : nat → nat) (l : list nat) :
  length (Construct.sorted key l) = length l.
Proof.
  induction l as [|x l IH]; simpl; [done|].
  unfold Construct.sorted in *. simpl. by rewrite length_insert_by, IH.
Qed.

(** [__init__] leaves a model that satisfies the model invariant, with
    no cached tape and no optimizer or loss configured. *)
Lemma init_model_ok (fuel : nat) (g : Graph) (ini : string) (m : Model.t R) :
  Model.init fuel g ini = Some (Ok m) →
  model_ok m ∧ Model.graph m = g ∧ Model.tape m = None ∧
  Model.optimizer m = None ∧ Model.loss_function m = None ∧
  Model.input_size m = length (input_nodes g) ∧
  Model.output_size m = length (output_nodes g).
Proof.
  unfold Model.init, Model.construct.
  destruct (Construct.loop _ _ _ _ _) as [[st'|e]|] eqn:Hloop; [|done..].
  apply loop_inv_end with (ts := length (input_nodes g ++ hidden_nodes g ++ output_nodes g) + 1)
    in Hloop as [(Hi & Hts & Hrange & Hasg & Hrem & Hops) Hnil]; [|apply entry_inv].
  destruct (mapM _ _) as [idx|e] eqn:Hidx; simpl; [|done].
  intros [= <-]. simpl. split_and!; try done.
  unfold model_ok. simpl. split_and!; try done.
  - rewrite !length_app. lia.
  - intros k [j Hj]%list_elem_of_lookup.
    destruct (mapM_Ok_lookup_r _ _ _ _ _ Hidx Hj) as (n & _ & Hn%tape_index_of_Ok).
    apply Hrange in Hn. lia.
  - apply mapM_Ok_length in Hidx. by rewrite Hidx, length_sorted.
Qed.
End construct_invariant.

Section forward_pass.
Context {R : Type} `{Numeric R} `{Catalog R}.

Lemma initial_tape_ok (m : Model.t R) (b : nat) :
  model_ok m → tape_ok b (Model.tape_size m) (Model.initial_tape m b).
Proof.
  intros (Hts & _ & _ & _ & Hcache & _).
  assert (tape_ok b (Model.tape_size m) (Torch.zeros b (Model.tape_size m))) as Hz.
  { unfold Torch.zeros. split; [by rewrite length_replicate|].
    apply Forall_forall. intros row [-> _]%elem_of_replicate.
    rewrite length_replicate. split; [done|]. apply lookup_replicate_2. lia. }
  unfold Model.initial_tape. destruct (Model.tape m) as [tp|] eqn:Htp; [|done].
  destruct (decide (length tp = b)) as [Hb|]; [|done].
  unfold Torch.fill_zero. split; [by rewrite length_fmap|].
  rewrite Forall_fmap. eapply Forall_impl; [by apply Hcache|].
  intros row Hrow. simpl. rewrite length_fmap. split; [done|].
  rewrite list_lookup_fmap. destruct row; simpl in *; [lia|done].
Qed.

Lemma write_slice_ok (vals row : list R) :
  1 + length vals ≤ length row →
  length (Model.write_slice 1 vals row) = length row ∧
  Model.write_slice 1 vals row !! 0 = row !! 0.
Proof.
  intros Hlen. unfold Model.write_slice. split.
  - rewrite !length_app, length_take, length_drop. lia.
  - destruct row; simpl in *; [lia|done].
Qed.

Lemma length_join_replicate (n : nat) (l : list R) :
  length (mjoin (replicate n l)) = n * length l.
Proof. induction n as [|n IH]; simpl; [done|]. by rewrite length_app, IH. Qed.

Lemma write_inputs_ok (tp : list (list R)) (isz b c ts : nat) (d : list R) tp' :
  isz + 1 ≤ ts → tape_ok b ts tp →
  Model.write_inputs tp isz b c d = Ok tp' → tape_ok b ts tp'.
Proof.
  intros Hts [Hb Hrows]. unfold Model.write_inputs.
  assert (∀ (v : list R → list R),
    (∀ xrow, xrow ∈ Model.rows_of b c d → length (v xrow) ≤ isz) →
    tape_ok b ts (zip_with (λ row xrow, Model.write_slice 1 (v xrow) row) tp
                    (Model.rows_of b c d))) as Hgen.
  { intros v Hv. split.
    - unfold Model.rows_of.
      rewrite length_zip_with, length_fmap, length_seq. lia.
    - apply Forall_forall. intros row' [s Hs]%list_elem_of_lookup.
      apply lookup_zip_with_Some in Hs as (row & xrow & -> & Hrow & Hxrow).
      rewrite Forall_forall in Hrows.
      destruct (Hrows row) as [Hl Hz0]; [by eapply list_elem_of_lookup_2|].
      destruct (write_slice_ok (v xrow) row) as [-> ->]; [|done].
      assert (length (v xrow) ≤ isz); [|lia].
      apply Hv. by eapply list_elem_of_lookup_2. }
  destruct (decide (c = isz)) as [->|Hc].
  - intros [= <-]. apply (Hgen (λ xrow, xrow)).
    intros xrow (r & -> & _)%list_elem_of_fmap. rewrite length_take. lia.
  - destruct (decide (c = 1)) as [->|]; [|done].
    intros [= <-]. apply (Hgen (λ xrow, mjoin (replicate isz xrow))).
    intros xrow (r & -> & _)%list_elem_of_fmap.
    rewrite length_join_replicate, length_take. nia.
Qed.

Lemma op_forward_ok (φ : string → R → R) (g : Graph) (b ts : nat)
    (op : Op.t R) (tp : list (list R)) :
  activations_known φ g → op_ok g ts op → tape_ok b ts tp →
  ∃ tp', Op.forward op tp = Ok (tp', op) ∧ tape_ok b ts tp'.
Proof.
  intros Hact (Hst & Hsh & Hnodes & Houts & Hins) [Hb Hrows].
  rewrite Forall_forall in Hrows.
  destruct (forward_total φ _ op tp Hst Hsh) as (tp' & Hfw & Hlen & Hrow').
  { intros a (n & -> & Hn)%list_elem_of_fmap. by apply Hact, Hnodes. }
  { intros row k Hrow Hk. destruct (Hrows row Hrow) as [-> _].
    destruct Hk as [Hk|Hk]; [by apply Hins|]. apply Houts in Hk. lia. }
  exists tp'. split; [done|]. split; [lia|].
  apply Forall_forall. intros row' [s Hs]%list_elem_of_lookup.
  destruct (lookup_lt_is_Some_2 tp s) as [row Hrow].
  { rewrite <-Hlen. by eapply lookup_lt_Some. }
  destruct (Hrow' s row Hrow) as (row'' & Hs' & Hput).
  rewrite Hs in Hs'. injection Hs' as <-.
  apply put_row_Ok_inv in Hput as (Hl & _ & _ & Hframe).
  destruct (Hrows row) as [Hl0 Hz0]; [by eapply list_elem_of_lookup_2|].
  split; [lia|]. rewrite Hframe; [done|].
  intros Hk0%Houts. lia.
Qed.

Lemma run_ops_ok (φ : string → R → R) (g : Graph) (b ts : nat)
    (os : list (Op.t R)) (tp : list (list R)) :
  activations_known φ g → Forall (op_ok g ts) os → tape_ok b ts tp →
  ∃ tp', Model.run_ops os tp = Ok (tp', os) ∧ tape_ok b ts tp'.
Proof.
  intros Hact Hos. revert tp. induction Hos as [|op os Hop _ IH]; intros tp Htp; simpl.
  - by exists tp.
  - destruct (op_forward_ok φ g b ts op tp) as (tp1 & -> & Htp1); [done..|].
    simpl. destruct (IH tp1 Htp1) as (tp2 & -> & Htp2). simpl. by exists tp2.
Qed.

(** After any prefix of the operations the tape is still in order. *)
Lemma run_ops_prefix_ok (φ : string → R → R) (g : Graph) (b ts j : nat)
    (os os' : list (Op.t R)) (tp tp' : list (list R)) :
  activations_known φ g → Forall (op_ok g ts) os → tape_ok b ts tp →
  Model.run_ops (take j os) tp = Ok (tp', os') → tape_ok b ts tp'.
Proof.
  intros Hact Hos Htp Hrun.
  destruct (run_ops_ok φ g b ts (take j os) tp) as (tp'' & Hrun' & Hok);
    [done|by apply Forall_take|done|].
  rewrite Hrun in Hrun'. by injection Hrun' as -> _.
Qed.
End forward_pass.

Section forward_frame.
Context {R : Type} `{Numeric R} `{Catalog R}.

(** What any successful [Op.forward] has done to the tape. *)
Lemma forward_Ok_inv (op op' : Op.t R) (tape tape' : list (list R)) :
  Op.forward op tape = Ok (tape', op') →
  op' = op ∧ length tape' = length tape ∧
  ∀ s row', tape' !! s = Some row' →
    ∃ row, tape !! s = Some row ∧ length row' = length row ∧
           ∀ k, k ∉ Op.output_indices op → row' !! k = row !! k.
Proof.
  unfold Op.forward.
  intros (x & _ & (x' & _ & (tp & Hput & [= <- <-])%bind_Ok)%bind_Ok)%bind_Ok.
  apply index_put_1_Ok_inv in Hput as (Hlen & _ & Hrows).
  split_and!; [done..|].
  intros s row' Hrow'. destruct (Hrows s row' Hrow') as (row & xb & Hrow & _ & Hput).
  apply put_row_Ok_inv in Hput as (Hl & _ & _ & Hframe). eauto.
Qed.

Lemma run_ops_Ok_inv (os os' : list (Op.t R)) (tp tp' : list (list R)) :
  Model.run_ops os tp = Ok (tp', os') →
  os' = os ∧ length tp' = length tp ∧
  ∀ s row', tp' !! s = Some row' →
    ∃ row, tp !! s = Some row ∧ length row' = length row ∧
           ∀ k, (∀ op, op ∈ os → k ∉ Op.output_indices op) → row' !! k = row !! k.
Proof.
  revert tp tp' os'. induction os as [|op os IH]; intros tp tp' os'; simpl.
  - intros [= <- <-]. split_and!; [done..|]. intros s row' Hrow'. eauto.
  - intros ([tp1 op1] & (-> & Hl1 & Hf1)%forward_Ok_inv & Hrest)%bind_Ok.
    apply bind_Ok in Hrest as ([tp2 os2] & (-> & Hl2 & Hf2)%IH & [= <- <-]).
    split_and!; [done|lia|].
    intros s row' Hrow'.
    destruct (Hf2 s row' Hrow') as (row1 & Hrow1 & Hlen1 & Hfr1).
    destruct (Hf1 s row1 Hrow1) as (row & Hrow & Hlen & Hfr).
    exists row. split_and!; [done|lia|].
    intros k Hk. rewrite Hfr1, Hfr; [done| |].
    + apply Hk. by left.
    + intros op' Hop'. apply Hk. by right.
Qed.

Lemma tape_ok_frame (b ts : nat) (tp tp' : list (list R)) :
  tape_ok b ts tp → length tp' = length tp →
  (∀ s row', tp' !! s = Some row' →
     ∃ row, tp !! s = Some row ∧ length row' = length row ∧ row' !! 0 = row !! 0) →
  tape_ok b ts tp'.
Proof.
  intros [Hb Hrows] Hlen Hfr. split; [lia|].
  rewrite Forall_forall in Hrows.
  apply Forall_forall. intros row' [s Hs]%list_elem_of_lookup.
  destruct (Hfr s row' Hs) as (row & Hrow & -> & ->).
  apply Hrows. by eapply list_elem_of_lookup_2.
Qed.

(** The operations of a model in order never touch column 0. *)
Lemma run_ops_tape_ok (g : Graph) (b ts : nat) (os os' : list (Op.t R))
    (tp tp' : list (list R)) :
  Forall (op_ok g ts) os → tape_ok b ts tp →
  Model.run_ops os tp = Ok (tp', os') → os' = os ∧ tape_ok b ts tp'.
Proof.
  intros Hos Htp (-> & Hlen & Hfr)%run_ops_Ok_inv. split; [done|].
  apply (tape_ok_frame b ts tp); [done..|].
  intros s row' Hrow'. destruct (Hfr s row' Hrow') as (row & ? & ? & Hk).
  exists row. split_and!; [done..|]. apply Hk.
  intros op Hop Hk0. rewrite Forall_forall in Hos.
  destruct (Hos op Hop) as (_ & _ & _ & Houts & _). apply Houts in Hk0. lia.
Qed.

Lemma set_parameters_self (op : Op.t R) :
  op = Op.set_parameters op (Op.weights op) (Op.bias op).
Proof. by destruct op. Qed.

Lemma same_frame_refl (m : Model.t R) : same_frame m m.
Proof.
  unfold same_frame. split_and!; try done.
  apply Forall_Forall2_diag, Forall_forall. intros op _. apply set_parameters_self.
Qed.

Lemma same_frame_step (m0 m m' : Model.t R) :
  same_frame m0 m →
  Model.inputs m' = Model.inputs m → Model.hidden m' = Model.hidden m →
  Model.outputs m' = Model.outputs m → Model.graph m' = Model.graph m →
  Model.tape_size m' = Model.tape_size m → Model.input_size m' = Model.input_size m →
  Model.output_size m' = Model.output_size m →
  Model.initialization m' = Model.initialization m →
  Model.output_indices m' = Model.output_indices m →
  Model.node_store m' = Model.node_store m →
  Forall2 (λ op op', ∃ w b, op' = Op.set_parameters op w b) (Model.ops m) (Model.ops m') →
  same_frame m0 m'.
Proof.
  intros (E1 & E2 & E3 & E4 & E5 & E6 & E7 & E8 & E9 & E10 & Hops).
  intros F1 F2 F3 F4 F5 F6 F7 F8 F9 F10 Hops'.
  unfold same_frame. split_and!; try congruence.
  eapply Forall2_trans; [|exact Hops|exact Hops'].
  intros op0 op op' -> (w & b & ->). done.
Qed.

Lemma forward_fields (m m' : Model.t R) (x out : Tensor R) :
  model_ok m → Model.forward m x = Ok (out, m') →
  (∃ b tp, m' = Model.set_tape m (Some tp) ∧ tape_ok b (Model.tape_size m) tp).
Proof.
  intros Hok. pose proof Hok as (Hts & Hops & _). unfold Model.forward.
  destruct (shape (if decide _ then _ else x)) as [|b [|c [|? ?]]] eqn:Hshape; try done.
  intros (tp1 & Hw & ([tp2 os] & Hrun & Hout)%bind_Ok)%bind_Ok. simpl in Hout.
  destruct (decide (Model.output_indices m = [])); [done|].
  apply bind_Ok in Hout as (output & _ & [= <- <-]).
  apply (write_inputs_ok _ _ _ _ (Model.tape_size m)) in Hw;
    [|lia|by apply initial_tape_ok].
  apply (run_ops_tape_ok (Model.graph m) b (Model.tape_size m)) in Hrun
    as [-> Htp2]; [|done..].
  exists b, tp2. split; [|done]. by destruct m.
Qed.

Lemma Forall2_same_ops (os : list (Op.t R)) :
  Forall2 (λ op op', ∃ w b, op' = Op.set_parameters op w b) os os.
Proof.
  apply Forall_Forall2_diag, Forall_forall. intros op _.
  exists (Op.weights op), (Op.bias op). apply set_parameters_self.
Qed.

(** [compile] assigns the optimizer and the loss function only. *)
Lemma compile_fields (m m' : Model.t R) (o l : string) :
  Model.compile m o l = Ok m' →
  Model.inputs m' = Model.inputs m ∧ Model.hidden m' = Model.hidden m ∧
  Model.outputs m' = Model.outputs m ∧ Model.graph m' = Model.graph m ∧
  Model.tape_size m' = Model.tape_size m ∧ Model.input_size m' = Model.input_size m ∧
  Model.output_size m' = Model.output_size m ∧ Model.tape m' = Model.tape m ∧
  Model.ops m' = Model.ops m ∧ Model.initialization m' = Model.initialization m ∧
  Model.output_indices m' = Model.output_indices m ∧
  Model.node_store m' = Model.node_store m.
Proof.
  unfold Model.compile, Model.new_optimizer.
  repeat case_decide; simpl; intros [= <-]; done.
Qed.

(** The model invariant holds throughout the life of a model, and
    nothing but parameter values, the cached tape and the training
    configuration ever changes. *)
Lemma evolves_model_ok (m0 m : Model.t R) :
  evolves m0 m → model_ok m0 → model_ok m ∧ same_frame m0 m.
Proof.
  intros Hev Hok0. induction Hev as
    [|m x out m' _ IH Hfw|m o l m' _ IH Hc|m os _ IH Hos|m _ IH].
  - split; [done|apply same_frame_refl].
  - destruct IH as [Hok Hsf].
    destruct (forward_fields m m' x out Hok Hfw) as (b & tp & -> & Htpok).
    split.
    + destruct Hok as (H1 & H2 & H3 & H4 & H5 & H6).
      unfold model_ok. simpl. split_and!; try done.
      intros tp' [= <-]. destruct Htpok as [_ Hrows].
      eapply Forall_impl; [exact Hrows|]. by intros ? [].
    + eapply same_frame_step; [exact Hsf|done..|]. apply Forall2_same_ops.
  - destruct IH as [Hok Hsf].
    destruct (compile_fields _ _ _ _ Hc)
      as (F1 & F2 & F3 & F4 & F5 & F6 & F7 & F8 & F9 & F10 & F11 & F12).
    split.
    + unfold model_ok. rewrite F4, F5, F6, F7, F8, F9, F11, F12. exact Hok.
    + eapply same_frame_step; [exact Hsf|done..|]. rewrite F9.
      apply Forall2_same_ops.
  - destruct IH as [Hok Hsf]. split.
    + destruct Hok as (H1 & H2 & H3 & H4 & H5 & H6).
      unfold model_ok. simpl. split_and!; try done.
      clear Hsf. induction Hos as [|op op' ops ops' (w & b & -> & Hsh) _ IHos]; [done|].
      apply Forall_cons in H2 as [(Hst & _ & Hn & Ho & Hi) H2].
      constructor; [|by apply IHos]. unfold op_ok. simpl.
      split_and!; [by apply structured_set_parameters|done..].
    + eapply same_frame_step; [exact Hsf|done..|]. simpl.
      eapply Forall2_impl; [exact Hos|]. intros op op' (w & b & -> & _). eauto.
  - destruct IH as [Hok Hsf]. split.
    + destruct Hok as (H1 & H2 & H3 & H4 & H5 & H6).
      unfold model_ok. simpl. split_and!; try done.
    + eapply same_frame_step; [exact Hsf|done..|]. apply Forall2_same_ops.
Qed.
End forward_frame.

Section exact_indices.
Context {R : Type} `{Numeric R} `{Catalog R}.

Lemma index_inputs_exact (ns : list nat) (st : NodeStore) (i : nat) st' i' :
  NoDup ns → Construct.index_inputs ns st i = (st', i') →
  (∀ j n, ns !! j = Some n → tape_index st' !! n = Some (i + j)) ∧
  (∀ n, n ∉ ns → tape_index st' !! n = tape_index st !! n).
Proof.
  revert st i. induction ns as [|n0 ns IH]; intros st i Hnd; simpl.
  - intros [= <- <-]. split; [by intros j n ?|done].
  - apply NoDup_cons in Hnd as [Hn0 Hnd]. intros Hii.
    destruct (IH _ _ Hnd Hii) as [IH1 IH2]. simpl in IH2. split.
    + intros [|j] n; simpl.
      * intros [= <-]. rewrite IH2 by done. rewrite lookup_insert_eq. f_equal. lia.
      * intros Hj. rewrite (IH1 j n Hj). f_equal. lia.
    + intros n [Hne Hn]%not_elem_of_cons. rewrite IH2 by done.
      by rewrite lookup_insert_ne.
Qed.

Lemma scan_exact (g : Graph) (asg : gset nat) (ns : list nat)
    (tidx : gmap nat nat) (i : nat) (acc : list nat) tidx' i' acc' :
  NoDup ns → Construct.scan g asg ns tidx i acc = (tidx', i', acc') →
  (∀ j n, filter (λ n, Construct.eligible g asg n) ns !! j = Some n →
          tidx' !! n = Some (i + j)) ∧
  (∀ n, n ∉ filter (λ n, Construct.eligible g asg n) ns → tidx' !! n = tidx !! n).
Proof.
  revert tidx i acc. induction ns as [|n0 ns IH]; intros tidx i acc Hnd; simpl.
  - intros [= <- <- <-]. split; [by intros j n ?|done].
  - apply NoDup_cons in Hnd as [Hn0 Hnd].
    destruct (Construct.eligible g asg n0) eqn:He.
    + rewrite filter_cons_True by (by apply Is_true_true_2).
      intros Hsc. destruct (IH _ _ _ Hnd Hsc) as [IH1 IH2]. split.
      * intros [|j] n; simpl.
        -- intros [= <-]. rewrite IH2.
           ++ rewrite lookup_insert_eq. f_equal. lia.
           ++ by intros [_ ?]%list_elem_of_filter.
        -- intros Hj. rewrite (IH1 j n Hj). f_equal. lia.
      * intros n [Hne Hn]%not_elem_of_cons. rewrite IH2 by done.
        by rewrite lookup_insert_ne.
    + rewrite filter_cons_False by (by apply Is_true_false_2). by apply IH.
Qed.

Lemma id_node_map_spec (g : Graph) (ns : list nat) :
  (∀ k ids, Construct.id_node_map g ns !! k = Some ids → ∀ x, x ∈ ids → x ∈ ns) ∧
  (∀ n, n ∈ ns → is_Some (Construct.id_node_map g ns !! op_id (node g n))).
Proof.
  induction ns as [|n ns [IH1 IH2]] using rev_ind.
  - split; [|by intros n ?%elem_of_nil].
    intros k ids Hk. unfold Construct.id_node_map in Hk. simpl in Hk.
    by rewrite lookup_empty in Hk.
  - unfold Construct.id_node_map in *. rewrite foldl_app. simpl.
    set (m := foldl _ ∅ ns) in *. set (k0 := op_id (node g n)).
    split.
    + intros k ids. rewrite lookup_alter. destruct (decide (k0 = k)) as [<-|Hne].
      * destruct (m !! k0) as [ids0|] eqn:Hk0.
        -- rewrite Hk0. simpl. intros [= <-] x [Hx|Hx%list_elem_of_singleton]%elem_of_app.
           ++ apply elem_of_app. left. by eapply IH1.
           ++ apply elem_of_app. right. subst. by left.
        -- rewrite lookup_insert_eq. simpl.
           intros [= <-] x Hx%list_elem_of_singleton.
           apply elem_of_app. right. subst. by left.
      * destruct (m !! k0) as [ids0|] eqn:Hk0.
        -- intros Hk x Hx. apply elem_of_app. left. by eapply IH1.
        -- rewrite lookup_insert_ne by done.
           intros Hk x Hx. apply elem_of_app. left. by eapply IH1.
    + intros n' Hn'. rewrite lookup_alter.
      destruct (decide (k0 = op_id (node g n'))) as [Heq|Hne].
      * destruct (m !! k0) as [ids0|] eqn:Hk0.
        -- rewrite Hk0. by eexists.
        -- rewrite lookup_insert_eq. by eexists.
      * apply elem_of_app in Hn' as [Hn'|Hn'%list_elem_of_singleton]; [|by subst].
        destruct (m !! k0) as [ids0|] eqn:Hk0; [by apply IH2|].
        rewrite lookup_insert_ne by done. by apply IH2.
Qed.

Lemma group_check_all (ids cand : list nat) (k : string) (f : list string) :
  (∀ x, x ∈ ids → x ∈ cand) → Construct.group_check ids cand k f = f.
Proof.
  induction ids as [|x ids IH]; intros Hin; simpl; [done|].
  rewrite decide_True by (apply Hin; by left).
  apply IH. intros y Hy. apply Hin. by right.
Qed.

(** When every group is complete among the candidates, no op id fails. *)
Lemma check_all (g : Graph) (m : gmap string (list nat)) (cand ns : list nat)
    (f0 : option (list string)) :
  (∀ n, n ∈ ns → ∃ ids, m !! op_id (node g n) = Some ids ∧ ∀ x, x ∈ ids → x ∈ cand) →
  Construct.check g m cand ns f0 = Ok (if ns is [] then f0 else Some []).
Proof.
  revert f0. induction ns as [|n ns IH]; intros f0 Hns; simpl; [done|].
  assert (∀ f1, Construct.check g m cand ns f1
                = Ok (if ns is [] then f1 else Some [])) as IH'.
  { intros f1. apply IH. intros n' Hn'. apply Hns. by right. }
  destruct (Hns n) as (ids & Hids & Hsub); [by left|].
  destruct (decide _) as [_|_].
  - rewrite Hids. simpl. rewrite group_check_all by done.
    rewrite IH'. by destruct ns.
  - rewrite IH'. by destruct ns.
Qed.

Lemma remove_all_self (ns : list nat) : Construct.remove_all ns ns = Ok [].
Proof.
  induction ns as [|n ns IH]; simpl; [done|]. rewrite decide_True by done. done.
Qed.

Lemma insert_by_perm (key : nat → nat) (x : nat) (l : list nat) :
  Construct.insert_by key x l ≡ₚ x :: l.
Proof.
  induction l as [|y l IH]; simpl; [done|].
  destruct (decide _); [done|]. rewrite IH. apply Permutation_swap.
Qed.

Lemma sorted_perm (key : nat → nat) (l : list nat) : Construct.sorted key l ≡ₚ l.
Proof.
  induction l as [|x l IH]; simpl; [done|].
  unfold Construct.sorted in *. simpl. by rewrite insert_by_perm, IH.
Qed.
End exact_indices.

Section zero_hidden.
Context {R : Type} `{Numeric R} `{Catalog R}.

Lemma filter_all {A} (P : A → Prop) `{∀ x, Decision (P x)} (l : list A) :
  (∀ x, x ∈ l → P x) → filter P l = l.
Proof.
  induction l as [|x l IH]; intros Hl; [done|].
  rewrite filter_cons_True by (apply Hl; by left).
  f_equal. apply IH. intros y Hy. apply Hl. by right.
Qed.

(** The single round the compiler runs on a graph without hidden nodes. *)
Lemma zero_hidden_round (g : Graph) (ini : string) :
  zero_hidden g → output_nodes g ≠ [] →
  ∃ store1,
    (∀ q p, input_nodes g !! q = Some p → tape_index store1 !! p = Some (1 + q)) ∧
    (∀ r o, output_nodes g !! r = Some o →
            tape_index store1 !! o = Some (1 + length (input_nodes g) + r)) ∧
    Construct.round (R:=R) g ini (Construct.id_node_map g (output_nodes g))
      (Construct.entry g fresh_store)
    = ('(op, store2) ← Op.init g store1 (output_nodes g) ini;
       Ok {| Construct.i := 1 + length (input_nodes g) + length (output_nodes g);
             Construct.remaining_nodes := [];
             Construct.ops := [op];
             Construct.fails := Some [];
             Construct.store := store2 |}).
Proof.
  intros (Hh & Hnd & Hin) Hne.
  apply NoDup_app in Hnd as (Hnd_i & Hdisj & Hnd_o).
  unfold Construct.entry, Construct.round.
  destruct (Construct.index_inputs _ _ _) as [st1 i1] eqn:Hii.
  pose proof (index_inputs_spec _ _ _ _ _ Hii) as (-> & Hasg & _).
  pose proof (index_inputs_exact _ _ _ _ _ Hnd_i Hii) as [Hidx_i _].
  rewrite Hh. simpl.
  destruct (Construct.scan _ _ _ _ _ _) as [[tidx i2] cand] eqn:Hscan.
  pose proof (scan_spec _ _ _ _ _ _ _ _ _ Hscan) as (Hcand & -> & _).
  pose proof (scan_exact _ _ _ _ _ _ _ _ _ Hnd_o Hscan) as [Hidx_o Hkeep].
  assert (filter (λ n, Construct.eligible g (assigned st1) n) (output_nodes g)
          = output_nodes g) as Hall.
  { apply filter_all. intros o Ho. unfold Construct.eligible.
    apply forallb_True, Forall_forall.
    intros p Hp. apply bool_decide_spec. rewrite Hasg.
    apply elem_of_union. left. apply elem_of_list_to_set. by eapply Hin. }
  rewrite Hall in Hcand, Hidx_o, Hkeep. rewrite Hall.
  simpl in Hcand. subst cand.
  exists {| tape_index := tidx; assigned := assigned st1 |}. simpl. split_and!.
  - intros q p Hq. rewrite Hkeep; [by apply Hidx_i|].
    apply Hdisj. by eapply list_elem_of_lookup_2.
  - intros r o Hr. by rewrite (Hidx_o r o Hr).
  - destruct (id_node_map_spec g (output_nodes g)) as [Hm1 Hm2].
    rewrite check_all; last first.
    { intros n Hn. destruct (Hm2 n Hn) as [ids Hids]. exists ids. split; [done|].
      by apply (Hm1 _ _ Hids). }
    destruct (output_nodes g) as [|o0 os] eqn:Hos; [done|]. simpl.
    pose proof (remove_all_self (o0 :: os)) as Hrm. simpl in Hrm.
    rewrite Hrm. done.
Qed.

(** The model [__init__] builds from a graph without hidden nodes: one
    operation over the output nodes, input node [q] at tape index
    [1 + q], output node [r] behind the inputs. *)
Lemma zero_hidden_init (fuel : nat) (g : Graph) (ini : string) (m : Model.t R) :
  zero_hidden g → output_nodes g ≠ [] →
  Model.init fuel g ini = Some (Ok m) →
  ∃ op store1 store2,
    Model.ops m = [op] ∧
    Op.init g store1 (output_nodes g) ini = Ok (op, store2) ∧
    (∀ q p, input_nodes g !! q = Some p → tape_index store1 !! p = Some (1 + q)) ∧
    (∀ r o, output_nodes g !! r = Some o →
            tape_index store1 !! o = Some (1 + length (input_nodes g) + r)) ∧
    Model.outputs m ≡ₚ output_nodes g ∧
    mapM (Op.tape_index_of store1) (Model.outputs m) = Ok (Model.output_indices m).
Proof.
  intros Hzh Hne Hinit.
  destruct (zero_hidden_round g ini Hzh Hne) as (store1 & Hi & Ho & Hround).
  unfold Model.init, Model.construct in Hinit.
  assert (Construct.remaining_nodes (Construct.entry (R:=R) g fresh_store)
          = output_nodes g) as Hrem.
  { unfold Construct.entry. destruct (Construct.index_inputs _ _ _). simpl.
    destruct Hzh as [-> _]. done. }
  rewrite Hrem in Hinit.
  destruct fuel as [|fuel]; simpl in Hinit; rewrite Hrem in Hinit;
    destruct (output_nodes g) as [|o0 os] eqn:Hos; try done.
  rewrite Hround in Hinit.
  destruct (Op.init g store1 (o0 :: os) ini) as [[op store2]|e] eqn:Hop;
    simpl in Hinit; [|done].
  assert (∀ st : Construct.locals R, Construct.remaining_nodes st = [] →
            Construct.loop fuel g ini (Construct.id_node_map g (o0 :: os)) st
            = Some (Ok st)) as Hloop.
  { intros st Hst. destruct fuel; simpl; by rewrite Hst. }
  rewrite Hloop in Hinit by done. simpl in Hinit.
  destruct (mapM _ _) as [idx|e] eqn:Hidx; simpl in Hinit; [|done].
  injection Hinit as <-. simpl.
  apply init_Ok_inv in Hop as Hop'. destruct Hop' as (_ & _ & _ & _ & _ & _ & Hst2 & _).
  exists op, store1, store2. split_and!; try done.
  - exact (sorted_perm _ (o0 :: os)).
  - rewrite <-Hidx. apply mapM_result_ext. intros n. unfold Op.tape_index_of.
    by rewrite Hst2.
Qed.
End zero_hidden.

Section op_theorems.
Context {R : Type} `{Numeric R} `{Catalog R}.

(** What [Op.forward] leaves at the tape index of each of its nodes. *)
Lemma forward_node_values (φ : string → R → R) (g : Graph) (st st' : NodeStore)
    (ns : list nat) (ini : string) (op : Op.t R)
    (w : list (list R)) (b : list R) (tape : list (list R)) :
  Op.init g st ns ini = Ok (op, st') →
  NoDup (Op.output_indices op) →
  (∀ n, n ∈ ns → catalog_has φ (activation (node g n))) →
  shaped (Op.set_parameters op w b) →
  (∀ row k, row ∈ tape →
     k ∈ mjoin (Op.input_indices op) ∨ k ∈ Op.output_indices op → k < length row) →
  ∃ tape',
    Op.forward (Op.set_parameters op w b) tape = Ok (tape', Op.set_parameters op w b) ∧
    length tape' = length tape ∧
    ∀ s row, tape !! s = Some row →
      ∃ row', tape' !! s = Some row' ∧
        ∀ i n, ns !! i = Some n →
          ∃ k ws idxs bi,
            Op.output_indices op !! i = Some k ∧ w !! i = Some ws ∧
            Op.input_indices op !! i = Some idxs ∧ b !! i = Some bi ∧
            row' !! k = Some (node_value (φ (activation (node g n))) ws idxs bi row).
Proof.
  intros (rows & _ & _ & _ & Hnodes & _ & _ & Hst & _)%init_Ok_inv
    Hnd Hcat Hsh Hin.
  apply (structured_set_parameters _ _ w b) in Hst.
  destruct (forward_total φ _ _ tape Hst Hsh) as (tape' & Hfw & Hlen & Hrows).
  { intros a (n & -> & Hn)%list_elem_of_fmap. by apply Hcat. }
  { done. }
  exists tape'. split_and!; [done..|].
  intros s row Hrow. destruct (Hrows s row Hrow) as (row' & Hrow' & Hput).
  exists row'. split; [done|]. intros i n Hn.
  destruct (shaped_inverse _ _ Hst Hsh) as (_ & _ & Hlw & Hlb).
  pose proof (st_outs _ _ Hst) as Hlo. pose proof (st_rows _ _ Hst) as Hlr.
  simpl in Hlw, Hlb, Hlo, Hlr. rewrite length_fmap in Hlw, Hlb, Hlo, Hlr.
  pose proof (lookup_lt_Some _ _ _ Hn) as Hi.
  destruct (lookup_lt_is_Some_2 (Op.output_indices op) i) as [k Hk]; [lia|].
  destruct (lookup_lt_is_Some_2 w i) as [ws Hws]; [lia|].
  destruct (lookup_lt_is_Some_2 b i) as [bi Hbi]; [lia|].
  destruct (lookup_lt_is_Some_2 (Op.input_indices op) i) as [idxs Hidxs]; [lia|].
  exists k, ws, idxs, bi. split_and!; [done..|].
  eapply put_row_Ok_lookup; [exact Hnd|exact Hput|exact Hk|].
  unfold outputs_of. rewrite list_lookup_imap.
  rewrite (sums_of_lookup _ row i ws idxs bi) by done. simpl.
  pose proof (st_key _ _ Hst i (activation (node g n))) as Hkey. simpl in Hkey.
  rewrite Hkey; [done|]. by rewrite list_lookup_fmap, Hn.
Qed.

(** The padded slots of a freshly built operation. *)
Lemma init_padding (g : Graph) (st st' : NodeStore) (ns : list nat) (ini : string)
    (op : Op.t R) (i n : nat) :
  Op.init g st ns ini = Ok (op, st') → ns !! i = Some n →
  ∃ ws idxs, Op.weights op !! i = Some ws ∧ Op.input_indices op !! i = Some idxs ∧
    length ws = length idxs ∧ length (inputs (node g n)) ≤ length idxs ∧
    ∀ j, length (inputs (node g n)) ≤ j → j < length idxs →
         idxs !! j = Some 0 ∧ ws !! j = Some zero.
Proof.
  intros (rows & Hrows & _ & _ & _ & Hidx & _ & Hst & [Hsh _] & _ & Hz)%init_Ok_inv Hn.
  destruct (mapM_Ok_lookup_l _ _ _ _ _ Hrows Hn) as (row & Hrow & Hrow').
  apply mapM_Ok_length in Hrow'.
  destruct (pad_sequence_lookup rows i row Hrow) as (idxs & Hidxs & Hl & _ & Hpad).
  rewrite <-Hidx in Hidxs.
  assert ((length <$> Op.weights op) !! i = (length <$> Op.input_indices op) !! i)
    as Hi by by rewrite Hsh.
  rewrite !list_lookup_fmap, Hidxs in Hi.
  destruct (Op.weights op !! i) as [ws|] eqn:Hws; simpl in Hi; [|done].
  injection Hi as Hi.
  exists ws, idxs. split_and!; [done..|lia|].
  intros j Hj1 Hj2. assert (idxs !! j = Some 0) as Hj0 by (apply Hpad; lia).
  split; [done|]. by eapply Hz.
Qed.
End op_theorems.

Section model_forward.
Context {R : Type} `{Numeric R} `{Catalog R}.

Lemma initial_tape_zero (m : Model.t R) (b : nat) :
  Forall (Forall (λ v, v = zero)) (Model.initial_tape m b).
Proof.
  assert (Forall (Forall (λ v : R, v = zero)) (Torch.zeros b (Model.tape_size m))) as Hz.
  { apply Forall_forall. intros row [-> _]%elem_of_replicate.
    apply Forall_forall. by intros v [-> _]%elem_of_replicate. }
  unfold Model.initial_tape. destruct (Model.tape m) as [tp|]; [|done].
  case_decide; [|done]. unfold Torch.fill_zero.
  apply Forall_fmap, Forall_forall. intros row _. simpl.
  apply Forall_fmap, Forall_forall. by intros v _.
Qed.

Lemma write_slice_frame (vals row : list R) (n k : nat) :
  length vals ≤ n → n + 1 ≤ length row → k = 0 ∨ n < k →
  Model.write_slice 1 vals row !! k = row !! k.
Proof.
  intros Hv Hrow Hk. unfold Model.write_slice.
  destruct Hk as [->|Hk]; [destruct row; simpl in *; [lia|done]|].
  rewrite lookup_app_r by (rewrite length_take; lia).
  rewrite lookup_app_r by (rewrite length_take; lia).
  rewrite lookup_drop, length_take. f_equal. lia.
Qed.

(** The input write touches positions [1..input_size] only. *)
Lemma write_inputs_frame (tp tp' : list (list R)) (isz b c ts : nat) (d : list R) :
  isz + 1 ≤ ts → tape_ok b ts tp →
  Model.write_inputs tp isz b c d = Ok tp' →
  ∀ s row row' k, tp !! s = Some row → tp' !! s = Some row' →
                  k = 0 ∨ isz < k → row' !! k = row !! k.
Proof.
  intros Hts [Hb Hrows] Hw s row row' k Hrow Hrow' Hk.
  rewrite Forall_forall in Hrows.
  destruct (Hrows row) as [Hl _]; [by eapply list_elem_of_lookup_2|].
  unfold Model.write_inputs in Hw.
  destruct (decide (c = isz)) as [->|Hc].
  - injection Hw as <-.
    apply lookup_zip_with_Some in Hrow' as (row0 & xrow & -> & Hrow0 & Hxrow).
    rewrite Hrow in Hrow0. injection Hrow0 as <-.
    apply (write_slice_frame _ _ isz); [|lia|done].
    apply list_elem_of_lookup_2, list_elem_of_fmap in Hxrow as (r & -> & _).
    rewrite length_take. lia.
  - destruct (decide (c = 1)) as [->|]; [|done]. injection Hw as <-.
    apply lookup_zip_with_Some in Hrow' as (row0 & xrow & -> & Hrow0 & Hxrow).
    rewrite Hrow in Hrow0. injection Hrow0 as <-.
    apply (write_slice_frame _ _ isz); [|lia|done].
    apply list_elem_of_lookup_2, list_elem_of_fmap in Hxrow as (r & -> & _).
    rewrite length_join_replicate, length_take. nia.
Qed.

Lemma length_join_uniform {A} (l : list (list A)) (n : nat) :
  Forall (λ row, length row = n) l → length (mjoin l) = length l * n.
Proof.
  induction 1 as [|row l Hrow _ IH]; simpl; [done|].
  rewrite length_app, IH, Hrow. done.
Qed.

(** A pass of a model with an output node over a batch of the right
    width succeeds and yields one row of outputs per sample. *)
Lemma forward_accepts (φ : string → R → R) (m : Model.t R) (x : Tensor R) (b : nat) :
  model_ok m → activations_known φ (Model.graph m) →
  Model.output_indices m ≠ [] →
  shape x = [b; Model.input_size m] →
  ∃ out m', Model.forward m x = Ok (out, m') ∧
            shape out = [b; Model.output_size m] ∧ well_formed out.
Proof.
  intros Hok Hact Hout Hshape. pose proof Hok as (Hts & Hops & Hoi & Hlo & _).
  unfold Model.forward. rewrite Hshape. simpl. rewrite Hshape.
  pose proof (initial_tape_ok m b Hok) as Htp0.
  unfold Model.write_inputs at 1. rewrite decide_True by done. simpl.
  destruct (run_ops_ok φ (Model.graph m) b (Model.tape_size m) (Model.ops m)
    (zip_with (λ row xrow, Model.write_slice 1 xrow row) (Model.initial_tape m b)
       (Model.rows_of b (Model.input_size m) (data x)))) as (tp2 & -> & Hb2 & Hrows2);
    [done..| |].
  { apply (write_inputs_ok (Model.initial_tape m b) (Model.input_size m) b
             (Model.input_size m) (Model.tape_size m) (data x)); [lia|done|].
    unfold Model.write_inputs. by rewrite decide_True. }
  simpl. rewrite decide_False by done. rewrite Forall_forall in Hrows2.
  rewrite index_select_1_total; last first.
  { intros row k Hrow Hk. destruct (Hrows2 row Hrow) as [-> _]. by apply Hoi. }
  simpl. eexists _, _. split; [done|]. simpl. rewrite Hlo. split; [done|].
  unfold well_formed. simpl.
  rewrite (length_join_uniform _ (Model.output_size m)).
  - rewrite length_fmap, Hb2. lia.
  - apply Forall_fmap, Forall_forall. intros row _. simpl.
    by rewrite length_fmap.
Qed.

(** The output of a pass that returns has a row for every sample. *)
Lemma forward_shape (m m' : Model.t R) (x out : Tensor R) (b c : nat) :
  shape x = [b; c] → Model.forward m x = Ok (out, m') →
  shape out = [b; length (Model.output_indices m)].
Proof.
  intros Hshape. unfold Model.forward. rewrite Hshape. simpl. rewrite Hshape.
  intros (tp1 & _ & ([tp2 os] & _ & Hout)%bind_Ok)%bind_Ok. simpl in Hout.
  destruct (decide (Model.output_indices m = [])); [done|].
  by apply bind_Ok in Hout as (output & _ & [= <- <-]).
Qed.

(** A pass of a model without output nodes never returns. *)
Lemma forward_without_outputs (m m' : Model.t R) (x out : Tensor R) :
  Model.output_indices m = [] → Model.forward m x ≠ Ok (out, m').
Proof.
  intros Hnone. unfold Model.forward.
  destruct (shape (if decide _ then _ else x)) as [|b [|c [|? ?]]]; try done.
  intros (tp1 & _ & ([tp2 os] & _ & Hout)%bind_Ok)%bind_Ok. simpl in Hout.
  by rewrite decide_True in Hout.
Qed.

(** A one-dimensional input is treated as a batch of one sample. *)
Lemma forward_promotes (m : Model.t R) (x : Tensor R) (n : nat) :
  shape x = [n] →
  Model.forward m x = Model.forward m {| shape := [1; n]; data := data x |}.
Proof. intros Hshape. unfold Model.forward. rewrite Hshape. done. Qed.

Lemma forward_rejects (m : Model.t R) (x : Tensor R) :
  length (shape x) ≠ 1 → length (shape x) ≠ 2 →
  Model.forward m x = Raise (AssertionError "Input must be flattened batches (2D)").
Proof.
  intros H1 H2. unfold Model.forward. rewrite decide_False by done.
  by destruct (shape x) as [|? [|? [|? ?]]].
Qed.
End model_forward.

Section zero_hidden_forward.
Context {R : Type} `{Numeric R} `{Catalog R}.

Lemma rows_of_lookup (b c s : nat) (d xrow : list R) :
  length d = b * c → Model.rows_of b c d !! s = Some xrow → length xrow = c.
Proof.
  intros Hd Hs. unfold Model.rows_of in Hs. rewrite list_lookup_fmap in Hs.
  destruct (seq 0 b !! s) as [r|] eqn:Hr; simpl in Hs; [|done].
  apply lookup_seq in Hr as [-> Hr]. injection Hs as <-.
  rewrite length_take, length_drop. nia.
Qed.

Lemma write_slice_lookup (vals row : list R) (q : nat) :
  1 ≤ length row → q < length vals →
  Model.write_slice 1 vals row !!! (1 + q) = vals !!! q.
Proof.
  intros Hrow Hq. unfold Model.write_slice.
  rewrite lookup_total_app_r by (rewrite length_take; lia).
  rewrite length_take, lookup_total_app_l by lia. f_equal. lia.
Qed.

Lemma position_NoDup (l : list nat) (q p : nat) :
  NoDup l → l !! q = Some p → Torch.position l p = q.
Proof.
  intros Hnd Hq. destruct (position_spec l p) as [Hlt Hp].
  { by eapply list_elem_of_lookup_2. }
  eapply (proj1 (NoDup_alt l) Hnd); [|exact Hq].
  rewrite <-Hp at 2. by apply list_lookup_lookup_total_lt.
Qed.

Lemma NoDup_offsets (l : list nat) (c : nat) :
  (∀ r k, l !! r = Some k → k = c + r) → NoDup l.
Proof.
  intros Hl. apply NoDup_alt. intros i j x Hi Hj.
  apply Hl in Hi, Hj. lia.
Qed.

(** On a tape whose row holds the inputs at [1..] and zero at 0, the
    weighted sum of an output node over its padded index row is the
    padded sum of the values of its input nodes. *)
Lemma zero_hidden_sum (g : Graph) (store1 : NodeStore) (o : nat)
    (ws : list R) (idxs row_r : list nat) (row0 xrow : list R) :
  NoDup (input_nodes g) →
  (∀ q p, input_nodes g !! q = Some p → tape_index store1 !! p = Some (1 + q)) →
  (∀ p, p ∈ inputs (node g o) → p ∈ input_nodes g) →
  mapM (Op.tape_index_of store1) (inputs (node g o)) = Ok row_r →
  length ws = length idxs → length row_r ≤ length idxs →
  take (length row_r) idxs = row_r →
  (∀ j, length row_r ≤ j → j < length idxs → idxs !! j = Some 0) →
  length xrow = length (input_nodes g) → 1 ≤ length row0 → row0 !! 0 = Some zero →
  weighted_sum ws idxs (Model.write_slice 1 xrow row0)
  = padded_sum (input_value g xrow <$> inputs (node g o)) ws.
Proof.
  intros Hnd Hidx Hin Hrow Hlen Hle Htake Hpad Hx Hrow0 Hz.
  rewrite (weighted_sum_padded ws idxs row_r); [|done..|]; last first.
  { unfold Model.write_slice. destruct row0; simpl in *; [lia|done]. }
  f_equal.
  assert (row_r = (λ p, 1 + Torch.position (input_nodes g) p) <$> inputs (node g o))
    as ->.
  { assert (mapM (Op.tape_index_of store1) (inputs (node g o))
            = Ok ((λ p, 1 + Torch.position (input_nodes g) p) <$> inputs (node g o)))
      as Hrow'; [|congruence].
    apply mapM_Ok_fmap. intros p Hp. apply tape_index_of_Ok.
    destruct (proj1 (list_elem_of_lookup _ _) (Hin p Hp)) as [q Hq].
    rewrite (position_NoDup _ q p) by done. by apply Hidx. }
  rewrite <-list_fmap_compose. apply list_fmap_ext. intros i p Hp. simpl.
  unfold input_value. apply write_slice_lookup; [done|].
  rewrite Hx. apply position_spec. apply Hin. by eapply list_elem_of_lookup_2.
Qed.
End zero_hidden_forward.

Section zero_hidden_model.
Context {R : Type} `{Numeric R} `{Catalog R}.

Lemma init_outputs (fuel : nat) (g : Graph) (ini : string) (m : Model.t R) :
  Model.init fuel g ini = Some (Ok m) →
  Model.outputs m = Construct.sorted (λ n, output_index (node g n)) (output_nodes g).
Proof.
  unfold Model.init, Model.construct.
  destruct (Construct.loop _ _ _ _ _) as [[st'|e]|]; try done.
  destruct (mapM _ _); simpl; [|done]. by intros [= <-].
Qed.

(** Without hidden nodes a pass computes, for every sample and every
    output node, the activation of the weighted sum of the node's inputs
    plus the bias. *)
Lemma zero_hidden_forward (φ : string → R → R) (fuel : nat) (g : Graph)
    (ini : string) (m0 m : Model.t R) (x : Tensor R) (bsz : nat) :
  zero_hidden g → output_nodes g ≠ [] → activations_known φ g →
  Model.init fuel g ini = Some (Ok m0) → evolves m0 m →
  shape x = [bsz; length (input_nodes g)] → well_formed x →
  ∃ out m', Model.forward m x = Ok (out, m') ∧
    ∀ s xrow k o,
      Model.rows_of bsz (length (input_nodes g)) (data x) !! s = Some xrow →
      Model.outputs m !! k = Some o →
      ∃ op r ws bi,
        Model.ops m = [op] ∧ Op.nodes op !! r = Some o ∧
        Op.weights op !! r = Some ws ∧ Op.bias op !! r = Some bi ∧
        length (inputs (node g o)) ≤ length ws ∧
        data out !! (s * length (output_nodes g) + k)
        = Some (φ (activation (node g o))
                  (add (padded_sum (input_value g xrow <$> inputs (node g o)) ws)
                       bi)).
Proof.
  intros Hzh Hne Hact Hinit Hev Hshape Hwf.
  destruct (init_model_ok _ _ _ _ Hinit) as (Hok0 & Hg0 & _ & _ & _ & His0 & Hos0).
  destruct (evolves_model_ok m0 m Hev Hok0) as [Hok Hsf].
  destruct Hsf as (_ & _ & Houts & Hg & Hts & His & Hos & _ & Hoi & _ & Hops).
  rewrite Hg0 in Hg. rewrite His0 in His. rewrite Hos0 in Hos.
  destruct (zero_hidden_init fuel g ini m0 Hzh Hne Hinit)
    as (op0 & store1 & store2 & Hops0 & Hop0 & Hidx_i & Hidx_o & Hperm & Hmap).
  rewrite Hops0 in Hops.
  apply Forall2_cons_inv_l in Hops as (op & os' & Hop & Hnil & Hopsm).
  apply Forall2_nil_inv_l in Hnil as ->.
  pose proof Hok as (Hts1 & Hopok & Hoik & Hlo & _).
  rewrite Hopsm in Hopok. apply Forall_cons in Hopok as [(_ & Hsh & _ & Hout_r & Hin_r) _].
  pose proof (init_Ok_inv _ _ _ _ _ _ Hop0)
    as (rows & Hrows & Houts0 & _ & Hnodes & Hidx & _ & _).
  destruct Hzh as (Hh & Hnd & Hin).
  apply NoDup_app in Hnd as (Hnd_i & _ & Hnd_o).
  assert (∀ r k, Op.output_indices op0 !! r = Some k →
            ∃ o, output_nodes g !! r = Some o ∧ k = 1 + length (input_nodes g) + r)
    as Hout_at.
  { intros r k Hk.
    destruct (mapM_Ok_lookup_r _ _ _ _ _ Houts0 Hk) as (o & Ho & Hk'%tape_index_of_Ok).
    exists o. split; [done|]. rewrite (Hidx_o r o Ho) in Hk'. congruence. }
  assert (NoDup (Op.output_indices op0)) as Hnd_out.
  { apply (NoDup_offsets _ (1 + length (input_nodes g))).
    intros r k Hk. by destruct (Hout_at r k Hk) as (_ & _ & ->). }
  set (tp0 := Model.initial_tape m bsz).
  set (tp1 := zip_with (λ row xrow, Model.write_slice 1 xrow row) tp0
                (Model.rows_of bsz (length (input_nodes g)) (data x))).
  pose proof (initial_tape_ok m bsz Hok) as Htp0. fold tp0 in Htp0.
  assert (tape_ok bsz (Model.tape_size m) tp1) as Htp1.
  { apply (write_inputs_ok tp0 (length (input_nodes g)) bsz
             (length (input_nodes g)) (Model.tape_size m) (data x)); [lia|done|].
    unfold Model.write_inputs. by rewrite decide_True. }
  destruct (forward_node_values φ g store1 store2 (output_nodes g) ini op0
              (Op.weights op) (Op.bias op) tp1 Hop0 Hnd_out)
    as (tape' & Hfw_op & Hlen' & Hvals).
  { intros n Hn. apply Hact. rewrite Hh. done. }
  { by rewrite <-Hop. }
  { intros row k Hrow Hk. destruct Htp1 as [_ Hrows1].
    rewrite Forall_forall in Hrows1. destruct (Hrows1 row Hrow) as [-> _].
    rewrite Hop in Hout_r, Hin_r. simpl in Hout_r, Hin_r.
    destruct Hk as [Hk|Hk]; [by apply Hin_r|]. apply Hout_r in Hk. lia. }
  rewrite <-Hop in Hfw_op.
  pose proof (forward_Ok_inv _ _ _ _ Hfw_op) as (_ & _ & Hrows').
  unfold Model.forward. rewrite Hshape. simpl. rewrite Hshape.
  unfold Model.write_inputs. rewrite decide_True by done. simpl.
  rewrite Hopsm. simpl. fold tp0. fold tp1. rewrite Hfw_op. simpl.
  rewrite decide_False; last first.
  { intros Hnil. rewrite Hnil in Hlo. simpl in Hlo.
    destruct (output_nodes g); [done|simpl in *; lia]. }
  rewrite index_select_1_total; last first.
  { intros row2 k [s Hs]%list_elem_of_lookup Hk.
    destruct (Hrows' s row2 Hs) as (row1 & Hrow1 & -> & _).
    destruct Htp1 as [_ Hrows1]. rewrite Forall_forall in Hrows1.
    destruct (Hrows1 row1) as [-> _]; [by eapply list_elem_of_lookup_2|].
    by apply Hoik. }
  simpl. eexists _, _. split; [reflexivity|]. simpl.
  intros s xrow k o Hxrow Ho.
  assert (length (Model.outputs m) = length (output_nodes g)) as Hlouts.
  { by rewrite Houts, Hperm. }
  assert (o ∈ output_nodes g) as Ho_in.
  { rewrite <-Hperm, <-Houts. by eapply list_elem_of_lookup_2. }
  apply list_elem_of_lookup in Ho_in as [r Hr].
  assert (s < bsz) as Hs.
  { apply lookup_lt_Some in Hxrow. unfold Model.rows_of in Hxrow.
    by rewrite length_fmap, length_seq in Hxrow. }
  destruct (lookup_lt_is_Some_2 tp0 s) as [row0 Hrow0]; [destruct Htp0; lia|].
  assert (tp1 !! s = Some (Model.write_slice 1 xrow row0)) as Hrow1.
  { unfold tp1. by rewrite lookup_zip_with, Hrow0, Hxrow. }
  destruct (Hvals s _ Hrow1) as (row2 & Hrow2 & Hv).
  destruct (Hv r o Hr) as (kk & ws & idxs & bi & Hkk & Hws & Hidxs & Hbi & Hval).
  destruct (mapM_Ok_lookup_l _ _ _ _ _ Hrows Hr) as (row_r & Hrow_r & Hrow_r').
  destruct (pad_sequence_lookup rows r row_r Hrow_r)
    as (idxs' & Hidxs' & Hle & Htake & Hpad).
  rewrite <-Hidx, Hidxs in Hidxs'. injection Hidxs' as <-.
  assert (length ws = length idxs) as Hlws.
  { destruct Hsh as [Hsh _]. rewrite Hop in Hsh. simpl in Hsh.
    apply (f_equal (λ l, l !! r)) in Hsh. rewrite !list_lookup_fmap in Hsh.
    rewrite Hop in Hws. simpl in Hws. rewrite Hws, Hidxs in Hsh.
    by injection Hsh. }
  pose proof (mapM_Ok_length _ _ _ Hrow_r') as Hlr.
  exists op, r, ws, bi. split_and!; [done| |done|done|lia|].
  { rewrite Hop. simpl. by rewrite Hnodes. }
  destruct (Hout_at r kk Hkk) as (o' & Ho' & ->).
  rewrite Houts in Ho.
  destruct (mapM_Ok_lookup_l _ _ _ _ _ Hmap Ho) as (y & Hy & Hy'%tape_index_of_Ok).
  rewrite (Hidx_o r o Hr) in Hy'. injection Hy' as <-.
  rewrite <-Hoi in Hy.
  apply (join_lookup_Some_same_length' (length (output_nodes g))).
  { apply Forall_fmap, Forall_forall. intros row _. simpl.
    by rewrite length_fmap, Hlo, Hos. }
  { apply lookup_lt_Some in Ho. rewrite <-Houts in Ho. lia. }
  exists ((row2 !!!.) <$> Model.output_indices m).
  rewrite !list_lookup_fmap, Hrow2, Hy. simpl. split; [done|]. f_equal.
  rewrite (list_lookup_total_correct _ _ _ Hval).
  unfold node_value. do 2 f_equal.
  destruct Htp0 as [_ Hrows0]. rewrite Forall_forall in Hrows0.
  destruct (Hrows0 row0) as [Hl0 Hz0]; [by eapply list_elem_of_lookup_2|].
  eapply zero_hidden_sum; try done.
  - intros p Hp. apply (Hin o p); [by eapply list_elem_of_lookup_2|done].
  - apply (rows_of_lookup bsz _ s (data x)); [|done].
    unfold well_formed in Hwf. rewrite Hshape in Hwf. simpl in Hwf. lia.
  - lia.
Qed.
End zero_hidden_model.

Section distinct_outputs.
Context {R : Type} `{Numeric R} `{Catalog R}.

Lemma round_distinct (g : Graph) (ini : string) (m : gmap string (list nat))
    (st st' : Construct.locals R) :
  distinct_inv st → Construct.round g ini m st = Ok st' → distinct_inv st'.
Proof.
  intros [Hnd Hops]. unfold Construct.round.
  destruct (Construct.scan _ _ _ _ _ _) as [[tidx i1] cand] eqn:Hscan.
  pose proof (scan_spec _ _ _ _ _ _ _ _ _ Hscan) as (Hcand & _).
  pose proof (scan_exact _ _ _ _ _ _ _ _ _ Hnd Hscan) as [Hidx _].
  simpl in Hcand. rewrite <-Hcand in Hidx.
  assert (NoDup cand) as Hnd_c by (rewrite Hcand; by apply NoDup_filter).
  intros (fails0 & _ & (fails & _ & Hround)%bind_Ok)%bind_Ok.
  destruct (survivors_spec g fails cand (Construct.i st)) as [_ Hsurv].
  assert (NoDup (if decide (fails ≠ [])
                 then filter (λ n, op_id (node g n) ∉ fails) cand else cand)) as Hnd_s.
  { case_decide; [by apply NoDup_filter|done]. }
  revert Hround Hsurv Hnd_s.
  generalize (if decide (fails ≠ []) then Construct.rollback g fails cand i1 else i1).
  generalize (if decide (fails ≠ [])
              then filter (λ n, op_id (node g n) ∉ fails) cand else cand).
  intros surv i2 Hround Hsurv Hnd_s.
  apply bind_Ok in Hround as (remaining & Hperm%remove_all_Ok & Hround).
  assert (NoDup remaining) as Hnd_r.
  { rewrite Hperm in Hnd. by apply NoDup_app in Hnd as (_ & _ & ?). }
  destruct (decide (surv ≠ [])) as [Hne|Hemp].
  - apply bind_Ok in Hround as ([op store2] & Hinit & [= <-]).
    apply init_Ok_inv in Hinit as (_ & _ & Houts & _).
    split; simpl; [done|]. apply Forall_app. split; [done|].
    constructor; [|done]. apply NoDup_alt. intros a b k Ha Hb.
    destruct (mapM_Ok_lookup_r _ _ _ _ _ Houts Ha) as (na & Hna & Hka%tape_index_of_Ok).
    destruct (mapM_Ok_lookup_r _ _ _ _ _ Houts Hb) as (nb & Hnb & Hkb%tape_index_of_Ok).
    simpl in Hka, Hkb.
    destruct (proj1 (list_elem_of_lookup cand na)) as [ja Hja];
      [apply Hsurv; by eapply list_elem_of_lookup_2|].
    destruct (proj1 (list_elem_of_lookup cand nb)) as [jb Hjb];
      [apply Hsurv; by eapply list_elem_of_lookup_2|].
    rewrite (Hidx ja na Hja) in Hka. rewrite (Hidx jb nb Hjb) in Hkb.
    injection Hka as <-. injection Hkb as Hkb.
    assert (ja = jb) as -> by lia.
    assert (na = nb) as -> by congruence.
    by eapply (proj1 (NoDup_alt surv) Hnd_s).
  - injection Hround as <-. by split.
Qed.

Lemma init_distinct (fuel : nat) (g : Graph) (ini : string) (m : Model.t R) :
  NoDup (hidden_nodes g ++ output_nodes g) →
  Model.init fuel g ini = Some (Ok m) →
  Forall (λ op, NoDup (Op.output_indices op)) (Model.ops m).
Proof.
  intros Hnd. unfold Model.init, Model.construct.
  destruct (Construct.loop _ _ _ _ _) as [[st'|e]|] eqn:Hloop; [|done..].
  destruct (mapM _ _) as [idx|e]; simpl; [|done]. intros [= <-]. simpl.
  assert (distinct_inv (Construct.entry (R:=R) g fresh_store)) as Hinv.
  { unfold Construct.entry. destruct (Construct.index_inputs _ _ _). by split. }
  revert Hloop Hinv.
  generalize (Construct.id_node_map g
                (Construct.remaining_nodes (Construct.entry (R:=R) g fresh_store))).
  generalize (Construct.entry (R:=R) g fresh_store).
  intros st idm Hloop. revert st Hloop.
  induction fuel as [|fuel IH]; intros st; simpl.
  - destruct (Construct.remaining_nodes st); [|done]. by intros [= <-] [_ ?].
  - destruct (Construct.remaining_nodes st) eqn:Hrem; [by intros [= <-] [_ ?]|].
    destruct (Construct.round g ini idm st) as [st1|e] eqn:Hround; [|done].
    intros Hloop Hinv. apply (IH st1 Hloop). by eapply round_distinct.
Qed.
End distinct_outputs.

Section cycles.
Context {R : Type} `{Numeric R} `{Catalog R}.

Lemma round_waiting (g : Graph) (ini : string) (m : gmap string (list nat))
    (c : list nat) (st st' : Construct.locals R) :
  (∀ n, n ∈ c → ∃ p, p ∈ inputs (node g n) ∧ p ∈ c) →
  waiting c st → Construct.round g ini m st = Ok st' → waiting c st'.
Proof.
  intros Hc Hw. unfold Construct.round.
  destruct (Construct.scan _ _ _ _ _ _) as [[tidx i1] cand] eqn:Hscan.
  apply scan_spec in Hscan as (Hcand & -> & _). simpl in Hcand.
  intros (fails0 & _ & (fails & _ & Hround)%bind_Ok)%bind_Ok.
  rewrite <-Hcand in Hround.
  destruct (survivors_spec g fails cand (Construct.i st)) as [_ Hsurv].
  revert Hround Hsurv.
  generalize (if decide (fails ≠ [])
              then Construct.rollback g fails cand (Construct.i st + length cand)
              else Construct.i st + length cand).
  generalize (if decide (fails ≠ [])
              then filter (λ n, op_id (node g n) ∉ fails) cand else cand).
  intros surv i2 Hround Hsurv.
  apply bind_Ok in Hround as (remaining & Hperm%remove_all_Ok & Hround).
  assert (∀ n, n ∈ c → n ∉ surv) as Hout.
  { intros n Hn Hs. apply Hsurv in Hs. rewrite Hcand in Hs.
    apply list_elem_of_filter in Hs as [He _].
    destruct (Hc n Hn) as (p & Hp & Hpc).
    unfold Construct.eligible in He. apply forallb_True in He.
    rewrite Forall_forall in He. apply He, bool_decide_spec in Hp.
    by destruct (Hw p Hpc). }
  assert (∀ n, n ∈ c → n ∈ remaining) as Hrem.
  { intros n Hn. destruct (Hw n Hn) as [_ Hr]. rewrite Hperm in Hr.
    apply elem_of_app in Hr as [Hr|Hr]; [by apply Hout in Hr|done]. }
  destruct (decide (surv ≠ [])) as [Hne|Hemp].
  - apply bind_Ok in Hround as ([op store2] & Hinit & [= <-]).
    apply init_Ok_inv in Hinit as (_ & _ & _ & _ & _ & _ & -> & _).
    intros n Hn. simpl. split; [|by apply Hrem].
    intros [Hs%elem_of_list_to_set|Ha]%elem_of_union; [by apply (Hout n)|].
    by destruct (Hw n Hn).
  - injection Hround as <-. intros n Hn. simpl. split; [|by apply Hrem].
    by destruct (Hw n Hn).
Qed.

(** On a graph with a dependency cycle [Model.__init__] never returns a
    model: the remaining nodes never run out. *)
Lemma cyclic_never_compiles (fuel : nat) (g : Graph) (ini : string) (m : Model.t R) :
  cyclic g → Model.init fuel g ini ≠ Some (Ok m).
Proof.
  intros (c & Hne & Hc). unfold Model.init, Model.construct.
  destruct (Construct.loop _ _ _ _ _) as [[st'|e]|] eqn:Hloop; [|done..].
  exfalso.
  assert (waiting c (Construct.entry (R:=R) g fresh_store)) as Hw.
  { unfold Construct.entry.
    destruct (Construct.index_inputs _ _ _) as [st1 i1] eqn:Hii.
    apply index_inputs_spec in Hii as (_ & Hasg & _).
    intros n Hn. destruct (Hc n Hn) as (Hho & Hni & _). simpl. split; [|done].
    rewrite Hasg. intros [Hi%elem_of_list_to_set|He]%elem_of_union; [done|].
    by apply elem_of_empty in He. }
  assert (waiting c st' ∧ Construct.remaining_nodes st' = []) as [Hw' Hnil].
  { revert Hloop Hw.
    generalize (Construct.id_node_map g
                  (Construct.remaining_nodes (Construct.entry (R:=R) g fresh_store))).
    generalize (Construct.entry (R:=R) g fresh_store).
    intros st idm. revert st. induction fuel as [|fuel IH]; intros st; simpl.
    - destruct (Construct.remaining_nodes st) eqn:Hrem; [|done]. by intros [= <-].
    - destruct (Construct.remaining_nodes st) eqn:Hrem; [by intros [= <-]|].
      destruct (Construct.round g ini idm st) as [st1|e] eqn:Hround; [|done].
      intros Hloop Hw. apply (IH st1 Hloop).
      eapply round_waiting; [|exact Hw|exact Hround].
      intros k Hk. by destruct (Hc k Hk) as (_ & _ & ?). }
  destruct c as [|n0 c]; [done|].
  destruct (Hw' n0) as [_ Hn]; [by left|]. rewrite Hnil in Hn.
  by apply elem_of_nil in Hn.
Qed.
End cycles.

Section untagged_graphs.
Context {R : Type} `{Numeric R} `{Catalog R}.

(** Without grouping tags the group check finds nothing to defer. *)
Lemma check_untagged (g : Graph) (m : gmap string (list nat)) (cand ns : list nat)
    (f0 : option (list string)) :
  (∀ n, n ∈ ns → op_id (node g n) = "any") →
  Construct.check g m cand ns f0 = Ok (if ns is [] then f0 else Some []).
Proof.
  revert f0. induction ns as [|n ns IH]; intros f0 Hany; [done|].
  simpl. rewrite (Hany n) by left.
  destruct (decide _) as [[Hne _]|_]; [done|].
  rewrite IH by (intros; apply Hany; by right). by destruct ns.
Qed.

(** [Op.__init__] returns when its nodes and their inputs carry tape
    indices and the initialization is known. *)
Lemma init_total (g : Graph) (st : NodeStore) (ns : list nat) (ini : string) :
  initialization_known (R:=R) ini → ns ≠ [] →
  (∀ n, n ∈ ns → is_Some (tape_index st !! n)) →
  (∀ n p, n ∈ ns → p ∈ inputs (node g n) → is_Some (tape_index st !! p)) →
  ∃ op st', Op.init (R:=R) g st ns ini = Ok (op, st').
Proof.
  intros (f & Hf & Hshape) Hne Hns Hin. unfold Op.init.
  assert (∀ l, (∀ n, n ∈ l → is_Some (tape_index st !! n)) →
               is_Ok (mapM (Op.tape_index_of st) l)) as Hm.
  { intros l Hl. apply mapM_is_Ok. intros x Hx. destruct (Hl x Hx) as [k Hk].
    unfold Op.tape_index_of. rewrite Hk. by exists k. }
  destruct (mapM_is_Ok (λ n, mapM (Op.tape_index_of st) (inputs (node g n))) ns)
    as [rows ->].
  { intros n Hn. apply Hm. intros p Hp. by eapply Hin. }
  destruct (Hm ns Hns) as [outs ->]. simpl.
  destruct (decide (ns = [])) as [|_]; [done|].
  rewrite Hf. simpl. unfold Torch.zero_where_0.
  destruct (decide _) as [_|Hbad]; [by eauto|]. by destruct Hbad.
Qed.

Lemma least_round (rank : nat → nat) (l : list nat) :
  l ≠ [] → ∃ n, n ∈ l ∧ ∀ n', n' ∈ l → rank n ≤ rank n'.
Proof.
  induction l as [|x l IH]; [done|]. intros _.
  destruct l as [|y l].
  - exists x. split; [left|]. by intros n' ->%list_elem_of_singleton.
  - destruct IH as (n & Hn & Hmin); [done|].
    destruct (decide (rank x ≤ rank n)).
    + exists x. split; [left|]. intros n' [->|Hn']%elem_of_cons; [done|].
      specialize (Hmin n' Hn'). lia.
    + exists n. split; [by right|].
      intros n' [->|Hn']%elem_of_cons; [lia|by apply Hmin].
Qed.

(** A round on a graph without grouping tags finalizes every candidate. *)
Lemma round_untagged (g : Graph) (ini : string) (m : gmap string (list nat))
    (st st' : Construct.locals R) :
  untagged g → ordered g st → Construct.round g ini m st = Ok st' →
  ordered g st' ∧
  Construct.remaining_nodes st
    ≡ₚ filter (λ n, Construct.eligible g (assigned (Construct.store st)) n)
              (Construct.remaining_nodes st) ++ Construct.remaining_nodes st'.
Proof.
  intros Hunt (Hnd & Hrem & Hall & Hlt & Hinj & Htop & Hfails & Hperm).
  unfold Construct.round.
  destruct (Construct.scan _ _ _ _ _ _) as [[tidx i1] cand] eqn:Hscan.
  destruct (scan_exact _ _ _ _ _ _ _ _ _ Hnd Hscan) as [Hnew Hold].
  apply scan_spec in Hscan as (Hcand & -> & _). simpl in Hcand.
  rewrite <-Hcand in Hnew, Hold |- *.
  assert (∀ n, n ∈ cand →
            n ∈ Construct.remaining_nodes st ∧
            Construct.eligible g (assigned (Construct.store st)) n) as Hc.
  { intros n Hn. rewrite Hcand in Hn. by apply list_elem_of_filter in Hn as [? ?]. }
  rewrite check_untagged.
  2:{ intros n [Hn _]%Hc. by apply Hunt, Hrem. }
  intros (f0 & [= <-] & (f & Hf & Hround)%bind_Ok)%bind_Ok.
  assert (f = []) as ->.
  { destruct cand; [|by injection Hf].
    destruct Hfails as [Hn|Hs]; rewrite ?Hn, ?Hs in Hf; [done|by injection Hf]. }
  destruct (decide ([] ≠ [])) as [|_]; [done|].
  apply bind_Ok in Hround as (remaining & Hp%remove_all_Ok & Hround).
  assert (NoDup (cand ++ remaining)) as (Hndc & Hdisj & Hndr)%NoDup_app
    by by rewrite <-Hp.
  assert (∀ n, n ∈ assigned (Construct.store st) →
            tidx !! n = tape_index (Construct.store st) !! n) as Hkeep.
  { intros n Hn. apply Hold. intros [Hr _]%Hc. by destruct (Hrem n Hr). }
  assert (∀ n, n ∈ cand → ∃ j, tidx !! n = Some (Construct.i st + j) ∧ j < length cand)
    as Hfresh.
  { intros n (j & Hj)%list_elem_of_lookup_1. exists j. split; [by apply Hnew|].
    by eapply lookup_lt_Some. }
  assert (∀ n, n ∈ remaining → n ∈ Construct.remaining_nodes st) as Hsub.
  { intros n Hn. rewrite Hp. apply elem_of_app. by right. }
  destruct (decide (cand ≠ [])) as [Hne|Hemp].
  - apply bind_Ok in Hround as ([op store2] & Hinit & [= <-]).
    apply init_Ok_inv in Hinit as (_ & _ & _ & _ & Hnodes & _ & -> & _).
    simpl. split; [|done]. unfold ordered. simpl. split_and!.
    + done.
    + intros n Hn. destruct (Hrem n (Hsub n Hn)) as [Hho Hna]. split; [done|].
      intros [Hnc%elem_of_list_to_set|Ha]%elem_of_union; [|done].
      by apply (Hdisj n).
    + intros n [Ha|Hr]%Hall; [left; apply elem_of_union; by right|].
      rewrite Hp in Hr. apply elem_of_app in Hr as [Hr|Hr]; [left|by right].
      apply elem_of_union. left. by apply elem_of_list_to_set.
    + intros n [Hn%elem_of_list_to_set|Hn]%elem_of_union.
      * destruct (Hfresh n Hn) as (j & Hj & Hlj). exists (Construct.i st + j).
        split; [done|lia].
      * destruct (Hlt n Hn) as (k & Hk & Hlk). exists k. rewrite Hkeep by done.
        split; [done|lia].
    + intros n n' k [Hn%elem_of_list_to_set|Hn]%elem_of_union
                    [Hn'%elem_of_list_to_set|Hn']%elem_of_union Hk Hk'.
      * destruct (list_elem_of_lookup_1 _ _ Hn) as (j & Hj).
        destruct (list_elem_of_lookup_1 _ _ Hn') as (j' & Hj').
        rewrite (Hnew _ _ Hj) in Hk. rewrite (Hnew _ _ Hj') in Hk'.
        assert (j = j') as -> by (simplify_eq; lia).
        by simplify_eq.
      * destruct (Hfresh n Hn) as (j & Hj & _). rewrite Hkeep in Hk' by done.
        destruct (Hlt n' Hn') as (k' & Hk'' & Hlk). simplify_eq. lia.
      * destruct (Hfresh n' Hn') as (j & Hj & _). rewrite Hkeep in Hk by done.
        destruct (Hlt n Hn) as (k' & Hk'' & Hlk). simplify_eq. lia.
      * rewrite Hkeep in Hk, Hk' by done. by eapply Hinj.
    + intros n p [Hn%elem_of_list_to_set|Hn]%elem_of_union Hho Hp'.
      * destruct (Hc n Hn) as [_ He]. unfold Construct.eligible in He.
        apply forallb_True in He. rewrite Forall_forall in He.
        apply He, bool_decide_spec in Hp'.
        split; [apply elem_of_union; by right|].
        destruct (Hlt p Hp') as (kp & Hkp & Hlkp).
        destruct (Hfresh n Hn) as (j & Hj & _).
        exists kp, (Construct.i st + j). rewrite Hkeep by done.
        split_and!; [done|done|lia].
      * destruct (Htop n p Hn Hho Hp') as (Hpa & kp & kn & Hkp & Hkn & Hlk).
        split; [apply elem_of_union; by right|].
        exists kp, kn. rewrite !Hkeep by done. done.
    + by right.
    + rewrite fmap_app, join_app. simpl. rewrite app_nil_r, Hnodes.
      rewrite <-Hperm, Hp. by rewrite (assoc_L (++)).
  - apply dec_stable in Hemp. injection Hround as <-.
    simpl. split; [|done]. rewrite Hemp in Hp, Hold |- *. simpl in Hp.
    unfold ordered. simpl.
    assert (∀ n, tidx !! n = tape_index (Construct.store st) !! n) as Hsame.
    { intros n. apply Hold. apply not_elem_of_nil. }
    split_and!.
    + done.
    + intros n Hn. by apply Hrem, Hsub.
    + intros n [Ha|Hr]%Hall; [by left|]. right. by rewrite <-Hp.
    + intros n Hn. rewrite Hsame. destruct (Hlt n Hn) as (k & Hk & Hlk).
      exists k. split; [done|lia].
    + intros n n' k Hn Hn'. rewrite !Hsame. by apply Hinj.
    + intros n p Hn Hho Hp'. rewrite !Hsame. by apply Htop.
    + by right.
    + by rewrite <-Hp.
Qed.

Lemma entry_ordered (g : Graph) :
  NoDup (input_nodes g ++ hidden_nodes g ++ output_nodes g) →
  ordered g (Construct.entry (R:=R) g fresh_store).
Proof.
  intros (Hndi & Hdisj & Hndho)%NoDup_app. unfold Construct.entry.
  destruct (Construct.index_inputs _ _ _) as [st1 i1] eqn:Hii.
  destruct (index_inputs_exact _ _ _ _ _ Hndi Hii) as [Hnew _].
  apply index_inputs_spec in Hii as (-> & Hasg & _).
  assert (∀ n, n ∈ assigned st1 ↔ n ∈ input_nodes g) as Ha.
  { intros n. rewrite Hasg, elem_of_union, elem_of_list_to_set. simpl.
    rewrite elem_of_empty. tauto. }
  unfold ordered. simpl. split_and!.
  - done.
  - intros n Hn. split; [done|]. rewrite Ha. intros Hi. by apply (Hdisj n).
  - intros n [Hn|Hn]%elem_of_app; [left; by apply Ha|by right].
  - intros n (j & Hj)%Ha%list_elem_of_lookup_1. exists (1 + j).
    split; [by apply Hnew|]. apply lookup_lt_Some in Hj. lia.
  - intros n n' k (j & Hj)%Ha%list_elem_of_lookup_1
                  (j' & Hj')%Ha%list_elem_of_lookup_1 Hk Hk'.
    rewrite (Hnew _ _ Hj) in Hk. rewrite (Hnew _ _ Hj') in Hk'.
    assert (j = j') as -> by (simplify_eq; lia). by simplify_eq.
  - intros n p Hn%Ha Hho. by destruct (Hdisj n Hn).
  - by left.
  - done.
Qed.

Lemma loop_untagged (fuel : nat) (g : Graph) (ini : string)
    (m : gmap string (list nat)) (st st' : Construct.locals R) :
  untagged g → ordered g st → Construct.loop fuel g ini m st = Some (Ok st') →
  ordered g st' ∧ Construct.remaining_nodes st' = [].
Proof.
  intros Hunt. revert st. induction fuel as [|fuel IH]; intros st Hord; simpl.
  - destruct (Construct.remaining_nodes st) eqn:Hrem; [|done]. by intros [= <-].
  - destruct (Construct.remaining_nodes st) eqn:Hrem; [by intros [= <-]|].
    destruct (Construct.round g ini m st) as [st1|e] eqn:Hround; [|done].
    apply IH. by eapply round_untagged.
Qed.

Lemma list_remove_total (x : nat) (l : list nat) :
  x ∈ l → is_Ok (Construct.list_remove x l).
Proof.
  induction l as [|y l IH]; [by intros ?%elem_of_nil|]. simpl.
  destruct (decide (y = x)); [by eexists|].
  intros [->|Hx]%elem_of_cons; [done|]. destruct (IH Hx) as [l' ->]. by eexists.
Qed.

Lemma remove_all_total (xs l : list nat) :
  xs ⊆+ l → is_Ok (Construct.remove_all xs l).
Proof.
  revert l. induction xs as [|x xs IH]; intros l Hsub; [by eexists|]. simpl.
  destruct (list_remove_total x l) as [l' Hl'].
  { eapply elem_of_submseteq; [|done]. left. }
  rewrite Hl'. simpl. apply IH. apply list_remove_Ok in Hl'.
  rewrite Hl' in Hsub. by apply (submseteq_app_inv_l _ _ [x]).
Qed.

(** On an acyclic graph some remaining node is a candidate. *)
Lemma candidates_exist (g : Graph) (st : Construct.locals R) :
  schedulable g → NoDup (input_nodes g ++ hidden_nodes g ++ output_nodes g) →
  ordered g st → Construct.remaining_nodes st ≠ [] →
  filter (λ n, Construct.eligible g (assigned (Construct.store st)) n)
         (Construct.remaining_nodes st) ≠ [].
Proof.
  intros (rank & Hrank & _) (_ & Hdisj & _)%NoDup_app
         (_ & Hrem & Hall & _) Hne.
  destruct (least_round rank _ Hne) as (n & Hn & Hmin).
  assert (Construct.eligible g (assigned (Construct.store st)) n) as He.
  { unfold Construct.eligible. apply forallb_True, Forall_forall.
    intros p Hp. apply bool_decide_spec.
    destruct (Hrem n Hn) as [Hho _].
    destruct (Hrank n p Hho Hp) as [Hi|[Hpho Hlt]].
    - destruct (Hall p) as [Ha|Hr]; [apply elem_of_app; by left|done|].
      destruct (Hrem p Hr) as [Hpho _]. by destruct (Hdisj p Hi).
    - destruct (Hall p) as [Ha|Hr]; [apply elem_of_app; by right|done|].
      specialize (Hmin p Hr). lia. }
  intros Hnil.
  assert (n ∈ filter (λ n, Construct.eligible g (assigned (Construct.store st)) n)
                     (Construct.remaining_nodes st)) as Hin
    by by apply list_elem_of_filter.
  rewrite Hnil in Hin. by apply elem_of_nil in Hin.
Qed.

(** With candidates at hand and a known initialization the round
    completes. *)
Lemma round_returns (g : Graph) (ini : string) (m : gmap string (list nat))
    (st : Construct.locals R) :
  untagged g → initialization_known (R:=R) ini → ordered g st →
  filter (λ n, Construct.eligible g (assigned (Construct.store st)) n)
         (Construct.remaining_nodes st) ≠ [] →
  is_Ok (Construct.round g ini m st).
Proof.
  intros Hunt Hini (Hnd & Hrem & Hall & Hlt & _) Hne.
  unfold Construct.round.
  destruct (Construct.scan _ _ _ _ _ _) as [[tidx i1] cand] eqn:Hscan.
  destruct (scan_exact _ _ _ _ _ _ _ _ _ Hnd Hscan) as [Hnew Hold].
  apply scan_spec in Hscan as (Hcand & -> & _). simpl in Hcand.
  rewrite <-Hcand in Hnew, Hold, Hne |- *.
  assert (∀ n, n ∈ cand →
            n ∈ Construct.remaining_nodes st ∧
            Construct.eligible g (assigned (Construct.store st)) n) as Hc.
  { intros n Hn. rewrite Hcand in Hn. by apply list_elem_of_filter in Hn as [? ?]. }
  rewrite check_untagged.
  2:{ intros n [Hn _]%Hc. by apply Hunt, Hrem. }
  destruct cand as [|c cand'] eqn:Hcd; [done|]. rewrite <-Hcd in *. simpl.
  destruct (remove_all_total cand (Construct.remaining_nodes st)) as [remaining ->].
  { rewrite Hcand. apply sublist_submseteq, sublist_filter. }
  simpl. destruct (decide (cand ≠ [])) as [_|Hemp]; [|by destruct Hemp].
  destruct (init_total g {| tape_index := tidx;
                            assigned := assigned (Construct.store st) |}
              cand ini) as (op & st' & ->); [done|done| | |by eexists].
  - intros n (j & Hj)%list_elem_of_lookup_1. simpl. by rewrite (Hnew _ _ Hj).
  - intros n p [_ He]%Hc Hp. simpl. unfold Construct.eligible in He.
    apply forallb_True in He. rewrite Forall_forall in He.
    apply He, bool_decide_spec in Hp. rewrite Hold.
    + destruct (Hlt p Hp) as (k & -> & _). by eexists.
    + intros [Hr _]%Hc. by destruct (Hrem p Hr).
Qed.

Lemma loop_terminates (fuel : nat) (g : Graph) (ini : string)
    (m : gmap string (list nat)) (st : Construct.locals R) :
  untagged g → schedulable g →
  NoDup (input_nodes g ++ hidden_nodes g ++ output_nodes g) →
  initialization_known (R:=R) ini → ordered g st →
  length (Construct.remaining_nodes st) ≤ fuel →
  ∃ st', Construct.loop fuel g ini m st = Some (Ok st').
Proof.
  intros Hunt Hsch Hnd Hini. revert st.
  induction fuel as [|fuel IH]; intros st Hord Hlen; simpl.
  - destruct (Construct.remaining_nodes st); [by eexists|simpl in Hlen; lia].
  - destruct (Construct.remaining_nodes st) as [|n ns] eqn:Hrem; [by eexists|].
    assert (Construct.remaining_nodes st ≠ []) as Hne by by rewrite Hrem.
    pose proof (candidates_exist g st Hsch Hnd Hord Hne) as Hcand.
    destruct (round_returns g ini m st Hunt Hini Hord Hcand) as [st1 Hround].
    rewrite Hround.
    destruct (round_untagged g ini m st st1 Hunt Hord Hround) as [Hord1 Hperm].
    apply IH; [done|]. rewrite <-Hrem in Hlen. rewrite Hperm, length_app in Hlen.
    destruct (filter _ _); [done|]. simpl in Hlen. lia.
Qed.

(** On an acyclic graph without grouping tags, with no node listed
    twice and a known initialization, [__init__] returns a model within
    as many rounds as there are hidden and output nodes. *)
Lemma untagged_terminates (g : Graph) (ini : string) :
  untagged g → schedulable g →
  NoDup (input_nodes g ++ hidden_nodes g ++ output_nodes g) →
  initialization_known (R:=R) ini →
  ∃ m : Model.t R,
    Model.init (length (hidden_nodes g ++ output_nodes g)) g ini = Some (Ok m).
Proof.
  intros Hunt Hsch Hnd Hini. unfold Model.init, Model.construct.
  pose proof (entry_ordered g Hnd) as Hord.
  assert (Construct.remaining_nodes (Construct.entry (R:=R) g fresh_store)
          = hidden_nodes g ++ output_nodes g) as Hrem.
  { unfold Construct.entry. by destruct (Construct.index_inputs _ _ _). }
  destruct (loop_terminates (length (hidden_nodes g ++ output_nodes g)) g ini
              (Construct.id_node_map g
                 (Construct.remaining_nodes (Construct.entry (R:=R) g fresh_store)))
              _ Hunt Hsch Hnd Hini Hord) as [st' Hloop]; [by rewrite Hrem|].
  rewrite Hloop.
  apply loop_untagged in Hloop as [(_ & _ & Hall & Hlt & _) Hnil]; [|done..].
  destruct (mapM_is_Ok (Op.tape_index_of (Construct.store st'))
              (Construct.sorted (λ n, output_index (node g n)) (output_nodes g)))
    as [idx ->]; [|by eexists].
  intros n Hn. rewrite sorted_perm in Hn.
  destruct (Hall n) as [Ha|Hr].
  { apply elem_of_app. right. apply elem_of_app. by right. }
  - destruct (Hlt n Ha) as (k & Hk & _). unfold Op.tape_index_of. rewrite Hk.
    by eexists.
  - rewrite Hnil in Hr. by apply elem_of_nil in Hr.
Qed.

(** On a graph without grouping tags and with no node listed twice, the
    model [__init__] returns gives every node of the graph a tape index
    of its own, every hidden and output node an index above those of the
    nodes it reads, and holds every hidden and output node in exactly one
    operation. *)
Lemma untagged_order (fuel : nat) (g : Graph) (ini : string) (m : Model.t R) :
  untagged g →
  NoDup (input_nodes g ++ hidden_nodes g ++ output_nodes g) →
  Model.init fuel g ini = Some (Ok m) →
  let tidx := tape_index (Model.node_store m) in
  (∀ n, n ∈ input_nodes g ++ hidden_nodes g ++ output_nodes g →
        is_Some (tidx !! n)) ∧
  (∀ n n' k, n ∈ input_nodes g ++ hidden_nodes g ++ output_nodes g →
             n' ∈ input_nodes g ++ hidden_nodes g ++ output_nodes g →
             tidx !! n = Some k → tidx !! n' = Some k → n = n') ∧
  (∀ n p, n ∈ hidden_nodes g ++ output_nodes g → p ∈ inputs (node g n) →
          ∃ kp kn, tidx !! p = Some kp ∧ tidx !! n = Some kn ∧ kp < kn) ∧
  mjoin (Op.nodes <$> Model.ops m) ≡ₚ hidden_nodes g ++ output_nodes g.
Proof.
  intros Hunt Hnd. unfold Model.init, Model.construct.
  destruct (Construct.loop _ _ _ _ _) as [[st'|e]|] eqn:Hloop; [|done..].
  apply loop_untagged in Hloop
    as [(_ & _ & Hall & Hlt & Hinj & Htop & _ & Hperm) Hnil];
    [|done|by apply entry_ordered].
  destruct (mapM _ _) as [idx|e]; [|done]. simpl. intros [= <-]. simpl.
  assert (∀ n, n ∈ input_nodes g ++ hidden_nodes g ++ output_nodes g →
               n ∈ assigned (Construct.store st')) as Hasg.
  { intros n [Ha|Hr]%Hall; [done|]. rewrite Hnil in Hr. by apply elem_of_nil in Hr. }
  split_and!.
  - intros n Hn. destruct (Hlt n (Hasg n Hn)) as (k & -> & _). by eexists.
  - intros n n' k Hn Hn'. apply Hinj; by apply Hasg.
  - intros n p Hn Hp. apply Htop; [|done..]. apply Hasg, elem_of_app. by right.
  - by rewrite Hnil, app_nil_r in Hperm.
Qed.
End untagged_graphs.

(** The chain of [Examples.chain_graph] meets the conditions of the two
    results: its model exists after three rounds, and the tape follows the
    data flow. *)
Lemma he_known : initialization_known (R:=Z) "he".
Proof.
  eexists. split; [reflexivity|]. intros idx.
  rewrite <-list_fmap_compose. apply list_fmap_ext. intros _ row _. simpl.
  by rewrite length_imap.
Qed.

Lemma chain_graph_untagged : untagged chain_graph.
Proof.
  intros n Hn. simpl in Hn. repeat (apply elem_of_cons in Hn as [->|Hn]; [done|]).
  by apply elem_of_nil in Hn.
Qed.

Lemma chain_graph_schedulable : schedulable chain_graph.
Proof.
  exists id. split.
  - intros n p Hn Hp. simpl in Hn.
    repeat (apply elem_of_cons in Hn as [->|Hn];
            [simpl in Hp;
             repeat (apply elem_of_cons in Hp as [->|Hp];
                     [first [left; by left
                            |right; split; [simpl; set_solver|simpl; lia]]|]);
             by apply elem_of_nil in Hp|]).
    by apply elem_of_nil in Hn.
  - intros n n' Hn _ _ Hany. by rewrite chain_graph_untagged in Hany.
Qed.

Lemma chain_graph_compiles :
  ∃ m : Model.t Z,
    Model.init 3 chain_graph "he" = Some (Ok m) ∧
    tape_index (Model.node_store m) !! 0 = Some 1 ∧
    tape_index (Model.node_store m) !! 1 = Some 2 ∧
    tape_index (Model.node_store m) !! 2 = Some 3 ∧
    tape_index (Model.node_store m) !! 3 = Some 4 ∧
    Op.nodes <$> Model.ops m = [[1]; [2]; [3]].
Proof.
  destruct (untagged_terminates chain_graph "he") as [m Hm].
  - apply chain_graph_untagged.
  - apply chain_graph_schedulable.
  - simpl. apply (bool_decide_unpack _). by vm_compute.
  - apply he_known.
  - exists m. split; [exact Hm|].
    assert (Model.init 3 chain_graph "he" = Some (Ok (built (Model.init 3 chain_graph "he"))))
      as Hb by (vm_compute; reflexivity).
    simpl in Hm. rewrite Hm in Hb at 1. injection Hb as ->.
    vm_compute. done.
Qed.

Section loop_lemmas.
Context {R : Type} `{Numeric R} `{Catalog R}.

Lemma loop_step (fuel : nat) (g : Graph) (ini : string)
    (m : gmap string (list nat)) (st st' : Construct.locals R) :
  Construct.remaining_nodes st ≠ [] → Construct.round g ini m st = Ok st' →
  Construct.loop (S fuel) g ini m st = Construct.loop fuel g ini m st'.
Proof.
  intros Hrem Hround. simpl.
  destruct (Construct.remaining_nodes st); [done|]. by rewrite Hround.
Qed.

Lemma loop_raise (fuel : nat) (g : Graph) (ini : string)
    (m : gmap string (list nat)) (st : Construct.locals R) (e : exn) :
  Construct.remaining_nodes st ≠ [] → Construct.round g ini m st = Raise e →
  Construct.loop (S fuel) g ini m st = Some (Raise e).
Proof.
  intros Hrem Hround. simpl.
  destruct (Construct.remaining_nodes st); [done|]. by rewrite Hround.
Qed.

Lemma loop_out_of_fuel (g : Graph) (ini : string)
    (m : gmap string (list nat)) (st : Construct.locals R) :
  Construct.remaining_nodes st ≠ [] → Construct.loop 0 g ini m st = None.
Proof. intros Hrem. simpl. by destruct (Construct.remaining_nodes st). Qed.

(** A round that leaves the state as it found it is repeated for ever. *)
Lemma loop_fixed_point (fuel : nat) (g : Graph) (ini : string)
    (m : gmap string (list nat)) (st : Construct.locals R) :
  Construct.remaining_nodes st ≠ [] → Construct.round g ini m st = Ok st →
  Construct.loop fuel g ini m st = None.
Proof.
  intros Hrem Hround. induction fuel as [|fuel IH].
  - by apply loop_out_of_fuel.
  - by rewrite (loop_step fuel g ini m st st).
Qed.
End loop_lemmas.

(** * The claims *)

(** Claim C5. Whenever [Op.forward] returns, the operation is as it was
    before the call, so its weights and bias are unchanged; the tape has
    the same rows of the same lengths, and every position that is not one
    of the operation's output indices holds the value it held before. *)
Theorem forward_writes_outputs_only {R : Type} `{Numeric R} `{Catalog R}
    (op op' : Op.t R) (tape tape' : list (list R)) :
  Op.forward op tape = Ok (tape', op') →
  op' = op ∧ Op.weights op' = Op.weights op ∧ Op.bias op' = Op.bias op ∧
  length tape' = length tape ∧
  ∀ s row', tape' !! s = Some row' →
    ∃ row, tape !! s = Some row ∧ length row' = length row ∧
           ∀ k, k ∉ Op.output_indices op → row' !! k = row !! k.
Proof.
  intros (-> & Hlen & Hrows)%forward_Ok_inv. by split_and!.
Qed.

Lemma forward_writes_outputs_only_witness :
  Op.forward two_op [[0; 3; 4; 0; 0]; [0; -1; -5; 0; 0]]%Z
  = Ok ([[0; 3; 4; 11; 4]; [0; -1; -5; 0; -5]]%Z, two_op) ∧
  (two_op = two_op ∧ Op.weights two_op = Op.weights two_op ∧
   Op.bias two_op = Op.bias two_op ∧
   length [[0; 3; 4; 11; 4]; [0; -1; -5; 0; -5]]%Z
   = length [[0; 3; 4; 0; 0]; [0; -1; -5; 0; 0]]%Z ∧
   ∀ s row', [[0; 3; 4; 11; 4]; [0; -1; -5; 0; -5]]%Z !! s = Some row' →
     ∃ row, [[0; 3; 4; 0; 0]; [0; -1; -5; 0; 0]]%Z !! s = Some row ∧
            length row' = length row ∧
            ∀ k, k ∉ Op.output_indices two_op → row' !! k = row !! k).
Proof.
  split; [vm_compute; reflexivity|].
  apply (forward_writes_outputs_only two_op two_op
           [[0; 3; 4; 0; 0]; [0; -1; -5; 0; 0]]%Z
           [[0; 3; 4; 11; 4]; [0; -1; -5; 0; -5]]%Z).
  vm_compute; reflexivity.
Defined.

(** Claim C9. [fit] on a model whose optimizer is still unset, as it is
    until [compile] sets it, ends at once with the configuration error
    and leaves the model exactly as it was: no tape is cached, no
    parameter and no other attribute changes. *)
Theorem fit_before_compile {R : Type} `{Numeric R} `{Catalog R}
    (training : Model.t R → Tensor R → Tensor R → nat → nat → result () * Model.t R)
    (m : Model.t R) (X_tr y_tr : Tensor R) (epochs batch_size : nat) :
  Model.optimizer m = None →
  Model.fit training m X_tr y_tr epochs batch_size
  = (Raise (RuntimeError "Compile model first before calling fit()"), m).
Proof. intros Hopt. unfold Model.fit. by rewrite Hopt. Qed.

Lemma fit_before_compile_witness :
  Model.optimizer two_model = None ∧
  Model.fit (λ m _ _ _ _, (Ok (), m)) two_model
    {| shape := [1; 2]; data := [3; 4]%Z |} {| shape := [1; 2]; data := [4; 11]%Z |} 1 32
  = (Raise (RuntimeError "Compile model first before calling fit()"), two_model).
Proof.
  split; [reflexivity|].
  apply (fit_before_compile (λ m _ _ _ _, (Ok (), m)) two_model). reflexivity.
Defined.

(** Claim C10, as amended. On a model without optimizer and loss, as
    [__init__] leaves it: [compile] with an optimizer name other than
    ["adam"] and ["sgd"] returns normally, whatever the loss name, and
    leaves the optimizer unset, so that a following [fit] still ends with
    the configuration error. With a loss name other than ["mse"] and
    ["crossentropy"], the loss function is unset whenever [compile]
    returns; it returns when the optimizer name is unrecognized too or
    the model has an operation, and raises [ValueError], the optimizer's
    complaint about an empty parameter list, when the optimizer name is
    ["adam"] or ["sgd"] and the model has no operation. *)
Theorem compile_unrecognized_names {R : Type} `{Numeric R} `{Catalog R}
    (training : Model.t R → Tensor R → Tensor R → nat → nat → result () * Model.t R)
    (m : Model.t R) (optimizer_name loss_name : string)
    (X_tr y_tr : Tensor R) (epochs batch_size : nat) :
  Model.optimizer m = None → Model.loss_function m = None →
  (optimizer_name ≠ "adam" → optimizer_name ≠ "sgd" →
   ∃ m', Model.compile m optimizer_name loss_name = Ok m' ∧
         Model.optimizer m' = None ∧
         Model.fit training m' X_tr y_tr epochs batch_size
         = (Raise (RuntimeError "Compile model first before calling fit()"), m')) ∧
  (loss_name ≠ "mse" → loss_name ≠ "crossentropy" →
   (∀ m', Model.compile m optimizer_name loss_name = Ok m' →
          Model.loss_function m' = None) ∧
   ((optimizer_name ≠ "adam" ∧ optimizer_name ≠ "sgd") ∨ Model.ops m ≠ [] →
    ∃ m', Model.compile m optimizer_name loss_name = Ok m') ∧
   (optimizer_name = "adam" ∨ optimizer_name = "sgd" → Model.ops m = [] →
    Model.compile m optimizer_name loss_name = Raise ValueError)).
Proof.
  intros Hopt Hloss. split.
  - intros Ha Hs. unfold Model.compile.
    rewrite !(decide_False (P := optimizer_name = _)) by done. simpl.
    eexists. split; [done|].
    assert (Model.optimizer
              (if decide (loss_name = "mse")
               then Model.set_loss_function m (Some MSELoss)
               else if decide (loss_name = "crossentropy")
                    then Model.set_loss_function m (Some CrossEntropyLoss)
                    else m) = None) as Hnone by (by repeat case_decide).
    split; [done|]. unfold Model.fit. by rewrite Hnone.
  - intros Hm Hc. unfold Model.compile, Model.new_optimizer. split_and!.
    + intros m'. repeat (case_decide; simpl); intros [= <-]; done.
    + intros [[Ha Hs]|Hops]; repeat (case_decide; simpl); eauto; done.
    + intros Hname Hops.
      destruct Hname as [-> | ->]; repeat (case_decide; simpl); done.
Qed.

Lemma compile_unrecognized_names_witness :
  Model.optimizer two_model = None ∧ Model.loss_function two_model = None ∧
  ("rmsprop" ≠ "adam" → "rmsprop" ≠ "sgd" →
   ∃ m', Model.compile two_model "rmsprop" "hinge" = Ok m' ∧
         Model.optimizer m' = None ∧
         Model.fit (λ m _ _ _ _, (Ok (), m)) m'
           {| shape := [1; 2]; data := [3; 4]%Z |}
           {| shape := [1; 2]; data := [4; 11]%Z |} 1 32
         = (Raise (RuntimeError "Compile model first before calling fit()"), m')) ∧
  ("hinge" ≠ "mse" → "hinge" ≠ "crossentropy" →
   (∀ m', Model.compile two_model "rmsprop" "hinge" = Ok m' →
          Model.loss_function m' = None) ∧
   (("rmsprop" ≠ "adam" ∧ "rmsprop" ≠ "sgd") ∨ Model.ops two_model ≠ [] →
    ∃ m', Model.compile two_model "rmsprop" "hinge" = Ok m') ∧
   ("rmsprop" = "adam" ∨ "rmsprop" = "sgd" → Model.ops two_model = [] →
    Model.compile two_model "rmsprop" "hinge" = Raise ValueError)).
Proof.
  split; [reflexivity|]. split; [reflexivity|].
  apply (compile_unrecognized_names (λ m _ _ _ _, (Ok (), m)) two_model
           "rmsprop" "hinge"); reflexivity.
Defined.

(** Claim C10 as stated fails on [bare_model], the model of a graph with
    an input node only: the loss name ["hinge"] is unrecognized, and
    [compile] with the optimizer ["adam"] raises [ValueError]. *)
Lemma compile_raises_without_parameters :
  Model.init 1 bare_graph "he" = Some (Ok bare_model) ∧
  Model.optimizer bare_model = None ∧ Model.loss_function bare_model = None ∧
  "hinge" ≠ "mse" ∧ "hinge" ≠ "crossentropy" ∧
  Model.compile bare_model "adam" "hinge" = Raise ValueError.
Proof. split_and!; try discriminate; vm_compute; reflexivity. Qed.

Lemma two_model_init : Model.init 1 two_outputs "he" = Some (Ok two_model).
Proof. vm_compute. reflexivity. Qed.

Lemma two_outputs_activations : activations_known act two_outputs.
Proof.
  assert (∀ a, a = "relu" ∨ a = "linear" → catalog_has act a) as Hcat.
  { intros a Ha. eexists. split; [|by intros t].
    simpl. by rewrite decide_True. }
  intros n [->|[->|[]%elem_of_nil]%elem_of_cons]%elem_of_cons; apply Hcat; auto.
Qed.

(** Claim C7. Throughout the life of a constructed model, index 0 is
    no node's tape index and no operation's output index; a pass starts
    from a zero-filled tape, the input write leaves every position outside
    [1..input_size] as it was, and after the input write, after each
    operation, and on the tape the pass leaves behind, position 0 of
    every sample holds zero. *)
Theorem tape_index_0_reserved {R : Type} `{Numeric R} `{Catalog R}
    (fuel : nat) (g : Graph) (ini : string) (m0 m : Model.t R) :
  Model.init fuel g ini = Some (Ok m0) → evolves m0 m →
  (∀ n k, tape_index (Model.node_store m) !! n = Some k → k ≠ 0) ∧
  (∀ op, op ∈ Model.ops m → 0 ∉ Op.output_indices op) ∧
  (∀ b c d,
     Forall (λ row, Forall (λ v, v = zero) row ∧ row !! 0 = Some zero)
            (Model.initial_tape m b) ∧
     ∀ tp1, Model.write_inputs (Model.initial_tape m b) (Model.input_size m) b c d
            = Ok tp1 →
       (∀ s row0 row1 k,
          Model.initial_tape m b !! s = Some row0 → tp1 !! s = Some row1 →
          k = 0 ∨ Model.input_size m < k → row1 !! k = row0 !! k) ∧
       ∀ j tpj osj, Model.run_ops (take j (Model.ops m)) tp1 = Ok (tpj, osj) →
                    Forall (λ row, row !! 0 = Some zero) tpj) ∧
  (∀ x out m', Model.forward m x = Ok (out, m') →
     ∃ tp, Model.tape m' = Some tp ∧ Forall (λ row, row !! 0 = Some zero) tp).
Proof.
  intros Hinit Hev.
  destruct (init_model_ok _ _ _ _ Hinit) as (Hok0 & _).
  destruct (evolves_model_ok m0 m Hev Hok0) as [Hok _].
  pose proof Hok as (Hts & Hops & _ & _ & _ & Hstore).
  split_and!.
  - intros n k Hk ->. apply Hstore in Hk. lia.
  - intros op Hop Hk. rewrite Forall_forall in Hops.
    destruct (Hops op Hop) as (_ & _ & _ & Houts & _). apply Houts in Hk. lia.
  - intros b c d. pose proof (initial_tape_ok m b Hok) as Htp0. split.
    + destruct Htp0 as [_ Hrows]. pose proof (initial_tape_zero m b) as Hz.
      rewrite Forall_forall in Hrows, Hz. apply Forall_forall.
      intros row Hrow. split; [by apply Hz|by apply Hrows].
    + intros tp1 Hw. split.
      * by apply (write_inputs_frame _ _ _ b c (Model.tape_size m) d).
      * intros j tpj osj Hrun.
        apply (write_inputs_ok _ _ _ _ (Model.tape_size m)) in Hw; [|lia|done].
        apply (run_ops_tape_ok (Model.graph m) b (Model.tape_size m)) in Hrun
          as [_ [_ Hrows]]; [|by apply Forall_take|done].
        eapply Forall_impl; [exact Hrows|]. by intros row [_ ?].
  - intros x out m' Hfw.
    destruct (forward_fields m m' x out Hok Hfw) as (b & tp & -> & _ & Hrows).
    exists tp. split; [done|]. eapply Forall_impl; [exact Hrows|]. by intros row [_ ?].
Qed.

Lemma tape_index_0_reserved_witness :
  Model.init 1 two_outputs "he" = Some (Ok two_model) ∧ evolves two_model two_model ∧
  (∀ n k, tape_index (Model.node_store two_model) !! n = Some k → k ≠ 0) ∧
  (∀ op, op ∈ Model.ops two_model → 0 ∉ Op.output_indices op) ∧
  (∀ b c d,
     Forall (λ row, Forall (λ v, v = zero) row ∧ row !! 0 = Some zero)
            (Model.initial_tape two_model b) ∧
     ∀ tp1, Model.write_inputs (Model.initial_tape two_model b)
              (Model.input_size two_model) b c d = Ok tp1 →
       (∀ s row0 row1 k,
          Model.initial_tape two_model b !! s = Some row0 → tp1 !! s = Some row1 →
          k = 0 ∨ Model.input_size two_model < k → row1 !! k = row0 !! k) ∧
       ∀ j tpj osj, Model.run_ops (take j (Model.ops two_model)) tp1 = Ok (tpj, osj) →
                    Forall (λ row, row !! 0 = Some zero) tpj) ∧
  (∀ x out m', Model.forward two_model x = Ok (out, m') →
     ∃ tp, Model.tape m' = Some tp ∧ Forall (λ row, row !! 0 = Some zero) tp).
Proof.
  split; [vm_compute; reflexivity|]. split; [constructor|].
  apply (tape_index_0_reserved 1 two_outputs "he" two_model two_model).
  - vm_compute; reflexivity.
  - constructor.
Defined.

(** Claim C8. Throughout the life of a constructed model,
    [Model.forward] treats a one-dimensional input as the batch of one
    sample with the same entries, and ends in the assertion error for an
    input of any rank other than one and two. Whenever it returns, the
    output has the shape (batch size, output count), with batch size 1
    for a one-dimensional input. It does return, with a well-formed
    output, for a two-dimensional input with [input_size] columns and for
    a one-dimensional input of [input_size] entries when the catalog
    knows the activations and the graph has an output node. *)
Theorem forward_input_rank {R : Type} `{Numeric R} `{Catalog R}
    (φ : string → R → R) (fuel : nat) (g : Graph) (ini : string) (m0 m : Model.t R) :
  Model.init fuel g ini = Some (Ok m0) → evolves m0 m →
  Model.input_size m = length (input_nodes g) ∧
  Model.output_size m = length (output_nodes g) ∧
  (∀ x n, shape x = [n] →
     Model.forward m x = Model.forward m {| shape := [1; n]; data := data x |}) ∧
  (∀ x, length (shape x) ≠ 1 → length (shape x) ≠ 2 →
     Model.forward m x = Raise (AssertionError "Input must be flattened batches (2D)")) ∧
  (∀ x b c out m', shape x = [b; c] → Model.forward m x = Ok (out, m') →
     shape out = [b; Model.output_size m]) ∧
  (∀ x n out m', shape x = [n] → Model.forward m x = Ok (out, m') →
     shape out = [1; Model.output_size m]) ∧
  (activations_known φ g → output_nodes g ≠ [] →
   (∀ x b, shape x = [b; Model.input_size m] →
      ∃ out m', Model.forward m x = Ok (out, m') ∧
                shape out = [b; Model.output_size m] ∧ well_formed out) ∧
   (∀ x, shape x = [Model.input_size m] →
      ∃ out m', Model.forward m x = Ok (out, m') ∧
                shape out = [1; Model.output_size m] ∧ well_formed out)).
Proof.
  intros Hinit Hev.
  destruct (init_model_ok _ _ _ _ Hinit) as (Hok0 & Hg0 & _ & _ & _ & His0 & Hos0).
  destruct (evolves_model_ok m0 m Hev Hok0) as [Hok Hsf].
  destruct Hsf as (_ & _ & _ & Hg & _ & His & Hos & _).
  pose proof Hok as (_ & _ & _ & Hlo & _).
  rewrite Hg0 in Hg. split_and!.
  - congruence.
  - congruence.
  - intros x n. apply forward_promotes.
  - intros x. apply forward_rejects.
  - intros x b c out m' Hshape Hfw. rewrite <-Hlo. by eapply forward_shape.
  - intros x n out m' Hshape Hfw. rewrite (forward_promotes m x n Hshape) in Hfw.
    rewrite <-Hlo.
    by apply (forward_shape m m' {| shape := [1; n]; data := data x |} out 1 n).
  - intros Hact Hne.
    assert (Model.output_indices m ≠ []) as Hout.
    { intros Hnil. rewrite Hnil in Hlo. simpl in Hlo.
      destruct (output_nodes g); [done|]. simpl in *. lia. }
    split.
    + intros x b Hshape. apply (forward_accepts φ); [done|by rewrite Hg|done..].
    + intros x Hshape. rewrite (forward_promotes m x _ Hshape).
      apply (forward_accepts φ); [done|by rewrite Hg|done..].
Qed.

Lemma forward_input_rank_witness :
  Model.init 1 two_outputs "he" = Some (Ok two_model) ∧ evolves two_model two_model ∧
  Model.input_size two_model = length (input_nodes two_outputs) ∧
  Model.output_size two_model = length (output_nodes two_outputs) ∧
  (∀ x n, shape x = [n] →
     Model.forward two_model x
     = Model.forward two_model {| shape := [1; n]; data := data x |}) ∧
  (∀ x, length (shape x) ≠ 1 → length (shape x) ≠ 2 →
     Model.forward two_model x
     = Raise (AssertionError "Input must be flattened batches (2D)")) ∧
  (∀ x b c out m', shape x = [b; c] → Model.forward two_model x = Ok (out, m') →
     shape out = [b; Model.output_size two_model]) ∧
  (∀ x n out m', shape x = [n] → Model.forward two_model x = Ok (out, m') →
     shape out = [1; Model.output_size two_model]) ∧
  (activations_known act two_outputs → output_nodes two_outputs ≠ [] →
   (∀ x b, shape x = [b; Model.input_size two_model] →
      ∃ out m', Model.forward two_model x = Ok (out, m') ∧
                shape out = [b; Model.output_size two_model] ∧ well_formed out) ∧
   (∀ x, shape x = [Model.input_size two_model] →
      ∃ out m', Model.forward two_model x = Ok (out, m') ∧
                shape out = [1; Model.output_size two_model] ∧ well_formed out)).
Proof.
  split; [vm_compute; reflexivity|]. split; [constructor|].
  apply (forward_input_rank act 1 two_outputs "he" two_model two_model).
  - vm_compute; reflexivity.
  - constructor.
Defined.

Lemma two_op_init :
  Op.init two_outputs two_store [2; 3] "he" = Ok (two_op, Model.node_store two_model).
Proof. vm_compute. reflexivity. Qed.

(** Claim C6, as amended. An operation as [Op.__init__] builds it has the
    padding index 0 and the weight zero at every padded position, the
    positions of a row after the node's own inputs. For such weights, and
    for any later values of the parameters that are still zero at the
    padded positions, the weighted sum [Op.forward] forms for a node
    continues the sum over the node's own input slots by one product for
    every padded slot, the value at tape position 0 times zero. It is the
    sum over the node's own slots whenever that product is zero and
    adding zero leaves the sum as it is. *)
Theorem padding_contributes_nothing {R : Type} `{Numeric R} `{Catalog R}
    (g : Graph) (st st' : NodeStore) (ns : list nat) (ini : string) (op : Op.t R) :
  Op.init g st ns ini = Ok (op, st') →
  shaped op ∧ padded_zero g ns (Op.weights op) ∧
  (∀ i n idxs j, ns !! i = Some n → Op.input_indices op !! i = Some idxs →
                 length (inputs (node g n)) ≤ j → j < length idxs → idxs !! j = Some 0) ∧
  ∀ w b tape,
    shaped (Op.set_parameters op w b) → padded_zero g ns w →
    (∀ row u, row ∈ tape → u ∈ mjoin (Op.input_indices op) → u < length row) →
    ∃ x, Op.weighted_sums (Op.set_parameters op w b) tape = Ok x ∧
      ∀ s row i n, tape !! s = Some row → ns !! i = Some n →
        ∃ xs ws idxs bi own,
          x !! s = Some xs ∧ w !! i = Some ws ∧
          Op.input_indices op !! i = Some idxs ∧ b !! i = Some bi ∧
          length (inputs (node g n)) ≤ length ws ∧
          own = weighted_sum (take (length (inputs (node g n))) ws)
                             (take (length (inputs (node g n))) idxs) row ∧
          xs !! i
          = Some (add (foldl add own
                         (replicate (length ws - length (inputs (node g n)))
                                    (mul (row !!! 0) zero)))
                      bi) ∧
          (mul (row !!! 0) zero = zero → add own zero = own →
           xs !! i = Some (add own bi)).
Proof.
  intros Hinit.
  pose proof (init_Ok_inv _ _ _ _ _ _ Hinit)
    as (rows & Hrows & _ & _ & _ & Hidx & _ & Hst & Hsh & _).
  assert (∀ i n idxs j, ns !! i = Some n → Op.input_indices op !! i = Some idxs →
            length (inputs (node g n)) ≤ j → j < length idxs → idxs !! j = Some 0)
    as Hpadi.
  { intros i n idxs j Hn Hidxs Hj1 Hj2.
    destruct (init_padding g st st' ns ini op i n Hinit Hn)
      as (ws & idxs' & _ & Hidxs' & _ & _ & Hpad).
    rewrite Hidxs in Hidxs'. injection Hidxs' as <-. by apply Hpad. }
  split_and!.
  - done.
  - intros i n ws j Hn Hws Hj1 Hj2.
    destruct (init_padding g st st' ns ini op i n Hinit Hn)
      as (ws' & idxs & Hws' & Hidxs & Hlen & _ & Hpad).
    rewrite Hws in Hws'. injection Hws' as <-. apply Hpad; lia.
  - done.
  - intros w b tape Hsh' Hpz Hin.
    apply (structured_set_parameters _ _ w b) in Hst.
    rewrite (weighted_sums_total _ _ tape Hst Hsh' Hin).
    eexists. split; [done|]. intros s row i n Hrow Hn.
    destruct (shaped_inverse _ _ Hst Hsh') as (_ & _ & Hlw & Hlb).
    pose proof (st_rows _ _ Hst) as Hlr.
    simpl in Hlw, Hlb, Hlr. rewrite length_fmap in Hlw, Hlb, Hlr.
    pose proof (lookup_lt_Some _ _ _ Hn) as Hi.
    destruct (lookup_lt_is_Some_2 w i) as [ws Hws]; [lia|].
    destruct (lookup_lt_is_Some_2 b i) as [bi Hbi]; [lia|].
    destruct (lookup_lt_is_Some_2 (Op.input_indices op) i) as [idxs Hidxs]; [lia|].
    assert (length ws = length idxs) as Hlws.
    { destruct Hsh' as [Hsh' _]. simpl in Hsh'.
      apply (f_equal (λ l, l !! i)) in Hsh'. rewrite !list_lookup_fmap in Hsh'.
      rewrite Hws, Hidxs in Hsh'. by injection Hsh'. }
    destruct (init_padding g st st' ns ini op i n Hinit Hn)
      as (ws0 & idxs0 & _ & Hidxs0 & _ & Hle & _).
    rewrite Hidxs in Hidxs0. injection Hidxs0 as <-.
    assert (sums_of (Op.set_parameters op w b) row !! i
            = Some (add (weighted_sum ws idxs row) bi)) as Hsum
      by (by apply sums_of_lookup).
    assert (weighted_sum ws idxs row
            = foldl add
                (weighted_sum (take (length (inputs (node g n))) ws)
                              (take (length (inputs (node g n))) idxs) row)
                (replicate (length ws - length (inputs (node g n)))
                           (mul (row !!! 0) zero))) as Hpadded.
    { apply weighted_sum_padded_slots; [done| |].
      - intros j Hj1 Hj2. by eapply Hpz.
      - intros j Hj1 Hj2. by eapply Hpadi. }
    exists (sums_of (Op.set_parameters op w b) row), ws, idxs, bi,
      (weighted_sum (take (length (inputs (node g n))) ws)
                    (take (length (inputs (node g n))) idxs) row).
    split_and!; [by rewrite list_lookup_fmap, Hrow|done..|lia|reflexivity| |].
    + by rewrite Hsum, Hpadded.
    + intros Hmul Hadd. rewrite Hsum, Hpadded. do 2 f_equal.
      apply foldl_add_zeros; [done|].
      apply Forall_forall. by intros y [-> _]%elem_of_replicate.
Qed.

Lemma padding_contributes_nothing_witness :
  Op.init two_outputs two_store [2; 3] "he" = Ok (float_op, Model.node_store two_model) ∧
  shaped float_op ∧ padded_zero two_outputs [2; 3] (Op.weights float_op) ∧
  (∀ i n idxs j, [2; 3] !! i = Some n → Op.input_indices float_op !! i = Some idxs →
                 length (inputs (node two_outputs n)) ≤ j → j < length idxs →
                 idxs !! j = Some 0) ∧
  ∀ w b tape,
    shaped (Op.set_parameters float_op w b) → padded_zero two_outputs [2; 3] w →
    (∀ row u, row ∈ tape → u ∈ mjoin (Op.input_indices float_op) → u < length row) →
    ∃ x, Op.weighted_sums (Op.set_parameters float_op w b) tape = Ok x ∧
      ∀ s row i n, tape !! s = Some row → [2; 3] !! i = Some n →
        ∃ xs ws idxs bi own,
          x !! s = Some xs ∧ w !! i = Some ws ∧
          Op.input_indices float_op !! i = Some idxs ∧ b !! i = Some bi ∧
          length (inputs (node two_outputs n)) ≤ length ws ∧
          own = weighted_sum (take (length (inputs (node two_outputs n))) ws)
                             (take (length (inputs (node two_outputs n))) idxs) row ∧
          xs !! i
          = Some (add (foldl add own
                         (replicate (length ws - length (inputs (node two_outputs n)))
                                    (mul (row !!! 0) zero)))
                      bi) ∧
          (mul (row !!! 0) zero = zero → add own zero = own →
           xs !! i = Some (add own bi)).
Proof.
  split; [vm_compute; reflexivity|].
  apply (padding_contributes_nothing two_outputs two_store (Model.node_store two_model)
           [2; 3] "he" float_op).
  vm_compute; reflexivity.
Defined.

(** Claim C6 as stated fails for IEEE scalars. In [float_op] node 3 has
    one input slot, reading tape position 2, and one padded slot with the
    index 0 and the weight zero. On a tape with infinity at position 0
    the padded slot contributes the product of infinity and zero, which
    is NaN: the weighted sum of node 3 is NaN, and so is the value
    [Op.forward] writes for it, while the sum over its own slot is 4. *)
Lemma padded_slot_yields_nan :
  Op.init two_outputs two_store [2; 3] "he" = Ok (float_op, Model.node_store two_model) ∧
  padded_zero two_outputs [2; 3] (Op.weights float_op) ∧
  (∀ u, u ∈ mjoin (Op.input_indices float_op) → u < length garbage_row) ∧
  Op.input_indices float_op = [[1; 2]; [2; 0]] ∧
  Op.weights float_op = [[1; 1]; [1; 0]]%float ∧
  Op.bias float_op = [0; 0]%float ∧
  Op.weighted_sums float_op [garbage_row] = Ok [[7; nan]]%float ∧
  Op.forward float_op [garbage_row]
  = Ok ([[infinity; 3; 4; 7; nan]]%float, float_op) ∧
  add (weighted_sum (take 1 [1; 0]%float) (take 1 [2; 0]) garbage_row) 0%float
  = 4%float ∧
  nan ≠ 4%float.
Proof.
  assert (Op.weights float_op = [[1; 1]; [1; 0]]%float) as Hw
    by (vm_compute; reflexivity).
  assert (Op.input_indices float_op = [[1; 2]; [2; 0]]) as Hi
    by (vm_compute; reflexivity).
  split_and!; try (vm_compute; reflexivity).
  - rewrite Hw. intros [|[|i]] n ws j; simpl; intros [= <-] [= <-]; simpl.
    + lia.
    + intros Hj1 Hj2. by replace j with 1 by lia.
  - rewrite Hi. simpl. intros u Hu.
    repeat (apply elem_of_cons in Hu as [->|Hu]; [lia|]). by apply elem_of_nil in Hu.
  - intros Hnan. apply (f_equal PrimFloat.is_nan) in Hnan. vm_compute in Hnan.
    discriminate.
Qed.

Lemma two_outputs_zero_hidden : zero_hidden two_outputs.
Proof.
  split; [done|]. split.
  - apply NoDup_ListNoDup. repeat constructor; simpl; intuition lia.
  - intros o p [->|[->|[]%elem_of_nil]%elem_of_cons]%elem_of_cons; simpl.
    + intros [->|[->|[]%elem_of_nil]%elem_of_cons]%elem_of_cons.
      * by left.
      * right. by left.
    + intros [->|[]%elem_of_nil]%elem_of_cons. right. by left.
Qed.

(** Claim C3. For an operation built by [Op.__init__] over nodes with
    distinct tape indices, with any parameters of the right shape, and a
    tape long enough for its indices, [Op.forward] returns a tape in which
    the position of every node of the operation holds the node's
    activation applied to the weighted sum over the row's input slots,
    the tape value at the slot's index times the weight, plus the row's
    bias. For a model without hidden nodes and with an output node,
    [Model.forward] returns for every sample and every output node the
    node's activation applied to the sum of input times weight over the
    node's inputs, continued over the padded slots of the node's row,
    which read the zero at tape position 0, plus the bias. The weights
    of the row cover the node's inputs, and the sum is the sum over the
    node's inputs alone when the products of zero with the padded weights
    are zero and adding zero leaves that sum as it is. *)
Theorem forward_computes_node_values {R : Type} `{Numeric R} `{Catalog R}
    (φ : string → R → R) :
  (∀ g st st' ns ini op w b tape,
     Op.init g st ns ini = Ok (op, st') →
     NoDup (Op.output_indices op) →
     (∀ n, n ∈ ns → catalog_has φ (activation (node g n))) →
     shaped (Op.set_parameters op w b) →
     (∀ row k, row ∈ tape →
        k ∈ mjoin (Op.input_indices op) ∨ k ∈ Op.output_indices op → k < length row) →
     ∃ tape',
       Op.forward (Op.set_parameters op w b) tape
       = Ok (tape', Op.set_parameters op w b) ∧
       length tape' = length tape ∧
       ∀ s row, tape !! s = Some row →
         ∃ row', tape' !! s = Some row' ∧
           ∀ i n, ns !! i = Some n →
             ∃ k ws idxs bi,
               Op.output_indices op !! i = Some k ∧ w !! i = Some ws ∧
               Op.input_indices op !! i = Some idxs ∧ b !! i = Some bi ∧
               length ws = length idxs ∧
               row' !! k
               = Some (node_value (φ (activation (node g n))) ws idxs bi row)) ∧
  (∀ fuel g ini m0 m x bsz,
     zero_hidden g → output_nodes g ≠ [] → activations_known φ g →
     Model.init fuel g ini = Some (Ok m0) → evolves m0 m →
     shape x = [bsz; length (input_nodes g)] → well_formed x →
     ∃ out m', Model.forward m x = Ok (out, m') ∧
       ∀ s xrow k o,
         Model.rows_of bsz (length (input_nodes g)) (data x) !! s = Some xrow →
         Model.outputs m !! k = Some o →
         ∃ op r ws bi,
           Model.ops m = [op] ∧ Op.nodes op !! r = Some o ∧
           Op.weights op !! r = Some ws ∧ Op.bias op !! r = Some bi ∧
           length (inputs (node g o)) ≤ length ws ∧
           data out !! (s * length (output_nodes g) + k)
           = Some (φ (activation (node g o))
                     (add (padded_sum (input_value g xrow <$> inputs (node g o)) ws)
                          bi))) ∧
  (∀ vals ws : list R,
     length vals ≤ length ws →
     (∀ w, w ∈ drop (length vals) ws → mul zero w = zero) →
     (length vals < length ws →
      add (foldl add zero (zip_with mul vals ws)) zero
      = foldl add zero (zip_with mul vals ws)) →
     padded_sum vals ws = foldl add zero (zip_with mul vals ws)).
Proof.
  split_and!.
  - intros g st st' ns ini op w b tape Hinit Hnd Hcat Hsh Hin.
    destruct (forward_node_values φ g st st' ns ini op w b tape Hinit Hnd Hcat Hsh Hin)
      as (tape' & Hfw & Hlen & Hvals).
    exists tape'. split_and!; [done..|].
    intros s row Hrow. destruct (Hvals s row Hrow) as (row' & Hrow' & Hv).
    exists row'. split; [done|]. intros i n Hn.
    destruct (Hv i n Hn) as (k & ws & idxs & bi & Hk & Hws & Hidxs & Hbi & Hval).
    exists k, ws, idxs, bi. split_and!; [done..| |done].
    destruct Hsh as [Hsh _]. simpl in Hsh.
    apply (f_equal (λ l, l !! i)) in Hsh. rewrite !list_lookup_fmap in Hsh.
    rewrite Hws, Hidxs in Hsh. by injection Hsh.
  - intros fuel g ini m0 m x bsz. by apply zero_hidden_forward.
  - apply padded_sum_own.
Qed.

Lemma forward_computes_node_values_witness :
  (Op.init two_outputs two_store [2; 3] "he" = Ok (two_op, Model.node_store two_model) ∧
   NoDup (Op.output_indices two_op) ∧
   (∀ n, n ∈ [2; 3] → catalog_has act (activation (node two_outputs n))) ∧
   shaped (Op.set_parameters two_op [[5; -1]; [2; 0]]%Z [1; -3]%Z) ∧
   (∀ row k, row ∈ [[0; 3; 4; 0; 0]]%Z →
      k ∈ mjoin (Op.input_indices two_op) ∨ k ∈ Op.output_indices two_op →
      k < length row) ∧
   ∃ tape',
     Op.forward (Op.set_parameters two_op [[5; -1]; [2; 0]]%Z [1; -3]%Z)
       [[0; 3; 4; 0; 0]]%Z
     = Ok (tape', Op.set_parameters two_op [[5; -1]; [2; 0]]%Z [1; -3]%Z) ∧
     length tape' = length [[0; 3; 4; 0; 0]]%Z ∧
     ∀ s row, [[0; 3; 4; 0; 0]]%Z !! s = Some row →
       ∃ row', tape' !! s = Some row' ∧
         ∀ i n, [2; 3] !! i = Some n →
           ∃ k ws idxs bi,
             Op.output_indices two_op !! i = Some k ∧
             [[5; -1]; [2; 0]]%Z !! i = Some ws ∧
             Op.input_indices two_op !! i = Some idxs ∧ [1; -3]%Z !! i = Some bi ∧
             length ws = length idxs ∧
             row' !! k
             = Some (node_value (act (activation (node two_outputs n))) ws idxs bi row)) ∧
  (zero_hidden two_outputs ∧ output_nodes two_outputs ≠ [] ∧
   activations_known act two_outputs ∧
   Model.init 1 two_outputs "he" = Some (Ok two_model) ∧ evolves two_model two_model ∧
   shape {| shape := [1; 2]; data := [3; 4]%Z |} = [1; length (input_nodes two_outputs)] ∧
   well_formed {| shape := [1; 2]; data := [3; 4]%Z |} ∧
   ∃ out m', Model.forward two_model {| shape := [1; 2]; data := [3; 4]%Z |}
             = Ok (out, m') ∧
     ∀ s xrow k o,
       Model.rows_of 1 (length (input_nodes two_outputs)) [3; 4]%Z !! s = Some xrow →
       Model.outputs two_model !! k = Some o →
       ∃ op r ws bi,
         Model.ops two_model = [op] ∧ Op.nodes op !! r = Some o ∧
         Op.weights op !! r = Some ws ∧ Op.bias op !! r = Some bi ∧
         length (inputs (node two_outputs o)) ≤ length ws ∧
         data out !! (s * length (output_nodes two_outputs) + k)
         = Some (act (activation (node two_outputs o))
                   (add (padded_sum
                           (input_value two_outputs xrow <$> inputs (node two_outputs o))
                           ws)
                        bi))) ∧
  (length [4%Z] ≤ length [2; 0]%Z ∧
   (∀ w : Z, w ∈ drop (length [4%Z]) [2; 0]%Z → mul zero w = zero) ∧
   (length [4%Z] < length [2; 0]%Z →
    add (foldl add zero (zip_with mul [4%Z] [2; 0]%Z)) zero
    = foldl add zero (zip_with mul [4%Z] [2; 0]%Z)) ∧
   padded_sum [4%Z] [2; 0]%Z = foldl add zero (zip_with mul [4%Z] [2; 0]%Z)).
Proof.
  assert (NoDup (Op.output_indices two_op)) as Hnd.
  { assert (Op.output_indices two_op = [3; 4]) as -> by (vm_compute; reflexivity).
    apply NoDup_ListNoDup. repeat constructor; simpl; intuition lia. }
  assert (∀ n, n ∈ [2; 3] → catalog_has act (activation (node two_outputs n))) as Hcat.
  { intros n Hn. apply two_outputs_activations. by simpl. }
  assert (shaped (Op.set_parameters two_op [[5; -1]; [2; 0]]%Z [1; -3]%Z)) as Hsh.
  { split; reflexivity. }
  assert (∀ row k, row ∈ [[0; 3; 4; 0; 0]]%Z →
            k ∈ mjoin (Op.input_indices two_op) ∨ k ∈ Op.output_indices two_op →
            k < length row) as Hin.
  { intros row k ->%list_elem_of_singleton Hk. simpl.
    assert (Op.output_indices two_op = [3; 4]) as Ho by (vm_compute; reflexivity).
    assert (mjoin (Op.input_indices two_op) = [1; 2; 2; 0]) as Hi
      by (vm_compute; reflexivity).
    rewrite Ho, Hi in Hk.
    destruct Hk as [Hk|Hk];
      repeat (apply elem_of_cons in Hk as [->|Hk]; [lia|]);
      by apply elem_of_nil in Hk. }
  assert (∀ w : Z, w ∈ drop (length [4%Z]) [2; 0]%Z → mul zero w = zero) as Hz.
  { intros w _. simpl. lia. }
  destruct (forward_computes_node_values act) as (Ha & Hb & Hc).
  split_and!.
  - vm_compute; reflexivity.
  - done.
  - done.
  - done.
  - done.
  - apply (Ha two_outputs two_store (Model.node_store two_model) [2; 3] "he" two_op);
      [vm_compute; reflexivity|done..].
  - exact two_outputs_zero_hidden.
  - done.
  - exact two_outputs_activations.
  - vm_compute; reflexivity.
  - constructor.
  - reflexivity.
  - reflexivity.
  - apply (Hb 1 two_outputs "he" two_model two_model
             {| shape := [1; 2]; data := [3; 4]%Z |} 1).
    + exact two_outputs_zero_hidden.
    + done.
    + exact two_outputs_activations.
    + vm_compute; reflexivity.
    + constructor.
    + reflexivity.
    + reflexivity.
  - simpl. lia.
  - exact Hz.
  - intros _. reflexivity.
  - apply (Hc [4%Z] [2; 0]%Z); [simpl; lia|exact Hz|intros _; reflexivity].
Defined.

(** Claim C1, on [reuse_graph]. [Model.__init__] completes and leaves
    the hidden nodes 2 and 4 with the same tape index 3, although node 4
    reads node 2. *)
Lemma construct_reuses_tape_index :
  ∃ m : Model.t Z,
    Model.init 2 reuse_graph "he" = Some (Ok m) ∧
    tape_index (Model.node_store m) !! 2 = Some 3 ∧
    tape_index (Model.node_store m) !! 4 = Some 3 ∧
    inputs (node reuse_graph 4) = [2] ∧
    Op.nodes <$> Model.ops m = [[2]; [4; 1; 3]].
Proof.
  exists (built (Model.init 2 reuse_graph "he")).
  split_and!; vm_compute; reflexivity.
Qed.

(** Claim C2, on [split_graph]. [Model.__init__] completes with the
    operations over nodes [1; 2] and [3; 4]: the nodes 1 and 3, which share
    the tag ["g"], are in different operations. *)
Lemma construct_splits_group :
  ∃ m : Model.t Z,
    Model.init 2 split_graph "he" = Some (Ok m) ∧
    Op.nodes <$> Model.ops m = [[1; 2]; [3; 4]] ∧
    op_id (node split_graph 1) = "g" ∧ op_id (node split_graph 3) = "g".
Proof.
  exists (built (Model.init 2 split_graph "he")).
  split_and!; vm_compute; reflexivity.
Qed.

Lemma stuck_graph_schedulable : schedulable stuck_graph.
Proof.
  exists (λ n, if decide (n = 2) then 0 else 1). split.
  - intros n p Hn Hp. simpl in Hn.
    repeat (apply elem_of_cons in Hn as [->|Hn]); [..|by apply elem_of_nil in Hn];
      simpl in Hp; apply list_elem_of_singleton in Hp as ->.
    + left. by left.
    + left. by left.
    + right. split; [|simpl; lia]. right. by left.
  - intros n n' Hn Hn'. simpl in Hn, Hn'.
    repeat (apply elem_of_cons in Hn as [->|Hn]); [..|by apply elem_of_nil in Hn];
      repeat (apply elem_of_cons in Hn' as [->|Hn']);
      try (by apply elem_of_nil in Hn'); simpl; try done.
Qed.

Lemma cycle_graph_cyclic : cyclic cycle_graph.
Proof.
  exists [1]. split; [done|]. intros n ->%list_elem_of_singleton.
  split_and!; [by left|by intros ?%list_elem_of_singleton|].
  exists 1. split; by left.
Qed.

Lemma unsatisfiable_graph_not_schedulable : ¬ schedulable unsatisfiable_graph.
Proof.
  intros (rank & Hflow & Htag).
  destruct (Hflow 3 1) as [Hin|[_ Hlt]].
  - simpl. set_solver.
  - by left.
  - by apply list_elem_of_singleton in Hin.
  - assert (rank 1 = rank 3) as Heq; [|lia].
    apply Htag; [simpl; set_solver|simpl; set_solver|done|done].
Qed.

(** Claim C4, on three graphs. [stuck_graph] is acyclic with a
    satisfiable grouping, and the loop of [Model.construct] is still
    running after any number of rounds. On [cycle_graph], whose hidden node
    reads itself, the first round ends with an error for the unbound
    local name [fails]. On [unsatisfiable_graph], whose tag ["g"] can never
    be satisfied, the loop terminates, with nodes 1 and 3 in different
    operations. *)
Lemma construct_loops_on_schedulable_graph :
  (schedulable stuck_graph ∧
   ∀ fuel, Model.init (R:=Z) fuel stuck_graph "he" = None) ∧
  (cyclic cycle_graph ∧
   ∀ fuel, Model.init (R:=Z) (S fuel) cycle_graph "he"
           = Some (Raise (UnboundLocalError "fails"))) ∧
  (¬ schedulable unsatisfiable_graph ∧
   ∃ m : Model.t Z,
     Model.init 2 unsatisfiable_graph "he" = Some (Ok m) ∧
     Op.nodes <$> Model.ops m = [[1; 2]; [3; 4]] ∧
     op_id (node unsatisfiable_graph 1) = "g" ∧
     op_id (node unsatisfiable_graph 3) = "g" ∧
     inputs (node unsatisfiable_graph 3) = [1]).
Proof.
  split; [|split].
  - split; [exact stuck_graph_schedulable|]. intros fuel.
    assert (Construct.loop fuel stuck_graph "he"
              (Construct.id_node_map stuck_graph (hidden_nodes stuck_graph)) stuck0
            = None) as Hloop.
    { destruct fuel as [|[|fuel]].
      - apply loop_out_of_fuel. by vm_compute.
      - rewrite (loop_step 0 _ _ _ stuck0 stuck1);
          [|by vm_compute|vm_compute; reflexivity].
        apply loop_out_of_fuel. by vm_compute.
      - rewrite (loop_step (S fuel) _ _ _ stuck0 stuck1);
          [|by vm_compute|vm_compute; reflexivity].
        rewrite (loop_step fuel _ _ _ stuck1 stuck2);
          [|by vm_compute|vm_compute; reflexivity].
        apply loop_fixed_point; [by vm_compute|vm_compute; reflexivity]. }
    unfold Model.init, Model.construct.
    change (Construct.remaining_nodes (Construct.entry stuck_graph fresh_store))
      with (hidden_nodes stuck_graph).
    change (Construct.entry stuck_graph fresh_store) with stuck0.
    by rewrite Hloop.
  - split; [exact cycle_graph_cyclic|].
    intros fuel. unfold Model.init, Model.construct.
    rewrite (loop_raise fuel _ _ _ _ (UnboundLocalError "fails"));
      [done|by vm_compute|vm_compute; reflexivity].
  - split; [exact unsatisfiable_graph_not_schedulable|].
    exists (built (Model.init 2 unsatisfiable_graph "he")).
    split_and!; vm_compute; reflexivity.
Qed.

(** * Further lemmas *)

(** ** Further properties of the compiler *)

Section round_anatomy.
Context {R : Type} `{Numeric R} `{Catalog R}.

(** What a completed round has done. *)
Lemma round_Ok_inv (g : Graph) (ini : string) (m : gmap string (list nat))
    (st st' : Construct.locals R) :
  Construct.round g ini m st = Ok st' →
  ∃ tidx f surv,
    let cand := filter (λ n, Construct.eligible g (assigned (Construct.store st)) n)
                       (Construct.remaining_nodes st) in
    Construct.scan g (assigned (Construct.store st)) (Construct.remaining_nodes st)
      (tape_index (Construct.store st)) (Construct.i st) []
    = (tidx, Construct.i st + length cand, cand) ∧
    (cand ≠ [] ∨ Construct.fails st = Some f) ∧
    surv = (if decide (f ≠ []) then filter (λ n, op_id (node g n) ∉ f) cand else cand) ∧
    Construct.remaining_nodes st ≡ₚ surv ++ Construct.remaining_nodes st' ∧
    Construct.fails st' = Some f ∧
    Construct.i st' = Construct.i st + length surv ∧
    tape_index (Construct.store st') = tidx ∧
    assigned (Construct.store st') = list_to_set surv ∪ assigned (Construct.store st) ∧
    ((surv ≠ [] ∧
      ∃ op, Op.init g {| tape_index := tidx; assigned := assigned (Construct.store st) |}
              surv ini = Ok (op, Construct.store st') ∧
            Construct.ops st' = Construct.ops st ++ [op]) ∨
     (surv = [] ∧ Construct.ops st' = Construct.ops st)).
Proof.
  unfold Construct.round.
  destruct (Construct.scan _ _ _ _ _ _) as [[tidx i1] cand] eqn:Hscan.
  pose proof Hscan as (Hcand & Hi1 & _)%scan_spec. simpl in Hcand.
  subst cand i1. cbv zeta.
  set (cand := filter _ (Construct.remaining_nodes st)) in *.
  intros (f0 & Hcheck & (f & Hf & Hround)%bind_Ok)%bind_Ok.
  destruct (survivors_spec g f cand (Construct.i st)) as [Hi2 _].
  revert Hround Hi2.
  generalize (if decide (f ≠ [])
              then Construct.rollback g f cand (Construct.i st + length cand)
              else Construct.i st + length cand).
  set (surv := if decide (f ≠ [])
               then filter (λ n, op_id (node g n) ∉ f) cand else cand).
  intros i2 Hround ->.
  apply bind_Ok in Hround as (remaining & Hperm%remove_all_Ok & Hround).
  exists tidx, f, surv. split; [done|]. split.
  { destruct (decide (cand = [])) as [Hnil|]; [|by left]. right.
    rewrite Hnil in Hcheck. simpl in Hcheck. injection Hcheck as <-.
    by destruct (Construct.fails st); simplify_eq/=. }
  split; [done|].
  destruct (decide (surv ≠ [])) as [Hne|Hemp].
  - apply bind_Ok in Hround as ([op store2] & Hinit & [= <-]). simpl.
    pose proof Hinit as (_ & _ & _ & _ & _ & _ & Hst & _)%init_Ok_inv.
    subst store2. simpl. split_and!; [done..|]. left. split; [done|].
    by exists op.
  - apply dec_stable in Hemp. injection Hround as <-. simpl.
    split_and!; try done; [|by right].
    rewrite Hemp. simpl.
    by rewrite (left_id_L ∅ (∪)).
Qed.
End round_anatomy.

Section bookkeeping.
Context {R : Type} `{Numeric R} `{Catalog R}.

(** A property every completed round keeps holds when the loop ends. *)
Lemma loop_invariant (P : Construct.locals R → Prop) (g : Graph) (ini : string)
    (m : gmap string (list nat)) :
  (∀ st st', P st → Construct.round g ini m st = Ok st' → P st') →
  ∀ fuel st st', P st → Construct.loop fuel g ini m st = Some (Ok st') →
                 P st' ∧ Construct.remaining_nodes st' = [].
Proof.
  intros Hstep fuel. induction fuel as [|fuel IH]; intros st st' HP; simpl.
  - destruct (Construct.remaining_nodes st) eqn:Hrem; [|done]. by intros [= <-].
  - destruct (Construct.remaining_nodes st) eqn:Hrem; [by intros [= <-]|].
    destruct (Construct.round g ini m st) as [st1|e] eqn:Hround; [|done].
    apply IH. by eapply Hstep.
Qed.

Lemma survivors_eligible (g : Graph) (asg : gset nat) (l : list nat)
    (f : list string) (n : nat) :
  n ∈ (if decide (f ≠ [])
       then filter (λ n, op_id (node g n) ∉ f)
              (filter (λ n, Construct.eligible g asg n) l)
       else filter (λ n, Construct.eligible g asg n) l) →
  n ∈ l ∧ ∀ p, p ∈ inputs (node g n) → p ∈ asg.
Proof.
  intros Hn.
  assert (n ∈ filter (λ n, Construct.eligible g asg n) l) as [He Hl]%list_elem_of_filter.
  { destruct (decide _); [|done]. by apply list_elem_of_filter in Hn as [_ ?]. }
  split; [done|]. intros p Hp. unfold Construct.eligible in He.
  apply forallb_True in He. rewrite Forall_forall in He.
  by apply He, bool_decide_spec in Hp.
Qed.

Lemma round_partitioned (g : Graph) (ini : string) (m : gmap string (list nat))
    (st st' : Construct.locals R) :
  partitioned g st → Construct.round g ini m st = Ok st' → partitioned g st'.
Proof.
  intros (Hperm & Hne & Hasg & Hdep)
    (tidx & f & surv & _ & _ & Hsurv & Hrem & _ & _ & _ & Hasg' & Hops)%round_Ok_inv.
  assert (∀ n, n ∈ surv → ∀ p, p ∈ inputs (node g n) →
               p ∈ assigned (Construct.store st)) as Helig.
  { intros n Hn. rewrite Hsurv in Hn. by apply survivors_eligible in Hn as [_ ?]. }
  clear Hsurv. unfold partitioned.
  destruct Hops as [(Hsne & op & Hinit & Hops)|(Hemp & Hops)].
  - apply init_Ok_inv in Hinit as (_ & _ & _ & _ & Hnodes & _).
    rewrite Hops, fmap_app, join_app. simpl. rewrite app_nil_r, Hnodes.
    split_and!.
    + rewrite <-Hperm, Hrem. by rewrite (assoc_L (++)).
    + apply Forall_app. split; [done|]. constructor; [by rewrite Hnodes|done].
    + intros n. rewrite Hasg', elem_of_union, elem_of_list_to_set, Hasg, elem_of_app.
      tauto.
    + intros k op' n p Hk Hn Hp.
      destruct (decide (k < length (Construct.ops st))) as [Hlt|Hge].
      * rewrite lookup_app_l in Hk by done. rewrite take_app_le by lia.
        by eapply Hdep.
      * rewrite lookup_app_r in Hk by lia.
        apply list_lookup_singleton_Some in Hk as [Hk0 <-].
        rewrite take_app_length' by lia.
        rewrite Hnodes in Hn. by apply Hasg, (Helig n).
  - rewrite Hemp in Hrem, Hasg'. simpl in Hrem, Hasg'. rewrite Hops.
    split_and!; [by rewrite <-Hrem|done| |done].
    intros n. rewrite Hasg', (left_id_L ∅ (∪)). apply Hasg.
Qed.

Lemma entry_partitioned (g : Graph) :
  partitioned g (Construct.entry (R:=R) g fresh_store).
Proof.
  unfold Construct.entry.
  destruct (Construct.index_inputs _ _ _) as [st1 i1] eqn:Hii.
  apply index_inputs_spec in Hii as (_ & Hasg & _).
  unfold partitioned. simpl. split_and!; [done|done| |].
  - intros n. rewrite Hasg, elem_of_union, elem_of_list_to_set. simpl.
    rewrite !elem_of_empty, elem_of_nil. tauto.
  - by intros k op n p Hk.
Qed.

Lemma init_partitioned (fuel : nat) (g : Graph) (ini : string) (m : Model.t R) :
  Model.init fuel g ini = Some (Ok m) →
  mjoin (Op.nodes <$> Model.ops m) ≡ₚ hidden_nodes g ++ output_nodes g ∧
  Forall (λ op, Op.nodes op ≠ []) (Model.ops m) ∧
  dependency_ordered g (Model.ops m).
Proof.
  unfold Model.init, Model.construct.
  destruct (Construct.loop _ _ _ _ _) as [[st'|e]|] eqn:Hloop; [|done..].
  destruct (loop_invariant (partitioned g) g ini _ (round_partitioned g ini _)
              _ _ _ (entry_partitioned g) Hloop) as [(Hperm & Hne & _ & Hdep) Hnil].
  destruct (mapM _ _) as [idx|e]; [|done]. simpl. intros [= <-]. simpl.
  by rewrite Hnil, app_nil_r in Hperm.
Qed.
End bookkeeping.

Section failures.
Context {R : Type} `{Numeric R} `{Catalog R}.

(** The group check never misses a key of [id_node_map], and it binds
    [fails] as soon as there is a candidate. *)
Lemma check_returns (g : Graph) (m : gmap string (list nat)) (cand ns : list nat)
    (f0 : option (list string)) :
  (∀ n, n ∈ ns → is_Some (m !! op_id (node g n))) →
  ∃ f, Construct.check g m cand ns f0 = Ok f ∧
       (ns = [] → f = f0) ∧ (ns ≠ [] → is_Some f).
Proof.
  revert f0. induction ns as [|n ns IH]; intros f0 Hkeys; [by exists f0|].
  simpl. destruct (Hkeys n) as [ids Hids]; [left|].
  assert (∀ f1, ∃ f, Construct.check g m cand ns (Some f1) = Ok f ∧ is_Some f) as Hrest.
  { intros f1. destruct (IH (Some f1)) as (f & Hf & Hnil & Hcons).
    { intros n' Hn'. apply Hkeys. by right. }
    exists f. split; [done|]. destruct ns; [rewrite Hnil; eauto|by apply Hcons]. }
  destruct (decide _).
  - rewrite Hids. simpl.
    destruct (Hrest (Construct.group_check ids cand (op_id (node g n)) []))
      as (f & -> & Hf). by exists f.
  - destruct (Hrest []) as (f & -> & Hf). by exists f.
Qed.

(** How [Op.__init__] can fail on nodes that carry tape indices: only on
    the initialization. *)
Lemma init_Raise_inv (g : Graph) (st : NodeStore) (ns : list nat) (ini : string)
    (e : exn) :
  ns ≠ [] →
  (∀ n, n ∈ ns → is_Some (tape_index st !! n)) →
  (∀ n p, n ∈ ns → p ∈ inputs (node g n) → is_Some (tape_index st !! p)) →
  Op.init (R:=R) g st ns ini = Raise e →
  (e = KeyError ini ∧ initialization_map (R:=R) ini = None) ∨
  (e = IndexError ∧
   ∃ f idx, initialization_map (R:=R) ini = Some f ∧ length <$> f idx ≠ length <$> idx).
Proof.
  intros Hne Hns Hin. unfold Op.init.
  assert (∀ l, (∀ n, n ∈ l → is_Some (tape_index st !! n)) →
               is_Ok (mapM (Op.tape_index_of st) l)) as Hm.
  { intros l Hl. apply mapM_is_Ok. intros x Hx. destruct (Hl x Hx) as [k Hk].
    unfold Op.tape_index_of. rewrite Hk. by exists k. }
  destruct (mapM_is_Ok (λ n, mapM (Op.tape_index_of st) (inputs (node g n))) ns)
    as [rows ->].
  { intros n Hn. apply Hm. intros p Hp. by eapply Hin. }
  destruct (Hm ns Hns) as [outs ->]. simpl.
  destruct (decide (ns = [])) as [|_]; [done|].
  destruct (initialization_map ini) as [f|] eqn:Hf; simpl.
  - unfold Torch.zero_where_0. destruct (decide _) as [|Hbad]; [done|].
    intros [= <-]. right. split; [done|]. by exists f, (Torch.pad_sequence rows).
  - intros [= <-]. by left.
Qed.

(** How a round can fail. *)
Lemma round_Raise_inv (g : Graph) (ts : nat) (ini : string)
    (m : gmap string (list nat)) (st : Construct.locals R) (e : exn) :
  loop_inv g ts st →
  (∀ n, n ∈ hidden_nodes g ++ output_nodes g → is_Some (m !! op_id (node g n))) →
  Construct.round g ini m st = Raise e →
  (e = UnboundLocalError "fails" ∧ Construct.fails st = None ∧
   filter (λ n, Construct.eligible g (assigned (Construct.store st)) n)
          (Construct.remaining_nodes st) = []) ∨
  (e = KeyError ini ∧ initialization_map (R:=R) ini = None) ∨
  (e = IndexError ∧
   ∃ f idx, initialization_map (R:=R) ini = Some f ∧ length <$> f idx ≠ length <$> idx).
Proof.
  intros (_ & _ & _ & Hasg & Hrem & _) Hkeys. unfold Construct.round.
  destruct (Construct.scan _ _ _ _ _ _) as [[tidx i1] cand] eqn:Hscan.
  apply scan_spec in Hscan as (Hcand & -> & _ & Hnew & Hold). simpl in Hcand.
  rewrite <-Hcand in Hnew |- *.
  assert (∀ n, n ∈ cand → n ∈ Construct.remaining_nodes st) as Hsub.
  { intros n Hn. rewrite Hcand in Hn. by apply list_elem_of_filter in Hn as [_ ?]. }
  destruct (check_returns g m cand cand (Construct.fails st))
    as (f0 & -> & Hnil & Hcons).
  { intros n Hn. by apply Hkeys, Hrem, Hsub. }
  simpl. destruct f0 as [f|]; simpl.
  2:{ intros [= <-]. left. split; [done|].
      destruct (decide (cand = [])) as [Hc|Hc]; [|by destruct (Hcons Hc)].
      by rewrite <-(Hnil Hc). }
  set (surv := if decide (f ≠ [])
               then filter (λ n, op_id (node g n) ∉ f) cand else cand).
  assert (surv ⊆+ cand) as Hsc.
  { unfold surv. destruct (decide _); [|done]. apply sublist_submseteq, sublist_filter. }
  destruct (remove_all_total surv (Construct.remaining_nodes st)) as [remaining ->].
  { etrans; [exact Hsc|]. rewrite Hcand. apply sublist_submseteq, sublist_filter. }
  simpl. destruct (decide (surv ≠ [])) as [Hne|]; [|done].
  destruct (Op.init g _ surv ini) as [[op store2]|e0] eqn:Hinit; [done|].
  simpl. intros [= <-]. right.
  eapply init_Raise_inv; [exact Hne| | |exact Hinit]; simpl.
  - intros n Hn. apply Hnew. by eapply elem_of_submseteq.
  - intros n p Hn Hp. apply Hold, Hasg.
    assert (n ∈ cand) as Hnc by by eapply elem_of_submseteq.
    rewrite Hcand in Hnc. apply list_elem_of_filter in Hnc as [He _].
    unfold Construct.eligible in He. apply forallb_True in He.
    rewrite Forall_forall in He. by apply He, bool_decide_spec in Hp.
Qed.

Lemma loop_Raise_inv (fuel : nat) (g : Graph) (ts : nat) (ini : string)
    (m : gmap string (list nat)) (st : Construct.locals R) (e : exn) :
  loop_inv g ts st →
  (∀ n, n ∈ hidden_nodes g ++ output_nodes g → is_Some (m !! op_id (node g n))) →
  Construct.loop fuel g ini m st = Some (Raise e) →
  (e = UnboundLocalError "fails" ∧ Construct.fails st = None ∧
   filter (λ n, Construct.eligible g (assigned (Construct.store st)) n)
          (Construct.remaining_nodes st) = []) ∨
  (e = KeyError ini ∧ initialization_map (R:=R) ini = None) ∨
  (e = IndexError ∧
   ∃ f idx, initialization_map (R:=R) ini = Some f ∧ length <$> f idx ≠ length <$> idx).
Proof.
  intros Hinv Hkeys. revert st Hinv.
  induction fuel as [|fuel IH]; intros st Hinv; simpl.
  - by destruct (Construct.remaining_nodes st).
  - destruct (Construct.remaining_nodes st) eqn:Hrem; [done|].
    destruct (Construct.round g ini m st) as [st1|e1] eqn:Hround.
    + intros Hloop.
      destruct (IH st1 (round_inv _ _ _ _ _ _ Hinv Hround) Hloop)
        as [(_ & Hnone & _)|Hother]; [|by right].
      apply round_Ok_inv in Hround as (? & f & ? & _ & _ & _ & _ & Hf & _).
      by rewrite Hf in Hnone.
    + intros [= <-]. rewrite <-Hrem.
      exact (round_Raise_inv g ts ini m st e1 Hinv Hkeys Hround).
Qed.

Lemma not_eligible (g : Graph) (asg : gset nat) (n : nat) :
  ¬ Construct.eligible g asg n ↔ ∃ p, p ∈ inputs (node g n) ∧ p ∉ asg.
Proof.
  unfold Construct.eligible. rewrite forallb_True. split.
  - intros (p & Hp & Hn)%not_Forall_Exists%Exists_exists; [|apply _].
    exists p. split; [done|]. intros Hpa. apply Hn. by apply bool_decide_spec.
  - intros (p & Hp & Hn) Hall. rewrite Forall_forall in Hall.
    by apply Hall, bool_decide_spec in Hp.
Qed.

Lemma entry_state (g : Graph) :
  Construct.remaining_nodes (Construct.entry (R:=R) g fresh_store)
    = hidden_nodes g ++ output_nodes g ∧
  Construct.fails (Construct.entry (R:=R) g fresh_store) = None ∧
  Construct.ops (Construct.entry (R:=R) g fresh_store) = [] ∧
  Construct.i (Construct.entry (R:=R) g fresh_store) = 1 + length (input_nodes g) ∧
  assigned (Construct.store (Construct.entry (R:=R) g fresh_store))
    = list_to_set (input_nodes g).
Proof.
  unfold Construct.entry.
  destruct (Construct.index_inputs _ _ _) as [st1 i1] eqn:Hii.
  apply index_inputs_spec in Hii as (-> & Hasg & _). simpl.
  rewrite Hasg. simpl. by rewrite (right_id_L ∅ (∪)).
Qed.

(** The ways in which [__init__] can end with an exception. *)
Lemma init_Raise_inv_model (fuel : nat) (g : Graph) (ini : string) (e : exn) :
  Model.init (R:=R) fuel g ini = Some (Raise e) →
  (e = UnboundLocalError "fails" ∧
   ∀ n, n ∈ hidden_nodes g ++ output_nodes g →
        ∃ p, p ∈ inputs (node g n) ∧ p ∉ input_nodes g) ∨
  (e = KeyError ini ∧ initialization_map (R:=R) ini = None) ∨
  (e = IndexError ∧
   ∃ f idx, initialization_map (R:=R) ini = Some f ∧ length <$> f idx ≠ length <$> idx).
Proof.
  unfold Model.init, Model.construct.
  destruct (entry_state g) as (Hrem & Hfails & _ & _ & Hasg).
  pose proof (id_node_map_spec g (hidden_nodes g ++ output_nodes g)) as [_ Hkeys].
  rewrite Hrem.
  destruct (Construct.loop _ _ _ _ _) as [[st'|e1]|] eqn:Hloop; [| |done].
  - destruct (loop_invariant
                (λ st, loop_inv g (length (input_nodes g ++ hidden_nodes g
                                            ++ output_nodes g) + 1) st ∧
                       partitioned g st) g ini
                (Construct.id_node_map g (hidden_nodes g ++ output_nodes g))) with
      (fuel := fuel) (st := Construct.entry (R:=R) g fresh_store) (st' := st')
      as [[(_ & _ & _ & Hidx & _) (Hperm & _ & Hin & _)] Hnil]; [|split|done|].
    { intros st1 st2 [Hi Hp] Hround. split; [by eapply round_inv|].
      by eapply round_partitioned. }
    { apply entry_inv. } { apply entry_partitioned. }
    destruct (mapM_is_Ok (Op.tape_index_of (Construct.store st'))
                (Construct.sorted (λ n, output_index (node g n)) (output_nodes g)))
      as [idx ->]; [|done].
    intros n Hn. rewrite sorted_perm in Hn.
    destruct (Hidx n) as [k Hk].
    { apply Hin. right. rewrite Hnil, app_nil_r in Hperm. rewrite Hperm.
      apply elem_of_app. by right. }
    unfold Op.tape_index_of. rewrite Hk. by eexists.
  - intros [= <-].
    destruct (loop_Raise_inv _ _ _ _ _ _ _ (entry_inv g) Hkeys Hloop)
      as [(-> & _ & Hcand)|Hother]; [left|by right].
    split; [done|]. intros n Hn. rewrite Hrem, Hasg in Hcand.
    destruct (not_eligible g (list_to_set (input_nodes g)) n) as [Hne _].
    destruct Hne as (p & Hp & Hnp).
    + intros He.
      assert (n ∈ filter (λ n, Construct.eligible g (list_to_set (input_nodes g)) n)
                         (hidden_nodes g ++ output_nodes g)) as Hf
        by by apply list_elem_of_filter.
      rewrite Hcand in Hf. by apply elem_of_nil in Hf.
    + exists p. split; [done|]. by rewrite elem_of_list_to_set in Hnp.
Qed.

(** When no hidden or output node is a candidate in the first round, the
    name [fails] is read before it is bound. *)
Lemma init_unbound (fuel : nat) (g : Graph) (ini : string) :
  hidden_nodes g ++ output_nodes g ≠ [] →
  (∀ n, n ∈ hidden_nodes g ++ output_nodes g →
        ∃ p, p ∈ inputs (node g n) ∧ p ∉ input_nodes g) →
  Model.init (R:=R) (S fuel) g ini = Some (Raise (UnboundLocalError "fails")).
Proof.
  intros Hne Hnone. unfold Model.init, Model.construct.
  destruct (entry_state g) as (Hrem & Hfails & _ & _ & Hasg).
  rewrite (loop_raise fuel _ _ _ _ (UnboundLocalError "fails")); [done|by rewrite Hrem|].
  unfold Construct.round.
  destruct (Construct.scan _ _ _ _ _ _) as [[tidx i1] cand] eqn:Hscan.
  apply scan_spec in Hscan as (Hcand & _). simpl in Hcand.
  assert (cand = []) as ->.
  { destruct cand as [|c cand']; [done|]. exfalso.
    assert (c ∈ filter (λ n, Construct.eligible g
              (assigned (Construct.store (Construct.entry (R:=R) g fresh_store))) n)
              (Construct.remaining_nodes (Construct.entry (R:=R) g fresh_store)))
      as [He Hc]%list_elem_of_filter by (rewrite <-Hcand; left).
    rewrite Hrem in Hc. rewrite Hasg in He.
    apply (not_eligible g (list_to_set (input_nodes g)) c); [|done].
    destruct (Hnone c Hc) as (p & Hp & Hnp). exists p. split; [done|].
    by rewrite elem_of_list_to_set. }
  simpl. by rewrite Hfails.
Qed.
End failures.

Section tape_layout.
Context {R : Type} `{Numeric R} `{Catalog R}.

(** The scan gives every candidate an index from the counter on, also
    when a node is listed more than once. *)
Lemma scan_range (g : Graph) (asg : gset nat) (ns : list nat)
    (tidx : gmap nat nat) (i : nat) (acc : list nat) tidx' i' acc' :
  Construct.scan g asg ns tidx i acc = (tidx', i', acc') →
  (∀ n, n ∈ filter (λ n, Construct.eligible g asg n) ns →
        ∃ k, tidx' !! n = Some k ∧ i ≤ k < i') ∧
  (∀ n, n ∉ filter (λ n, Construct.eligible g asg n) ns → tidx' !! n = tidx !! n).
Proof.
  revert tidx i acc. induction ns as [|n0 ns IH]; intros tidx i acc; simpl.
  - intros [= <- <- <-]. split; [by intros n ?%elem_of_nil|done].
  - destruct (Construct.eligible g asg n0) eqn:He.
    + rewrite filter_cons_True by (by apply Is_true_true_2).
      intros Hsc. pose proof Hsc as (_ & Hi' & _)%scan_spec.
      destruct (IH _ _ _ Hsc) as [IH1 IH2]. split.
      * intros n Hn.
        destruct (decide (n ∈ filter (λ n, Construct.eligible g asg n) ns))
          as [Hin|Hout].
        -- destruct (IH1 n Hin) as (k & Hk & Hlt). exists k. split; [done|lia].
        -- apply elem_of_cons in Hn as [->|Hn]; [|done].
           exists i. rewrite (IH2 n0 Hout), lookup_insert_eq. split; [done|lia].
      * intros n [Hne Hn]%not_elem_of_cons. rewrite IH2 by done.
        by rewrite lookup_insert_ne.
    + rewrite filter_cons_False by (by apply Is_true_false_2). by apply IH.
Qed.

Lemma round_past_inputs (g : Graph) (ini : string) (m : gmap string (list nat))
    (st st' : Construct.locals R) :
  past_inputs g st → Construct.round g ini m st = Ok st' → past_inputs g st'.
Proof.
  intros [Hi Hops]
    (tidx & f & surv & Hscan & _ & Hsurv & _ & _ & Hi' & _ & _ & Hops')%round_Ok_inv.
  cbv zeta in Hscan. apply scan_range in Hscan as [Hnew _].
  split; [lia|].
  destruct Hops' as [(Hsne & op & Hinit & ->)|(_ & ->)]; [|done].
  apply Forall_app. split; [done|]. constructor; [|done].
  apply init_Ok_inv in Hinit as (_ & _ & Houts & _).
  intros k (j & Hj)%list_elem_of_lookup_1.
  destruct (mapM_Ok_lookup_r _ _ _ _ _ Houts Hj) as (n & Hn & Hk).
  apply tape_index_of_Ok in Hk. simpl in Hk.
  destruct (Hnew n) as (k' & Hk' & Hlt).
  { apply list_elem_of_lookup_2 in Hn. rewrite Hsurv in Hn.
    destruct (decide _); [|done]. by apply list_elem_of_filter in Hn as [_ ?]. }
  rewrite Hk in Hk'. injection Hk' as <-. lia.
Qed.

Lemma entry_past_inputs (g : Graph) :
  past_inputs g (Construct.entry (R:=R) g fresh_store).
Proof.
  destruct (entry_state (R:=R) g) as (_ & _ & Hops & Hi & _).
  split; [lia|]. by rewrite Hops.
Qed.

Lemma init_past_inputs (fuel : nat) (g : Graph) (ini : string) (m : Model.t R) :
  Model.init fuel g ini = Some (Ok m) →
  Forall (λ op, ∀ k, k ∈ Op.output_indices op →
                     Model.input_size m + 1 ≤ k < Model.tape_size m) (Model.ops m).
Proof.
  intros Hinit.
  pose proof (init_model_ok _ _ _ _ Hinit) as ((_ & Hok & _) & _ & _ & _ & _ & Hisz & _).
  revert Hinit. unfold Model.init, Model.construct.
  destruct (Construct.loop _ _ _ _ _) as [[st'|e]|] eqn:Hloop; [|done..].
  destruct (loop_invariant (past_inputs g) g ini _ (round_past_inputs g ini _)
              _ _ _ (entry_past_inputs g) Hloop) as [[_ Hpast] _].
  destruct (mapM _ _) as [idx|e]; [|done]. simpl. intros [= <-].
  simpl in Hok, Hisz |- *. rewrite Forall_forall in Hok, Hpast |- *.
  intros op Hop k Hk. split; [specialize (Hpast op Hop k Hk); lia|].
  destruct (Hok op Hop) as (_ & _ & _ & Hlt & _). by apply Hlt.
Qed.
End tape_layout.

Section cycle_outcome.
Context {R : Type} `{Numeric R} `{Catalog R}.

Lemma cyclic_outcome (fuel : nat) (g : Graph) (ini : string) :
  cyclic g → initialization_known (R:=R) ini →
  Model.init (R:=R) fuel g ini = None ∨
  (Model.init (R:=R) fuel g ini = Some (Raise (UnboundLocalError "fails")) ∧
   ∀ n, n ∈ hidden_nodes g ++ output_nodes g →
        ∃ p, p ∈ inputs (node g n) ∧ p ∉ input_nodes g).
Proof.
  intros Hcyc (f & Hf & Hshape).
  destruct (Model.init fuel g ini) as [[m|e]|] eqn:Hinit; [| |by left].
  - by destruct (cyclic_never_compiles fuel g ini m Hcyc).
  - right. apply init_Raise_inv_model in Hinit
      as [[-> Hnone]|[[_ Hno]|(_ & f' & idx & Hf' & Hbad)]].
    + done.
    + by rewrite Hf in Hno.
    + rewrite Hf in Hf'. injection Hf' as <-. by destruct Hbad.
Qed.
End cycle_outcome.

Section untagged_layout.
Context {R : Type} `{Numeric R} `{Catalog R}.

(** The output indices of the operations built so far fill the tape from
    behind the inputs up to the counter. *)
Lemma round_filled (g : Graph) (ini : string) (m : gmap string (list nat))
    (st st' : Construct.locals R) :
  untagged g → ordered g st → filled g st →
  Construct.round g ini m st = Ok st' → filled g st'.
Proof.
  intros Hunt Hord [Hi Hfill] Hround.
  destruct (round_untagged g ini m st st' Hunt Hord Hround)
    as [(_ & _ & _ & _ & _ & _ & Hfails & _) _].
  destruct Hord as (Hnd & _).
  apply round_Ok_inv in Hround
    as (tidx & f & surv & Hscan & _ & Hsurv & _ & Hf & Hi' & _ & _ & Hops').
  cbv zeta in Hscan. apply scan_exact in Hscan as [Hnew _]; [|done].
  assert (f = []) as -> by (rewrite Hf in Hfails; by destruct Hfails as [|[= ->]]).
  destruct (decide ([] ≠ [])) as [|_]; [done|]. subst surv.
  unfold filled. rewrite Hi'. split; [lia|].
  destruct Hops' as [(Hsne & op & Hinit & ->)|(Hnil & ->)].
  - apply init_Ok_inv in Hinit as (_ & _ & Houts & _).
    rewrite fmap_app, join_app, Hfill. simpl. rewrite app_nil_r.
    assert (Op.output_indices op
            = seq (Construct.i st)
                  (length (filter (λ n, Construct.eligible g
                             (assigned (Construct.store st)) n)
                             (Construct.remaining_nodes st)))) as ->.
    { apply list_eq. intros j. pose proof (mapM_Ok_length _ _ _ Houts) as Hlen.
      destruct (decide (j < length (Op.output_indices op))) as [Hlt|Hge].
      - rewrite lookup_seq_lt by lia.
        destruct (lookup_lt_is_Some_2 _ _ Hlt) as [k Hk]. rewrite Hk.
        destruct (mapM_Ok_lookup_r _ _ _ _ _ Houts Hk) as (n & Hn & Hkn).
        apply tape_index_of_Ok in Hkn. simpl in Hkn.
        rewrite (Hnew _ _ Hn) in Hkn. by injection Hkn as <-.
      - rewrite lookup_ge_None_2 by lia. symmetry. apply lookup_seq_ge. lia. }
    set (c := length (filter _ _)).
    replace (Construct.i st + c - S (length (input_nodes g)))
      with ((Construct.i st - S (length (input_nodes g))) + c) by lia.
    rewrite List.seq_app. do 2 f_equal. lia.
  - rewrite Hnil. simpl. by rewrite Nat.add_0_r.
Qed.

Lemma entry_filled (g : Graph) : filled g (Construct.entry (R:=R) g fresh_store).
Proof.
  destruct (entry_state (R:=R) g) as (_ & _ & Hops & Hi & _).
  unfold filled. rewrite Hops, Hi. split; [lia|]. by rewrite Nat.sub_diag.
Qed.

Lemma init_filled (fuel : nat) (g : Graph) (ini : string) (m : Model.t R) :
  untagged g → NoDup (input_nodes g ++ hidden_nodes g ++ output_nodes g) →
  Model.init fuel g ini = Some (Ok m) →
  mjoin (Op.output_indices <$> Model.ops m)
  = seq (1 + length (input_nodes g)) (length (hidden_nodes g ++ output_nodes g)).
Proof.
  intros Hunt Hnd. unfold Model.init, Model.construct.
  destruct (Construct.loop _ _ _ _ _) as [[st'|e]|] eqn:Hloop; [|done..].
  destruct (loop_invariant
              (λ st, ordered g st ∧ filled g st ∧
                     loop_inv g (length (input_nodes g ++ hidden_nodes g
                                          ++ output_nodes g) + 1) st) g ini
              (Construct.id_node_map g
                 (Construct.remaining_nodes (Construct.entry (R:=R) g fresh_store))))
    with (fuel := fuel) (st := Construct.entry (R:=R) g fresh_store) (st' := st')
    as [(_ & [_ Hfill] & (_ & Hts & _)) Hnil]; [|split_and!|done|].
  { intros st1 st2 (Ho & Hf & Hi) Hround. split_and!.
    - by eapply round_untagged.
    - by eapply round_filled.
    - by eapply round_inv. }
  { by apply entry_ordered. } { apply entry_filled. } { apply entry_inv. }
  destruct (mapM _ _) as [idx|e]; [|done]. simpl. intros [= <-]. simpl.
  rewrite Hfill. f_equal. rewrite Hnil in Hts. simpl in Hts.
  rewrite length_app in Hts. lia.
Qed.
End untagged_layout.

(** ** Further properties of the forward pass *)

Section tape_cache.
Context {R : Type} `{Numeric R} `{Catalog R}.

Lemma fill_zero_zeros (tp : list (list R)) (n : nat) :
  Forall (λ row, length row = n) tp → Torch.fill_zero tp = Torch.zeros (length tp) n.
Proof.
  unfold Torch.fill_zero, Torch.zeros. induction 1 as [|row tp Hrow _ IH]; [done|].
  rewrite fmap_cons, IH. simpl. f_equal. subst n. clear.
  induction row as [|v row IH]; [done|]. rewrite fmap_cons, IH. done.
Qed.

(** Whatever tape is cached, a pass starts on a tape of zeros. *)
Lemma initial_tape_zeros (m : Model.t R) (b : nat) :
  (∀ tp, Model.tape m = Some tp → Forall (λ row, length row = Model.tape_size m) tp) →
  Model.initial_tape m b = Torch.zeros b (Model.tape_size m).
Proof.
  intros Hrows. unfold Model.initial_tape.
  destruct (Model.tape m) as [tp|]; [|done].
  destruct (decide _) as [<-|]; [|done]. by apply fill_zero_zeros, Hrows.
Qed.

(** The cached tape has no influence on a pass. *)
Lemma forward_set_tape (m : Model.t R) (c : option (list (list R))) (x : Tensor R) :
  (∀ tp, Model.tape m = Some tp → Forall (λ row, length row = Model.tape_size m) tp) →
  (∀ tp, c = Some tp → Forall (λ row, length row = Model.tape_size m) tp) →
  Model.forward (Model.set_tape m c) x = Model.forward m x.
Proof.
  intros Hm Hc. unfold Model.forward.
  destruct (shape (if decide _ then _ else x)) as [|b [|cols [|]]]; try done.
  rewrite (initial_tape_zeros m b Hm).
  rewrite (initial_tape_zeros (Model.set_tape m c) b) by done.
  done.
Qed.

Lemma forward_repeat (m m' : Model.t R) (x out : Tensor R) :
  model_ok m → Model.forward m x = Ok (out, m') →
  Model.forward m' x = Ok (out, m') ∧
  Model.forward (Model.set_tape m None) x = Ok (out, m').
Proof.
  intros Hok Hfw.
  destruct (forward_fields _ _ _ _ Hok Hfw) as (b & tp & -> & _ & Hrows).
  destruct Hok as (_ & _ & _ & _ & Hcache & _).
  rewrite !forward_set_tape; [done|done|done|done|].
  intros tp' [= <-]. eapply Forall_impl; [exact Hrows|]. by intros row [? _].
Qed.
End tape_cache.

Section input_slice.
Context {R : Type} `{Numeric R} `{Catalog R}.

(** The steps of a completed pass on a batch of shape [(b, c)]. *)
Lemma forward_steps (m m' : Model.t R) (x out : Tensor R) (b c : nat) :
  shape x = [b; c] → Model.forward m x = Ok (out, m') →
  ∃ tp1 tp2 output,
    Model.write_inputs (Model.initial_tape m b) (Model.input_size m) b c (data x)
      = Ok tp1 ∧
    Model.run_ops (Model.ops m) tp1 = Ok (tp2, Model.ops m) ∧
    Torch.index_select_1 tp2 (Model.output_indices m) = Ok output ∧
    m' = Model.set_tape (Model.set_ops m (Model.ops m)) (Some tp2) ∧
    out = {| shape := [b; length (Model.output_indices m)]; data := mjoin output |}.
Proof.
  intros Hx. unfold Model.forward.
  destruct (decide _) as [Hd|_]; [by rewrite Hx in Hd|]. rewrite Hx.
  intros (tp1 & Hw & ([tp2 os] & Hrun & Hout)%bind_Ok)%bind_Ok. simpl in Hout.
  destruct (decide (Model.output_indices m = [])); [done|].
  apply bind_Ok in Hout as (output & Hsel & [= <- <-]).
  pose proof Hrun as (-> & _)%run_ops_Ok_inv.
  by exists tp1, tp2, output.
Qed.

Lemma write_slice_lookup_Some (vals row : list R) (q : nat) (v : R) :
  1 ≤ length row → vals !! q = Some v →
  Model.write_slice 1 vals row !! (1 + q) = Some v.
Proof.
  intros Hrow Hq. unfold Model.write_slice.
  rewrite lookup_app_r; rewrite length_take; [|lia].
  replace (1 + q - 1 `min` length row) with q by lia.
  by rewrite lookup_app_l by by eapply lookup_lt_Some.
Qed.

(** Training replaces parameters only: the index tensors of an operation
    are those [__init__] gave it. *)
Lemma same_frame_indices (m0 m : Model.t R) (op : Op.t R) :
  same_frame m0 m → op ∈ Model.ops m →
  ∃ op0, op0 ∈ Model.ops m0 ∧ Op.output_indices op = Op.output_indices op0 ∧
         Op.input_indices op = Op.input_indices op0 ∧ Op.nodes op = Op.nodes op0.
Proof.
  intros (_ & _ & _ & _ & _ & _ & _ & _ & _ & _ & Hops) (j & Hj)%list_elem_of_lookup_1.
  destruct (Forall2_lookup_r _ _ _ _ _ Hops Hj) as (op0 & Hj0 & ->).
  exists op0. split; [by eapply list_elem_of_lookup_2|done].
Qed.

(** After a pass the tape still holds the batch in the input slice. *)
Lemma forward_inputs_kept (fuel : nat) (g : Graph) (ini : string)
    (m0 m m' : Model.t R) (x out : Tensor R) (b : nat) :
  Model.init fuel g ini = Some (Ok m0) → evolves m0 m →
  shape x = [b; Model.input_size m] →
  Model.forward m x = Ok (out, m') →
  ∃ tp, Model.tape m' = Some tp ∧ length tp = b ∧
    ∀ s xrow row q v,
      Model.rows_of b (Model.input_size m) (data x) !! s = Some xrow →
      tp !! s = Some row → xrow !! q = Some v → row !! (1 + q) = Some v.
Proof.
  intros Hinit Hev Hx Hfw.
  pose proof (init_model_ok _ _ _ _ Hinit) as (Hok0 & _).
  destruct (evolves_model_ok _ _ Hev Hok0) as [Hok Hframe].
  pose proof (init_past_inputs _ _ _ _ Hinit) as Hpast.
  destruct (forward_steps _ _ _ _ _ _ Hx Hfw) as (tp1 & tp2 & output & Hw & Hrun & _ & -> & _).
  exists tp2. split; [done|].
  pose proof (initial_tape_ok m b Hok) as Htp0.
  pose proof Hok as (Hisz & _).
  pose proof (write_inputs_ok _ _ _ _ _ _ _ Hisz Htp0 Hw) as [Hlen1 _].
  destruct (run_ops_Ok_inv _ _ _ _ Hrun) as (_ & Hlen2 & Hkeep).
  split; [lia|]. intros s xrow row q v Hxrow Hrow Hq.
  destruct (Hkeep s row Hrow) as (row1 & Hrow1 & _ & Hsame).
  rewrite Hsame.
  - revert Hw. unfold Model.write_inputs.
    destruct (decide _) as [_|]; [|done]. intros [= <-].
    apply lookup_zip_with_Some in Hrow1 as (row0 & xrow' & -> & Hrow0 & Hxrow').
    rewrite Hxrow in Hxrow'. injection Hxrow' as <-.
    apply write_slice_lookup_Some; [|done].
    destruct Htp0 as [_ Hrows]. rewrite Forall_forall in Hrows.
    destruct (Hrows row0) as [Hl _]; [by eapply list_elem_of_lookup_2|]. lia.
  - intros op Hop Hk.
    destruct (same_frame_indices _ _ _ Hframe Hop) as (op0 & Hop0 & Hout & _).
    rewrite Hout in Hk. rewrite Forall_forall in Hpast.
    destruct (Hpast op0 Hop0 _ Hk) as [Hlo _].
    destruct Hframe as (_ & _ & _ & _ & _ & Hsz & _).
    assert (q < Model.input_size m); [|lia].
    apply lookup_lt_Some in Hq.
    (* the rows of the batch have [input_size] entries at most *)
    unfold Model.rows_of in Hxrow. apply list_lookup_fmap_Some in Hxrow as (r & -> & _).
    rewrite length_take in Hq. lia.
Qed.
End input_slice.

(** ** The network function *)

Section wiring.
Context {R : Type} `{Numeric R} `{Catalog R}.

Lemma mapM_result_ext_in {A B} (f h : A → result B) (l : list A) :
  (∀ x, x ∈ l → f x = h x) → mapM f l = mapM h l.
Proof.
  induction l as [|x l IH]; intros Hext; [done|].
  rewrite !mapM_cons, (Hext x) by left.
  rewrite IH; [done|]. intros y Hy. apply Hext. by right.
Qed.

(** [Op.__init__] reads the tape indices of its nodes and of their
    inputs, and nothing else of the node attributes. *)
Lemma init_store_ext (g : Graph) (st st2 : NodeStore) (ns : list nat)
    (ini : string) (op : Op.t R) (s1 : NodeStore) :
  (∀ n, n ∈ ns → tape_index st2 !! n = tape_index st !! n) →
  (∀ n p, n ∈ ns → p ∈ inputs (node g n) →
          tape_index st2 !! p = tape_index st !! p) →
  Op.init g st ns ini = Ok (op, s1) →
  ∃ s2, Op.init g st2 ns ini = Ok (op, s2).
Proof.
  intros Hns Hin. unfold Op.init.
  rewrite (mapM_result_ext_in
             (λ n, mapM (Op.tape_index_of st2) (inputs (node g n)))
             (λ n, mapM (Op.tape_index_of st) (inputs (node g n))) ns).
  2:{ intros n Hn. apply mapM_result_ext_in. intros p Hp.
      unfold Op.tape_index_of. by rewrite (Hin n p Hn Hp). }
  rewrite (mapM_result_ext_in (Op.tape_index_of st2) (Op.tape_index_of st) ns).
  2:{ intros n Hn. unfold Op.tape_index_of. by rewrite (Hns n Hn). }
  intros (rows & -> & (outs & -> & Hinit)%bind_Ok)%bind_Ok. simpl.
  destruct (decide _); [done|].
  destruct (initialization_map ini) as [f|]; simpl in *; [|done].
  destruct (Torch.zero_where_0 _ _) as [w|]; simpl in *; [|done].
  injection Hinit as <- _. by eexists.
Qed.

Lemma round_wired (g : Graph) (ini : string) (m : gmap string (list nat))
    (st st' : Construct.locals R) :
  ordered g st → partitioned g st → wired g ini st →
  Construct.round g ini m st = Ok st' → wired g ini st'.
Proof.
  intros (_ & Hrem & _ & _ & _ & Htop & _) (Hperm & _ & Hasg & _) Hwired
    (tidx & f & surv & Hscan & _ & Hsurv & _ & _ & _ & Htidx & _ & Hops)%round_Ok_inv.
  cbv zeta in Hscan. apply scan_range in Hscan as [_ Hold].
  assert (∀ n, n ∈ assigned (Construct.store st) →
               tape_index (Construct.store st') !! n
               = tape_index (Construct.store st) !! n) as Hkeep.
  { intros n Hn. rewrite Htidx. apply Hold.
    intros [_ Hr]%list_elem_of_filter. by destruct (Hrem n Hr). }
  assert (Forall (λ op, ∃ st1, Op.init g (Construct.store st') (Op.nodes op) ini
                               = Ok (op, st1)) (Construct.ops st)) as Hold_ops.
  { unfold wired in Hwired. rewrite Forall_forall in Hwired |- *.
    intros op Hop. destruct (Hwired op Hop) as [st1 Hinit].
    assert (∀ n, n ∈ Op.nodes op → n ∈ assigned (Construct.store st) ∧
                                    n ∈ hidden_nodes g ++ output_nodes g) as Hn.
    { intros n Hn.
      assert (n ∈ mjoin (Op.nodes <$> Construct.ops st)) as Hj.
      { apply list_elem_of_join. exists (Op.nodes op). split; [done|].
        by apply list_elem_of_fmap_2. }
      split; [apply Hasg; by right|].
      rewrite <-Hperm. apply elem_of_app. by left. }
    eapply init_store_ext; [| |exact Hinit].
    - intros n [Ha _]%Hn. by apply Hkeep.
    - intros n p [Ha Hho]%Hn Hp. apply Hkeep. by destruct (Htop n p Ha Hho Hp). }
  unfold wired. destruct Hops as [(_ & op & Hinit & ->)|(_ & ->)]; [|done].
  apply Forall_app. split; [done|]. constructor; [|done].
  pose proof Hinit as (_ & _ & _ & _ & -> & _)%init_Ok_inv.
  eapply init_store_ext; [| |exact Hinit]; intros; by rewrite Htidx.
Qed.
End wiring.

Section layering.
Context {R : Type} `{Numeric R} `{Catalog R}.

Lemma pad_sequence_elem (rows : list (list nat)) (u : nat) :
  u ∈ mjoin (Torch.pad_sequence rows) → u = 0 ∨ u ∈ mjoin rows.
Proof.
  unfold Torch.pad_sequence.
  intros (l & Hu & Hl)%list_elem_of_join.
  apply list_elem_of_fmap in Hl as (row & -> & Hrow).
  apply elem_of_app in Hu as [Hu|Hu].
  - right. apply list_elem_of_join. by exists row.
  - left. by apply elem_of_replicate in Hu as [-> _].
Qed.

Lemma round_stacked (g : Graph) (ini : string) (m : gmap string (list nat))
    (st st' : Construct.locals R) :
  ordered g st → stacked st →
  Construct.round g ini m st = Ok st' → stacked st'.
Proof.
  intros (_ & Hrem & _ & Hlt & _) (Hi & Hlay & Hbelow)
    (tidx & f & surv & Hscan & _ & Hsurv & _ & _ & Hi' & _ & _ & Hops)%round_Ok_inv.
  cbv zeta in Hscan. apply scan_range in Hscan as [Hnew Hold].
  unfold stacked. rewrite Hi'.
  destruct Hops as [(_ & op & Hinit & ->)|(_ & ->)].
  2:{ split_and!; [lia|done|]. intros op u Hop Hu. specialize (Hbelow op u Hop Hu). lia. }
  apply init_Ok_inv in Hinit as (rows & Hrows & Houts & _ & _ & Hidx & _).
  assert (∀ n, n ∈ surv →
            n ∈ filter (λ n, Construct.eligible g (assigned (Construct.store st)) n)
                       (Construct.remaining_nodes st)) as Hsc.
  { intros n Hn. rewrite Hsurv in Hn. destruct (decide _); [|done].
    by apply list_elem_of_filter in Hn as [_ ?]. }
  assert (∀ v, v ∈ Op.output_indices op → Construct.i st ≤ v) as Hout.
  { intros v (j & Hj)%list_elem_of_lookup_1.
    destruct (mapM_Ok_lookup_r _ _ _ _ _ Houts Hj) as (n & Hn & Hk%tape_index_of_Ok).
    simpl in Hk. destruct (Hnew n) as (k' & Hk' & Hge).
    { by apply list_elem_of_lookup_2, Hsc in Hn. }
    rewrite Hk in Hk'. injection Hk' as <-. lia. }
  assert (∀ u, u ∈ mjoin (Op.input_indices op) → u < Construct.i st) as Hin.
  { intros u Hu. rewrite Hidx in Hu.
    apply pad_sequence_elem in Hu as [->|Hu]; [lia|].
    apply list_elem_of_join in Hu as (row & Hu & (r & Hr)%list_elem_of_lookup_1).
    destruct (mapM_Ok_lookup_r _ _ _ _ _ Hrows Hr) as (n & Hn & Hrow).
    apply list_elem_of_lookup_1 in Hu as (q & Hq).
    destruct (mapM_Ok_lookup_r _ _ _ _ _ Hrow Hq) as (p & Hp & Hk%tape_index_of_Ok).
    simpl in Hk.
    apply list_elem_of_lookup_2, Hsc, list_elem_of_filter in Hn as [He _].
    unfold Construct.eligible in He. apply forallb_True in He.
    rewrite Forall_forall in He.
    apply list_elem_of_lookup_2, He, bool_decide_spec in Hp.
    rewrite Hold in Hk.
    - destruct (Hlt p Hp) as (k & Hk' & Hlk). rewrite Hk in Hk'.
      by injection Hk' as <-.
    - intros [_ Hr']%list_elem_of_filter. by destruct (Hrem p Hr'). }
  split_and!; [lia| |].
  - intros j k opj opk u v Hj Hk Hjk Hu Hv.
    apply lookup_app_Some in Hj as [Hj|[Hjl Hj]];
      apply lookup_app_Some in Hk as [Hk|[Hkl Hk]].
    + exact (Hlay j k opj opk u v Hj Hk Hjk Hu Hv).
    + apply list_lookup_singleton_Some in Hk as [_ <-].
      apply list_elem_of_lookup_2 in Hj. specialize (Hbelow _ _ Hj Hu).
      specialize (Hout v Hv). lia.
    + apply lookup_lt_Some in Hk. lia.
    + apply list_lookup_singleton_Some in Hj as [_ <-].
      apply list_lookup_singleton_Some in Hk as [_ <-].
      specialize (Hin u Hu). specialize (Hout v Hv). lia.
  - intros op' u [Hop|Hop%list_elem_of_singleton]%elem_of_app Hu.
    + specialize (Hbelow _ _ Hop Hu). lia.
    + subst op'. specialize (Hin u Hu). lia.
Qed.

Lemma entry_stacked (g : Graph) : stacked (Construct.entry (R:=R) g fresh_store).
Proof.
  destruct (entry_state (R:=R) g) as (_ & _ & Hops & Hi & _).
  unfold stacked. rewrite Hops, Hi. split_and!; [lia| |].
  - by intros j k opj opk u v Hj.
  - by intros op u Hop%elem_of_nil.
Qed.

Lemma entry_wired (g : Graph) (ini : string) :
  wired g ini (Construct.entry (R:=R) g fresh_store).
Proof.
  destruct (entry_state (R:=R) g) as (_ & _ & Hops & _).
  unfold wired. by rewrite Hops.
Qed.

(** What [__init__] leaves behind on a graph without grouping tags. *)
Lemma init_wired (fuel : nat) (g : Graph) (ini : string) (m : Model.t R) :
  untagged g → NoDup (input_nodes g ++ hidden_nodes g ++ output_nodes g) →
  Model.init fuel g ini = Some (Ok m) →
  Forall (λ op, ∃ st1, Op.init g (Model.node_store m) (Op.nodes op) ini = Ok (op, st1))
         (Model.ops m) ∧
  layered (Model.ops m) ∧
  NoDup (mjoin (Op.output_indices <$> Model.ops m)) ∧
  mapM (Op.tape_index_of (Model.node_store m)) (Model.outputs m)
    = Ok (Model.output_indices m) ∧
  (∀ q p, input_nodes g !! q = Some p →
          tape_index (Model.node_store m) !! p = Some (1 + q)).
Proof.
  intros Hunt Hnd Hinit.
  pose proof (init_filled _ _ _ _ Hunt Hnd Hinit) as Hfill.
  revert Hinit. unfold Model.init, Model.construct.
  destruct (Construct.loop _ _ _ _ _) as [[st'|e]|] eqn:Hloop; [|done..].
  destruct (loop_invariant
              (λ st, ordered g st ∧ partitioned g st ∧ wired g ini st ∧ stacked st ∧
                     ∀ q p, input_nodes g !! q = Some p →
                            p ∈ assigned (Construct.store st) ∧
                            tape_index (Construct.store st) !! p = Some (1 + q))
              g ini
              (Construct.id_node_map g
                 (Construct.remaining_nodes (Construct.entry (R:=R) g fresh_store))))
    with (fuel := fuel) (st := Construct.entry (R:=R) g fresh_store) (st' := st')
    as [(_ & _ & Hwired & (_ & Hlay & _) & Hin) _]; [|split_and!|done|].
  { intros st1 st2 (Ho & Hp & Hw & Hs & Hin) Hround. split_and!.
    - by eapply round_untagged.
    - by eapply round_partitioned.
    - by eapply round_wired.
    - by eapply round_stacked.
    - destruct Ho as (_ & Hrem & _).
      apply round_Ok_inv in Hround
        as (tidx & f & surv & Hscan & _ & _ & _ & _ & _ & Htidx & Hasg & _).
      cbv zeta in Hscan. apply scan_range in Hscan as [_ Hold].
      intros q p Hq. destruct (Hin q p Hq) as [Hpa Hpi]. split.
      + rewrite Hasg. apply elem_of_union. by right.
      + rewrite Htidx, Hold; [done|].
        intros [_ Hr]%list_elem_of_filter. by destruct (Hrem p Hr). }
  { by apply entry_ordered. } { apply entry_partitioned. } { apply entry_wired. }
  { apply entry_stacked. }
  { apply NoDup_app in Hnd as (Hndi & _).
    unfold Construct.entry.
    destruct (Construct.index_inputs _ _ _) as [st1 i1] eqn:Hii.
    destruct (index_inputs_exact _ _ _ _ _ Hndi Hii) as [Hnew _].
    apply index_inputs_spec in Hii as (_ & Hasg & _). simpl.
    intros q p Hq. split; [|by apply Hnew].
    rewrite Hasg. apply elem_of_union. left.
    apply elem_of_list_to_set. by eapply list_elem_of_lookup_2. }
  destruct (mapM _ _) as [idx|e] eqn:Hidx; [|done]. simpl. intros [= <-]. simpl.
  simpl in Hfill. split_and!; [done|done| |done|].
  - rewrite Hfill. apply NoDup_seq.
  - intros q p Hq. by destruct (Hin q p Hq).
Qed.
End layering.

Section settling.
Context {R : Type} `{Numeric R} `{Catalog R}.

Lemma weighted_sum_ext (ws : list R) (idxs : list nat) (row1 row2 : list R) :
  (∀ u, u ∈ idxs → row1 !! u = row2 !! u) →
  weighted_sum ws idxs row1 = weighted_sum ws idxs row2.
Proof.
  intros Hext. unfold weighted_sum. f_equal. revert ws.
  induction idxs as [|u idxs IH]; intros [|w ws]; simpl; try done.
  rewrite IH by (intros; apply Hext; by right).
  by rewrite !list_lookup_total_alt, (Hext u) by left.
Qed.

Lemma layered_tail (op : Op.t R) (os : list (Op.t R)) :
  layered (op :: os) → layered os.
Proof.
  intros Hlay j k opj opk u v Hj Hk Hjk.
  apply (Hlay (S j) (S k) opj opk u v Hj Hk). lia.
Qed.

(** Running layered operations with distinct output positions leaves
    every one of them settled on the final tape. *)
Lemma run_ops_settled (φ : string → R → R) (g : Graph) (b ts : nat)
    (os : list (Op.t R)) (tp : list (list R)) :
  activations_known φ g →
  Forall (op_ok g ts) os →
  Forall (λ op, ∃ st ini op0 st1,
            Op.init g st (Op.nodes op) ini = Ok (op0, st1) ∧
            op = Op.set_parameters op0 (Op.weights op) (Op.bias op)) os →
  layered os → NoDup (mjoin (Op.output_indices <$> os)) →
  tape_ok b ts tp →
  ∃ tp', Model.run_ops os tp = Ok (tp', os) ∧ tape_ok b ts tp' ∧
         ∀ s row', tp' !! s = Some row' → Forall (λ op, settled φ g op row') os.
Proof.
  intros Hact. revert tp.
  induction os as [|op os IH]; intros tp Hok Hbuilt Hlay Hnd Htp.
  { exists tp. split_and!; [done|done|]. by intros. }
  apply Forall_cons in Hok as [Hop_ok Hok].
  apply Forall_cons in Hbuilt as [(st & ini & op0 & st1 & Hinit & Hop) Hbuilt].
  rewrite fmap_cons in Hnd. simpl in Hnd.
  apply NoDup_app in Hnd as (Hnd_op & Hdisj & Hnd).
  pose proof Hop_ok as (_ & Hsh & Hnodes & Hout_r & Hin_r).
  assert (Op.output_indices op = Op.output_indices op0 ∧
          Op.input_indices op = Op.input_indices op0 ∧
          Op.nodes op = Op.nodes op0) as (Hoeq & Hieq & Hneq) by by rewrite Hop.
  destruct (forward_node_values φ g st st1 (Op.nodes op) ini op0
              (Op.weights op) (Op.bias op) tp Hinit)
    as (tp1 & Hfw & Hlen1 & Hvals).
  { by rewrite <-Hoeq. }
  { intros n Hn. by apply Hact, Hnodes. }
  { by rewrite <-Hop. }
  { intros row k Hrow Hk. destruct Htp as [_ Hrows].
    rewrite Forall_forall in Hrows. destruct (Hrows row Hrow) as [-> _].
    rewrite <-Hoeq, <-Hieq in Hk.
    destruct Hk as [Hk|Hk]; [by apply Hin_r|]. apply Hout_r in Hk. lia. }
  rewrite <-Hop in Hfw.
  destruct (op_forward_ok φ g b ts op tp Hact Hop_ok Htp) as (tp1' & Hfw' & Htp1).
  rewrite Hfw in Hfw'. injection Hfw' as <-.
  destruct (IH tp1 Hok Hbuilt (layered_tail _ _ Hlay) Hnd Htp1)
    as (tp' & Hrun & Htp' & Hsettled).
  exists tp'. split_and!; [|done|].
  { simpl. rewrite Hfw. simpl. rewrite Hrun. done. }
  intros s row' Hrow'. constructor; [|by eapply Hsettled].
  destruct (run_ops_Ok_inv _ _ _ _ Hrun) as (_ & _ & Hframe').
  destruct (Hframe' s row' Hrow') as (row1 & Hrow1 & _ & Hsame').
  destruct (forward_Ok_inv _ _ _ _ Hfw) as (_ & _ & Hframe).
  destruct (Hframe s row1 Hrow1) as (row & Hrow & _ & Hsame).
  destruct (Hvals s row Hrow) as (row1' & Hrow1' & Hv).
  rewrite Hrow1 in Hrow1'. injection Hrow1' as <-.
  intros i n Hn. destruct (Hv i n Hn) as (k & ws & idxs & bi & Hk & Hws & Hidxs & Hbi & Hval).
  exists k, ws, idxs, bi. rewrite Hoeq, Hieq. split_and!; [done..|].
  assert (∀ u, u ∈ mjoin (Op.input_indices op) →
               (∀ op', op' ∈ op :: os → u ∉ Op.output_indices op')) as Hsep.
  { intros u Hu op' (k' & Hk')%list_elem_of_lookup_1 Hv'.
    pose proof (Hlay 0 k' op op' u u eq_refl Hk' (Nat.le_0_l _) Hu Hv'). lia. }
  rewrite Hsame'.
  2:{ intros op' Hop' Hk'. apply (Hdisj k).
      - rewrite Hoeq. by eapply list_elem_of_lookup_2.
      - apply list_elem_of_join. exists (Op.output_indices op').
        split; [done|]. by apply list_elem_of_fmap_2. }
  rewrite Hval. f_equal. unfold node_value. do 2 f_equal.
  apply weighted_sum_ext. intros u Hu.
  assert (u ∈ mjoin (Op.input_indices op)) as Hu'.
  { rewrite Hieq. apply list_elem_of_join. exists idxs. split; [done|].
    by eapply list_elem_of_lookup_2. }
  rewrite Hsame'.
  - symmetry. apply Hsame. apply (Hsep u Hu' op). left.
  - intros op' Hop'. apply (Hsep u Hu' op'). by right.
Qed.
End settling.

Section network_function.
Context {R : Type} `{Numeric R} `{Catalog R}.

(** The weighted sum over a padded index row, read as the padded sum
    over the node's inputs. *)
Lemma weighted_sum_reading (F : gmap nat nat) (ins : list nat)
    (ws : list R) (idxs row_r : list nat) (row : list R) :
  mapM (λ p, or_raise TypeError (F !! p)) ins = Ok row_r →
  length ws = length idxs → length row_r ≤ length idxs →
  take (length row_r) idxs = row_r →
  (∀ j, length row_r ≤ j → j < length idxs → idxs !! j = Some 0) →
  row !! 0 = Some zero →
  weighted_sum ws idxs row
  = padded_sum ((λ p, row !!! default 0 (F !! p)) <$> ins) ws.
Proof.
  intros Hmap Hlen Hle Htake Hpad Hz.
  rewrite (weighted_sum_padded ws idxs row_r) by done. f_equal.
  assert (row_r = (λ p, default 0 (F !! p)) <$> ins) as ->.
  { apply list_eq. intros j. rewrite list_lookup_fmap.
    destruct (ins !! j) as [p|] eqn:Hp; simpl.
    - destruct (mapM_Ok_lookup_l _ _ _ _ _ Hmap Hp) as (u & -> & Hu).
      destruct (F !! p); simplify_eq/=. done.
    - apply lookup_ge_None. rewrite (mapM_Ok_length _ _ _ Hmap).
      by apply lookup_ge_None. }
  by rewrite <-list_fmap_compose.
Qed.

Lemma Forall2_set_parameters (os0 os : list (Op.t R)) :
  Forall2 (λ op op', op' = Op.set_parameters op (Op.weights op') (Op.bias op')) os0 os →
  Op.output_indices <$> os = Op.output_indices <$> os0 ∧
  Op.input_indices <$> os = Op.input_indices <$> os0.
Proof.
  induction 1 as [|op op' os0 os Hop _ [IH1 IH2]]; [done|].
  rewrite !fmap_cons, IH1, IH2. by rewrite Hop.
Qed.

Lemma layered_indices (os0 os : list (Op.t R)) :
  Op.output_indices <$> os = Op.output_indices <$> os0 →
  Op.input_indices <$> os = Op.input_indices <$> os0 →
  layered os0 → layered os.
Proof.
  intros Ho Hi Hlay j k opj opk u v Hj Hk Hjk Hu Hv.
  assert ((Op.input_indices <$> os) !! j = Some (Op.input_indices opj)) as Hj'
    by by rewrite list_lookup_fmap, Hj.
  assert ((Op.output_indices <$> os) !! k = Some (Op.output_indices opk)) as Hk'
    by by rewrite list_lookup_fmap, Hk.
  rewrite Hi in Hj'. rewrite Ho in Hk'.
  apply list_lookup_fmap_Some in Hj' as (opj0 & Hj0e & Hj0).
  apply list_lookup_fmap_Some in Hk' as (opk0 & Hk0e & Hk0).
  apply (Hlay j k opj0 opk0 u v Hj0 Hk0 Hjk); congruence.
Qed.

(** On a graph without grouping tags that has an output node, a pass
    leaves on every row of the tape the values of the network: an input
    node holds its entry of the sample, every other node the activation
    of the padded sum over the values of the nodes it reads plus its
    bias, and the output holds the values of the output nodes. *)
Lemma forward_network (φ : string → R → R) (fuel : nat) (g : Graph)
    (ini : string) (m0 m : Model.t R) (x : Tensor R) (bsz : nat) :
  untagged g → NoDup (input_nodes g ++ hidden_nodes g ++ output_nodes g) →
  output_nodes g ≠ [] → activations_known φ g →
  Model.init fuel g ini = Some (Ok m0) → evolves m0 m →
  shape x = [bsz; length (input_nodes g)] → well_formed x →
  ∃ out m' tp,
    Model.forward m x = Ok (out, m') ∧ Model.tape m' = Some tp ∧
    ∀ s xrow,
      Model.rows_of bsz (length (input_nodes g)) (data x) !! s = Some xrow →
      ∃ row, tp !! s = Some row ∧
        (∀ q p, input_nodes g !! q = Some p → node_reading m row p = xrow !!! q) ∧
        (∀ op r n, op ∈ Model.ops m → Op.nodes op !! r = Some n →
           ∃ ws bi, Op.weights op !! r = Some ws ∧ Op.bias op !! r = Some bi ∧
             length (inputs (node g n)) ≤ length ws ∧
             node_reading m row n
             = φ (activation (node g n))
                 (add (padded_sum (node_reading m row <$> inputs (node g n)) ws)
                      bi)) ∧
        (∀ k o, Model.outputs m !! k = Some o →
                data out !! (s * length (output_nodes g) + k)
                = Some (node_reading m row o)).
Proof.
  intros Hunt Hnd Hne Hact Hinit Hev Hshape Hwf.
  destruct (init_model_ok _ _ _ _ Hinit) as (Hok0 & Hg0 & _ & _ & _ & His0 & Hos0).
  destruct (evolves_model_ok m0 m Hev Hok0) as [Hok Hsf].
  pose proof Hsf as (_ & _ & Houts & Hg & Hts & His & Hos & _ & Hoi & Hns & Hops).
  rewrite Hg0 in Hg. rewrite His0 in His. rewrite Hos0 in Hos.
  destruct (init_wired _ _ _ _ Hunt Hnd Hinit)
    as (Hwired & Hlay0 & Hnd0 & Hmap & Hin_idx).
  destruct (Forall2_set_parameters _ _ Hops) as [Hoeq Hieq].
  rewrite <-His in Hshape.
  assert (Model.output_indices m ≠ []) as Hsome.
  { destruct Hok as (_ & _ & _ & Hlo & _). intros Hnil.
    rewrite Hnil in Hlo. simpl in Hlo.
    destruct (output_nodes g); [done|]. simpl in *. lia. }
  destruct (forward_accepts φ m x bsz Hok) as (out & m' & Hfw & _);
    [by rewrite Hg|done|done|].
  destruct (forward_steps _ _ _ _ _ _ Hshape Hfw)
    as (tp1 & tp2 & output & Hw & Hrun & Hsel & Hm' & Hout).
  exists out, m', tp2. split; [done|]. split; [by rewrite Hm'|].
  pose proof (initial_tape_ok m bsz Hok) as Htp0.
  pose proof Hok as (Hisz & Hopok & Hoik & Hlo & _).
  pose proof (write_inputs_ok _ _ _ _ _ _ _ Hisz Htp0 Hw) as Htp1.
  destruct (run_ops_settled φ g bsz (Model.tape_size m) (Model.ops m) tp1 Hact)
    as (tp2' & Hrun' & Htp2 & Hsettled); [by rewrite <-Hg| | | |done|].
  { rewrite Forall_forall. intros op (j & Hj)%list_elem_of_lookup_1.
    destruct (Forall2_lookup_r _ _ _ _ _ Hops Hj) as (op0 & Hj0 & Hop).
    rewrite Forall_forall in Hwired.
    destruct (Hwired op0) as [st1 Hinit0]; [by eapply list_elem_of_lookup_2|].
    exists (Model.node_store m0), ini, op0, st1. split; [|done].
    by rewrite Hop. }
  { by eapply layered_indices. }
  { by rewrite Hoeq. }
  rewrite Hrun in Hrun'. injection Hrun' as <-.
  destruct (forward_inputs_kept _ _ _ _ _ _ _ _ _ Hinit Hev Hshape Hfw)
    as (tp2' & Htp2' & _ & Hkept).
  rewrite Hm' in Htp2'. simpl in Htp2'. injection Htp2' as <-.
  intros s xrow Hxrow. rewrite <-His in Hxrow.
  assert (s < bsz) as Hs.
  { apply lookup_lt_Some in Hxrow. unfold Model.rows_of in Hxrow.
    by rewrite length_fmap, length_seq in Hxrow. }
  destruct (lookup_lt_is_Some_2 tp2 s) as [row Hrow]; [destruct Htp2; lia|].
  exists row. split; [done|].
  destruct Htp2 as [_ Hrows2]. rewrite Forall_forall in Hrows2.
  destruct (Hrows2 row) as [Hlrow Hz]; [by eapply list_elem_of_lookup_2|].
  assert (length xrow = Model.input_size m) as Hlx.
  { apply (rows_of_lookup bsz _ s (data x)); [|done].
    unfold well_formed in Hwf. rewrite Hshape in Hwf. simpl in Hwf. lia. }
  split_and!.
  - intros q p Hq. unfold node_reading. rewrite Hns, (Hin_idx q p Hq). simpl.
    destruct (lookup_lt_is_Some_2 xrow q) as [v Hv].
    { apply lookup_lt_Some in Hq. lia. }
    rewrite (list_lookup_total_correct _ _ _ Hv).
    by apply list_lookup_total_correct, (Hkept s xrow row q v).
  - intros op r n Hop Hn.
    specialize (Hsettled s row Hrow). rewrite Forall_forall in Hsettled.
    destruct (Hsettled op Hop r n Hn)
      as (k & ws & idxs & bi & Hk & Hws & Hidxs & Hbi & Hval).
    assert (length ws = length idxs) as Hlws.
    { rewrite Forall_forall in Hopok. destruct (Hopok op Hop) as (_ & [Hsh _] & _).
      apply (f_equal (λ l, l !! r)) in Hsh. rewrite !list_lookup_fmap in Hsh.
      rewrite Hws, Hidxs in Hsh. by injection Hsh. }
    apply list_elem_of_lookup_1 in Hop as (j & Hj).
    destruct (Forall2_lookup_r _ _ _ _ _ Hops Hj) as (op0 & Hj0 & Hopeq).
    rewrite Forall_forall in Hwired.
    destruct (Hwired op0) as [st1 Hinit0]; [by eapply list_elem_of_lookup_2|].
    apply init_Ok_inv in Hinit0 as (rows & Hrows & Houts0 & _ & _ & Hidx & _).
    assert (Op.nodes op0 !! r = Some n) as Hn0 by by rewrite Hopeq in Hn.
    assert (Op.output_indices op0 !! r = Some k) as Hk0 by by rewrite Hopeq in Hk.
    assert (Op.input_indices op0 !! r = Some idxs) as Hidxs0
      by by rewrite Hopeq in Hidxs.
    destruct (mapM_Ok_lookup_l _ _ _ _ _ Houts0 Hn0) as (k' & Hk' & Hkn%tape_index_of_Ok).
    rewrite Hk0 in Hk'. injection Hk' as <-.
    destruct (mapM_Ok_lookup_l _ _ _ _ _ Hrows Hn0) as (row_r & Hrow_r & Hrow_r').
    destruct (pad_sequence_lookup rows r row_r Hrow_r)
      as (idxs' & Hidxs' & Hle & Htake & Hpad).
    rewrite <-Hidx, Hidxs0 in Hidxs'. injection Hidxs' as <-.
    pose proof (mapM_Ok_length _ _ _ Hrow_r') as Hlr.
    exists ws, bi. split_and!; [done|done|lia|].
    unfold node_reading at 1. rewrite Hns, Hkn. simpl.
    rewrite (list_lookup_total_correct _ _ _ Hval).
    unfold node_value. do 2 f_equal.
    rewrite (weighted_sum_reading (tape_index (Model.node_store m0))
               (inputs (node g n)) ws idxs row_r row); [|done..].
    f_equal. apply list_fmap_ext. intros i p _. unfold node_reading. by rewrite Hns.
  - intros k o Ho. rewrite Hout. simpl.
    rewrite Houts in Ho.
    destruct (mapM_Ok_lookup_l _ _ _ _ _ Hmap Ho) as (y & Hy & Hy'%tape_index_of_Ok).
    rewrite <-Hoi in Hy.
    assert (length (Model.output_indices m) = length (output_nodes g)) as Hlen
      by by rewrite Hlo.
    rewrite index_select_1_total in Hsel; last first.
    { intros row2 k2 Hrow2 Hk2. destruct (Hrows2 row2 Hrow2) as [-> _].
      by apply Hoik. }
    injection Hsel as <-.
    apply (join_lookup_Some_same_length' (length (output_nodes g))).
    { apply Forall_fmap, Forall_forall. intros row2 _. simpl.
      by rewrite length_fmap. }
    { apply lookup_lt_Some in Hy. lia. }
    exists ((row !!!.) <$> Model.output_indices m).
    rewrite !list_lookup_fmap, Hrow, Hy. simpl. split; [done|].
    unfold node_reading. by rewrite Hns, Hy'.
Qed.
End network_function.

(** ** Further properties of an operation *)

Section real_weights.
Context {R : Type} `{Numeric R} `{Catalog R}.

(** The mask of [Op.__init__] leaves the weight of every real input
    slot as the initialization gave it. *)
Lemma init_real_weights (g : Graph) (st st' : NodeStore) (ns : list nat)
    (ini : string) (op : Op.t R) (f : list (list nat) → list (list R)) :
  Op.init g st ns ini = Ok (op, st') →
  initialization_map ini = Some f →
  (∀ n k, tape_index st !! n = Some k → 1 ≤ k) →
  ∀ r n j, ns !! r = Some n → j < length (inputs (node g n)) →
    ∃ ws fs v, Op.weights op !! r = Some ws ∧
               f (Op.input_indices op) !! r = Some fs ∧
               fs !! j = Some v ∧ ws !! j = Some v.
Proof.
  intros Hinit Hf Hpos r n j Hn Hj.
  pose proof Hinit as (rows & Hrows & _ & _ & _ & Hidx & _)%init_Ok_inv.
  revert Hinit. unfold Op.init. rewrite Hrows. simpl.
  intros (outs & _ & Hinit)%bind_Ok.
  destruct (decide _); [done|]. rewrite Hf in Hinit. simpl in Hinit.
  apply bind_Ok in Hinit as (w & Hw & [= <- _]). simpl.
  revert Hw. unfold Torch.zero_where_0. destruct (decide _) as [Hsh|]; [|done].
  intros [= <-].
  destruct (mapM_Ok_lookup_l _ _ _ _ _ Hrows Hn) as (row_r & Hrow_r & Hmap).
  destruct (pad_sequence_lookup rows r row_r Hrow_r)
    as (idxs & Hidxs & Hlen & Htake & _).
  pose proof (mapM_Ok_length _ _ _ Hmap) as Hlr.
  destruct (lookup_lt_is_Some_2 row_r j) as [u Hu]; [lia|].
  destruct (mapM_Ok_lookup_r _ _ _ _ _ Hmap Hu) as (p & _ & Hp%tape_index_of_Ok).
  apply Hpos in Hp.
  assert (idxs !! j = Some u) as Hju.
  { rewrite <-Htake in Hu. by apply lookup_take_Some in Hu as [? _]. }
  assert (length <$> f (Torch.pad_sequence rows) = length <$> Torch.pad_sequence rows)
    as Hsh' by done.
  assert ((length <$> f (Torch.pad_sequence rows)) !! r = Some (length idxs)) as Hfr
    by by rewrite Hsh', list_lookup_fmap, Hidxs.
  apply list_lookup_fmap_Some in Hfr as (fs & Hlfs & Hfs).
  destruct (lookup_lt_is_Some_2 fs j) as [v Hv].
  { rewrite <-Hlfs. by eapply lookup_lt_Some. }
  exists (zip_with (λ x k, if decide (k = 0) then zero else x) fs idxs), fs, v.
  split_and!.
  - by rewrite lookup_zip_with, Hfs, Hidxs.
  - done.
  - done.
  - rewrite lookup_zip_with, Hv, Hju. simpl. by rewrite decide_False by lia.
Qed.
End real_weights.

Section missing_activation.
Context {R : Type} `{Numeric R} `{Catalog R}.

Lemma key_of_Some (m : list (string * list nat)) (i : nat) (a : string) :
  key_of m i = Some a → ∃ l, (a, l) ∈ m.
Proof.
  induction m as [|[b l] m IH]; [done|]. simpl.
  destruct (decide _).
  - intros [= ->]. exists l. by left.
  - intros (l' & Hl')%IH. exists l'. by right.
Qed.

(** The activation loop stops at the first name the catalog lacks. *)
Lemma activate_unknown (φ : string → R → R) (m : list (string * list nat))
    (n : nat) (x : list (list R)) :
  (∀ a l, (a, l) ∈ m →
     (catalog_has φ a ∨ activation_map (R:=R) a = None) ∧ ∀ i, i ∈ l → i < n) →
  Forall (λ row, length row = n) x →
  (∃ a l, (a, l) ∈ m ∧ activation_map (R:=R) a = None) →
  ∃ a l, (a, l) ∈ m ∧ activation_map (R:=R) a = None ∧
         Op.activate m x = Raise (KeyError a).
Proof.
  revert x. induction m as [|[a l] m IH]; intros x Hm Hx (a0 & l0 & Hin & Hnone).
  { by apply elem_of_nil in Hin. }
  simpl. destruct (Hm a l) as [[(f & Hf & Hpw)|Ha] Hl]; [by left| |].
  - rewrite Hf. simpl.
    pose proof (activate_step (φ a) f l n x Hpw Hl Hx) as Hstep.
    apply bind_Ok in Hstep as (gathered & -> & Hsc). simpl. rewrite Hsc. simpl.
    destruct (IH ((λ row, imap (λ i v, if decide (i ∈ l) then φ a v else v) row) <$> x))
      as (a1 & l1 & Hin1 & Hnone1 & Hact).
    + intros; apply Hm; by right.
    + rewrite Forall_fmap. eapply Forall_impl; [exact Hx|].
      intros row Hrow. simpl. by rewrite length_imap.
    + apply elem_of_cons in Hin as [[= <- <-]|Hin]; [by rewrite Hf in Hnone|].
      by exists a0, l0.
    + exists a1, l1. split; [by right|done].
  - exists a, l. rewrite Ha. split; [by left|done].
Qed.

Lemma forward_unknown (φ : string → R → R) (acts : list string) (op : Op.t R)
    (tape : list (list R)) :
  structured acts op → shaped op →
  (∀ a, a ∈ acts → catalog_has φ a ∨ activation_map (R:=R) a = None) →
  (∃ a, a ∈ acts ∧ activation_map (R:=R) a = None) →
  (∀ row u, row ∈ tape → u ∈ mjoin (Op.input_indices op) → u < length row) →
  ∃ a, a ∈ acts ∧ activation_map (R:=R) a = None ∧
       Op.forward op tape = Raise (KeyError a).
Proof.
  intros Hst Hsh Hacts (a0 & (i & Hi)%list_elem_of_lookup_1 & Hnone) Hin.
  unfold Op.forward. rewrite (weighted_sums_total acts op tape Hst Hsh Hin). simpl.
  destruct (activate_unknown φ (Op.activation_index_map op) (length acts)
              (sums_of op <$> tape)) as (a & l & Hal & Ha & ->).
  - intros a l Hal. destruct (st_keys _ _ Hst a l Hal) as [Ha Hl]. split; [|done].
    by apply Hacts.
  - rewrite Forall_fmap. apply Forall_forall. intros row _. simpl.
    by apply (length_sums_of acts).
  - destruct (key_of_Some _ _ _ (st_key _ _ Hst i a0 Hi)) as [l Hl]. by exists a0, l.
  - exists a. split_and!; [|done|done]. by destruct (st_keys _ _ Hst a l Hal).
Qed.
End missing_activation.

Section reads.
Context {R : Type} `{Numeric R} `{Catalog R}.

Lemma put_row_same (row1 row2 : list R) (idx : list nat) (src r1 r2 : list R) :
  Torch.put_row row1 idx src = Ok r1 → Torch.put_row row2 idx src = Ok r2 →
  ∀ k, k ∈ idx → r1 !! k = r2 !! k.
Proof.
  revert row1 row2 src. induction idx as [|k0 idx IH]; intros row1 row2 src; simpl.
  { by intros _ _ k ?%elem_of_nil. }
  destruct src as [|v src]; [done|].
  destruct (decide (k0 < length row1)) as [Hk1|]; [|done].
  destruct (decide (k0 < length row2)) as [Hk2|]; [|done].
  intros H1 H2 k Hk.
  destruct (decide (k ∈ idx)) as [Hin|Hout]; [by eapply IH|].
  apply elem_of_cons in Hk as [->|Hk]; [|done].
  apply put_row_Ok_inv in H1 as (_ & _ & _ & Hf1).
  apply put_row_Ok_inv in H2 as (_ & _ & _ & Hf2).
  rewrite Hf1, Hf2 by done.
  by rewrite !list_lookup_insert_eq by done.
Qed.

Lemma index_select_1_ext (t1 t2 : list (list R)) (idx : list nat) :
  length t1 = length t2 →
  (∀ s row1 row2 u, t1 !! s = Some row1 → t2 !! s = Some row2 → u ∈ idx →
                    row1 !! u = row2 !! u) →
  Torch.index_select_1 t1 idx = Torch.index_select_1 t2 idx.
Proof.
  unfold Torch.index_select_1. revert t2.
  induction t1 as [|row1 t1 IH]; intros [|row2 t2] Hlen Hext; try done.
  rewrite !mapM_cons.
  rewrite (mapM_result_ext_in (Torch.at_index row1) (Torch.at_index row2) idx).
  2:{ intros u Hu. unfold Torch.at_index. by rewrite (Hext 0 row1 row2 u). }
  rewrite (IH t2); [done|by injection Hlen|].
  intros s r1 r2 u Hr1 Hr2. by apply (Hext (S s)).
Qed.

(** What [Op.forward] writes depends on the tape only through the
    positions the operation reads. *)
Lemma forward_reads (acts : list string) (op o1 o2 : Op.t R)
    (tape1 tape2 t1 t2 : list (list R)) :
  structured acts op →
  length tape1 = length tape2 →
  (∀ s row1 row2 u, tape1 !! s = Some row1 → tape2 !! s = Some row2 →
                    u ∈ mjoin (Op.input_indices op) → row1 !! u = row2 !! u) →
  Op.forward op tape1 = Ok (t1, o1) → Op.forward op tape2 = Ok (t2, o2) →
  ∀ s r1 r2 k, t1 !! s = Some r1 → t2 !! s = Some r2 →
               k ∈ Op.output_indices op → r1 !! k = r2 !! k.
Proof.
  intros Hst Hlen Hext. unfold Op.forward, Op.weighted_sums.
  rewrite (index_select_1_ext tape1 tape2 (Op.unique_input_indices op) Hlen).
  2:{ intros s row1 row2 u Hr1 Hr2 Hu. apply (Hext s); [done..|].
      by apply (st_unique _ _ Hst). }
  intros (x & Hx & (x1 & Hx1 & (t1' & Hput1 & [= <- <-])%bind_Ok)%bind_Ok)%bind_Ok.
  rewrite Hx. simpl. rewrite Hx1. simpl.
  intros (t2' & Hput2 & [= <- <-])%bind_Ok.
  intros s r1 r2 k Hr1 Hr2 Hk.
  apply index_put_1_Ok_inv in Hput1 as (_ & _ & Hrows1).
  apply index_put_1_Ok_inv in Hput2 as (_ & _ & Hrows2).
  destruct (Hrows1 s r1 Hr1) as (row1 & xb & _ & Hxb & Hp1).
  destruct (Hrows2 s r2 Hr2) as (row2 & xb' & _ & Hxb' & Hp2).
  rewrite Hxb in Hxb'. injection Hxb' as <-.
  by eapply put_row_same.
Qed.
End reads.

(** ** Further properties of training *)

Section initial_weights.
Context {R : Type} `{Numeric R} `{Catalog R}.

Lemma round_initialised (g : Graph) (ts : nat) (ini : string)
    (m : gmap string (list nat)) (st st' : Construct.locals R) :
  loop_inv g ts st → initialised g ini st →
  Construct.round g ini m st = Ok st' → initialised g ini st'.
Proof.
  intros Hinv Hini Hround.
  pose proof (round_inv _ _ _ _ _ _ Hinv Hround) as (_ & _ & Hrange & _).
  apply round_Ok_inv in Hround
    as (tidx & f & surv & _ & _ & _ & _ & _ & _ & Htidx & _ & Hops).
  unfold initialised. destruct Hops as [(_ & op & Hinit & ->)|(_ & ->)]; [|done].
  apply Forall_app. split; [done|]. constructor; [|done].
  pose proof Hinit as (_ & _ & _ & _ & Hnodes & _)%init_Ok_inv.
  eexists _, _. rewrite Hnodes. split; [exact Hinit|]. simpl.
  intros n k Hk. rewrite <-Htidx in Hk. destruct (Hrange n k Hk). lia.
Qed.

Lemma init_weights (fuel : nat) (g : Graph) (ini : string) (m : Model.t R)
    (f : list (list nat) → list (list R)) :
  Model.init fuel g ini = Some (Ok m) → initialization_map ini = Some f →
  ∀ op r n j, op ∈ Model.ops m → Op.nodes op !! r = Some n →
              j < length (inputs (node g n)) →
    ∃ ws fs v, Op.weights op !! r = Some ws ∧
               f (Op.input_indices op) !! r = Some fs ∧
               fs !! j = Some v ∧ ws !! j = Some v.
Proof.
  unfold Model.init, Model.construct.
  destruct (Construct.loop _ _ _ _ _) as [[st'|e]|] eqn:Hloop; [|done..].
  destruct (loop_invariant
              (λ st, loop_inv g (length (input_nodes g ++ hidden_nodes g
                                          ++ output_nodes g) + 1) st ∧
                     initialised g ini st) g ini
              (Construct.id_node_map g
                 (Construct.remaining_nodes (Construct.entry (R:=R) g fresh_store))))
    with (fuel := fuel) (st := Construct.entry (R:=R) g fresh_store) (st' := st')
    as [[_ Hini] _]; [|split|done|].
  { intros st1 st2 [Hi Hp] Hround. split; [by eapply round_inv|].
    by eapply round_initialised. }
  { apply entry_inv. }
  { destruct (entry_state (R:=R) g) as (_ & _ & Hops & _).
    unfold initialised. by rewrite Hops. }
  destruct (mapM _ _) as [idx|e]; [|done]. simpl. intros [= <-] Hf. simpl.
  intros op r n j Hop Hn Hj. unfold initialised in Hini.
  rewrite Forall_forall in Hini.
  destruct (Hini op Hop) as (s0 & s1 & Hinit & Hpos).
  by eapply init_real_weights.
Qed.
End initial_weights.

Section training.
Context {R : Type} `{Numeric R} `{Catalog R}.
Variable target_rows : Tensor R → nat → nat → result (Tensor R).
Variable loss_value : LossFunction → Tensor R → Tensor R → result R.
Variable optimizer_step :
  Optimizer → nat → nat → Model.t R → Tensor R → Tensor R → list (Op.t R).

(** Past the checks. *)
Lemma fit_checked (m : Model.t R) (X_tr y_tr : Tensor R) (epochs batch_size n : nat)
    (o : Optimizer) :
  Model.optimizer m = Some o → shape X_tr = [n; Model.input_size m] →
  Fit.fit target_rows loss_value optimizer_step m X_tr y_tr epochs batch_size
  = if decide (batch_size = 0) then Fit.Failed Fit.ZeroDivisionError
    else match Fit.epochs_from target_rows loss_value optimizer_step
                 o X_tr y_tr batch_size (n / batch_size) (seq 0 epochs) m with
         | Fit.Done m' => Fit.Done (Model.set_tape m' None)
         | Fit.Failed f => Fit.Failed f
         end.
Proof.
  intros Ho Hx. unfold Fit.fit, Model.fit, Fit.len.
  rewrite Ho, Hx. simpl.
  destruct (decide (_ ≠ _)) as [Hne|_]; [by destruct Hne|]. done.
Qed.

Lemma fit_divides_by_zero (m : Model.t R) (X_tr y_tr : Tensor R)
    (epochs batch_size n : nat) (o : Optimizer) :
  Model.optimizer m = Some o → shape X_tr = [n; Model.input_size m] →
  batch_size = 0 ∨ (n < batch_size ∧ 0 < epochs) →
  Fit.fit target_rows loss_value optimizer_step m X_tr y_tr epochs batch_size
  = Fit.Failed Fit.ZeroDivisionError.
Proof.
  intros Ho Hx Hbs. rewrite (fit_checked _ _ _ _ _ n o Ho Hx).
  destruct (decide (batch_size = 0)) as [|Hne]; [done|].
  destruct Hbs as [|[Hlt He]]; [done|].
  rewrite Nat.div_small by done.
  destruct epochs as [|e]; [lia|]. simpl. done.
Qed.

Lemma select_rows_prefix (X X' : Tensor R) (n c k start stop : nat) :
  shape X = [n; c] → shape X' = [n; c] →
  take (k * c) (data X) = take (k * c) (data X') →
  start ≤ stop → stop ≤ k →
  Fit.select_rows X start stop = Fit.select_rows X' start stop.
Proof.
  intros Hx Hx' Hd Hss Hk. unfold Fit.select_rows. rewrite Hx, Hx'. simpl. f_equal.
  rewrite !take_drop_commute.
  replace (start * c + (stop - start) * c) with (stop * c) by nia.
  assert (∀ d : list R, take (stop * c) d = take (stop * c) (take (k * c) d)) as Ht.
  { intros d. rewrite take_take. f_equal. nia. }
  by rewrite (Ht (data X)), (Ht (data X')), Hd.
Qed.

(** The samples behind the last full batch are never looked at. *)
Lemma fit_remainder (m : Model.t R) (X_tr X_tr' y_tr : Tensor R)
    (epochs batch_size n c : nat) :
  shape X_tr = [n; c] → shape X_tr' = [n; c] →
  take (n / batch_size * batch_size * c) (data X_tr)
  = take (n / batch_size * batch_size * c) (data X_tr') →
  Fit.fit target_rows loss_value optimizer_step m X_tr y_tr epochs batch_size
  = Fit.fit target_rows loss_value optimizer_step m X_tr' y_tr epochs batch_size.
Proof.
  intros Hx Hx' Hd.
  assert (∀ o e b m1, b < n / batch_size →
            Fit.batch_step target_rows loss_value optimizer_step o X_tr y_tr batch_size e b m1
            = Fit.batch_step target_rows loss_value optimizer_step
                o X_tr' y_tr batch_size e b m1) as Hstep.
  { intros o e b m1 Hb. unfold Fit.batch_step, Fit.len.
    rewrite Hx, Hx'. simpl.
    assert ((b + 1) * batch_size ≤ n / batch_size * batch_size) as Hle by nia.
    pose proof (Nat.Div0.mul_div_le n batch_size) as Hdiv.
    rewrite (select_rows_prefix X_tr X_tr' n c (n / batch_size * batch_size)
               (b * batch_size) (Nat.min ((b + 1) * batch_size) n) Hx Hx' Hd);
      [done| |]; nia. }
  assert (∀ o e bs m1, Forall (λ b, b < n / batch_size) bs →
            Fit.batches target_rows loss_value optimizer_step o X_tr y_tr batch_size e bs m1
            = Fit.batches target_rows loss_value optimizer_step
                o X_tr' y_tr batch_size e bs m1) as Hbs.
  { intros o e bs. induction bs as [|b bs IH]; intros m1 Hall; [done|].
    apply Forall_cons in Hall as [Hb Hall]. simpl.
    fold (Fit.batch_step target_rows loss_value optimizer_step o X_tr y_tr batch_size e b m1).
    fold (Fit.batch_step target_rows loss_value optimizer_step
        o X_tr' y_tr batch_size e b m1).
    rewrite (Hstep o e b m1 Hb).
    destruct (Fit.batch_step target_rows loss_value optimizer_step
        o X_tr' y_tr batch_size e b m1); [|done]. by apply IH. }
  assert (∀ o es m1,
            Fit.epochs_from target_rows loss_value optimizer_step
                o X_tr y_tr batch_size (n / batch_size) es m1
            = Fit.epochs_from target_rows loss_value optimizer_step
                o X_tr' y_tr batch_size (n / batch_size) es m1) as Hes.
  { intros o es. induction es as [|e es IH]; intros m1; [done|].
    simpl.
    fold (Fit.batches target_rows loss_value optimizer_step
        o X_tr y_tr batch_size e (seq 0 (n / batch_size)) m1).
    fold (Fit.batches target_rows loss_value optimizer_step
        o X_tr' y_tr batch_size e (seq 0 (n / batch_size)) m1).
    rewrite Hbs.
    2:{ apply Forall_forall. intros b Hb%elem_of_seq. lia. }
    destruct (Fit.batches target_rows loss_value optimizer_step
        o X_tr' y_tr batch_size e _ m1); [|done].
    destruct (decide _); [done|]. apply IH. }
  unfold Fit.fit, Model.fit, Fit.len. rewrite Hx, Hx'. simpl.
  destruct (Model.optimizer m) as [o|]; [|done].
  destruct (decide (Some c ≠ _)); [done|].
  destruct (decide (batch_size = 0)); [done|].
  fold (Fit.epochs_from target_rows loss_value optimizer_step
      o X_tr y_tr batch_size (n / batch_size) (seq 0 epochs) m).
  fold (Fit.epochs_from target_rows loss_value optimizer_step
      o X_tr' y_tr batch_size (n / batch_size) (seq 0 epochs) m).
  by rewrite Hes.
Qed.

(** With no loss function set, the first batch ends in the call of
    [None]. *)
Lemma fit_without_loss (m m1 : Model.t R) (X_tr y_tr out t : Tensor R)
    (epochs batch_size n : nat) (o : Optimizer) :
  Model.optimizer m = Some o → Model.loss_function m = None →
  shape X_tr = [n; Model.input_size m] →
  0 < batch_size → batch_size ≤ n → 0 < epochs →
  Model.forward m (Fit.select_rows X_tr 0 batch_size) = Ok (out, m1) →
  target_rows y_tr 0 batch_size = Ok t →
  Fit.fit target_rows loss_value optimizer_step m X_tr y_tr epochs batch_size
  = Fit.Failed (Fit.Raised TypeError).
Proof.
  intros Ho Hl Hx Hbs Hn He Hfw Hy.
  rewrite (fit_checked _ _ _ _ _ n o Ho Hx).
  rewrite decide_False by lia.
  destruct epochs as [|e]; [lia|].
  assert (0 < n / batch_size) as Hnb by (apply Nat.div_str_pos; lia).
  destruct (n / batch_size) as [|nb] eqn:Hdiv; [lia|].
  simpl. unfold Fit.batch_step, Fit.len. rewrite Hx. simpl.
  replace (batch_size + 0) with batch_size by lia.
  rewrite Nat.min_l by done. rewrite Hfw, Hy.
  assert (shape (Fit.select_rows X_tr 0 batch_size)
          = [batch_size; Model.input_size m]) as Hsh.
  { unfold Fit.select_rows. rewrite Hx. simpl. by rewrite Nat.sub_0_r. }
  destruct (forward_steps _ _ _ _ _ _ Hsh Hfw) as (? & ? & ? & _ & _ & _ & -> & _).
  simpl. by rewrite Hl.
Qed.

(** When the optimizer's step, on the later states of [m0], replaces
    parameters by parameters of the same shape, the model
    [fit] returns is a later state of the model
    it was called on, without a cached tape. *)
Lemma fit_evolves (m0 m m' : Model.t R) (X_tr y_tr : Tensor R)
    (epochs batch_size : nat) :
  (∀ o e b m1 x y, evolves m0 m1 →
     Forall2 (λ op op', ∃ w bi, op' = Op.set_parameters op w bi ∧ shaped op')
             (Model.ops m1) (optimizer_step o e b m1 x y)) →
  evolves m0 m → Fit.fit target_rows loss_value optimizer_step m X_tr y_tr epochs batch_size
  = Fit.Done m' →
  evolves m0 m' ∧ Model.tape m' = None.
Proof.
  intros Hstep Hev.
  assert (∀ o e b m1 m2, evolves m0 m1 →
            Fit.batch_step target_rows loss_value optimizer_step o X_tr y_tr batch_size e b m1
            = Fit.Done m2 →
            evolves m0 m2) as Hb.
  { intros o e b m1 m2 Hev1. unfold Fit.batch_step.
    destruct (Model.forward m1 _) as [[out m1']|] eqn:Hfw; [|done].
    destruct (target_rows _ _ _) as [y|]; [|done].
    destruct (Model.loss_function m1') as [l|]; [|done].
    destruct (loss_value _ _ _); [|done]. intros [= <-].
    apply evolves_step; [by eapply evolves_forward|].
    apply Hstep. by eapply evolves_forward. }
  assert (∀ o e bs m1 m2, evolves m0 m1 →
            Fit.batches target_rows loss_value optimizer_step o X_tr y_tr batch_size e bs m1
            = Fit.Done m2 →
            evolves m0 m2) as Hbs.
  { intros o e bs. induction bs as [|b bs IH]; intros m1 m2 Hev1.
    { by intros [= <-]. }
    simpl.
    fold (Fit.batch_step target_rows loss_value optimizer_step o X_tr y_tr batch_size e b m1).
    destruct (Fit.batch_step target_rows loss_value optimizer_step
        o X_tr y_tr batch_size e b m1) as [m1'|] eqn:Hs; [|done].
    apply IH. by eapply Hb. }
  assert (∀ o nb es m1 m2, evolves m0 m1 →
            Fit.epochs_from target_rows loss_value optimizer_step
                o X_tr y_tr batch_size nb es m1
            = Fit.Done m2 →
            evolves m0 m2) as Hes.
  { intros o nb es. induction es as [|e es IH]; intros m1 m2 Hev1.
    { by intros [= <-]. }
    simpl.
    fold (Fit.batches target_rows loss_value optimizer_step
        o X_tr y_tr batch_size e (seq 0 nb) m1).
    destruct (Fit.batches target_rows loss_value optimizer_step
        o X_tr y_tr batch_size e (seq 0 nb) m1) as [m1'|] eqn:Hs;
      [|done].
    destruct (decide _); [done|]. apply IH. by eapply Hbs. }
  unfold Fit.fit.
  destruct (Model.fit _ _ _ _ _ _) as [[|] ?]; [|done].
  destruct (Model.optimizer m) as [o|]; [|done].
  destruct (decide _); [done|].
  fold (Fit.epochs_from target_rows loss_value optimizer_step
      o X_tr y_tr batch_size (Fit.len X_tr / batch_size) (seq 0 epochs) m).
  destruct (Fit.epochs_from target_rows loss_value optimizer_step
      o X_tr y_tr batch_size _ _ m) as [m1|] eqn:Hrun; [|done].
  intros [= <-]. split; [|done]. apply evolves_clear. by eapply Hes.
Qed.
End training.

(** ** Output order and the initialization name *)

Section output_order.
Context {R : Type} `{Numeric R} `{Catalog R}.

Lemma insert_by_ascending (key : nat → nat) (x : nat) (l : list nat) :
  ascending key l → ascending key (Construct.insert_by key x l).
Proof.
  induction l as [|y l IH]; simpl.
  { intros _. split; [|done]. by intros y ?%elem_of_nil. }
  intros [Hy Hl]. destruct (decide (key x ≤ key y)) as [Hle|Hgt]; simpl.
  - split; [|done]. intros z [->|Hz]%elem_of_cons; [done|].
    specialize (Hy z Hz). lia.
  - split; [|by apply IH]. intros z Hz. rewrite insert_by_perm in Hz.
    apply elem_of_cons in Hz as [->|Hz]; [lia|by apply Hy].
Qed.

Lemma sorted_ascending (key : nat → nat) (l : list nat) :
  ascending key (Construct.sorted key l).
Proof.
  unfold Construct.sorted. induction l as [|x l IH]; [done|].
  simpl. by apply insert_by_ascending.
Qed.

Lemma ascending_lookup (key : nat → nat) (l : list nat) (i j a b : nat) :
  ascending key l → i ≤ j → l !! i = Some a → l !! j = Some b → key a ≤ key b.
Proof.
  revert i j. induction l as [|x l IH]; intros i j Hasc Hij Hi Hj; [done|].
  destruct Hasc as [Hx Hl]. destruct i as [|i], j as [|j]; simpl in *.
  - by simplify_eq.
  - injection Hi as <-. apply Hx. by eapply list_elem_of_lookup_2.
  - lia.
  - eapply (IH i j); [done|lia|done..].
Qed.

(** [self.outputs] after [__init__]: the output nodes in ascending
    order of their [output_index], and [self.output_indices] their tape
    indices in that order. *)
Lemma init_outputs_sorted (fuel : nat) (g : Graph) (ini : string) (m : Model.t R) :
  Model.init fuel g ini = Some (Ok m) →
  Model.outputs m ≡ₚ output_nodes g ∧
  (∀ i j a b, i ≤ j → Model.outputs m !! i = Some a → Model.outputs m !! j = Some b →
              output_index (node g a) ≤ output_index (node g b)) ∧
  ∀ k o, Model.outputs m !! k = Some o →
         ∃ u, Model.output_indices m !! k = Some u ∧
              tape_index (Model.node_store m) !! o = Some u.
Proof.
  intros Hinit. pose proof (init_outputs _ _ _ _ Hinit) as Houts.
  revert Hinit. unfold Model.init, Model.construct.
  destruct (Construct.loop _ _ _ _ _) as [[st'|e]|]; [|done..].
  destruct (mapM _ _) as [idx|e] eqn:Hidx; [|done]. simpl. intros [= <-].
  simpl in *. split_and!.
  - apply sorted_perm.
  - intros i j a b Hij Hi Hj.
    by eapply (ascending_lookup (λ n, output_index (node g n)) _ i j);
      [apply sorted_ascending|..].
  - intros k o Ho.
    destruct (mapM_Ok_lookup_l _ _ _ _ _ Hidx Ho) as (u & Hu & Hk%tape_index_of_Ok).
    by exists u.
Qed.
End output_order.

Section initialization_name.
Context {R : Type} `{Numeric R} `{Catalog R}.

Lemma init_unknown_raise (g : Graph) (st : NodeStore) (ns : list nat) (ini : string) :
  initialization_map (R:=R) ini = None → ns ≠ [] →
  (∀ n, n ∈ ns → is_Some (tape_index st !! n)) →
  (∀ n p, n ∈ ns → p ∈ inputs (node g n) → is_Some (tape_index st !! p)) →
  Op.init (R:=R) g st ns ini = Raise (KeyError ini).
Proof.
  intros Hnone Hne Hns Hin.
  destruct (Op.init (R:=R) g st ns ini) as [[op st']|e] eqn:Hinit.
  - revert Hinit. unfold Op.init.
    intros (rows & _ & (outs & _ & Hinit)%bind_Ok)%bind_Ok.
    destruct (decide _); [done|]. by rewrite Hnone in Hinit.
  - destruct (init_Raise_inv g st ns ini e Hne Hns Hin Hinit)
      as [[-> _]|(_ & f & idx & Hf & _)]; [done|]. by rewrite Hnone in Hf.
Qed.

(** On a graph without grouping tags, a name the initialization catalog
    lacks is met in the first round that has a candidate. *)
Lemma init_unknown_initialization (fuel : nat) (g : Graph) (ini : string) :
  untagged g → initialization_map (R:=R) ini = None →
  (∃ n, n ∈ hidden_nodes g ++ output_nodes g ∧
        ∀ p, p ∈ inputs (node g n) → p ∈ input_nodes g) →
  Model.init (R:=R) (S fuel) g ini = Some (Raise (KeyError ini)).
Proof.
  intros Hunt Hnone (n0 & Hn0 & Hin0). unfold Model.init, Model.construct.
  destruct (entry_state (R:=R) g) as (Hrem & Hfails & _ & _ & Hasg).
  rewrite (loop_raise fuel _ _ _ _ (KeyError ini)); [done| |].
  { rewrite Hrem. intros Hnil. rewrite Hnil in Hn0. by apply elem_of_nil in Hn0. }
  unfold Construct.round.
  destruct (Construct.scan _ _ _ _ _ _) as [[tidx i1] cand] eqn:Hscan.
  apply scan_spec in Hscan as (Hcand & -> & _ & Hnew & Hold). simpl in Hcand.
  rewrite <-Hcand in Hnew |- *.
  assert (∀ n, n ∈ cand →
            n ∈ hidden_nodes g ++ output_nodes g ∧
            ∀ p, p ∈ inputs (node g n) → p ∈ input_nodes g) as Hc.
  { intros n Hn. rewrite Hcand, Hrem, Hasg in Hn.
    apply list_elem_of_filter in Hn as [He Hn]. split; [done|].
    intros p Hp. unfold Construct.eligible in He. apply forallb_True in He.
    rewrite Forall_forall in He. apply He, bool_decide_spec in Hp.
    by apply elem_of_list_to_set in Hp. }
  assert (n0 ∈ cand) as Hn0c.
  { rewrite Hcand, Hrem, Hasg. apply list_elem_of_filter. split; [|done].
    unfold Construct.eligible. apply forallb_True, Forall_forall.
    intros p Hp. apply bool_decide_spec, elem_of_list_to_set. by apply Hin0. }
  rewrite check_untagged by (intros n [Hn _]%Hc; by apply Hunt).
  destruct cand as [|c cand'] eqn:Hcd; [by apply elem_of_nil in Hn0c|].
  rewrite <-Hcd in *. simpl.
  destruct (remove_all_total cand
              (Construct.remaining_nodes (Construct.entry (R:=R) g fresh_store)))
    as [remaining ->].
  { rewrite Hcand. apply sublist_submseteq, sublist_filter. }
  simpl. destruct (decide (cand ≠ [])) as [Hne|Hemp]; [|destruct Hemp; by rewrite Hcd].
  rewrite init_unknown_raise; [done|done|done| |]; simpl.
  - intros n Hn. by apply Hnew.
  - intros n p [_ Hn]%Hc Hp. apply Hold.
    pose proof (index_inputs_spec (input_nodes g) fresh_store 1) as Hii.
    unfold Construct.entry.
    destruct (Construct.index_inputs (input_nodes g) fresh_store 1) as [st1 i1].
    destruct (Hii st1 i1 eq_refl) as (_ & _ & _ & Hidx & _). simpl. by apply Hidx, Hn.
Qed.
End initialization_name.

(** * Further properties *)

(** ** [Model.construct] *)

(** Property X1. Whenever [Model.__init__] returns a model, on any graph,
    the node lists of its operations together hold every hidden and output
    node exactly as often as the graph lists it, and no operation is
    empty. *)
Theorem construct_covers_nodes {R : Type} `{Numeric R} `{Catalog R}
    (fuel : nat) (g : Graph) (ini : string) (m : Model.t R) :
  Model.init fuel g ini = Some (Ok m) →
  mjoin (Op.nodes <$> Model.ops m) ≡ₚ hidden_nodes g ++ output_nodes g ∧
  Forall (λ op, Op.nodes op ≠ []) (Model.ops m).
Proof.
  intros Hinit. destruct (init_partitioned _ _ _ _ Hinit) as (Hperm & Hne & _).
  by split.
Qed.

Lemma construct_covers_nodes_witness :
  Model.init 2 split_graph "he" = Some (Ok split_model) ∧
  mjoin (Op.nodes <$> Model.ops split_model)
    ≡ₚ hidden_nodes split_graph ++ output_nodes split_graph ∧
  Forall (λ op, Op.nodes op ≠ []) (Model.ops split_model).
Proof.
  split; [vm_compute; reflexivity|].
  apply (construct_covers_nodes 2 split_graph "he" split_model).
  vm_compute; reflexivity.
Defined.

(** Property X2. Whenever [Model.__init__] returns a model, on any graph,
    its operations are in dependency order: every node of an operation
    reads input nodes and nodes of earlier operations only. *)
Theorem construct_dependency_order {R : Type} `{Numeric R} `{Catalog R}
    (fuel : nat) (g : Graph) (ini : string) (m : Model.t R) :
  Model.init fuel g ini = Some (Ok m) →
  ∀ k op n p, Model.ops m !! k = Some op → n ∈ Op.nodes op →
              p ∈ inputs (node g n) →
              p ∈ input_nodes g ∨ p ∈ mjoin (Op.nodes <$> take k (Model.ops m)).
Proof.
  intros Hinit. by destruct (init_partitioned _ _ _ _ Hinit) as (_ & _ & Hdep).
Qed.

Lemma construct_dependency_order_witness :
  Model.init 2 reuse_graph "he" = Some (Ok reuse_model) ∧
  ∀ k op n p, Model.ops reuse_model !! k = Some op → n ∈ Op.nodes op →
              p ∈ inputs (node reuse_graph n) →
              p ∈ input_nodes reuse_graph ∨
              p ∈ mjoin (Op.nodes <$> take k (Model.ops reuse_model)).
Proof.
  split; [vm_compute; reflexivity|].
  apply (construct_dependency_order 2 reuse_graph "he" reuse_model).
  vm_compute; reflexivity.
Defined.

(** Property X3. [Model.__init__] ends with an exception in three ways
    only: with [UnboundLocalError] for the local name [fails], and then no
    hidden or output node reads input nodes only; with [KeyError] for an
    initialization name the catalog lacks; or with [IndexError] when the
    initialization returns weights of another shape than the index tensor.
    It never fails on [id_node_map], on [remaining_nodes.remove], on a
    missing tape index or on an empty operation. *)
Theorem construct_exceptions {R : Type} `{Numeric R} `{Catalog R}
    (fuel : nat) (g : Graph) (ini : string) (e : exn) :
  Model.init (R:=R) fuel g ini = Some (Raise e) →
  (e = UnboundLocalError "fails" ∧
   ∀ n, n ∈ hidden_nodes g ++ output_nodes g →
        ∃ p, p ∈ inputs (node g n) ∧ p ∉ input_nodes g) ∨
  (e = KeyError ini ∧ initialization_map (R:=R) ini = None) ∨
  (e = IndexError ∧
   ∃ f idx, initialization_map (R:=R) ini = Some f ∧ length <$> f idx ≠ length <$> idx).
Proof. apply init_Raise_inv_model. Qed.

Lemma construct_exceptions_witness :
  Model.init (R:=Z) 1 chain_graph "xavier" = Some (Raise (KeyError "xavier")) ∧
  ((KeyError "xavier" = UnboundLocalError "fails" ∧
    ∀ n, n ∈ hidden_nodes chain_graph ++ output_nodes chain_graph →
         ∃ p, p ∈ inputs (node chain_graph n) ∧ p ∉ input_nodes chain_graph) ∨
   (KeyError "xavier" = KeyError "xavier" ∧ initialization_map (R:=Z) "xavier" = None) ∨
   (KeyError "xavier" = IndexError ∧
    ∃ f idx, initialization_map (R:=Z) "xavier" = Some f ∧
             length <$> f idx ≠ length <$> idx)).
Proof.
  split; [vm_compute; reflexivity|].
  apply (construct_exceptions 1 chain_graph "xavier" (KeyError "xavier")).
  vm_compute; reflexivity.
Defined.

(** Property X4. When the graph has hidden or output nodes and every one
    of them reads some node that is not an input node, the first round has
    no candidate and [Model.__init__] raises [UnboundLocalError]: [fails]
    is read in line 187 before any iteration of the loop of line 180 has
    bound it. *)
Theorem construct_unbound_fails {R : Type} `{Numeric R} `{Catalog R}
    (fuel : nat) (g : Graph) (ini : string) :
  hidden_nodes g ++ output_nodes g ≠ [] →
  (∀ n, n ∈ hidden_nodes g ++ output_nodes g →
        ∃ p, p ∈ inputs (node g n) ∧ p ∉ input_nodes g) →
  Model.init (R:=R) (S fuel) g ini = Some (Raise (UnboundLocalError "fails")).
Proof. apply init_unbound. Qed.

Lemma construct_unbound_fails_witness :
  hidden_nodes cycle_graph ++ output_nodes cycle_graph ≠ [] ∧
  (∀ n, n ∈ hidden_nodes cycle_graph ++ output_nodes cycle_graph →
        ∃ p, p ∈ inputs (node cycle_graph n) ∧ p ∉ input_nodes cycle_graph) ∧
  Model.init (R:=Z) 1 cycle_graph "he" = Some (Raise (UnboundLocalError "fails")).
Proof.
  assert (∀ n, n ∈ hidden_nodes cycle_graph ++ output_nodes cycle_graph →
               ∃ p, p ∈ inputs (node cycle_graph n) ∧ p ∉ input_nodes cycle_graph) as Hc.
  { intros n ->%list_elem_of_singleton. exists 1. split; [by left|].
    by intros ?%list_elem_of_singleton. }
  split; [done|]. split; [exact Hc|].
  by apply (construct_unbound_fails 0 cycle_graph "he").
Defined.

(** Property X5. On a graph with a dependency cycle among hidden and
    output nodes [Model.__init__] never returns a model. With an
    initialization the catalog knows, it either raises
    [UnboundLocalError] in the first round, and then no hidden or output
    node reads input nodes only, or the loop of [construct] is still
    running after any number of rounds; so it runs for ever when some
    hidden or output node reads input nodes only. *)
Theorem construct_cycle_outcome {R : Type} `{Numeric R} `{Catalog R}
    (g : Graph) (ini : string) :
  cyclic g →
  (∀ fuel (m : Model.t R), Model.init fuel g ini ≠ Some (Ok m)) ∧
  (initialization_known (R:=R) ini →
   (∀ fuel,
      Model.init (R:=R) fuel g ini = None ∨
      (Model.init (R:=R) fuel g ini = Some (Raise (UnboundLocalError "fails")) ∧
       ∀ n, n ∈ hidden_nodes g ++ output_nodes g →
            ∃ p, p ∈ inputs (node g n) ∧ p ∉ input_nodes g)) ∧
   ((∃ n, n ∈ hidden_nodes g ++ output_nodes g ∧
          ∀ p, p ∈ inputs (node g n) → p ∈ input_nodes g) →
    ∀ fuel, Model.init (R:=R) fuel g ini = None)).
Proof.
  intros Hcyc. split; [intros fuel m; by apply cyclic_never_compiles|].
  intros Hini. split; [intros fuel; by apply cyclic_outcome|].
  intros (n & Hn & Hin) fuel.
  destruct (cyclic_outcome fuel g ini Hcyc Hini) as [Hnone|[_ Hall]]; [done|].
  destruct (Hall n Hn) as (p & Hp & Hnp). destruct Hnp. by apply Hin.
Qed.

Lemma lasso_graph_cyclic : cyclic lasso_graph.
Proof.
  exists [2]. split; [done|]. intros n ->%list_elem_of_singleton.
  split_and!; [right; by left|by intros ?%list_elem_of_singleton|].
  exists 2. split; by left.
Qed.

Lemma construct_cycle_outcome_witness :
  cyclic lasso_graph ∧
  (∀ fuel (m : Model.t Z), Model.init fuel lasso_graph "he" ≠ Some (Ok m)) ∧
  (initialization_known (R:=Z) "he" →
   (∀ fuel,
      Model.init (R:=Z) fuel lasso_graph "he" = None ∨
      (Model.init (R:=Z) fuel lasso_graph "he"
       = Some (Raise (UnboundLocalError "fails")) ∧
       ∀ n, n ∈ hidden_nodes lasso_graph ++ output_nodes lasso_graph →
            ∃ p, p ∈ inputs (node lasso_graph n) ∧ p ∉ input_nodes lasso_graph)) ∧
   ((∃ n, n ∈ hidden_nodes lasso_graph ++ output_nodes lasso_graph ∧
          ∀ p, p ∈ inputs (node lasso_graph n) → p ∈ input_nodes lasso_graph) →
    ∀ fuel, Model.init (R:=Z) fuel lasso_graph "he" = None)).
Proof.
  split; [exact lasso_graph_cyclic|].
  apply (construct_cycle_outcome lasso_graph "he"). exact lasso_graph_cyclic.
Defined.

(** Property X6. Whenever [Model.__init__] returns a model, on any graph,
    every output index of every operation lies behind the input slice of
    the tape and on the tape: no operation writes position 0 or a position
    of an input. *)
Theorem construct_writes_past_inputs {R : Type} `{Numeric R} `{Catalog R}
    (fuel : nat) (g : Graph) (ini : string) (m : Model.t R) :
  Model.init fuel g ini = Some (Ok m) →
  ∀ op k, op ∈ Model.ops m → k ∈ Op.output_indices op →
          Model.input_size m + 1 ≤ k < Model.tape_size m.
Proof.
  intros Hinit op k Hop Hk. pose proof (init_past_inputs _ _ _ _ Hinit) as Hpast.
  rewrite Forall_forall in Hpast. by apply (Hpast op Hop).
Qed.

Lemma construct_writes_past_inputs_witness :
  Model.init 2 reuse_graph "he" = Some (Ok reuse_model) ∧
  ∀ op k, op ∈ Model.ops reuse_model → k ∈ Op.output_indices op →
          Model.input_size reuse_model + 1 ≤ k < Model.tape_size reuse_model.
Proof.
  split; [vm_compute; reflexivity|].
  apply (construct_writes_past_inputs 2 reuse_graph "he" reuse_model).
  vm_compute; reflexivity.
Defined.

(** ** Graphs without grouping tags *)

(** Property X7. On a graph without grouping tags that lists no node
    twice, the output indices of the operations, taken in order, are the
    tape positions [input_size + 1, input_size + 2, ...]: every position
    behind the inputs is written by exactly one node, and later operations
    write higher positions. *)
Theorem untagged_tape_layout {R : Type} `{Numeric R} `{Catalog R}
    (fuel : nat) (g : Graph) (ini : string) (m : Model.t R) :
  untagged g → NoDup (input_nodes g ++ hidden_nodes g ++ output_nodes g) →
  Model.init fuel g ini = Some (Ok m) →
  mjoin (Op.output_indices <$> Model.ops m)
  = seq (1 + length (input_nodes g)) (length (hidden_nodes g ++ output_nodes g)).
Proof. apply init_filled. Qed.

Lemma chain_graph_NoDup :
  NoDup (input_nodes chain_graph ++ hidden_nodes chain_graph ++ output_nodes chain_graph).
Proof. simpl. apply (bool_decide_unpack _). by vm_compute. Qed.

Lemma untagged_tape_layout_witness :
  untagged chain_graph ∧
  NoDup (input_nodes chain_graph ++ hidden_nodes chain_graph ++ output_nodes chain_graph) ∧
  Model.init 3 chain_graph "he" = Some (Ok chain_model) ∧
  mjoin (Op.output_indices <$> Model.ops chain_model)
  = seq (1 + length (input_nodes chain_graph))
        (length (hidden_nodes chain_graph ++ output_nodes chain_graph)).
Proof.
  split; [exact chain_graph_untagged|]. split; [exact chain_graph_NoDup|].
  split; [vm_compute; reflexivity|].
  apply (untagged_tape_layout 3 chain_graph "he" chain_model).
  - exact chain_graph_untagged.
  - exact chain_graph_NoDup.
  - vm_compute; reflexivity.
Defined.

(** Property X8. On a graph without grouping tags that lists no node
    twice, the model [Model.__init__] returns gives every node a tape
    index, no two nodes the same one, and every hidden and output node an
    index above the index of every node it reads. *)
Theorem untagged_indices_ordered {R : Type} `{Numeric R} `{Catalog R}
    (fuel : nat) (g : Graph) (ini : string) (m : Model.t R) :
  untagged g → NoDup (input_nodes g ++ hidden_nodes g ++ output_nodes g) →
  Model.init fuel g ini = Some (Ok m) →
  (∀ n, n ∈ input_nodes g ++ hidden_nodes g ++ output_nodes g →
        is_Some (tape_index (Model.node_store m) !! n)) ∧
  (∀ n n' k, n ∈ input_nodes g ++ hidden_nodes g ++ output_nodes g →
             n' ∈ input_nodes g ++ hidden_nodes g ++ output_nodes g →
             tape_index (Model.node_store m) !! n = Some k →
             tape_index (Model.node_store m) !! n' = Some k → n = n') ∧
  (∀ n p, n ∈ hidden_nodes g ++ output_nodes g → p ∈ inputs (node g n) →
          ∃ kp kn, tape_index (Model.node_store m) !! p = Some kp ∧
                   tape_index (Model.node_store m) !! n = Some kn ∧ kp < kn).
Proof.
  intros Hunt Hnd Hinit.
  destruct (untagged_order _ _ _ _ Hunt Hnd Hinit) as (H1 & H2 & H3 & _). done.
Qed.

Lemma untagged_indices_ordered_witness :
  untagged chain_graph ∧
  NoDup (input_nodes chain_graph ++ hidden_nodes chain_graph ++ output_nodes chain_graph) ∧
  Model.init 3 chain_graph "he" = Some (Ok chain_model) ∧
  (∀ n, n ∈ input_nodes chain_graph ++ hidden_nodes chain_graph
            ++ output_nodes chain_graph →
        is_Some (tape_index (Model.node_store chain_model) !! n)) ∧
  (∀ n n' k, n ∈ input_nodes chain_graph ++ hidden_nodes chain_graph
                 ++ output_nodes chain_graph →
             n' ∈ input_nodes chain_graph ++ hidden_nodes chain_graph
                  ++ output_nodes chain_graph →
             tape_index (Model.node_store chain_model) !! n = Some k →
             tape_index (Model.node_store chain_model) !! n' = Some k → n = n') ∧
  (∀ n p, n ∈ hidden_nodes chain_graph ++ output_nodes chain_graph →
          p ∈ inputs (node chain_graph n) →
          ∃ kp kn, tape_index (Model.node_store chain_model) !! p = Some kp ∧
                   tape_index (Model.node_store chain_model) !! n = Some kn ∧ kp < kn).
Proof.
  split; [exact chain_graph_untagged|]. split; [exact chain_graph_NoDup|].
  split; [vm_compute; reflexivity|].
  apply (untagged_indices_ordered 3 chain_graph "he" chain_model).
  - exact chain_graph_untagged.
  - exact chain_graph_NoDup.
  - vm_compute; reflexivity.
Defined.

(** Property X9. On an acyclic graph without grouping tags that lists no
    node twice, with an initialization the catalog knows, the loop of
    [construct] ends and [Model.__init__] returns a model, after at most
    as many rounds as the graph has hidden and output nodes. *)
Theorem untagged_construct_terminates {R : Type} `{Numeric R} `{Catalog R}
    (g : Graph) (ini : string) :
  untagged g → schedulable g →
  NoDup (input_nodes g ++ hidden_nodes g ++ output_nodes g) →
  initialization_known (R:=R) ini →
  ∃ m : Model.t R,
    Model.init (length (hidden_nodes g ++ output_nodes g)) g ini = Some (Ok m).
Proof. apply untagged_terminates. Qed.

Lemma untagged_construct_terminates_witness :
  untagged chain_graph ∧ schedulable chain_graph ∧
  NoDup (input_nodes chain_graph ++ hidden_nodes chain_graph ++ output_nodes chain_graph) ∧
  initialization_known (R:=Z) "he" ∧
  ∃ m : Model.t Z,
    Model.init (length (hidden_nodes chain_graph ++ output_nodes chain_graph))
      chain_graph "he" = Some (Ok m).
Proof.
  split; [exact chain_graph_untagged|]. split; [exact chain_graph_schedulable|].
  split; [exact chain_graph_NoDup|]. split; [exact he_known|].
  apply (untagged_construct_terminates chain_graph "he").
  - exact chain_graph_untagged.
  - exact chain_graph_schedulable.
  - exact chain_graph_NoDup.
  - exact he_known.
Defined.

(** Property X10. After [Model.__init__], [self.outputs] holds the output
    nodes of the graph in ascending order of their [output_index], and
    [self.output_indices] holds, position by position, their tape
    indices. *)
Theorem outputs_sorted_by_index {R : Type} `{Numeric R} `{Catalog R}
    (fuel : nat) (g : Graph) (ini : string) (m : Model.t R) :
  Model.init fuel g ini = Some (Ok m) →
  Model.outputs m ≡ₚ output_nodes g ∧
  (∀ i j a b, i ≤ j → Model.outputs m !! i = Some a → Model.outputs m !! j = Some b →
              output_index (node g a) ≤ output_index (node g b)) ∧
  ∀ k o, Model.outputs m !! k = Some o →
         ∃ u, Model.output_indices m !! k = Some u ∧
              tape_index (Model.node_store m) !! o = Some u.
Proof. apply init_outputs_sorted. Qed.

Lemma outputs_sorted_by_index_witness :
  Model.init 1 two_outputs "he" = Some (Ok two_model) ∧
  Model.outputs two_model ≡ₚ output_nodes two_outputs ∧
  (∀ i j a b, i ≤ j → Model.outputs two_model !! i = Some a →
              Model.outputs two_model !! j = Some b →
              output_index (node two_outputs a) ≤ output_index (node two_outputs b)) ∧
  ∀ k o, Model.outputs two_model !! k = Some o →
         ∃ u, Model.output_indices two_model !! k = Some u ∧
              tape_index (Model.node_store two_model) !! o = Some u.
Proof.
  split; [vm_compute; reflexivity|].
  apply (outputs_sorted_by_index 1 two_outputs "he" two_model).
  vm_compute; reflexivity.
Defined.

(** Property X11. On a graph without grouping tags in which some hidden
    or output node reads input nodes only, an initialization name the
    catalog lacks makes [Model.__init__] raise [KeyError] for that name, in
    the first round. *)
Theorem construct_unknown_initialization {R : Type} `{Numeric R} `{Catalog R}
    (fuel : nat) (g : Graph) (ini : string) :
  untagged g → initialization_map (R:=R) ini = None →
  (∃ n, n ∈ hidden_nodes g ++ output_nodes g ∧
        ∀ p, p ∈ inputs (node g n) → p ∈ input_nodes g) →
  Model.init (R:=R) (S fuel) g ini = Some (Raise (KeyError ini)).
Proof. apply init_unknown_initialization. Qed.

Lemma construct_unknown_initialization_witness :
  untagged chain_graph ∧ initialization_map (R:=Z) "xavier" = None ∧
  (∃ n, n ∈ hidden_nodes chain_graph ++ output_nodes chain_graph ∧
        ∀ p, p ∈ inputs (node chain_graph n) → p ∈ input_nodes chain_graph) ∧
  Model.init (R:=Z) 1 chain_graph "xavier" = Some (Raise (KeyError "xavier")).
Proof.
  assert (∃ n, n ∈ hidden_nodes chain_graph ++ output_nodes chain_graph ∧
               ∀ p, p ∈ inputs (node chain_graph n) → p ∈ input_nodes chain_graph)
    as Hready.
  { exists 1. split; [right; by left|]. intros p Hp. simpl in Hp. exact Hp. }
  split; [exact chain_graph_untagged|]. split; [reflexivity|]. split; [exact Hready|].
  apply (construct_unknown_initialization 0 chain_graph "xavier").
  - exact chain_graph_untagged.
  - reflexivity.
  - exact Hready.
Defined.

(** ** [Op.__init__] and [Op.forward] *)

(** Property X12. In every operation of the model [Model.__init__]
    returns, the weight of every real input slot, slot [j] of row [r] for
    [j] below the number of inputs of the row's node, is the value the
    initialization gave; the mask of line 56 sets padded slots to zero and
    no others. *)
Theorem init_keeps_initial_weights {R : Type} `{Numeric R} `{Catalog R}
    (fuel : nat) (g : Graph) (ini : string) (m : Model.t R)
    (f : list (list nat) → list (list R)) :
  Model.init fuel g ini = Some (Ok m) → initialization_map ini = Some f →
  ∀ op r n j, op ∈ Model.ops m → Op.nodes op !! r = Some n →
              j < length (inputs (node g n)) →
    ∃ ws fs v, Op.weights op !! r = Some ws ∧
               f (Op.input_indices op) !! r = Some fs ∧
               fs !! j = Some v ∧ ws !! j = Some v.
Proof. apply init_weights. Qed.

Lemma init_keeps_initial_weights_witness :
  Model.init 3 chain_graph "he" = Some (Ok chain_model) ∧
  initialization_map "he" = Some he ∧
  ∀ op r n j, op ∈ Model.ops chain_model → Op.nodes op !! r = Some n →
              j < length (inputs (node chain_graph n)) →
    ∃ ws fs v, Op.weights op !! r = Some ws ∧
               he (Op.input_indices op) !! r = Some fs ∧
               fs !! j = Some v ∧ ws !! j = Some v.
Proof.
  split; [vm_compute; reflexivity|]. split; [reflexivity|].
  apply (init_keeps_initial_weights 3 chain_graph "he" chain_model he).
  - vm_compute; reflexivity.
  - reflexivity.
Defined.

Lemma Z_catalog_has (a : string) : a = "relu" ∨ a = "linear" → catalog_has act a.
Proof.
  intros Ha. eexists. split; [|by intros t]. simpl. by rewrite decide_True.
Qed.

(** Property X13. [Op.__init__] accepts any activation name; a name the
    catalog lacks is met in [Op.forward]. For an operation built by
    [Op.__init__], with any parameters of the right shape, on a tape long
    enough for its input indices: when the catalog lacks the activation of
    some node of the operation, while the activations it has are applied
    entrywise, [forward] raises [KeyError] for the activation of such a
    node. *)
Theorem forward_unknown_activation {R : Type} `{Numeric R} `{Catalog R}
    (φ : string → R → R) (g : Graph) (st st' : NodeStore) (ns : list nat)
    (ini : string) (op : Op.t R) (w : list (list R)) (b : list R)
    (tape : list (list R)) :
  Op.init g st ns ini = Ok (op, st') →
  shaped (Op.set_parameters op w b) →
  (∀ n, n ∈ ns → catalog_has φ (activation (node g n)) ∨
                 activation_map (R:=R) (activation (node g n)) = None) →
  (∃ n, n ∈ ns ∧ activation_map (R:=R) (activation (node g n)) = None) →
  (∀ row u, row ∈ tape → u ∈ mjoin (Op.input_indices op) → u < length row) →
  ∃ n, n ∈ ns ∧ activation_map (R:=R) (activation (node g n)) = None ∧
       Op.forward (Op.set_parameters op w b) tape
       = Raise (KeyError (activation (node g n))).
Proof.
  intros Hinit Hsh Hacts (n0 & Hn0 & Hnone) Hin.
  apply init_Ok_inv in Hinit as (_ & _ & _ & _ & _ & _ & _ & Hst & _).
  destruct (forward_unknown φ ((λ n, activation (node g n)) <$> ns)
              (Op.set_parameters op w b) tape) as (a & Ha & Hna & Hfw).
  - by apply structured_set_parameters.
  - done.
  - intros a (n & -> & Hn)%list_elem_of_fmap. by apply Hacts.
  - exists (activation (node g n0)). split; [|done].
    by apply (list_elem_of_fmap_2 (λ n, activation (node g n))).
  - done.
  - apply list_elem_of_fmap in Ha as (n & -> & Hn). by exists n.
Qed.

Lemma forward_unknown_activation_witness :
  Op.init tanh_graph tanh_store [1; 2] "he" = Ok (tanh_op, Model.node_store tanh_model) ∧
  shaped (Op.set_parameters tanh_op [[2]; [3]]%Z [0; 1]%Z) ∧
  (∀ n, n ∈ [1; 2] → catalog_has act (activation (node tanh_graph n)) ∨
                     activation_map (R:=Z) (activation (node tanh_graph n)) = None) ∧
  (∃ n, n ∈ [1; 2] ∧ activation_map (R:=Z) (activation (node tanh_graph n)) = None) ∧
  (∀ row u, row ∈ [[0; 7; 0; 0]]%Z → u ∈ mjoin (Op.input_indices tanh_op) →
            u < length row) ∧
  ∃ n, n ∈ [1; 2] ∧ activation_map (R:=Z) (activation (node tanh_graph n)) = None ∧
       Op.forward (Op.set_parameters tanh_op [[2]; [3]]%Z [0; 1]%Z) [[0; 7; 0; 0]]%Z
       = Raise (KeyError (activation (node tanh_graph n))).
Proof.
  assert (∀ n, n ∈ [1; 2] → catalog_has act (activation (node tanh_graph n)) ∨
            activation_map (R:=Z) (activation (node tanh_graph n)) = None) as Hacts.
  { intros n [->|[->|[]%elem_of_nil]%elem_of_cons]%elem_of_cons.
    - left. apply Z_catalog_has. by left.
    - by right. }
  assert (∃ n, n ∈ [1; 2] ∧
               activation_map (R:=Z) (activation (node tanh_graph n)) = None) as Hmiss.
  { exists 2. split; [right; by left|reflexivity]. }
  assert (∀ row u, row ∈ [[0; 7; 0; 0]]%Z → u ∈ mjoin (Op.input_indices tanh_op) →
                   u < length row) as Hin.
  { intros row u ->%list_elem_of_singleton Hu.
    assert (mjoin (Op.input_indices tanh_op) = [1; 1]) as Hi by (vm_compute; reflexivity).
    rewrite Hi in Hu. simpl.
    repeat (apply elem_of_cons in Hu as [->|Hu]; [lia|]). by apply elem_of_nil in Hu. }
  split; [vm_compute; reflexivity|]. split; [split; reflexivity|].
  split; [exact Hacts|]. split; [exact Hmiss|]. split; [exact Hin|].
  apply (forward_unknown_activation act tanh_graph tanh_store
           (Model.node_store tanh_model) [1; 2] "he" tanh_op).
  - vm_compute; reflexivity.
  - split; reflexivity.
  - exact Hacts.
  - exact Hmiss.
  - exact Hin.
Defined.

(** Property X14. What [Op.forward] writes depends on the tape only
    through the positions listed in the operation's input indices: for an
    operation built by [Op.__init__], with any parameters, two tapes that
    agree on these positions get the same values at the operation's output
    indices. *)
Theorem forward_reads_input_positions {R : Type} `{Numeric R} `{Catalog R}
    (g : Graph) (st st' : NodeStore) (ns : list nat) (ini : string)
    (op o1 o2 : Op.t R) (w : list (list R)) (b : list R)
    (tape1 tape2 t1 t2 : list (list R)) :
  Op.init g st ns ini = Ok (op, st') →
  length tape1 = length tape2 →
  (∀ s row1 row2 u, tape1 !! s = Some row1 → tape2 !! s = Some row2 →
                    u ∈ mjoin (Op.input_indices op) → row1 !! u = row2 !! u) →
  Op.forward (Op.set_parameters op w b) tape1 = Ok (t1, o1) →
  Op.forward (Op.set_parameters op w b) tape2 = Ok (t2, o2) →
  ∀ s r1 r2 k, t1 !! s = Some r1 → t2 !! s = Some r2 →
               k ∈ Op.output_indices op → r1 !! k = r2 !! k.
Proof.
  intros Hinit Hlen Hext Hf1 Hf2.
  apply init_Ok_inv in Hinit as (_ & _ & _ & _ & _ & _ & _ & Hst & _).
  apply (forward_reads _ (Op.set_parameters op w b) o1 o2 tape1 tape2 t1 t2
           (structured_set_parameters _ op w b Hst) Hlen Hext Hf1 Hf2).
Qed.

Lemma forward_reads_input_positions_witness :
  Op.init two_outputs two_store [2; 3] "he" = Ok (two_op, Model.node_store two_model) ∧
  length [[0; 3; 4; 0; 0]]%Z = length [[0; 3; 4; 8; 9]]%Z ∧
  (∀ s row1 row2 u, [[0; 3; 4; 0; 0]]%Z !! s = Some row1 →
                    [[0; 3; 4; 8; 9]]%Z !! s = Some row2 →
                    u ∈ mjoin (Op.input_indices two_op) → row1 !! u = row2 !! u) ∧
  Op.forward (Op.set_parameters two_op [[5; -1]; [2; 0]]%Z [1; -3]%Z) [[0; 3; 4; 0; 0]]%Z
  = Ok (op_pass (Op.set_parameters two_op [[5; -1]; [2; 0]]%Z [1; -3]%Z)
          [[0; 3; 4; 0; 0]]%Z,
        Op.set_parameters two_op [[5; -1]; [2; 0]]%Z [1; -3]%Z) ∧
  Op.forward (Op.set_parameters two_op [[5; -1]; [2; 0]]%Z [1; -3]%Z) [[0; 3; 4; 8; 9]]%Z
  = Ok (op_pass (Op.set_parameters two_op [[5; -1]; [2; 0]]%Z [1; -3]%Z)
          [[0; 3; 4; 8; 9]]%Z,
        Op.set_parameters two_op [[5; -1]; [2; 0]]%Z [1; -3]%Z) ∧
  ∀ s r1 r2 k,
    op_pass (Op.set_parameters two_op [[5; -1]; [2; 0]]%Z [1; -3]%Z)
      [[0; 3; 4; 0; 0]]%Z !! s = Some r1 →
    op_pass (Op.set_parameters two_op [[5; -1]; [2; 0]]%Z [1; -3]%Z)
      [[0; 3; 4; 8; 9]]%Z !! s = Some r2 →
    k ∈ Op.output_indices two_op → r1 !! k = r2 !! k.
Proof.
  assert (∀ s row1 row2 u, [[0; 3; 4; 0; 0]]%Z !! s = Some row1 →
            [[0; 3; 4; 8; 9]]%Z !! s = Some row2 →
            u ∈ mjoin (Op.input_indices two_op) → row1 !! u = row2 !! u) as Hext.
  { intros [|s] row1 row2 u; [|done]. simpl. intros [= <-] [= <-] Hu.
    assert (mjoin (Op.input_indices two_op) = [1; 2; 2; 0]) as Hi
      by (vm_compute; reflexivity).
    rewrite Hi in Hu.
    repeat (apply elem_of_cons in Hu as [->|Hu]; [reflexivity|]).
    by apply elem_of_nil in Hu. }
  split; [vm_compute; reflexivity|]. split; [reflexivity|]. split; [exact Hext|].
  split; [vm_compute; reflexivity|]. split; [vm_compute; reflexivity|].
  apply (forward_reads_input_positions two_outputs two_store
           (Model.node_store two_model) [2; 3] "he" two_op
           (Op.set_parameters two_op [[5; -1]; [2; 0]]%Z [1; -3]%Z)
           (Op.set_parameters two_op [[5; -1]; [2; 0]]%Z [1; -3]%Z)
           [[5; -1]; [2; 0]]%Z [1; -3]%Z [[0; 3; 4; 0; 0]]%Z [[0; 3; 4; 8; 9]]%Z).
  - vm_compute; reflexivity.
  - reflexivity.
  - exact Hext.
  - vm_compute; reflexivity.
  - vm_compute; reflexivity.
Defined.

(** ** [Model.forward] *)

(** Property X15. The cached tape never leaks into a pass. For a model
    built by [Model.__init__], in any later state: a pass that returns can
    be repeated on the model it leaves, with the same output and the same
    model; and the pass gives the same on the model without its cached
    tape and on the model with any other cached tape of its tape
    length. *)
Theorem forward_cache_irrelevant {R : Type} `{Numeric R} `{Catalog R}
    (fuel : nat) (g : Graph) (ini : string) (m0 m m' : Model.t R)
    (x out : Tensor R) :
  Model.init fuel g ini = Some (Ok m0) → evolves m0 m →
  Model.forward m x = Ok (out, m') →
  Model.forward m' x = Ok (out, m') ∧
  Model.forward (Model.set_tape m None) x = Ok (out, m') ∧
  ∀ c, Forall (λ row, length row = Model.tape_size m) c →
       Model.forward (Model.set_tape m (Some c)) x = Ok (out, m').
Proof.
  intros Hinit Hev Hfw.
  destruct (init_model_ok _ _ _ _ Hinit) as (Hok0 & _).
  destruct (evolves_model_ok _ _ Hev Hok0) as [Hok _].
  destruct (forward_repeat _ _ _ _ Hok Hfw) as [Hrep Hnone].
  split; [done|]. split; [done|]. intros c Hc.
  destruct Hok as (_ & _ & _ & _ & Hcache & _).
  rewrite forward_set_tape; [done|done|]. by intros tp [= <-].
Qed.

Lemma forward_cache_irrelevant_witness :
  Model.init 1 two_outputs "he" = Some (Ok two_model) ∧ evolves two_model two_model ∧
  Model.forward two_model two_input = Ok (pass two_model two_input) ∧
  Model.forward (pass two_model two_input).2 two_input = Ok (pass two_model two_input) ∧
  Model.forward (Model.set_tape two_model None) two_input
  = Ok (pass two_model two_input) ∧
  ∀ c, Forall (λ row, length row = Model.tape_size two_model) c →
       Model.forward (Model.set_tape two_model (Some c)) two_input
       = Ok (pass two_model two_input).
Proof.
  split; [vm_compute; reflexivity|]. split; [constructor|].
  split; [vm_compute; reflexivity|].
  apply (forward_cache_irrelevant 1 two_outputs "he" two_model two_model
           (pass two_model two_input).2 two_input (pass two_model two_input).1).
  - vm_compute; reflexivity.
  - constructor.
  - vm_compute; reflexivity.
Defined.

(** Property X16. A pass leaves the batch on the tape: for a model built
    by [Model.__init__], in any later state, and a batch with [input_size]
    columns, the tape the pass caches has one row per sample, and position
    [1 + q] of that row holds entry [q] of the sample. No operation
    overwrites an input. *)
Theorem forward_keeps_inputs {R : Type} `{Numeric R} `{Catalog R}
    (fuel : nat) (g : Graph) (ini : string) (m0 m m' : Model.t R)
    (x out : Tensor R) (b : nat) :
  Model.init fuel g ini = Some (Ok m0) → evolves m0 m →
  shape x = [b; Model.input_size m] →
  Model.forward m x = Ok (out, m') →
  ∃ tp, Model.tape m' = Some tp ∧ length tp = b ∧
    ∀ s xrow row q v,
      Model.rows_of b (Model.input_size m) (data x) !! s = Some xrow →
      tp !! s = Some row → xrow !! q = Some v → row !! (1 + q) = Some v.
Proof. apply forward_inputs_kept. Qed.

Lemma forward_keeps_inputs_witness :
  Model.init 3 chain_graph "he" = Some (Ok chain_model) ∧
  evolves chain_model chain_model ∧
  shape chain_input = [2; Model.input_size chain_model] ∧
  Model.forward chain_model chain_input = Ok (pass chain_model chain_input) ∧
  ∃ tp, Model.tape (pass chain_model chain_input).2 = Some tp ∧ length tp = 2 ∧
    ∀ s xrow row q v,
      Model.rows_of 2 (Model.input_size chain_model) (data chain_input) !! s
        = Some xrow →
      tp !! s = Some row → xrow !! q = Some v → row !! (1 + q) = Some v.
Proof.
  split; [vm_compute; reflexivity|]. split; [constructor|].
  split; [reflexivity|]. split; [vm_compute; reflexivity|].
  apply (forward_keeps_inputs 3 chain_graph "he" chain_model chain_model
           (pass chain_model chain_input).2 chain_input
           (pass chain_model chain_input).1 2).
  - vm_compute; reflexivity.
  - constructor.
  - reflexivity.
  - vm_compute; reflexivity.
Defined.

Lemma chain_graph_activations : activations_known act chain_graph.
Proof.
  intros n Hn. simpl in Hn.
  repeat (apply elem_of_cons in Hn as [->|Hn]; [apply Z_catalog_has; simpl; auto|]).
  by apply elem_of_nil in Hn.
Qed.

(** Property X17. [Model.forward] computes the network. For a model built
    by [Model.__init__] from a graph without grouping tags that lists no
    node twice and has an output node, in any later state, with
    activations the catalog applies entrywise: a pass on a batch with
    [input_size] columns returns, and on every row of the tape it caches
    an input node holds its entry of the sample, every hidden and output
    node holds its activation applied to the sum, over the slots of its
    row of weights, of the value of the node read times the weight, plus
    its bias, and the output holds, column by column, the values of
    [self.outputs]. The weights of the row cover the node's inputs; the
    slots after them are padded and read the zero at tape position 0.
    The sum is the sum over the node's inputs alone when the products of
    zero with the padded weights are zero and adding zero leaves that
    sum as it is. *)
Theorem forward_network_function {R : Type} `{Numeric R} `{Catalog R}
    (φ : string → R → R) (fuel : nat) (g : Graph) (ini : string)
    (m0 m : Model.t R) (x : Tensor R) (bsz : nat) :
  untagged g → NoDup (input_nodes g ++ hidden_nodes g ++ output_nodes g) →
  output_nodes g ≠ [] → activations_known φ g →
  Model.init fuel g ini = Some (Ok m0) → evolves m0 m →
  shape x = [bsz; length (input_nodes g)] → well_formed x →
  ∃ out m' tp,
    Model.forward m x = Ok (out, m') ∧ Model.tape m' = Some tp ∧
    ∀ s xrow,
      Model.rows_of bsz (length (input_nodes g)) (data x) !! s = Some xrow →
      ∃ row, tp !! s = Some row ∧
        (∀ q p, input_nodes g !! q = Some p →
                node_reading m row p = default zero (xrow !! q)) ∧
        (∀ op r n, op ∈ Model.ops m → Op.nodes op !! r = Some n →
           ∃ ws bi, Op.weights op !! r = Some ws ∧ Op.bias op !! r = Some bi ∧
             length (inputs (node g n)) ≤ length ws ∧
             node_reading m row n
             = φ (activation (node g n))
                 (add (padded_sum (node_reading m row <$> inputs (node g n)) ws)
                      bi) ∧
             ((∀ w, w ∈ drop (length (inputs (node g n))) ws → mul zero w = zero) →
              (length (inputs (node g n)) < length ws →
               add (foldl add zero
                      (zip_with mul (node_reading m row <$> inputs (node g n)) ws))
                   zero
               = foldl add zero
                   (zip_with mul (node_reading m row <$> inputs (node g n)) ws)) →
              node_reading m row n
              = φ (activation (node g n))
                  (add (foldl add zero
                          (zip_with mul (node_reading m row <$> inputs (node g n)) ws))
                       bi))) ∧
        (∀ k o, Model.outputs m !! k = Some o →
                data out !! (s * length (output_nodes g) + k)
                = Some (node_reading m row o)).
Proof.
  intros Hun Hnd Hne Hact Hinit Hev Hsh Hwf.
  destruct (forward_network φ fuel g ini m0 m x bsz Hun Hnd Hne Hact Hinit Hev Hsh Hwf)
    as (out & m' & tp & Hfw & Htp & Hrows).
  exists out, m', tp. split; [done|]. split; [done|].
  intros s xrow Hx. destruct (Hrows s xrow Hx) as (row & Hr & Hin & Hop & Hout).
  exists row. split; [done|]. split_and!; [|clear Hin|done].
  - intros q p Hq. rewrite (Hin q p Hq). by rewrite list_lookup_total_alt.
  - intros op r n Hop' Hn.
    destruct (Hop op r n Hop' Hn) as (ws & bi & Hws & Hbi & Hle & Hval).
    exists ws, bi. split_and!; [done..|].
    intros Hmul Hadd. rewrite Hval. do 2 f_equal.
    apply padded_sum_own; [by rewrite length_fmap|by rewrite length_fmap|].
    by rewrite length_fmap.
Qed.

Lemma forward_network_function_witness :
  untagged chain_graph ∧
  NoDup (input_nodes chain_graph ++ hidden_nodes chain_graph ++ output_nodes chain_graph) ∧
  output_nodes chain_graph ≠ [] ∧ activations_known act chain_graph ∧
  Model.init 3 chain_graph "he" = Some (Ok chain_model) ∧
  evolves chain_model chain_model ∧
  shape chain_input = [2; length (input_nodes chain_graph)] ∧ well_formed chain_input ∧
  ∃ out m' tp,
    Model.forward chain_model chain_input = Ok (out, m') ∧ Model.tape m' = Some tp ∧
    ∀ s xrow,
      Model.rows_of 2 (length (input_nodes chain_graph)) (data chain_input) !! s
        = Some xrow →
      ∃ row, tp !! s = Some row ∧
        (∀ q p, input_nodes chain_graph !! q = Some p →
                node_reading chain_model row p = default zero (xrow !! q)) ∧
        (∀ op r n, op ∈ Model.ops chain_model → Op.nodes op !! r = Some n →
           ∃ ws bi, Op.weights op !! r = Some ws ∧ Op.bias op !! r = Some bi ∧
             length (inputs (node chain_graph n)) ≤ length ws ∧
             node_reading chain_model row n
             = act (activation (node chain_graph n))
                 (add (padded_sum
                         (node_reading chain_model row <$> inputs (node chain_graph n))
                         ws)
                      bi) ∧
             ((∀ w, w ∈ drop (length (inputs (node chain_graph n))) ws →
                    mul zero w = zero) →
              (length (inputs (node chain_graph n)) < length ws →
               add (foldl add zero
                      (zip_with mul
                         (node_reading chain_model row <$> inputs (node chain_graph n))
                         ws))
                   zero
               = foldl add zero
                   (zip_with mul
                      (node_reading chain_model row <$> inputs (node chain_graph n))
                      ws)) →
              node_reading chain_model row n
              = act (activation (node chain_graph n))
                  (add (foldl add zero
                          (zip_with mul
                             (node_reading chain_model row
                                <$> inputs (node chain_graph n))
                             ws))
                       bi))) ∧
        (∀ k o, Model.outputs chain_model !! k = Some o →
                data out !! (s * length (output_nodes chain_graph) + k)
                = Some (node_reading chain_model row o)).
Proof.
  split; [exact chain_graph_untagged|].
  split; [exact chain_graph_NoDup|]. split; [done|].
  split; [exact chain_graph_activations|].
  split; [vm_compute; reflexivity|]. split; [constructor|].
  split; [reflexivity|]. split; [reflexivity|].
  apply (forward_network_function (H0:=Z_catalog) act 3 chain_graph "he"
           chain_model chain_model chain_input 2).
  - exact chain_graph_untagged.
  - exact chain_graph_NoDup.
  - done.
  - exact chain_graph_activations.
  - vm_compute; reflexivity.
  - constructor.
  - reflexivity.
  - reflexivity.
Defined.

(** ** [Model.compile] and [Model.fit] *)

Section compiled.
Context {R : Type} `{Numeric R} `{Catalog R}.

Lemma compile_optimizer (m m' : Model.t R) (opt name : string) :
  opt = "adam" ∨ opt = "sgd" → Model.compile m opt name = Ok m' →
  ∃ o, Model.optimizer m' = Some o.
Proof.
  unfold Model.compile, Model.new_optimizer.
  intros [-> | ->]; repeat (case_decide; simpl); intros [= <-]; eauto; done.
Qed.

Lemma compile_unknown_loss (m m' : Model.t R) (opt name : string) :
  name ≠ "mse" → name ≠ "crossentropy" → Model.compile m opt name = Ok m' →
  Model.loss_function m' = Model.loss_function m ∧
  Model.input_size m' = Model.input_size m.
Proof.
  intros Hm Hc. unfold Model.compile, Model.new_optimizer.
  repeat (case_decide; simpl); intros [= <-]; done.
Qed.
End compiled.

(** Property X18. [fit] on fewer samples than one batch raises
    [ZeroDivisionError]. For a compiled model and a batch with
    [input_size] columns: with [batch_size = 0] the count of batches
    divides by zero; with fewer rows than [batch_size] and at least one
    epoch, the first epoch runs no batch and then divides its loss by the
    zero count of batches. The default [batch_size] is 32. *)
Theorem fit_zero_division {R : Type} `{Numeric R} `{Catalog R}
    (target_rows : Tensor R → nat → nat → result (Tensor R))
    (loss_value : LossFunction → Tensor R → Tensor R → result R)
    (optimizer_step :
       Optimizer → nat → nat → Model.t R → Tensor R → Tensor R → list (Op.t R))
    (m : Model.t R) (X_tr y_tr : Tensor R) (epochs batch_size n : nat)
    (o : Optimizer) :
  Model.optimizer m = Some o → shape X_tr = [n; Model.input_size m] →
  batch_size = 0 ∨ (n < batch_size ∧ 0 < epochs) →
  Fit.fit target_rows loss_value optimizer_step m X_tr y_tr epochs batch_size
  = Fit.Failed Fit.ZeroDivisionError.
Proof. apply fit_divides_by_zero. Qed.

Lemma fit_zero_division_witness :
  Model.optimizer (compiled two_model "adam" "mse") = Some Adam ∧
  shape samples = [3; Model.input_size (compiled two_model "adam" "mse")] ∧
  (32 = 0 ∨ (3 < 32 ∧ 0 < 1)) ∧
  Fit.fit targets no_loss no_step (compiled two_model "adam" "mse")
    samples labels 1 32
  = Fit.Failed Fit.ZeroDivisionError.
Proof.
  split; [reflexivity|]. split; [reflexivity|]. split; [right; lia|].
  apply (fit_zero_division targets no_loss no_step
           (compiled two_model "adam" "mse") samples labels 1 32 3 Adam).
  - reflexivity.
  - reflexivity.
  - right. lia.
Defined.

(** Property X19. [fit] never looks at the samples after the last full
    batch. Two training sets of the same shape that agree on the first
    [len(X_tr) // batch_size * batch_size] rows give the same call of
    [fit], whatever the loss and the optimizer do. *)
Theorem fit_ignores_remainder {R : Type} `{Numeric R} `{Catalog R}
    (target_rows : Tensor R → nat → nat → result (Tensor R))
    (loss_value : LossFunction → Tensor R → Tensor R → result R)
    (optimizer_step :
       Optimizer → nat → nat → Model.t R → Tensor R → Tensor R → list (Op.t R))
    (m : Model.t R) (X_tr X_tr' y_tr : Tensor R) (epochs batch_size n c : nat) :
  shape X_tr = [n; c] → shape X_tr' = [n; c] →
  take (n / batch_size * batch_size * c) (data X_tr)
  = take (n / batch_size * batch_size * c) (data X_tr') →
  Fit.fit target_rows loss_value optimizer_step m X_tr y_tr epochs batch_size
  = Fit.fit target_rows loss_value optimizer_step m X_tr' y_tr epochs batch_size.
Proof. apply fit_remainder. Qed.

Lemma fit_ignores_remainder_witness :
  shape samples = [3; 2] ∧ shape samples' = [3; 2] ∧
  take (3 / 2 * 2 * 2) (data samples) = take (3 / 2 * 2 * 2) (data samples') ∧
  Fit.fit targets no_loss no_step (compiled two_model "adam" "mse")
    samples labels 1 2
  = Fit.fit targets no_loss no_step (compiled two_model "adam" "mse")
      samples' labels 1 2.
Proof.
  split; [reflexivity|]. split; [reflexivity|]. split; [reflexivity|].
  apply (fit_ignores_remainder targets no_loss no_step
           (compiled two_model "adam" "mse") samples samples' labels 1 2 3 2).
  - reflexivity.
  - reflexivity.
  - reflexivity.
Defined.

(** Property X20. [compile] accepts a loss name it does not know, and
    [fit] fails for it. For a model built by [Model.__init__] on which
    [compile] with optimizer ["adam"] or ["sgd"] and a loss name other
    than ["mse"] and ["crossentropy"] has returned: the loss function is
    still [None], and when the training set holds at least one full batch
    and the pass and the selection of targets of the first batch return,
    [fit] raises [TypeError], the call of that [None]. *)
Theorem fit_without_loss_function {R : Type} `{Numeric R} `{Catalog R}
    (target_rows : Tensor R → nat → nat → result (Tensor R))
    (loss_value : LossFunction → Tensor R → Tensor R → result R)
    (optimizer_step :
       Optimizer → nat → nat → Model.t R → Tensor R → Tensor R → list (Op.t R))
    (fuel : nat) (g : Graph) (ini opt name : string) (m0 m m1 : Model.t R)
    (X_tr y_tr out t : Tensor R) (epochs batch_size n : nat) :
  Model.init fuel g ini = Some (Ok m0) →
  opt = "adam" ∨ opt = "sgd" → name ≠ "mse" → name ≠ "crossentropy" →
  Model.compile m0 opt name = Ok m →
  shape X_tr = [n; length (input_nodes g)] →
  0 < batch_size → batch_size ≤ n → 0 < epochs →
  Model.forward m (Fit.select_rows X_tr 0 batch_size) = Ok (out, m1) →
  target_rows y_tr 0 batch_size = Ok t →
  Model.loss_function m = None ∧
  Fit.fit target_rows loss_value optimizer_step m X_tr y_tr epochs batch_size
  = Fit.Failed (Fit.Raised TypeError).
Proof.
  intros Hinit Hopt Hm Hc Hcomp Hx Hbs Hn He Hfw Hy.
  destruct (init_model_ok _ _ _ _ Hinit) as (_ & _ & _ & _ & Hl & His & _).
  destruct (compile_optimizer m0 m opt name Hopt Hcomp) as [o Ho].
  destruct (compile_unknown_loss m0 m opt name Hm Hc Hcomp) as [Hl' His'].
  split; [by rewrite Hl'|].
  eapply (fit_without_loss target_rows loss_value optimizer_step
            m m1 X_tr y_tr out t epochs batch_size n o);
    try done.
  - by rewrite Hl'.
  - by rewrite His', His.
Qed.

Lemma fit_without_loss_function_witness :
  Model.init 1 two_outputs "he" = Some (Ok two_model) ∧
  ("adam" = "adam" ∨ "adam" = "sgd") ∧ "huber" ≠ "mse" ∧ "huber" ≠ "crossentropy" ∧
  Model.compile two_model "adam" "huber" = Ok (compiled two_model "adam" "huber") ∧
  shape samples = [3; length (input_nodes two_outputs)] ∧
  0 < 2 ∧ 2 ≤ 3 ∧ 0 < 1 ∧
  Model.forward (compiled two_model "adam" "huber") (Fit.select_rows samples 0 2)
  = Ok (pass (compiled two_model "adam" "huber") (Fit.select_rows samples 0 2)) ∧
  targets labels 0 2 = Ok labels ∧
  Model.loss_function (compiled two_model "adam" "huber") = None ∧
  Fit.fit targets no_loss no_step (compiled two_model "adam" "huber")
    samples labels 1 2
  = Fit.Failed (Fit.Raised TypeError).
Proof.
  split; [vm_compute; reflexivity|]. split; [by left|].
  split; [discriminate|]. split; [discriminate|].
  split; [vm_compute; reflexivity|]. split; [reflexivity|].
  split; [lia|]. split; [lia|]. split; [lia|].
  split; [vm_compute; reflexivity|]. split; [reflexivity|].
  apply (fit_without_loss_function targets no_loss no_step 1 two_outputs "he"
           "adam" "huber" two_model (compiled two_model "adam" "huber")
           (pass (compiled two_model "adam" "huber")
                 (Fit.select_rows samples 0 2)).2
           samples labels
           (pass (compiled two_model "adam" "huber")
                 (Fit.select_rows samples 0 2)).1
           labels 1 2 3).
  - vm_compute; reflexivity.
  - by left.
  - discriminate.
  - discriminate.
  - vm_compute; reflexivity.
  - reflexivity.
  - lia.
  - lia.
  - lia.
  - vm_compute; reflexivity.
  - reflexivity.
Defined.

Lemma no_step_keeps_shape (fuel : nat) (g : Graph) (ini : string) (m0 : Model.t Z) :
  Model.init fuel g ini = Some (Ok m0) →
  ∀ o e b m1 x y, evolves m0 m1 →
    Forall2 (λ op op', ∃ w bi, op' = Op.set_parameters op w bi ∧ shaped op')
            (Model.ops m1) (no_step o e b m1 x y).
Proof.
  intros Hinit o e b m1 x y Hev. unfold no_step.
  destruct (init_model_ok _ _ _ _ Hinit) as (Hok0 & _).
  destruct (evolves_model_ok _ _ Hev Hok0) as [(_ & Hops & _) _].
  apply Forall_Forall2_diag. eapply Forall_impl; [exact Hops|].
  intros op (_ & Hsh & _). exists (Op.weights op), (Op.bias op).
  split; [apply set_parameters_self|done].
Qed.

(** Property X21. Training changes parameter values only. For a model
    built by [Model.__init__], in any later state, with an optimizer
    whose step gives the parameters of every operation new values of the
    same shape: a call of [fit] that returns leaves a later state of the
    same model, with the nodes, the tape layout, the index tensors of
    every operation and the output order as [__init__] set them, and no
    cached tape. *)
Theorem fit_keeps_structure {R : Type} `{Numeric R} `{Catalog R}
    (target_rows : Tensor R → nat → nat → result (Tensor R))
    (loss_value : LossFunction → Tensor R → Tensor R → result R)
    (optimizer_step :
       Optimizer → nat → nat → Model.t R → Tensor R → Tensor R → list (Op.t R))
    (fuel : nat) (g : Graph) (ini : string) (m0 m m' : Model.t R)
    (X_tr y_tr : Tensor R) (epochs batch_size : nat) :
  Model.init fuel g ini = Some (Ok m0) →
  (∀ o e b m1 x y, evolves m0 m1 →
     Forall2 (λ op op', ∃ w bi, op' = Op.set_parameters op w bi ∧ shaped op')
             (Model.ops m1) (optimizer_step o e b m1 x y)) →
  evolves m0 m →
  Fit.fit target_rows loss_value optimizer_step m X_tr y_tr epochs batch_size
  = Fit.Done m' →
  evolves m0 m' ∧ same_frame m0 m' ∧ Model.tape m' = None.
Proof.
  intros Hinit Hstep Hev Hfit.
  destruct (fit_evolves target_rows loss_value optimizer_step m0 m m' X_tr y_tr
              epochs batch_size Hstep Hev Hfit) as [Hev' Htape].
  destruct (init_model_ok _ _ _ _ Hinit) as (Hok0 & _).
  destruct (evolves_model_ok _ _ Hev' Hok0) as [_ Hframe]. done.
Qed.

Lemma fit_keeps_structure_witness :
  Model.init 1 two_outputs "he" = Some (Ok two_model) ∧
  (∀ o e b m1 x y, evolves two_model m1 →
     Forall2 (λ op op', ∃ w bi, op' = Op.set_parameters op w bi ∧ shaped op')
             (Model.ops m1) (no_step o e b m1 x y)) ∧
  evolves two_model (compiled two_model "adam" "mse") ∧
  Fit.fit targets no_loss no_step (compiled two_model "adam" "mse")
    samples labels 2 1
  = Fit.Done (trained (compiled two_model "adam" "mse") samples labels 2 1) ∧
  evolves two_model (trained (compiled two_model "adam" "mse") samples labels 2 1) ∧
  same_frame two_model
    (trained (compiled two_model "adam" "mse") samples labels 2 1) ∧
  Model.tape (trained (compiled two_model "adam" "mse") samples labels 2 1) = None.
Proof.
  assert (Model.init 1 two_outputs "he" = Some (Ok two_model)) as Hinit
    by (vm_compute; reflexivity).
  split; [exact Hinit|].
  split; [exact (no_step_keeps_shape 1 two_outputs "he" two_model Hinit)|].
  split; [apply (evolves_compile _ two_model "adam" "mse"); [constructor|reflexivity]|].
  split; [vm_compute; reflexivity|].
  apply (fit_keeps_structure targets no_loss no_step 1 two_outputs "he" two_model
           (compiled two_model "adam" "mse")
           (trained (compiled two_model "adam" "mse") samples labels 2 1)
           samples labels 2 1).
  - exact Hinit.
  - exact (no_step_keeps_shape 1 two_outputs "he" two_model Hinit).
  - apply (evolves_compile _ two_model "adam" "mse"); [constructor|reflexivity].
  - vm_compute; reflexivity.
Defined.
